(* ===== verification/_CoqProject ===== *)
-Q . S2P
Prelude.v
GoStd.v
Deps.v
Protocol.v
Env.v
Tree.v
Store.v
Conc.v
SharedKey.v
StoreConc.v
StoreRaces.v
RawMessage.v
Server.v
ServerConc.v
Rest.v
WaitingMessage.v
ServerPool.v
Client.v
Cmd.v
System.v
