(* ===== verification/Prelude.v ===== *)
(** * Dracula: an in-memory expirable key counter

    Dracula counts how often a key of a namespace was put within the last
    seconds. A client sends 1500-byte datagrams to a server, which keeps the
    expiry time of each put in a sorted map per namespace, answers counts, and
    repeats every put to its peers. This library models the Go program under
    [src/] and proves what it computes.

    ** The parts and the files

    - [Prelude.v] (this file): bytes, the notations, the panic result [go],
      and lemmas on lists, options and integers.
    - [GoStd.v]: the functions of Go's standard library the source calls:
      [strings], [bytes], [strconv], [encoding/binary], [net].
    - [Deps.v]: the third-party libraries as classes of operations ([XXHash],
      [RedBlackTree], [HashMap], [Regexp]) with their documented behaviour as
      classes of laws; its module [Concrete] has an instance of each.
    - [Env.v]: the state monad [M], the monad with panics [G], and what the
      environment decides: [Clock], the order of map keys, [Network], [Rand].
    - [Protocol.v]: [src/protocol/protocol.go].
    - [Tree.v]: [src/store/tree/tree.go]. [Store.v]: [src/store/store.go].
    - [Conc.v]: programs of atomic steps, threads that interleave them (a step
      relation), the class [Programs] of what a call runs, and a
      rely-guarantee logic [safe] for them.
    - [SharedKey.v]: the hashing of [protocol.go] again, as programs on the
      array of the key that all goroutines pass.
    - [StoreConc.v]: the operations of [store.go] again, as programs whose
      steps are their critical sections. [StoreRaces.v]: what concurrent calls
      can and cannot do to the counts.
    - [RawMessage.v]: [src/server/rawmessage/rawmessage.go].
    - [Server.v]: [src/server/server.go]. [Rest.v]: [src/server/restserver.go].
    - [ServerConc.v]: the workers of [server.go] again, as programs that share
      the store and the sockets, their reduction to [StoreConc.v], and what
      they send.
    - [WaitingMessage.v]: [src/client/waitingmessage/waitingmessage.go].
    - [ServerPool.v]: [src/client/serverpool/serverpool.go].
    - [Client.v]: [src/client/client.go].
    - [Cmd.v]: [src/cmd/cli/main.go] and [src/cmd/server/main.go].
    - [System.v]: the client, a server and its peers put together.

    The store calls the tree; the server and its HTTP handlers call the store
    and the protocol; the server's worker takes the messages that the framing
    of [RawMessage.v] makes; the client calls the protocol, the cache of
    waiting requests and the pool, which asks the client for health checks
    through the class [Healthchecker]. Each file has the operations of one Go
    file under their Go names, then its theorems, then a module [<File>Witness]
    in which the theorems are applied to concrete inputs.

    Files on one Go file at two levels are related by lemmas: a program run
    alone is the operation ([StoreConc.alone_store_program]) or the worker
    ([ServerConc.agrees_worker]). [ServerConc.workers_are_store_calls] takes
    an interleaving of workers to one of store calls, and programs on the key
    array give what the pure functions give where they are not disturbed
    ([SharedKey.shared_key_is_harmless]).

    ** How the code is read

    A [string] and a byte slice are lists of bytes; [int], [int64] and [uint32]
    are [Z] with the wrap-around written out ([i64], [u32]). An [error] is an
    option of an enumerated type, [None] for nil. Code that can panic returns
    in [go] ([Ret] or [Panic]); code with state is in [M St], a function of
    the state and of the number of environment events so far; [G] has both.
    Reading the clock, asking a hash map for its keys, writing to a socket and
    drawing a random number are events: [clock i], [udp_write_ok i] and the
    like give the outcome of event [i] and are arbitrary but for the
    hypotheses of the classes [ClockMono] (the clock does not go back) and
    [ClockFits] (the clock and the time to live add up within [int64]).
    Goroutines: outside [SharedKey.v], [StoreConc.v], [StoreRaces.v] and
    [ServerConc.v], those that share a component run one after the other, in
    any order: an operation is a step, histories are lists of steps, and the
    theorems on histories quantify over all lists. In these four files they
    interleave: any number of calls is under way, and a step runs the next
    critical section (of the store), write (to a socket), or load or store of
    one byte (of the key) of any of them, or an event happens elsewhere.

    ** What is proved

    - The contract of the counter. [Tree.rep] and [Store.store_rep] relate a
      tree and a store to a log of puts with their expiry times; each operation
      is a refinement of its effect on the log: [Tree.Count_counts_recent_puts],
      [Store.Store_counts_recent_puts], [Server.worker_refines_put_log],
      [Server.worker_counts_accepted_puts], [Rest.restServer_put]. In the
      theorems on counts every put has its time, a reading of the clock during
      the put itself ([Tree.during], [put_spans] of the three files), so no
      later operation can extend or shorten its life.
      The garbage collector does not change what is counted
      ([Store.runCleanup_removes_dead_namespaces_only]).
    - Concurrency. No interleaving counts an entry that was not put
      ([StoreRaces.no_phantom_counts]), and puts to a known namespace are all
      kept while nothing is collected and no request for keys is handled
      ([ServerConc.workers_keep_known_puts]); without requests for keys,
      whatever interleaved workers send is warranted by a message, and no
      count they send overstates the puts
      ([ServerConc.workers_send_what_is_warranted]);
      two first puts can lose one though both are acknowledged
      ([ServerConc.acknowledged_put_is_lost]), the collector can lose a put
      ([StoreRaces.collection_loses_a_put]), and workers that share a short
      key can refuse authentic packets ([SharedKey.short_key_is_overwritten]).
    - The protocol. Parsing on every input, formatting, the round trip, and
      what authentication amounts to: the hash of a packet is a prefix of its
      own input, so it shows the key and protects nothing
      ([Protocol.Validate_checks_key_prefix_only],
      [Protocol.tampered_packet_authenticates]).
    - TCP framing. What is read back exactly, and what happens to short,
      unterminated and pipelined messages; the loop over a connection.
    - The server. Every command, errors, replication, construction, peers;
      errors between servers that never end.
    - The client. A call sends one datagram or returns an error; a response
      makes its call return; a call returns at most once; callbacks are
      conserved by the cache; the cleanup ends; TCP calls and their errors.
    - The composition. A count call returns the count the server's store
      represents, a put call stores its entry, a call for keys over TCP
      returns the keys the store matches, a put reaches every peer, a wrong
      key gives the error of the server ([System.v]).
    - The commands: what each flag combination does.

    ** Fuel and bounds

    Where the code loops until something happens, the fuel is a number of the
    state: [fill] reads at least one byte per round, and has the number of
    pending bytes plus one; [KeyMatch_loop] visits the keys of a tree, and has
    their number; [handleTCPConnection_loop] consumes a read per round, and
    has the number of reads plus one. The theorems state the result of the
    whole function, and [Server.handleTCPConnection_step] is the equation of
    the loop without fuel, so the fuel is enough. All other recursion is
    structural.

    ** What is not modelled

    Loggers, [fmt.Print] of debug output, the Prometheus HTTP endpoint (the
    gauges are modelled), flag parsing, the sockets themselves and the JSON
    text of HTTP responses (the value encoded is modelled). [Tree.KeyMatch]
    under a concurrent put, which iterates over the sorted map without its
    lock: what a racing iteration sees is not defined. Goroutines of the
    client's cache and pool interleave by whole operations only. The client's
    pool of TCP connections, its construction in [NewClient] and its emptying
    in [Close], is the parameter [TCPNet]: a connection per call, not reused.

    ** Plan

    Still to come: the client as an instance of [Healthchecker], so that the
    pool's rounds run its health checks (they are a parameter of
    [Client.Listen]); the parse of the server lists by [NewClient] and their
    round trip; [Clear] and its orphaned store; the list of namespaces end to
    end; requests over HTTP among the interleaved workers. *)
From Stdlib Require Import ZArith Lia Strings.Byte.
From stdpp Require Import base gmap list strings sorting.
From coqutil Require Import Byte LittleEndianList.

(** ** Bytes and strings

    A Go [string] and a Go [[]byte] are both a list of bytes: every
    conversion between the two in the source keeps the contents. *)

Abbreviation bytes := (list Corelib.Init.Byte.byte).

Local Open Scope Z_scope.

#[global] Instance byte_eq_dec : EqDecision Byte.byte := Byte.byte_eq_dec.

#[global] Instance byte_countable : Countable Byte.byte :=
  inj_countable Byte.to_N Byte.of_N Byte.of_to_N.

Lemma byte_eqb_eq a b : Byte.eqb a b = true ↔ a = b.
Proof. split; [apply Byte.byte_dec_bl | apply Byte.byte_dec_lb]. Qed.

Lemma byte_eqb_neq a b : Byte.eqb a b = false ↔ a ≠ b.
Proof. rewrite <- byte_eqb_eq. by destruct (Byte.eqb a b). Qed.

Lemma byte_eqb_refl a : Byte.eqb a a = true.
Proof. by apply byte_eqb_eq. Qed.

(** A string literal of the source as bytes. *)
Definition str (s : string) : bytes := String.list_byte_of_string s.

Declare Scope go_scope.
Delimit Scope go_scope with go.

(** [len x] is Go's [len]: an [int], which never exceeds [2^63-1]. *)
Definition len {A} (l : list A) : Z := Z.of_nat (length l).

Notation "a '=b' b" := (Byte.eqb a b) (at level 70) : go_scope.

(** ** Panics

    A Go function either returns or panics. *)

Inductive go (A : Type) : Type :=
  | Ret (a : A)
  | Panic.
Arguments Ret {A} a.
Arguments Panic {A}.

#[global] Instance go_ret : MRet go := @Ret.
#[global] Instance go_bind : MBind go := λ A B f m,
  match m with Ret a => f a | Panic => Panic end.

(** The outcome is a value, not a panic. *)
Definition returns {A} (m : go A) : Prop := ∃ a, m = Ret a.

Lemma go_bind_Ret {A B} (a : A) (f : A → go B) : (x ← Ret a; f x) = f a.
Proof. reflexivity. Qed.

Lemma go_bind_inv {A B} (m : go A) (f : A → go B) b :
  (x ← m; f x) = Ret b → ∃ a, m = Ret a ∧ f a = Ret b.
Proof. destruct m as [a|]; simpl; [eauto | discriminate]. Qed.

(** [l[i]], which panics when [i] is out of range. *)
Definition index {A} (l : list A) (i : Z) : go A :=
  if i <? 0 then Panic
  else match l !! Z.to_nat i with Some a => Ret a | None => Panic end.

(** [l[lo:hi]] for [hi] at most [len(l)]: every slice expression of the
    source has such a [hi], or a negative one, which panics. *)
Definition slice {A} (l : list A) (lo hi : Z) : go (list A) :=
  if (0 <=? lo) && (lo <=? hi) && (hi <=? len l)
  then Ret (take (Z.to_nat (hi - lo)) (drop (Z.to_nat lo) l))
  else Panic.

(** ** Machine integers *)

Definition u32 (z : Z) : Z := z mod 2 ^ 32.
Definition u64 (z : Z) : Z := z mod 2 ^ 64.
(** Two's complement wrap-around of [int64]. *)
Definition i64 (z : Z) : Z := (z + 2 ^ 63) mod 2 ^ 64 - 2 ^ 63.
Definition MaxUint32 : Z := 2 ^ 32 - 1.

Lemma i64_small z : - 2 ^ 63 <= z < 2 ^ 63 → i64 z = z.
Proof. intros H. unfold i64. rewrite Z.mod_small; lia. Qed.

Lemma i64_range z : - 2 ^ 63 <= i64 z < 2 ^ 63.
Proof.
  unfold i64. pose proof (Z.mod_pos_bound (z + 2 ^ 63) (2 ^ 64) ltac:(lia)). lia.
Qed.

Lemma u32_range z : 0 <= u32 z < 2 ^ 32.
Proof. unfold u32. apply Z.mod_pos_bound. lia. Qed.

Lemma u32_small z : 0 <= z < 2 ^ 32 → u32 z = z.
Proof. apply Z.mod_small. Qed.

(** ** Lists *)

Lemma len_app {A} (l1 l2 : list A) : len (l1 ++ l2) = (len l1 + len l2)%Z.
Proof. unfold len. rewrite length_app. lia. Qed.

Lemma len_nonneg {A} (l : list A) : (0 <= len l)%Z.
Proof. unfold len. lia. Qed.

Lemma len_cons {A} (a : A) l : len (a :: l) = (1 + len l)%Z.
Proof. unfold len. simpl. lia. Qed.

Lemma len_nil {A} : len (@nil A) = 0%Z.
Proof. reflexivity. Qed.

Lemma len_replicate {A} n (a : A) : len (replicate n a) = Z.of_nat n.
Proof. unfold len. by rewrite length_replicate. Qed.

Lemma slice_middle {A} (a b c : list A) :
  slice (a ++ b ++ c) (len a) (len a + len b) = Ret b.
Proof.
  unfold slice, len. rewrite !length_app.
  rewrite !(proj2 (Z.leb_le _ _)) by lia. simpl.
  replace (Z.to_nat (Z.of_nat (length a))) with (length a) by lia.
  rewrite drop_app_length.
  replace (Z.to_nat _) with (length b) by lia.
  by rewrite take_app_length.
Qed.

Lemma slice_at {A} (a b c l : list A) (lo hi : Z) :
  l = a ++ b ++ c → lo = len a → hi = (len a + len b)%Z → slice l lo hi = Ret b.
Proof. intros -> -> ->. apply slice_middle. Qed.

Lemma index_at {A} (a c : list A) (b : A) l (i : Z) :
  l = a ++ b :: c → i = len a → index l i = Ret b.
Proof.
  intros -> ->. unfold index, len.
  rewrite (proj2 (Z.ltb_ge _ _)) by lia.
  replace (Z.to_nat _) with (length a) by lia.
  by rewrite list_lookup_middle.
Qed.

Lemma filter_all {A} (P : A → Prop) `{!∀ x, Decision (P x)} (l : list A) :
  (∀ x, x ∈ l → P x) → filter P l = l.
Proof.
  induction l as [|x l IH]; intros Hl; [done|].
  rewrite filter_cons, decide_True by (apply Hl; left). f_equal. apply IH. intros y Hy.
  apply Hl. by right.
Qed.

Lemma sublist_map {A B} (f : A → B) (l1 l2 : list A) :
  l1 `sublist_of` l2 → f <$> l1 `sublist_of` f <$> l2.
Proof. induction 1; [constructor | by apply sublist_skip | by apply sublist_cons]. Qed.

(** ** Sums *)

Definition sum (cs : list Z) : Z := foldr Z.add 0 cs.

Lemma sum_cons c cs : sum (c :: cs) = c + sum cs.
Proof. reflexivity. Qed.

Lemma sum_fmap_add {A} (f g : A → Z) l :
  sum ((λ x, f x + g x) <$> l) = sum (f <$> l) + sum (g <$> l).
Proof. induction l as [|a l IH]; [done|]. rewrite !fmap_cons, !sum_cons. lia. Qed.

Lemma sum_fmap_le {A} (f g : A → Z) l :
  (∀ x, f x <= g x) → sum (f <$> l) <= sum (g <$> l).
Proof.
  intros H. induction l as [|a l IH]; [done|]. rewrite !fmap_cons, !sum_cons.
  specialize (H a). lia.
Qed.

(** A key outside a duplicate-free list contributes nothing. *)
Lemma sum_indicator {K} `{EqDecision K} (ks : list K) k (P : Prop) `{!Decision P} :
  NoDup ks →
  sum ((λ k', if decide (k = k' ∧ P) then 1 else 0) <$> ks)
  = if decide (k ∈ ks ∧ P) then 1 else 0.
Proof.
  induction 1 as [|k' ks Hk' Hnd IH].
  - rewrite decide_False; [done|]. intros [H _]. by apply elem_of_nil in H.
  - rewrite fmap_cons, sum_cons, IH. destruct (decide (k = k')) as [->|Hne].
    + destruct (decide P) as [HP|HP].
      * rewrite (decide_False (P := k' ∈ ks ∧ P)) by tauto.
        by rewrite !decide_True by (rewrite ?elem_of_cons; auto).
      * by rewrite !decide_False by tauto.
    + rewrite decide_False by tauto.
      destruct (decide (k ∈ ks ∧ P)); [rewrite decide_True | rewrite decide_False];
        rewrite ?elem_of_cons; tauto || done.
Qed.

(** Counting class by class: over duplicate-free classes that include the
    class of every counted element, the counts add up to the whole count. *)
Lemma sum_partition {A K} `{EqDecision K} (f : A → K) (P : A → Prop)
    `{!∀ x, Decision (P x)} (ks : list K) (l : list A) :
  NoDup ks → (∀ x, x ∈ l → P x → f x ∈ ks) →
  sum ((λ k, len (filter (λ x, f x = k ∧ P x) l)) <$> ks) = len (filter P l).
Proof.
  intros Hnd. induction l as [|x l IH]; intros Hin.
  - clear Hin. induction Hnd as [|k ks _ _ IHk]; [done|]. rewrite fmap_cons, sum_cons, IHk. done.
  - erewrite (list_fmap_ext _ (λ k, (if decide (f x = k ∧ P x) then 1 else 0)
                                     + len (filter (λ x, f x = k ∧ P x) l))).
    + rewrite sum_fmap_add, sum_indicator by done.
      rewrite IH by (intros y Hy; apply Hin; by right).
      rewrite filter_cons. destruct (decide (P x)) as [HP|HP].
      * rewrite decide_True, len_cons; [done|]. split; [|done]. apply Hin; [left|done].
      * by rewrite decide_False by tauto.
    + intros i k _. rewrite filter_cons. case_decide; [by rewrite len_cons | done].
Qed.
