(* ===== verification/GoStd.v ===== *)
(** * The Go standard library functions the source calls

    Executable models of the functions of [strings], [bytes], [strconv],
    [encoding/binary] and [net] the program uses, with the facts about them
    that the components share.

    - [strings.TrimSpace] (and [TrimLeftFunc]/[TrimRightFunc] with
      [unicode.IsSpace]) strips whole UTF-8 encodings of white space runes.
      UTF-8 is self-synchronising, so a text starts (ends) with a white space
      rune exactly when it starts (ends) with one of the encodings listed in
      [space_runes].
    - [strings.Split] and [strings.Join] with a one-byte separator,
      [strings.Trim] with an ASCII cutset.
    - [strconv.Atoi] with its 64-bit range check, [net.ParseIP] on a text
      without a colon (every call of the source passes a part of a text that
      was split at its colons).
    - [binary.LittleEndian], on coqutil's little-endian lists. *)
From Stdlib Require Import ZArith Lia Strings.Byte Wf_nat.
From stdpp Require Import base gmap list strings pretty.
From coqutil Require Import Byte LittleEndianList.
From S2P Require Import Prelude.
Local Open Scope Z_scope.
Local Open Scope go_scope.

(** ** encoding/binary *)

(** [binary.LittleEndian.Uint32(b)] reads [b[0..3]] and panics on a shorter
    slice; a longer slice is allowed. *)
Definition LittleEndian_Uint32 (b : bytes) : go Z :=
  if len b <? 4 then Panic else Ret (le_combine (take 4 b)).

Definition LittleEndian_Uint64 (b : bytes) : go Z :=
  if len b <? 8 then Panic else Ret (le_combine (take 8 b)).

Lemma LittleEndian_Uint32_app b c :
  length b = 4%nat → LittleEndian_Uint32 (b ++ c) = Ret (le_combine b).
Proof.
  intros H. unfold LittleEndian_Uint32. rewrite len_app. pose proof (len_nonneg c).
  rewrite (proj2 (Z.ltb_ge _ _)) by (unfold len in *; lia).
  by rewrite take_app_length'.
Qed.

Lemma LittleEndian_Uint64_app b c :
  length b = 8%nat → LittleEndian_Uint64 (b ++ c) = Ret (le_combine b).
Proof.
  intros H. unfold LittleEndian_Uint64. rewrite len_app. pose proof (len_nonneg c).
  rewrite (proj2 (Z.ltb_ge _ _)) by (unfold len in *; lia).
  by rewrite take_app_length'.
Qed.

Lemma LittleEndian_Uint32_exact b :
  length b = 4%nat → LittleEndian_Uint32 b = Ret (le_combine b).
Proof. intros H. rewrite <- (app_nil_r b) at 1. by apply LittleEndian_Uint32_app. Qed.

Lemma LittleEndian_Uint64_exact b :
  length b = 8%nat → LittleEndian_Uint64 b = Ret (le_combine b).
Proof. intros H. rewrite <- (app_nil_r b) at 1. by apply LittleEndian_Uint64_app. Qed.

(** ** Trimming *)

(** [strip_prefix e l] is the rest of [l] after the prefix [e]. *)
Fixpoint strip_prefix (e l : bytes) : option bytes :=
  match e with
  | [] => Some l
  | x :: e' =>
      match l with
      | y :: l' => if x =b y then strip_prefix e' l' else None
      | [] => None
      end
  end.

Fixpoint strip_any (encs : list bytes) (l : bytes) : option bytes :=
  match encs with
  | [] => None
  | e :: encs' =>
      match strip_prefix e l with
      | Some r => Some r
      | None => strip_any encs' l
      end
  end.

(** Strip encodings from the front as long as there is one. *)
Fixpoint trim_front (encs : list bytes) (fuel : nat) (l : bytes) : bytes :=
  match fuel with
  | O => l
  | S fuel' =>
      match strip_any encs l with
      | Some r => trim_front encs fuel' r
      | None => l
      end
  end.

(** The runes of [unicode.IsSpace] in UTF-8: U+0009..U+000D, U+0020, U+0085,
    U+00A0, U+1680, U+2000..U+200A, U+2028, U+2029, U+202F, U+205F, U+3000. *)
Definition space_runes : list bytes :=
  [ [x09]; [x0a]; [x0b]; [x0c]; [x0d]; [x20]; [xc2; x85]; [xc2; xa0];
    [xe1; x9a; x80];
    [xe2; x80; x80]; [xe2; x80; x81]; [xe2; x80; x82]; [xe2; x80; x83];
    [xe2; x80; x84]; [xe2; x80; x85]; [xe2; x80; x86]; [xe2; x80; x87];
    [xe2; x80; x88]; [xe2; x80; x89]; [xe2; x80; x8a];
    [xe2; x80; xa8]; [xe2; x80; xa9]; [xe2; x80; xaf]; [xe2; x81; x9f];
    [xe3; x80; x80] ].

(** [bytes.TrimLeftFunc(l, unicode.IsSpace)] *)
Definition TrimLeftSpace (l : bytes) : bytes := trim_front space_runes (length l) l.

(** [bytes.TrimRightFunc(l, unicode.IsSpace)] *)
Definition TrimRightSpace (l : bytes) : bytes :=
  reverse (trim_front (reverse <$> space_runes) (length (reverse l)) (reverse l)).

(** [strings.TrimSpace], [bytes.TrimSpace] *)
Definition TrimSpace (l : bytes) : bytes := TrimRightSpace (TrimLeftSpace l).

(** [strings.Trim(l, cutset)] for an ASCII cutset *)
Definition Trim (l cutset : bytes) : bytes :=
  let encs := (λ c, [c]) <$> cutset in
  let l' := trim_front encs (length l) l in
  reverse (trim_front encs (length (reverse l')) (reverse l')).

Example TrimSpace_ascii : TrimSpace (str "  a b ") = str "a b".
Proof. reflexivity. Qed.
Example TrimSpace_nbsp : TrimSpace [xc2; xa0; x61; xe3; x80; x80; x20] = [x61].
Proof. reflexivity. Qed.
Example TrimSpace_nul : TrimSpace [x61; x00] = [x61; x00].
Proof. reflexivity. Qed.

(** *** Facts about trimming *)

Lemma strip_prefix_Some e l r : strip_prefix e l = Some r ↔ l = e ++ r.
Proof.
  revert l. induction e as [|x e IH]; intros [|y l]; simpl.
  - split; congruence.
  - split; congruence.
  - split; [discriminate | intros H; destruct e; discriminate].
  - destruct (Byte.eqb x y) eqn:E.
    + apply byte_eqb_eq in E as ->. rewrite IH. split; congruence.
    + apply byte_eqb_neq in E. split; [discriminate | congruence].
Qed.

Lemma strip_any_Some encs l r :
  strip_any encs l = Some r → ∃ e, e ∈ encs ∧ l = e ++ r.
Proof.
  induction encs as [|e encs IH]; simpl; [discriminate|].
  destruct (strip_prefix e l) as [r'|] eqn:E.
  - intros [= ->]. apply strip_prefix_Some in E. exists e. split; [left | done].
  - intros H. destruct (IH H) as (e' & He & ->). exists e'. split; [by right | done].
Qed.

Lemma strip_any_None encs l :
  strip_any encs l = None ↔ (∀ e r, e ∈ encs → l ≠ e ++ r).
Proof.
  induction encs as [|e encs IH]; simpl.
  - split; [intros _ e r H; by apply elem_of_nil in H | done].
  - destruct (strip_prefix e l) as [r|] eqn:E.
    + apply strip_prefix_Some in E. split; [discriminate|].
      intros H. by destruct (H e r (list_elem_of_here _ _)).
    + rewrite IH. split.
      * intros H e' r [->|He]%elem_of_cons; [|by apply H].
        intros Hl. apply strip_prefix_Some in Hl. congruence.
      * intros H e' r He. apply H. by right.
Qed.

(** A set of encodings is proper when none is empty: stripping then
    shortens the text, and the length is enough fuel. *)
Definition proper_encs (encs : list bytes) : Prop := Forall (λ e, e ≠ []) encs.

Lemma strip_any_length encs l r :
  proper_encs encs → strip_any encs l = Some r → (length r < length l)%nat.
Proof.
  intros Hp Hs. destruct (strip_any_Some _ _ _ Hs) as (e & He & ->).
  unfold proper_encs in Hp. rewrite Forall_forall in Hp. specialize (Hp e He).
  rewrite length_app. destruct e; [done | simpl; lia].
Qed.

Lemma trim_front_fuel encs f1 f2 l :
  proper_encs encs → (length l ≤ f1)%nat → (length l ≤ f2)%nat →
  trim_front encs f1 l = trim_front encs f2 l.
Proof.
  intros Hp. revert f2 l. induction f1 as [|f1 IH]; intros f2 l H1 H2.
  - destruct l; [|simpl in *; lia]. destruct f2; [done|]. simpl.
    destruct (strip_any encs []) as [r|] eqn:E; [|done].
    apply (strip_any_length _ _ _ Hp) in E. simpl in E. lia.
  - simpl. destruct (strip_any encs l) as [r|] eqn:E.
    + pose proof (strip_any_length _ _ _ Hp E).
      destruct f2 as [|f2]; [lia|]. simpl. rewrite E. apply IH; lia.
    + destruct f2; [done|]. simpl. by rewrite E.
Qed.

(** The unfolding equation of trimming, free of fuel. *)
Lemma trim_front_step encs l r :
  proper_encs encs → strip_any encs l = Some r →
  trim_front encs (length l) l = trim_front encs (length r) r.
Proof.
  intros Hp E. pose proof (strip_any_length _ _ _ Hp E).
  destruct (length l) as [|n] eqn:Hl; [lia|]. simpl. rewrite E.
  apply trim_front_fuel; [done | lia | lia].
Qed.

Lemma trim_front_stop encs f l : strip_any encs l = None → trim_front encs f l = l.
Proof. intros E. destruct f; [done|]. simpl. by rewrite E. Qed.

(** What is left starts with none of the encodings. *)
Lemma trim_front_stuck encs l :
  proper_encs encs → strip_any encs (trim_front encs (length l) l) = None.
Proof.
  intros Hp. induction l as [l IH] using (induction_ltof1 _ (@length _)).
  destruct (strip_any encs l) as [r|] eqn:E.
  - rewrite (trim_front_step _ _ _ Hp E). apply IH.
    red. by apply strip_any_length in E.
  - by rewrite trim_front_stop.
Qed.

Lemma trim_front_suffix encs f l : ∃ p, l = p ++ trim_front encs f l.
Proof.
  revert l. induction f as [|f IH]; intros l; simpl; [by exists []|].
  destruct (strip_any encs l) as [r|] eqn:E; [|by exists []].
  destruct (strip_any_Some _ _ _ E) as (e & _ & ->).
  destruct (IH r) as [p Hp]. exists (e ++ p). rewrite <- app_assoc. by rewrite <- Hp.
Qed.

Lemma trim_front_length encs f l : (length (trim_front encs f l) ≤ length l)%nat.
Proof.
  destruct (trim_front_suffix encs f l) as [p Hp]. rewrite Hp at 2.
  rewrite length_app. lia.
Qed.

Lemma space_runes_proper : proper_encs space_runes.
Proof. unfold space_runes. repeat constructor; discriminate. Qed.

Lemma space_runes_rev_proper : proper_encs (reverse <$> space_runes).
Proof. vm_compute. repeat constructor; discriminate. Qed.

#[export] Hint Resolve space_runes_proper space_runes_rev_proper : core.

(** Trailing ASCII spaces are trimmed from the right, all of them. *)
Lemma TrimRightSpace_pad l k : TrimRightSpace (l ++ replicate k x20) = TrimRightSpace l.
Proof.
  unfold TrimRightSpace. f_equal. induction k as [|k IH].
  - by rewrite app_nil_r.
  - rewrite replicate_S_end, app_assoc, reverse_app.
    erewrite trim_front_step; [exact IH | done | reflexivity].
Qed.

(** Padding a text with ASCII spaces on the right does not change what is
    trimmed from its left. *)
Lemma strip_prefix_pad e l k :
  x20 ∉ e → strip_prefix e (l ++ replicate k x20) = (λ r, r ++ replicate k x20) <$> strip_prefix e l.
Proof.
  revert l. induction e as [|x e IH]; intros [|y l] Hn; simpl; try done.
  - destruct k; simpl; [done|]. apply not_elem_of_cons in Hn as [Hn _].
    destruct (Byte.eqb x x20) eqn:E; [|done]. apply byte_eqb_eq in E. congruence.
  - apply not_elem_of_cons in Hn as [_ Hn].
    destruct (Byte.eqb x y); [by apply IH | done].
Qed.

Lemma strip_any_pad encs y l k :
  Forall (λ e, (x20 ∉ tail e) ∧ e ≠ []) encs →
  strip_any encs ((y :: l) ++ replicate k x20)
  = (λ r, r ++ replicate k x20) <$> strip_any encs (y :: l).
Proof.
  induction 1 as [|e encs [He1 He2] _ IH]; [done|].
  destruct e as [|x e]; [done|]. simpl in *.
  destruct (Byte.eqb x y); [|done]. rewrite strip_prefix_pad by done.
  destruct (strip_prefix e l); [done | exact IH].
Qed.

Lemma space_runes_pad : Forall (λ e, (x20 ∉ tail e) ∧ e ≠ []) space_runes.
Proof. apply (bool_decide_unpack _). vm_compute. exact I. Qed.

Lemma TrimLeftSpace_nil_pad k : TrimLeftSpace (replicate k x20) = [].
Proof.
  unfold TrimLeftSpace. induction k as [|k IH]; [done|].
  erewrite trim_front_step; [exact IH | done | reflexivity].
Qed.

Lemma TrimLeftSpace_pad l k :
  TrimLeftSpace (l ++ replicate k x20)
  = match TrimLeftSpace l with [] => [] | _ => TrimLeftSpace l ++ replicate k x20 end.
Proof.
  induction l as [l IH] using (induction_ltof1 _ (@length _)).
  destruct l as [|y l]; [apply TrimLeftSpace_nil_pad|].
  pose proof (strip_any_pad space_runes y l k space_runes_pad) as Hs.
  destruct (strip_any space_runes (y :: l)) as [r|] eqn:E; cbn [fmap option_fmap option_map] in Hs.
  - unfold TrimLeftSpace in *.
    rewrite (trim_front_step _ _ _ space_runes_proper Hs).
    rewrite (trim_front_step _ _ _ space_runes_proper E).
    apply IH. red. by apply strip_any_length in E.
  - unfold TrimLeftSpace.
    rewrite (trim_front_stop _ _ _ Hs), (trim_front_stop _ _ _ E). done.
Qed.

(** The fact the packet fields rely on: padding with spaces is undone. *)
Lemma TrimSpace_pad l k : TrimSpace (l ++ replicate k x20) = TrimSpace l.
Proof.
  unfold TrimSpace. rewrite TrimLeftSpace_pad.
  destruct (TrimLeftSpace l) eqn:E; [done|]. by rewrite TrimRightSpace_pad.
Qed.

Lemma TrimRightSpace_prefix l : ∃ t, l = TrimRightSpace l ++ t.
Proof.
  unfold TrimRightSpace.
  destruct (trim_front_suffix (reverse <$> space_runes) (length (reverse l)) (reverse l))
    as [p Hp]. exists (reverse p).
  rewrite <- reverse_app, <- Hp. by rewrite reverse_involutive.
Qed.

Lemma strip_any_app_None encs p t : strip_any encs (p ++ t) = None → strip_any encs p = None.
Proof.
  rewrite !strip_any_None. intros H e r He ->. apply (H e (r ++ t) He).
  by rewrite app_assoc.
Qed.

(** A text in front of a space does not change what is trimmed from the
    right of a text that follows it. *)
Lemma strip_prefix_space e l t :
  x20 ∉ e → strip_prefix e (l ++ x20 :: t) = (λ r, r ++ x20 :: t) <$> strip_prefix e l.
Proof.
  revert l. induction e as [|x e IH]; intros [|y l] Hn; simpl; try done.
  - apply not_elem_of_cons in Hn as [Hn _].
    destruct (Byte.eqb x x20) eqn:E; [|done]. apply byte_eqb_eq in E. congruence.
  - apply not_elem_of_cons in Hn as [_ Hn].
    destruct (Byte.eqb x y); [by apply IH | done].
Qed.

Lemma strip_any_space encs y l t :
  Forall (λ e, (x20 ∉ tail e) ∧ e ≠ []) encs →
  strip_any encs ((y :: l) ++ x20 :: t) = (λ r, r ++ x20 :: t) <$> strip_any encs (y :: l).
Proof.
  induction 1 as [|e encs [He1 He2] _ IH]; [done|].
  destruct e as [|x e]; [done|]. simpl in *.
  destruct (Byte.eqb x y); [|done]. rewrite strip_prefix_space by done.
  destruct (strip_prefix e l); [done | exact IH].
Qed.

Lemma reverse_space_runes_pad :
  Forall (λ e, (x20 ∉ tail e) ∧ e ≠ []) (reverse <$> space_runes).
Proof. apply (bool_decide_unpack _). vm_compute. exact I. Qed.

Lemma TrimRightSpace_stop b :
  TrimRightSpace b = b → strip_any (reverse <$> space_runes) (reverse b) = None.
Proof.
  intros Hb. destruct (strip_any _ _) as [r|] eqn:E; [|done]. exfalso.
  apply (f_equal length) in Hb. unfold TrimRightSpace in Hb.
  rewrite length_reverse in Hb.
  destruct (reverse b) as [|y l] eqn:Hr; [done|].
  pose proof (strip_any_length _ _ _ (Forall_impl _ _ _ reverse_space_runes_pad (λ e H, proj2 H)) E).
  destruct (trim_front_suffix (reverse <$> space_runes) (length l) r) as [t Ht].
  cbn [length trim_front] in Hb. rewrite E in Hb.
  apply (f_equal length) in Ht. rewrite length_app in Ht.
  apply (f_equal length) in Hr. rewrite length_reverse in Hr. simpl in *. lia.
Qed.

Lemma TrimRightSpace_space a b :
  b ≠ [] → TrimRightSpace b = b → TrimRightSpace (a ++ x20 :: b) = a ++ x20 :: b.
Proof.
  intros Hne Hb%TrimRightSpace_stop. unfold TrimRightSpace.
  rewrite trim_front_stop; [apply reverse_involutive|].
  rewrite reverse_app, reverse_cons, <- app_assoc. cbn [app].
  destruct (reverse b) as [|y l] eqn:Hr.
  - destruct Hne. by rewrite <- (reverse_involutive b), Hr.
  - by rewrite strip_any_space, Hb by apply reverse_space_runes_pad.
Qed.

(** [TrimSpace] is idempotent: a trimmed name stays as it is. *)
Lemma TrimSpace_idemp l : TrimSpace (TrimSpace l) = TrimSpace l.
Proof.
  unfold TrimSpace at 1.
  assert (Hl : TrimLeftSpace (TrimSpace l) = TrimSpace l).
  { unfold TrimLeftSpace at 1. apply trim_front_stop.
    destruct (TrimRightSpace_prefix (TrimLeftSpace l)) as [t Ht].
    eapply strip_any_app_None. unfold TrimSpace. rewrite <- Ht.
    by apply trim_front_stuck. }
  rewrite Hl. unfold TrimSpace, TrimRightSpace. rewrite reverse_involutive.
  f_equal. apply trim_front_stop. by apply trim_front_stuck.
Qed.

Lemma TrimSpace_length l : (length (TrimSpace l) ≤ length l)%nat.
Proof.
  unfold TrimSpace, TrimRightSpace, TrimLeftSpace. rewrite length_reverse.
  etrans; [apply trim_front_length|]. rewrite length_reverse. apply trim_front_length.
Qed.

(** ** Splitting and joining *)

(** [strings.Split(s, sep)] for a one-byte separator: never empty. *)
Fixpoint Split (s : bytes) (sep : Byte.byte) : list bytes :=
  match s with
  | [] => [[]]
  | c :: s' =>
      if c =b sep then [] :: Split s' sep
      else match Split s' sep with
           | w :: ws => (c :: w) :: ws
           | [] => [[c]]
           end
  end.

(** [strings.Join(parts, sep)] for a one-byte separator. *)
Fixpoint Join (parts : list bytes) (sep : Byte.byte) : bytes :=
  match parts with
  | [] => []
  | [p] => p
  | p :: ps => p ++ sep :: Join ps sep
  end.

(** [strings.ReplaceAll(s, old, new)] for a one-byte [old]. *)
Fixpoint ReplaceAll (s : bytes) (old : Byte.byte) (new : bytes) : bytes :=
  match s with
  | [] => []
  | c :: s' => (if c =b old then new else [c]) ++ ReplaceAll s' old new
  end.

(** [bytes.HasSuffix(s, suffix)] *)
Definition HasSuffix (s suffix : bytes) : bool :=
  bool_decide (length suffix ≤ length s)%nat
  && bool_decide (drop (length s - length suffix) s = suffix).

Lemma HasSuffix_app p s : HasSuffix (p ++ s) s = true.
Proof.
  unfold HasSuffix. rewrite length_app.
  rewrite bool_decide_true by lia. simpl. apply bool_decide_true.
  replace (length p + length s - length s)%nat with (length p) by lia.
  apply drop_app_length.
Qed.

Lemma HasSuffix_true s x : HasSuffix s x = true → ∃ p, s = p ++ x.
Proof.
  unfold HasSuffix. intros [_ H%bool_decide_eq_true]%andb_prop.
  exists (take (length s - length x) s). rewrite <- H at 2. symmetry. apply take_drop.
Qed.

Lemma Split_cons s sep : ∃ w ws, Split s sep = w :: ws.
Proof.
  induction s as [|c s (w & ws & IH)]; simpl; [eauto|].
  destruct (Byte.eqb c sep); [eauto|]. rewrite IH. eauto.
Qed.

Lemma Split_nosep w sep : sep ∉ w → Split w sep = [w].
Proof.
  induction w as [|c w IH]; [done|]. intros [Hc Hw]%not_elem_of_cons. simpl.
  rewrite (proj2 (byte_eqb_neq c sep)) by congruence. by rewrite IH.
Qed.

Lemma Split_app w sep s : sep ∉ w → Split (w ++ sep :: s) sep = w :: Split s sep.
Proof.
  induction w as [|c w IH]; simpl.
  - by rewrite byte_eqb_refl.
  - intros [Hc Hw]%not_elem_of_cons.
    rewrite (proj2 (byte_eqb_neq c sep)) by congruence. by rewrite IH.
Qed.

Lemma Split_Join parts sep :
  parts ≠ [] → Forall (λ p, sep ∉ p) parts → Split (Join parts sep) sep = parts.
Proof.
  intros Hne Hall. induction Hall as [|p ps Hp Hps IH]; [done|].
  destruct ps as [|q qs]; [by apply Split_nosep|].
  change (Join (p :: q :: qs) sep) with (p ++ sep :: Join (q :: qs) sep).
  rewrite Split_app by done. by rewrite IH.
Qed.

Lemma Join_Split s sep : Join (Split s sep) sep = s.
Proof.
  induction s as [|c s IH]; [done|]. simpl.
  destruct (Split_cons s sep) as (w & ws & E).
  destruct (Byte.eqb c sep) eqn:Ec.
  - apply byte_eqb_eq in Ec as ->. rewrite E in *. simpl in *. by f_equal.
  - rewrite E in *. destruct ws; simpl in *; by f_equal.
Qed.

Lemma Split_parts s sep : Forall (λ p, sep ∉ p) (Split s sep).
Proof.
  induction s as [|c s IH]; simpl.
  - constructor; [apply not_elem_of_nil | constructor].
  - destruct (Byte.eqb c sep) eqn:E.
    + constructor; [apply not_elem_of_nil | done].
    + apply byte_eqb_neq in E. destruct (Split_cons s sep) as (w & ws & E').
      rewrite E' in *. inversion IH; subst. constructor; [|done].
      apply not_elem_of_cons. split; congruence.
Qed.

(** ** Numbers *)

Definition digit (c : Byte.byte) : option Z :=
  let v := byte.unsigned c in
  if (48 <=? v) && (v <=? 57) then Some (v - 48) else None.

Fixpoint digits (acc : Z) (s : bytes) : option Z :=
  match s with
  | [] => Some acc
  | c :: s' => d ← digit c; digits (10 * acc + d) s'
  end.

(** [strconv.Atoi(s)]: an optional sign and at least one decimal digit, with
    a value in the range of [int64]; [None] is a non-nil error. *)
Definition Atoi (s : bytes) : option Z :=
  let '(neg, ds) :=
    match s with
    | c :: s' => if c =b x2d then (true, s') else if c =b x2b then (false, s') else (false, s)
    | [] => (false, [])
    end in
  match ds with
  | [] => None
  | _ =>
      v ← digits 0 ds;
      let n := if neg : bool then - v else v in
      if (- 2 ^ 63 <=? n) && (n <? 2 ^ 63) then Some n else None
  end.

(** [strconv.Itoa] and [%d] *)
Definition Itoa (n : Z) : bytes := str (pretty n).

Example Atoi_port : Atoi (str "3509") = Some 3509. Proof. reflexivity. Qed.
Example Atoi_neg : Atoi (str "-1") = Some (-1). Proof. reflexivity. Qed.
Example Atoi_bad : Atoi (str "35x") = None. Proof. reflexivity. Qed.
Example Atoi_empty : Atoi [] = None. Proof. reflexivity. Qed.

(** ** net *)

(** The IPv4 addresses; [net.IP(nil)] is [None] where the source keeps it. *)
Record IPv4 := mkIPv4 { ip_a : Z; ip_b : Z; ip_c : Z; ip_d : Z }.

#[global] Instance IPv4_eq_dec : EqDecision IPv4.
Proof. solve_decision. Defined.

(** One field of a dotted address: one to three digits, at most 255, without
    a leading zero. *)
Definition ip_field (s : bytes) : option Z :=
  match s with
  | [] => None
  | c :: s' =>
      if (c =b x30) && negb (bool_decide (s' = [])) then None
      else if bool_decide (length s ≤ 3)%nat
           then v ← digits 0 s; if v <=? 255 then Some v else None
           else None
  end.

(** [net.ParseIP(s)] on a text without a colon, where only the dotted form
    can parse; [None] is the nil IP. *)
Definition ParseIP (s : bytes) : option IPv4 :=
  match Split s x2e with
  | [a; b; c; d] =>
      a ← ip_field a; b ← ip_field b; c ← ip_field c; d ← ip_field d;
      Some (mkIPv4 a b c d)
  | _ => None
  end.

(** [net.UDPAddr] and [net.TCPAddr]: an IP, possibly nil, and a port. *)
Record Addr := mkAddr { IP : option IPv4; Port : Z }.

#[global] Instance Addr_eq_dec : EqDecision Addr.
Proof. solve_decision. Defined.

(** [UDPAddr.String()]: [ip:port], and [:port] for a nil IP. *)
Definition Addr_String (a : Addr) : bytes :=
  match IP a with
  | Some ip =>
      Join [Itoa (ip_a ip); Itoa (ip_b ip); Itoa (ip_c ip); Itoa (ip_d ip)] x2e
  | None => []
  end ++ x3a :: Itoa (Port a).

Example ParseIP_ok : ParseIP (str "127.0.0.1") = Some (mkIPv4 127 0 0 1).
Proof. reflexivity. Qed.
Example ParseIP_big : ParseIP (str "127.0.0.256") = None.
Proof. reflexivity. Qed.
Example Addr_String_ok :
  Addr_String (mkAddr (Some (mkIPv4 127 0 0 1)) 9000) = str "127.0.0.1:9000".
Proof. vm_compute. reflexivity. Qed.

(** *** Addresses are printed and read back *)

(** [f] holds of the numbers from [z] on. *)
Fixpoint all_from (f : Z → bool) (fuel : nat) (z : Z) : bool :=
  match fuel with
  | O => true
  | S fuel' => if f z then all_from f fuel' (z + 1) else false
  end.

Lemma all_from_spec f fuel z x :
  all_from f fuel z = true → z <= x < z + Z.of_nat fuel → f x = true.
Proof.
  revert z. induction fuel as [|fuel IH]; intros z Hall Hx; [lia|].
  cbn [all_from] in Hall. destruct (f z) eqn:E; [|done].
  destruct (Z.eq_dec x z) as [->|]; [done|]. apply (IH (z + 1)); [done|lia].
Qed.

(** A number is printed with digits only and read back. *)
Definition printable (z : Z) : bool :=
  let t := Itoa z in
  match Atoi t with Some z' => z' =? z | None => false end
  && forallb (λ c, negb (c =b x3a) && negb (c =b x2e) && negb (c =b x2c)) t.

Lemma ports_printable : all_from printable (Z.to_nat 65536) 0 = true.
Proof. vm_compute. reflexivity. Qed.

Lemma octets_read_back :
  all_from (λ z, match ip_field (Itoa z) with Some z' => z' =? z | None => false end) 256 0 = true.
Proof. vm_compute. reflexivity. Qed.

Lemma Itoa_port z :
  0 <= z < 65536 → Atoi (Itoa z) = Some z ∧ (x3a ∉ Itoa z) ∧ (x2e ∉ Itoa z) ∧ (x2c ∉ Itoa z).
Proof.
  intros Hz. pose proof (all_from_spec _ _ _ z ports_printable ltac:(lia)) as Hp.
  unfold printable in Hp. apply andb_true_iff in Hp as [H1 H2].
  split; [destruct (Atoi _); [|done]; by apply Z.eqb_eq in H1 as ->|].
  rewrite forallb_forall in H2.
  repeat split; intros Hin%list_elem_of_In%H2; by rewrite byte_eqb_refl in Hin.
Qed.

Lemma ip_field_octet z : 0 <= z < 256 → ip_field (Itoa z) = Some z.
Proof.
  intros Hz. pose proof (all_from_spec _ _ _ z octets_read_back ltac:(lia)) as Hp.
  cbn beta in Hp. destruct (ip_field _); [|done]. by apply Z.eqb_eq in Hp as ->.
Qed.

(** An address with an IPv4 and a port in range. *)
Definition plain_addr (a : Addr) : Prop :=
  match IP a with
  | Some (mkIPv4 b c d e) =>
      0 <= b < 256 ∧ 0 <= c < 256 ∧ 0 <= d < 256 ∧ 0 <= e < 256
  | None => False
  end ∧ 0 <= Port a < 65536.

Lemma Split_last w sep w' : sep ∉ w → sep ∉ w' → Split (w ++ sep :: w') sep = [w; w'].
Proof. intros. by rewrite Split_app, Split_nosep. Qed.

Lemma not_elem_of_Join c sep (parts : list bytes) :
  c ≠ sep → Forall (λ p, c ∉ p) parts → c ∉ Join parts sep.
Proof.
  intros Hc. induction 1 as [|p parts Hp Hall IH]; [apply not_elem_of_nil|].
  destruct parts as [|p' parts]; [done|].
  change (Join (p :: p' :: parts) sep) with (p ++ sep :: Join (p' :: parts) sep).
  rewrite elem_of_app, elem_of_cons. intros [?|[?|?]]; [done|done|by apply IH].
Qed.

(** The text of an address splits at its only colon into the dotted IP and
    the port. *)
Lemma Addr_String_parts a :
  plain_addr a →
  ∃ host portText, Addr_String a = host ++ x3a :: portText ∧
    Split (Addr_String a) x3a = [host; portText] ∧
    ParseIP host = IP a ∧ Atoi portText = Some (Port a) ∧ (x2c ∉ Addr_String a).
Proof.
  destruct a as [[[b c d e]|] port]; [|by intros [[] _]]. intros [(Hb & Hc & Hd & He) Hport].
  cbn [IP Port] in *.
  set (host := Join [Itoa b; Itoa c; Itoa d; Itoa e] x2e).
  destruct (Itoa_port port Hport) as (Ha & Hcol & _ & Hcom).
  assert (Hall : ∀ x, (∀ z, 0 <= z < 256 → x ∉ Itoa z) → Forall (λ p, x ∉ p) [Itoa b; Itoa c; Itoa d; Itoa e]).
  { intros x Hx. repeat constructor; by apply Hx. }
  assert (Hoct : ∀ z, 0 <= z < 256 → (x3a ∉ Itoa z) ∧ (x2e ∉ Itoa z) ∧ (x2c ∉ Itoa z)).
  { intros z Hz. apply Itoa_port. lia. }
  assert (Hhc : x3a ∉ host).
  { apply not_elem_of_Join; [done|]. apply Hall. intros z Hz. by apply Hoct. }
  assert (Hhm : x2c ∉ host).
  { apply not_elem_of_Join; [done|]. apply Hall. intros z Hz. by apply Hoct. }
  exists host, (Itoa port). unfold Addr_String. cbn [IP Port ip_a ip_b ip_c ip_d]. fold host.
  split; [done|]. split; [by apply Split_last|]. split; [|split; [done|]].
  - unfold ParseIP. unfold host.
    rewrite Split_Join by (done || (apply Hall; intros z Hz; by apply Hoct)).
    by rewrite !ip_field_octet.
  - rewrite elem_of_app, elem_of_cons. intros [?|[?|?]]; done.
Qed.
