(* ===== verification/Deps.v ===== *)
(** * Interfaces of the third-party code

    The program calls libraries whose code is not in the repository. Each is
    a class of operations, and what the program relies on is a class of laws
    that states the library's documented behaviour:

    - [XXHash]: [github.com/OneOfOne/xxhash], a [hash.Hash];
    - [RedBlackTree]: [gods/trees/redblacktree] with the string comparator;
    - [HashMap]: [gods/maps/hashmap], whose [Keys] come in a random order;
    - [Regexp]: the regular expression engine behind [regexp.Compile].

    Module [Concrete] instantiates them with functions that satisfy the laws,
    so that every theorem of the development can be evaluated. *)
From Stdlib Require Import ZArith Lia Strings.Byte.
From stdpp Require Import base gmap list strings sorting.
From coqutil Require Import Byte.
From S2P Require Import Prelude.

(** ** The order of keys *)

(** Byte-wise lexicographic order, the order of [utils.StringComparator]. *)
Fixpoint bytes_compare (a b : bytes) : comparison :=
  match a, b with
  | [], [] => Eq
  | [], _ :: _ => Lt
  | _ :: _, [] => Gt
  | x :: a', y :: b' =>
      match (byte.unsigned x ?= byte.unsigned y)%Z with
      | Eq => bytes_compare a' b'
      | c => c
      end
  end.

Definition bytes_lt (a b : bytes) : Prop := bytes_compare a b = Lt.
Definition bytes_le (a b : bytes) : Prop := bytes_compare a b ≠ Gt.

#[global] Instance bytes_lt_dec : RelDecision bytes_lt.
Proof. intros a b. unfold bytes_lt. solve_decision. Defined.
#[global] Instance bytes_le_dec : RelDecision bytes_le.
Proof. intros a b. unfold bytes_le. solve_decision. Defined.

Lemma bytes_compare_refl a : bytes_compare a a = Eq.
Proof. induction a; simpl; [done|]. by rewrite Z.compare_refl. Qed.

Lemma bytes_compare_eq a b : bytes_compare a b = Eq → a = b.
Proof.
  revert b. induction a as [|x a IH]; intros [|y b]; simpl; try done.
  destruct (byte.unsigned x ?= byte.unsigned y)%Z eqn:E; try done.
  apply Z.compare_eq_iff, byte.unsigned_inj in E as ->. intros H%IH. by subst.
Qed.

Lemma bytes_compare_antisym a b : bytes_compare b a = CompOpp (bytes_compare a b).
Proof.
  revert b. induction a as [|x a IH]; intros [|y b]; simpl; try done.
  rewrite Z.compare_antisym.
  destruct (byte.unsigned x ?= byte.unsigned y)%Z; simpl; [apply IH | done | done].
Qed.

#[global] Instance bytes_lt_trans : Transitive bytes_lt.
Proof.
  unfold bytes_lt. intros a. induction a as [|x a IH]; intros [|y b] [|z c]; simpl; try done.
  destruct (Z.compare_spec (byte.unsigned x) (byte.unsigned y)) as [E1|E1|E1]; [| |done].
  - rewrite E1.
    destruct (Z.compare_spec (byte.unsigned y) (byte.unsigned z)); [|done|done]. apply IH.
  - intros _.
    destruct (Z.compare_spec (byte.unsigned y) (byte.unsigned z)) as [E2|E2|E2]; [..|done];
      rewrite (proj2 (Z.compare_lt_iff _ _)) by lia; done.
Qed.

Lemma bytes_lt_irrefl a : ¬ bytes_lt a a.
Proof. unfold bytes_lt. by rewrite bytes_compare_refl. Qed.

Lemma bytes_le_lt a b : bytes_le a b ↔ bytes_lt a b ∨ a = b.
Proof.
  unfold bytes_le, bytes_lt. destruct (bytes_compare a b) eqn:E.
  - apply bytes_compare_eq in E. naive_solver.
  - naive_solver.
  - split; [done|]. intros [?| ->]; [done|]. by rewrite bytes_compare_refl in E.
Qed.

#[global] Instance bytes_le_trans : Transitive bytes_le.
Proof.
  intros a b c. rewrite !bytes_le_lt. intros [Hab| ->] [Hbc| ->]; auto.
  left. by etrans.
Qed.

#[global] Instance bytes_le_total : Total bytes_le.
Proof.
  intros a b. unfold bytes_le. rewrite (bytes_compare_antisym a b).
  destruct (bytes_compare a b); simpl; auto.
Qed.

#[global] Instance bytes_le_antisymm : AntiSymm (=) bytes_le.
Proof.
  intros a b. rewrite !bytes_le_lt. intros [H1|H1] [H2|H2]; auto.
  destruct (bytes_lt_irrefl a). by etrans.
Qed.

(** ** xxhash *)

(** [Sum b] is [xxhash.New64().Sum(b)]: the method of a hasher to which
    nothing has been written. *)
Class XXHash := Sum : bytes → bytes.

(** The documentation of [hash.Hash]: [Sum] appends the current hash to [b]
    and returns the resulting slice. A 64-bit hash is eight bytes long. *)
Class XXHashLaws {X : XXHash} (digest : bytes) : Prop := {
  Sum_appends b : Sum b = b ++ digest;
  digest_length : length digest = 8%nat
}.

(** ** Red-black trees keyed by strings *)

Class RedBlackTree (T : Type → Type) := {
  rb_New {V} : T V;
  rb_Get {V} : T V → bytes → option V;
  rb_Put {V} : T V → bytes → V → T V;
  rb_Remove {V} : T V → bytes → T V;
  rb_Keys {V} : T V → list bytes;
  (** [rb_Next t prev] is the key an iterator at [prev] ([None]: before the
      first node) moves to; [None]: the iterator is exhausted. *)
  rb_Next {V} : T V → option bytes → option bytes
}.

Definition after (prev : option bytes) (k : bytes) : Prop :=
  match prev with Some p => bytes_lt p k | None => True end.

#[global] Instance after_dec prev k : Decision (after prev k).
Proof. destruct prev; simpl; apply _. Defined.

Class RedBlackTreeLaws (T : Type → Type) `{!RedBlackTree T} : Prop := {
  rb_Get_New {V} k : rb_Get (@rb_New T _ V) k = None;
  rb_Get_Put {V} (t : T V) k v k' :
    rb_Get (rb_Put t k v) k' = if decide (k = k') then Some v else rb_Get t k';
  rb_Get_Remove {V} (t : T V) k k' :
    rb_Get (rb_Remove t k) k' = if decide (k = k') then None else rb_Get t k';
  (** [Keys] returns all keys in order. *)
  rb_Keys_elem {V} (t : T V) k : k ∈ rb_Keys t ↔ is_Some (rb_Get t k);
  rb_Keys_sorted {V} (t : T V) : StronglySorted bytes_lt (rb_Keys t);
  (** [Next] moves the iterator to the next key in order. *)
  rb_Next_spec {V} (t : T V) prev : rb_Next t prev = head (filter (after prev) (rb_Keys t))
}.

(** ** Hash maps keyed by strings *)

Class HashMap (H : Type → Type) := {
  hm_New {V} : H V;
  hm_Get {V} : H V → bytes → option V;
  hm_Put {V} : H V → bytes → V → H V;
  hm_Remove {V} : H V → bytes → H V;
  (** The order of the keys is random: [seed] stands for the choice. *)
  hm_Keys {V} : nat → H V → list bytes
}.

Class HashMapLaws (H : Type → Type) `{!HashMap H} : Prop := {
  hm_Get_New {V} k : hm_Get (@hm_New H _ V) k = None;
  hm_Get_Put {V} (m : H V) k v k' :
    hm_Get (hm_Put m k v) k' = if decide (k = k') then Some v else hm_Get m k';
  hm_Get_Remove {V} (m : H V) k k' :
    hm_Get (hm_Remove m k) k' = if decide (k = k') then None else hm_Get m k';
  hm_Keys_elem {V} seed (m : H V) k : k ∈ hm_Keys seed m ↔ is_Some (hm_Get m k);
  hm_Keys_nodup {V} seed (m : H V) : NoDup (hm_Keys seed m)
}.

(** ** Regular expressions *)

(** [Compile pattern] is the text of the error, or [MatchString] of the
    compiled expression. *)
Class Regexp := Compile : bytes → bytes + (bytes → bool).

(** ** Concrete instances *)

Module Concrete.

(** The digest of the empty input, XXH64("") = ef46db3751d8e999. *)
Definition empty_digest : bytes := [xef; x46; xdb; x37; x51; xd8; xe9; x99].

#[export] Instance xxhash : XXHash := λ b, b ++ empty_digest.

#[export] Instance xxhash_laws : XXHashLaws empty_digest.
Proof. split; reflexivity. Qed.

Abbreviation rb := (gmap bytes).

Definition rb_keys {V} (t : rb V) : list bytes := merge_sort bytes_le (elements (dom t)).

#[export] Instance rbtree : RedBlackTree rb := {
  rb_New V := (∅ : gmap bytes V);
  rb_Get V t k := (t : gmap bytes V) !! k;
  rb_Put V t k v := <[k:=v]> (t : gmap bytes V);
  rb_Remove V t k := delete k (t : gmap bytes V);
  rb_Keys V t := rb_keys t;
  rb_Next V t prev := head (filter (after prev) (rb_keys t))
}.

Lemma sorted_le_lt (l : list bytes) :
  NoDup l → StronglySorted bytes_le l → StronglySorted bytes_lt l.
Proof.
  intros Hnd Hs. induction Hs as [|k l Hs IH Hall]; [constructor|].
  apply NoDup_cons in Hnd as [Hk Hnd]. constructor; [by apply IH|].
  rewrite Forall_forall in Hall |- *. intros k' Hk'.
  destruct (proj1 (bytes_le_lt k k') (Hall _ Hk')) as [| ->]; done.
Qed.

#[export] Instance rbtree_laws : RedBlackTreeLaws rb.
Proof.
  split; intros V; simpl.
  - intros k. apply lookup_empty.
  - intros t k v k'. apply lookup_insert.
  - intros t k k'. apply lookup_delete.
  - intros t k. unfold rb_keys. rewrite merge_sort_Permutation, elem_of_elements.
    apply elem_of_dom.
  - intros t. apply sorted_le_lt.
    + unfold rb_keys. rewrite merge_sort_Permutation. apply NoDup_elements.
    + apply StronglySorted_merge_sort; apply _.
  - done.
Qed.

Abbreviation hm := (gmap bytes).

Definition rotate (n : nat) (l : list bytes) : list bytes := drop n l ++ take n l.

#[export] Instance hashmap : HashMap hm := {
  hm_New V := (∅ : gmap bytes V);
  hm_Get V m k := (m : gmap bytes V) !! k;
  hm_Put V m k v := <[k:=v]> (m : gmap bytes V);
  hm_Remove V m k := delete k (m : gmap bytes V);
  hm_Keys V seed m := rotate seed (elements (dom (m : gmap bytes V)))
}.

Lemma rotate_Permutation n l : rotate n l ≡ₚ l.
Proof. unfold rotate. rewrite Permutation_app_comm. by rewrite take_drop. Qed.

#[export] Instance hashmap_laws : HashMapLaws hm.
Proof.
  split; intros V; simpl.
  - intros k. apply lookup_empty.
  - intros t k v k'. apply lookup_insert.
  - intros t k k'. apply lookup_delete.
  - intros n t k. rewrite rotate_Permutation, elem_of_elements. apply elem_of_dom.
  - intros n t. rewrite rotate_Permutation. apply NoDup_elements.
Qed.

(** The text itself as a pattern: a match is a substring. *)
#[export] Instance substring : Regexp := λ p,
  inr (λ s, existsb (λ n, bool_decide (take (length p) (drop n s) = p)) (seq 0 (S (length s)))).

End Concrete.
