(* ===== verification/Protocol.v ===== *)
(** * The wire protocol: [src/protocol/protocol.go]

    [Packet] with its constructors, its parser [ParsePacket], its formatter
    [Bytes], and the authentication by [SetHash] and [Validate]. A packet on
    the wire is

      command, space, 8 hash bytes, space, 4 message id bytes, space,
      64 namespace bytes, space, 1419 data bytes.

    The functions that may panic return in [go]; the ones that return an
    error return it as an option ([None] is Go's nil error). *)
From Stdlib Require Import ZArith Lia Strings.Byte.
From stdpp Require Import base gmap list strings.
From coqutil Require Import Byte LittleEndianList.
From S2P Require Import Prelude GoStd Deps.
Local Open Scope Z_scope.
Local Open Scope go_scope.

(** ** Constants *)

Definition PacketSize : Z := 1500.
Definition NamespaceSize : Z := 64.
Definition DataValueSize : Z := 1419.

Definition CmdCount : Byte.byte := "C"%byte.
Definition CmdPut : Byte.byte := "P"%byte.
Definition CmdPutReplicate : Byte.byte := "R"%byte.
Definition CmdCountNamespace : Byte.byte := "N"%byte.
Definition CmdCountServer : Byte.byte := "S"%byte.

Definition CmdTCPOnlyKeys : Byte.byte := "K"%byte.
Definition CmdTCPOnlyValues : Byte.byte := "V"%byte.
Definition CmdTCPOnlyStore : Byte.byte := "T"%byte.
Definition CmdTCPOnlyRetrieve : Byte.byte := "I"%byte.
Definition CmdTCPOnlyNamespaces : Byte.byte := "L"%byte.

Definition ResError : Byte.byte := "E"%byte.

Definition space : Byte.byte := " "%byte.
Definition spaceIndex1 : Z := 1.
Definition spaceIndex2 : Z := 10.
Definition spaceIndex3 : Z := 15.
Definition spaceIndex4 : Z := 80.

Inductive ProtoErr :=
  | ErrInvalidPacketSizeTooSmall
  | ErrInvalidPacketSizeTooLarge
  | ErrInvalidCommandByte
  | ErrProtocolSpace1
  | ErrProtocolSpace2
  | ErrProtocolSpace3
  | ErrBadHash
  | ErrBadOutputSize.

#[global] Instance ProtoErr_eq_dec : EqDecision ProtoErr.
Proof. solve_decision. Defined.

(** [err.Error()] *)
Definition ProtoErr_Error (e : ProtoErr) : bytes :=
  str match e with
      | ErrInvalidPacketSizeTooSmall => "bad packet: too small, size must be 1500 bytes"
      | ErrInvalidPacketSizeTooLarge => "bad packet: too large, size must be 1500 bytes"
      | ErrInvalidCommandByte => "bad packet: invalid command byte"
      | ErrProtocolSpace1 => "bad packet: expected space 1"
      | ErrProtocolSpace2 => "bad packet: expected space 1"
      | ErrProtocolSpace3 => "bad packet: expected space 3"
      | ErrBadHash => "auth failed: packet hash invalid"
      | ErrBadOutputSize => "wrong data size during packet construction"
      end.

(** [StopSymbol = []byte("\n.\n")] *)
Definition StopSymbol : bytes := [x0a; x2e; x0a].

(** ** Commands *)

Definition IsRequestCmd (c : Byte.byte) : bool :=
  (c =b CmdCount) || (c =b CmdPut) || (c =b CmdCountNamespace)
  || (c =b CmdCountServer) || (c =b CmdPutReplicate).

Definition IsTcpOnlyCmd (c : Byte.byte) : bool :=
  (c =b CmdTCPOnlyKeys) || (c =b CmdTCPOnlyRetrieve) || (c =b CmdTCPOnlyValues)
  || (c =b CmdTCPOnlyStore) || (c =b CmdTCPOnlyNamespaces).

Definition IsResponseCmd (c : Byte.byte) : bool :=
  (c =b ResError) || IsRequestCmd c.

Definition commandIsValid (c : Byte.byte) : bool :=
  IsRequestCmd c || IsResponseCmd c || IsTcpOnlyCmd c.

(** ** Packets *)

(** A TCP connection, by its identity. *)
Definition TCPConn : Type := nat.

Record Packet := mkPacket {
  Command : Byte.byte;
  HashBytes : bytes;
  Hash : Z;
  MessageIDBytes : bytes;
  MessageID : Z;
  Namespace : bytes;
  DataValue : bytes;
  RequestClient : option TCPConn
}.

Definition set_Command (c : Byte.byte) (p : Packet) : Packet :=
  mkPacket c (HashBytes p) (Hash p) (MessageIDBytes p) (MessageID p)
    (Namespace p) (DataValue p) (RequestClient p).
Definition set_Hash (hb : bytes) (h : Z) (p : Packet) : Packet :=
  mkPacket (Command p) hb h (MessageIDBytes p) (MessageID p)
    (Namespace p) (DataValue p) (RequestClient p).
Definition set_DataValue (d : bytes) (p : Packet) : Packet :=
  mkPacket (Command p) (HashBytes p) (Hash p) (MessageIDBytes p) (MessageID p)
    (Namespace p) d (RequestClient p).
Definition set_RequestClient (c : option TCPConn) (p : Packet) : Packet :=
  mkPacket (Command p) (HashBytes p) (Hash p) (MessageIDBytes p) (MessageID p)
    (Namespace p) (DataValue p) c.

(** *** Conversions *)

Definition Uint32FromBytes (fourBytes : bytes) : go Z := LittleEndian_Uint32 fourBytes.
Definition Uint32ToBytes (u : Z) : bytes := le_split 4 u.
Definition Uint64FromBytes (eightBytes : bytes) : go Z := LittleEndian_Uint64 eightBytes.
Definition Uint64ToBytes (u : Z) : bytes := le_split 8 u.

(** [for i := inputLen; i < finalSize; i++ { out[i] = space }] *)
Definition PadRight_fill (out : bytes) (inputLen n : nat) : bytes :=
  fold_left (λ o i, <[i:=space]> o) (seq inputLen n) out.

Definition PadRight (i : bytes) (finalSize : Z) : go bytes :=
  let inputLen := len i in
  if finalSize <=? inputLen then Ret i
  else
    let out := replicate (Z.to_nat finalSize) x00 in
    let out := i ++ drop (length i) out (* copy(out[0:inputLen], *in) *) in
    let out := PadRight_fill out (length i) (Z.to_nat finalSize - length i) in
    if len out =? finalSize then Ret out else Panic.

Definition NamespaceString (p : Packet) : bytes := TrimSpace (Namespace p).
Definition DataValueString (p : Packet) : bytes := TrimSpace (DataValue p).

(** ** Authentication *)

Section Auth.
Context `{X : XXHash}.

Definition HashPacket (p : Packet) (preSharedKey : bytes) : bytes :=
  let bytesToHash := preSharedKey ++ MessageIDBytes p in
  let bytesToHash := bytesToHash ++ Namespace p in
  let bytesToHash := bytesToHash ++ DataValue p in
  Sum bytesToHash.

Definition SetHash (p : Packet) (preSharedKey : bytes) : go Packet :=
  let hb := HashPacket p preSharedKey in
  h ← Uint64FromBytes hb;
  Ret (set_Hash hb h p).

Definition Validate (p : Packet) (preSharedKey : bytes) : go (option ProtoErr) :=
  expectedHash ← Uint64FromBytes (HashPacket p preSharedKey);
  if negb (Hash p =? expectedHash) then Ret (Some ErrBadHash) else Ret None.

(** ** Construction *)

Definition NewPacketFromParts (command : Byte.byte)
    (messageID namespace dataValue preSharedKey : bytes) : go Packet :=
  id ← Uint32FromBytes messageID;
  ns ← PadRight namespace NamespaceSize;
  dv ← PadRight dataValue DataValueSize;
  SetHash (mkPacket command [] 0 messageID id ns dv None) preSharedKey.

Definition NewPacket (command : Byte.byte) (messageID : Z)
    (namespace dataValue preSharedKey : bytes) : go Packet :=
  NewPacketFromParts command (Uint32ToBytes messageID) namespace dataValue preSharedKey.
End Auth.

(** ** Parsing *)

Definition ParsePacket (buf : bytes) : go (option Packet * option ProtoErr) :=
  if len buf <? spaceIndex4 + 2
  then Ret (None, Some ErrInvalidPacketSizeTooSmall)
  else
    hBytes ← slice buf (spaceIndex1 + 1) spaceIndex2;
    idBytes ← slice buf (spaceIndex2 + 1) spaceIndex3;
    nsBytes ← slice buf (spaceIndex3 + 1) spaceIndex4;
    let endAt := Z.min (len buf) PacketSize in
    messageIData ← slice buf (spaceIndex4 + 1) endAt;
    rightSizeData ← PadRight messageIData DataValueSize;
    command ← index buf 0;
    hash ← Uint64FromBytes hBytes;
    messageID ← Uint32FromBytes idBytes;
    let p := mkPacket command hBytes hash idBytes messageID nsBytes rightSizeData None in
    if negb (commandIsValid command) then Ret (Some p, Some ErrInvalidCommandByte)
    else
      s1 ← index buf spaceIndex1;
      if negb (s1 =b space) then Ret (Some p, Some ErrProtocolSpace1)
      else
        s2 ← index buf spaceIndex2;
        if negb (s2 =b space) then Ret (Some p, Some ErrProtocolSpace2)
        else
          s3 ← index buf spaceIndex3;
          if negb (s3 =b space) then Ret (Some p, Some ErrProtocolSpace3)
          else
            s4 ← index buf spaceIndex4;
            if negb (s4 =b space) then Ret (Some p, Some ErrProtocolSpace3)
            else if (PacketSize <? len buf) && negb (IsTcpOnlyCmd command)
            then Ret (Some p, Some ErrInvalidPacketSizeTooLarge)
            else Ret (Some p, None).

(** ** Formatting *)

Definition bytes_of (p : Packet) : go bytes :=
  if len (HashBytes p) <? 8 then Panic
  else if len (MessageIDBytes p) <? 4 then Panic
  else
    namespace ← PadRight (Namespace p) NamespaceSize;
    dataValue ← PadRight (DataValue p) DataValueSize;
    let out := [Command p; space] ++ take 8 (HashBytes p) ++ [space]
                 ++ take 4 (MessageIDBytes p) ++ [space] in
    let out := out ++ namespace in
    let out := out ++ [space] in
    let out := out ++ dataValue in
    Ret out.

Definition Bytes (p : Packet) : go (bytes * option ProtoErr) :=
  out ← bytes_of p;
  if negb (len out =? PacketSize) && negb (IsTcpOnlyCmd (Command p))
  then Ret (out, Some ErrBadOutputSize)
  else Ret (out, None).

(** * Properties *)

(** ** Padding *)

(** The reference definition of [PadRight]. *)
Definition pad (n : nat) (l : bytes) : bytes := l ++ replicate (n - length l) space.

Lemma pad_length n l : length (pad n l) = Nat.max n (length l).
Proof. unfold pad. rewrite length_app, length_replicate. lia. Qed.

Lemma pad_full n l : (n ≤ length l)%nat → pad n l = l.
Proof. intros H. unfold pad. replace (n - length l)%nat with 0%nat by lia. apply app_nil_r. Qed.

Lemma pad_idemp n l : pad n (pad n l) = pad n l.
Proof. apply pad_full. rewrite pad_length. lia. Qed.

Lemma TrimSpace_padded n l : TrimSpace (pad n l) = TrimSpace l.
Proof. apply TrimSpace_pad. Qed.

Lemma PadRight_fill_spec i r :
  PadRight_fill (i ++ r) (length i) (length r) = i ++ replicate (length r) space.
Proof.
  unfold PadRight_fill. revert i. induction r as [|b r IH]; intros i; [done|].
  cbn [length seq fold_left].
  rewrite insert_app_r_alt, Nat.sub_diag by lia. cbn [insert list_insert].
  specialize (IH (i ++ [space])). rewrite length_app, Nat.add_1_r in IH.
  rewrite <- app_assoc in IH. cbn [app] in IH. rewrite IH.
  by rewrite <- app_assoc.
Qed.

Lemma PadRight_pad l n : PadRight l n = Ret (pad (Z.to_nat n) l).
Proof.
  unfold PadRight. destruct (Z.leb_spec n (len l)) as [H|H]; unfold len in H.
  - rewrite pad_full by lia. done.
  - rewrite drop_replicate.
    pose proof (PadRight_fill_spec l (replicate (Z.to_nat n - length l) x00)) as E.
    rewrite length_replicate in E. rewrite E. fold (pad (Z.to_nat n) l).
    rewrite (proj2 (Z.eqb_eq _ _)); [done|]. unfold len. rewrite pad_length. lia.
Qed.

Create Rewrite HintDb proto.
#[export] Hint Rewrite PadRight_pad pad_length pad_idemp TrimSpace_padded : proto.

(** The text of an error fits in the data of a packet. *)
Lemma ProtoErr_length e : (length (ProtoErr_Error e) ≤ 64)%nat.
Proof. destruct e; apply (bool_decide_unpack _); reflexivity. Qed.

(** ** Integers *)

Lemma Uint32ToBytes_length u : length (Uint32ToBytes u) = 4%nat.
Proof. apply length_le_split. Qed.

Lemma Uint32_ToFrom u : Uint32FromBytes (Uint32ToBytes u) = Ret (u32 u).
Proof.
  unfold Uint32FromBytes. rewrite LittleEndian_Uint32_exact by apply length_le_split.
  unfold Uint32ToBytes. by rewrite le_combine_split.
Qed.

Lemma Uint64_ToFrom u : Uint64FromBytes (Uint64ToBytes u) = Ret (u64 u).
Proof.
  unfold Uint64FromBytes. rewrite LittleEndian_Uint64_exact by apply length_le_split.
  unfold Uint64ToBytes. by rewrite le_combine_split.
Qed.

(** ** The layout of a packet *)

(** Any bytes at the four separator positions. *)
Definition frame (c s1 : Byte.byte) (h : bytes) (s2 : Byte.byte) (id : bytes)
    (s3 : Byte.byte) (ns : bytes) (s4 : Byte.byte) (rest : bytes) : bytes :=
  c :: s1 :: h ++ s2 :: id ++ s3 :: ns ++ s4 :: rest.

Definition wire (c : Byte.byte) (h id ns dv : bytes) : bytes :=
  frame c space h space id space ns space dv.

Lemma frame_length c s1 h s2 id s3 ns s4 rest :
  length h = 8%nat → length id = 4%nat → length ns = 64%nat →
  len (frame c s1 h s2 id s3 ns s4 rest) = 81 + len rest.
Proof.
  intros Hh Hi Hn. unfold frame, len. cbn [length].
  repeat (rewrite length_app; cbn [length]). lia.
Qed.

(** A buffer ParsePacket does not refuse at once has the layout of a frame. *)
Lemma frame_exists buf :
  82 <= len buf →
  ∃ c s1 h s2 id s3 ns s4 rest,
    buf = frame c s1 h s2 id s3 ns s4 rest ∧
    length h = 8%nat ∧ length id = 4%nat ∧ length ns = 64%nat ∧ rest ≠ [].
Proof.
  unfold len. intros Hl.
  assert (Hcut : ∀ n (l : bytes), (n < length l)%nat →
    ∃ a x r, l = a ++ x :: r ∧ length a = n ∧ length r = (length l - n - 1)%nat).
  { intros n l Hn. destruct (lookup_lt_is_Some_2 l n Hn) as [x Hx].
    exists (take n l), x, (drop (S n) l). rewrite (take_drop_middle _ _ _ Hx).
    rewrite length_take, length_drop. split; [done|]. lia. }
  destruct buf as [|c [|s1 b]]; [simpl in *; lia..|]. simpl in Hl.
  destruct (Hcut 8%nat b) as (h & s2 & b2 & -> & Hh & Hb2); [lia|].
  destruct (Hcut 4%nat b2) as (id & s3 & b3 & -> & Hi & Hb3); [lia|].
  destruct (Hcut 64%nat b3) as (ns & s4 & rest & -> & Hn & Hr); [lia|].
  exists c, s1, h, s2, id, s3, ns, s4, rest. repeat split; try done.
  intros ->. simpl in Hr. lia.
Qed.

(** The check that fails first, for a packet of [n] bytes. *)
Definition parse_error (c s1 s2 s3 s4 : Byte.byte) (n : Z) : option ProtoErr :=
  if negb (commandIsValid c) then Some ErrInvalidCommandByte
  else if negb (s1 =b space) then Some ErrProtocolSpace1
  else if negb (s2 =b space) then Some ErrProtocolSpace2
  else if negb (s3 =b space) then Some ErrProtocolSpace3
  else if negb (s4 =b space) then Some ErrProtocolSpace3
  else if (PacketSize <? n) && negb (IsTcpOnlyCmd c) then Some ErrInvalidPacketSizeTooLarge
  else None.

(** The packet ParsePacket reads from a frame. *)
Definition frame_packet (c : Byte.byte) (h id ns rest : bytes) : Packet :=
  mkPacket c h (le_combine h) id (le_combine id) ns
    (pad 1419 (take 1419 rest)) None.

(** The side conditions of a slice of a frame. *)
Ltac frame_side :=
  subst; unfold frame, len, spaceIndex1, spaceIndex2, spaceIndex3, spaceIndex4 in *;
  repeat first [rewrite <- app_assoc | rewrite length_app | progress cbn [length app]];
  try done; try lia.

Lemma ParsePacket_frame c s1 h s2 id s3 ns s4 rest :
  length h = 8%nat → length id = 4%nat → length ns = 64%nat → rest ≠ [] →
  let buf := frame c s1 h s2 id s3 ns s4 rest in
  ParsePacket buf
  = Ret (Some (frame_packet c h id ns rest), parse_error c s1 s2 s3 s4 (len buf)).
Proof.
  intros Hh Hi Hn Hr buf.
  assert (Hlen : len buf = 81 + len rest) by (by apply frame_length).
  assert (1 <= len rest) by (destruct rest; [done | rewrite len_cons; pose proof (len_nonneg rest); lia]).
  assert (Hnorm : buf = c :: s1 :: h ++ s2 :: id ++ s3 :: ns ++ s4 :: rest) by done. clearbody buf.
  assert (S1 : slice buf (spaceIndex1 + 1) spaceIndex2 = Ret h).
  { apply (slice_at [c; s1] h (s2 :: id ++ s3 :: ns ++ s4 :: rest)); frame_side. }
  assert (S2 : slice buf (spaceIndex2 + 1) spaceIndex3 = Ret id).
  { apply (slice_at (c :: s1 :: h ++ [s2]) id (s3 :: ns ++ s4 :: rest)); frame_side. }
  assert (S3 : slice buf (spaceIndex3 + 1) spaceIndex4 = Ret ns).
  { apply (slice_at (c :: s1 :: h ++ s2 :: id ++ [s3]) ns (s4 :: rest)); frame_side. }
  assert (Hend : Z.min (len buf) PacketSize = 81 + len (take 1419 rest)).
  { rewrite Hlen. unfold PacketSize, len. rewrite length_take. lia. }
  assert (S4 : slice buf (spaceIndex4 + 1) (Z.min (len buf) PacketSize)
               = Ret (take 1419 rest)).
  { rewrite Hend. clear Hend Hlen.
    apply (slice_at (c :: s1 :: h ++ s2 :: id ++ s3 :: ns ++ [s4]) (take 1419 rest)
             (drop 1419 rest)); frame_side. by rewrite take_drop. }
  assert (I0 : index buf 0 = Ret c) by (by apply (index_at [] (s1 :: h ++ s2 :: id ++ s3 :: ns ++ s4 :: rest))).
  assert (I1 : index buf spaceIndex1 = Ret s1).
  { apply (index_at [c] (h ++ s2 :: id ++ s3 :: ns ++ s4 :: rest)); frame_side. }
  assert (I2 : index buf spaceIndex2 = Ret s2).
  { apply (index_at (c :: s1 :: h) (id ++ s3 :: ns ++ s4 :: rest)); frame_side. }
  assert (I3 : index buf spaceIndex3 = Ret s3).
  { apply (index_at (c :: s1 :: h ++ s2 :: id) (ns ++ s4 :: rest)); frame_side. }
  assert (I4 : index buf spaceIndex4 = Ret s4).
  { apply (index_at (c :: s1 :: h ++ s2 :: id ++ s3 :: ns) rest); frame_side. }
  unfold ParsePacket. rewrite (proj2 (Z.ltb_ge _ _)) by (unfold spaceIndex4; lia).
  rewrite S1, go_bind_Ret, S2, go_bind_Ret, S3, go_bind_Ret, S4, go_bind_Ret.
  rewrite PadRight_pad, go_bind_Ret, I0, go_bind_Ret.
  unfold Uint64FromBytes, Uint32FromBytes.
  rewrite LittleEndian_Uint64_exact, go_bind_Ret, LittleEndian_Uint32_exact, go_bind_Ret by done.
  rewrite I1, I2, I3, I4, !go_bind_Ret. fold (frame_packet c h id ns rest).
  unfold parse_error. by repeat case_match.
Qed.

Lemma ParsePacket_cases buf :
  (len buf < 82 ∧ ParsePacket buf = Ret (None, Some ErrInvalidPacketSizeTooSmall)) ∨
  (∃ c s1 h s2 id s3 ns s4 rest,
    buf = frame c s1 h s2 id s3 ns s4 rest ∧
    length h = 8%nat ∧ length id = 4%nat ∧ length ns = 64%nat ∧
    ParsePacket buf
    = Ret (Some (frame_packet c h id ns rest), parse_error c s1 s2 s3 s4 (len buf))).
Proof.
  destruct (Z.lt_ge_cases (len buf) 82) as [Hs|Hs].
  - left. split; [done|]. unfold ParsePacket.
    by rewrite (proj2 (Z.ltb_lt _ _)) by (unfold spaceIndex4; lia).
  - right. destruct (frame_exists buf Hs) as (c & s1 & h & s2 & id & s3 & ns & s4 & rest
      & -> & Hh & Hi & Hn & Hr).
    exists c, s1, h, s2, id, s3, ns, s4, rest. repeat split; try done.
    by apply ParsePacket_frame.
Qed.

(** C9. [ParsePacket] on every input: a buffer shorter than 82 bytes is
    refused without a packet; any other buffer has the packet layout, the
    fields of the packet are the bytes at their fixed positions (the data
    cut or padded to 1419 bytes), the error is the first check that fails,
    and nothing panics. *)
Theorem ParsePacket_spec buf :
  (len buf < 82 ∧ ParsePacket buf = Ret (None, Some ErrInvalidPacketSizeTooSmall)) ∨
  (∃ c s1 h s2 id s3 ns s4 rest,
    buf = frame c s1 h s2 id s3 ns s4 rest ∧
    length h = 8%nat ∧ length id = 4%nat ∧ length ns = 64%nat ∧
    ParsePacket buf
    = Ret (Some (frame_packet c h id ns rest), parse_error c s1 s2 s3 s4 (len buf))).
Proof. exact (ParsePacket_cases buf). Qed.

Corollary ParsePacket_returns buf : returns (ParsePacket buf).
Proof.
  destruct (ParsePacket_cases buf)
    as [[_ ->]|(c & s1 & h & s2 & id & s3 & ns & s4 & rest & _ & _ & _ & _ & ->)];
    unfold returns; eauto.
Qed.

(** The packet of a parsed buffer always has fields of the fixed sizes. *)
Record wf_packet (p : Packet) : Prop := {
  wf_hash : length (HashBytes p) = 8%nat;
  wf_id : length (MessageIDBytes p) = 4%nat;
  wf_ns : length (Namespace p) = 64%nat;
  wf_dv : length (DataValue p) = 1419%nat;
  wf_Hash : Hash p = le_combine (HashBytes p);
  wf_MessageID : MessageID p = le_combine (MessageIDBytes p)
}.

Lemma frame_packet_wf c h id ns rest :
  length h = 8%nat → length id = 4%nat → length ns = 64%nat →
  wf_packet (frame_packet c h id ns rest).
Proof.
  intros Hh Hi Hn. split; simpl; try done.
  rewrite pad_length, length_take. lia.
Qed.

Lemma ParsePacket_wf buf p e : ParsePacket buf = Ret (Some p, e) → wf_packet p.
Proof.
  destruct (ParsePacket_cases buf)
    as [[_ ->]|(c & s1 & h & s2 & id & s3 & ns & s4 & rest & _ & Hh & Hi & Hn & ->)];
    [done|]. intros [= <- _]. by apply frame_packet_wf.
Qed.

Lemma parse_error_clean c n :
  commandIsValid c = true → n <= PacketSize ∨ IsTcpOnlyCmd c = true →
  parse_error c space space space space n = None.
Proof.
  intros Hc Hn. unfold parse_error. rewrite Hc. simpl.
  destruct (PacketSize <? n) eqn:E; [|done].
  apply Z.ltb_lt in E. destruct Hn as [Hn|Hn]; [lia|]. by rewrite Hn.
Qed.

(** A clean packet on the wire is parsed field by field. *)
Lemma ParsePacket_wire c h id ns dv :
  length h = 8%nat → length id = 4%nat → length ns = 64%nat → length dv = 1419%nat →
  commandIsValid c = true →
  ParsePacket (wire c h id ns dv)
  = Ret (Some (mkPacket c h (le_combine h) id (le_combine id) ns dv None), None).
Proof.
  intros Hh Hi Hn Hd Hc. unfold wire. rewrite ParsePacket_frame; try done.
  - unfold frame_packet. rewrite take_ge, pad_full by lia.
    rewrite parse_error_clean; [done..|]. left.
    rewrite frame_length by done. unfold len. rewrite Hd. done.
  - intros ->. discriminate.
Qed.

Lemma Bytes_eq p :
  (8 ≤ length (HashBytes p))%nat → (4 ≤ length (MessageIDBytes p))%nat →
  Bytes p
  = Ret (wire (Command p) (take 8 (HashBytes p)) (take 4 (MessageIDBytes p))
           (pad 64 (Namespace p)) (pad 1419 (DataValue p)),
         if ((length (Namespace p) <=? 64) && (length (DataValue p) <=? 1419))%nat
            || IsTcpOnlyCmd (Command p)
         then None else Some ErrBadOutputSize).
Proof.
  intros Hh Hi. unfold Bytes, bytes_of.
  rewrite !(proj2 (Z.ltb_ge _ _)) by (unfold len; lia).
  autorewrite with proto. rewrite !go_bind_Ret.
  set (ns := pad (Z.to_nat NamespaceSize) (Namespace p)).
  set (dv := pad (Z.to_nat DataValueSize) (DataValue p)).
  set (out := (([Command p; space] ++ _) ++ ns) ++ _).
  assert (Hout : out ++ dv = wire (Command p) (take 8 (HashBytes p))
                               (take 4 (MessageIDBytes p)) ns dv).
  { unfold out, wire, frame. cbn [app]. rewrite <- !app_assoc. cbn [app].
    by rewrite <- !app_assoc. }
  assert (Hlen : len (out ++ dv) = 17 + len ns + len dv).
  { rewrite Hout. unfold wire, frame, len. cbn [length].
    repeat (rewrite length_app; cbn [length]). rewrite !length_take. lia. }
  rewrite Hlen, Hout.
  assert (Hns : len ns = Z.max 64 (len (Namespace p)))
    by (unfold len, ns; rewrite pad_length; unfold NamespaceSize; lia).
  assert (Hdv : len dv = Z.max 1419 (len (DataValue p)))
    by (unfold len, dv; rewrite pad_length; unfold DataValueSize; lia).
  rewrite Hns, Hdv. unfold len, PacketSize.
  destruct (IsTcpOnlyCmd (Command p)); [by rewrite andb_false_r, orb_true_r|].
  rewrite andb_true_r, orb_false_r.
  destruct (Nat.leb_spec (length (Namespace p)) 64);
    destruct (Nat.leb_spec (length (DataValue p)) 1419); simpl;
    destruct (Z.eqb_spec (17 + Z.max 64 (Z.of_nat (length (Namespace p)))
                + Z.max 1419 (Z.of_nat (length (DataValue p)))) 1500); simpl; done || lia.
Qed.

(** *** Accepted packets *)

Lemma parse_error_None c s1 s2 s3 s4 n :
  parse_error c s1 s2 s3 s4 n = None →
  commandIsValid c = true ∧ s1 = space ∧ s2 = space ∧ s3 = space ∧ s4 = space ∧
  (n <= PacketSize ∨ IsTcpOnlyCmd c = true).
Proof.
  unfold parse_error. destruct (commandIsValid c); [|done]. cbn [negb].
  repeat (match goal with |- context [?x =b space] => destruct (x =b space) eqn:? end; [|done]; cbn [negb]).
  rewrite !byte_eqb_eq in *. destruct (Z.ltb_spec PacketSize n); [|by auto 10].
  destruct (IsTcpOnlyCmd c); [by auto 10|done].
Qed.

Lemma pad_take n l : pad n (take n l) = take n (pad n l).
Proof.
  unfold pad. rewrite length_take. destruct (Nat.le_ge_cases n (length l)).
  - replace (n - Nat.min n (length l))%nat with 0%nat by lia.
    by rewrite app_nil_r, take_app_le.
  - rewrite Nat.min_r, (take_ge l), (take_ge (l ++ _)) by (rewrite ?length_app, ?length_replicate; lia). done.
Qed.

(** The bytes before the data of a frame. *)
Lemma frame_head c s1 h s2 id s3 ns s4 :
  length h = 8%nat → length id = 4%nat → length ns = 64%nat →
  ∃ head, length head = 81%nat ∧ ∀ rest, frame c s1 h s2 id s3 ns s4 rest = head ++ rest.
Proof.
  intros Hh Hi Hn. exists (frame c s1 h s2 id s3 ns s4 []). split.
  - pose proof (frame_length c s1 h s2 id s3 ns s4 [] Hh Hi Hn) as E. unfold len in E. simpl length in E at 2. lia.
  - intros rest. unfold frame. cbn. do 2 f_equal. rewrite <- app_assoc. cbn. do 2 f_equal.
    rewrite <- app_assoc. cbn. do 2 f_equal. by rewrite <- app_assoc.
Qed.

(** C10. What [ParsePacket] accepts is well typed and in normal form: the
    fields have their sizes, hash and message id are the numbers of their
    bytes, and formatting the packet gives back the bytes it was parsed from,
    padded with spaces and cut to 1500 bytes, which parse to the same packet. *)
Theorem accepted_packets_print_back buf p :
  ParsePacket buf = Ret (Some p, None) →
  wf_packet p ∧ commandIsValid (Command p) = true ∧
  let b := take 1500 (pad 1500 buf) in
  Bytes p = Ret (b, None) ∧ ParsePacket b = Ret (Some p, None).
Proof.
  intros Hp. pose proof (ParsePacket_wf buf p None Hp) as Hwf. split; [done|].
  destruct (ParsePacket_cases buf) as [[_ E]|(c & s1 & h & s2 & id & s3 & ns & s4 & rest & -> & Hh & Hi & Hn & E)];
    rewrite E in Hp; [done|]. injection Hp as <- He.
  apply parse_error_None in He as (Hc & -> & -> & -> & -> & _). split; [done|]. cbn zeta.
  assert (Hb : take 1500 (pad 1500 (frame c space h space id space ns space rest))
               = wire c h id ns (pad 1419 (take 1419 rest))).
  { destruct (frame_head c space h space id space ns space Hh Hi Hn) as (head & Hl & Hhead).
    unfold wire. rewrite !Hhead, pad_take. unfold pad. rewrite <- app_assoc, length_app, Hl.
    rewrite take_app_ge by lia. by rewrite Hl. }
  rewrite Hb. split.
  - destruct Hwf as [_ _ _ Hdv _ _]. rewrite Bytes_eq by (simpl; lia). 
    unfold frame_packet in *. cbn [HashBytes MessageIDBytes Namespace DataValue Command] in *.
    rewrite Hn, Hdv, pad_idemp, (pad_full 64), (take_ge h), (take_ge id) by lia. done.
  - rewrite ParsePacket_wire by (try done; apply (wf_dv _ Hwf)). done.
Qed.

(** ** Authentication *)

Section AuthLaws.
Context `{X : XXHash} {digest : bytes} {L : XXHashLaws digest}.

Lemma HashPacket_eq p psk :
  HashPacket p psk = psk ++ MessageIDBytes p ++ Namespace p ++ DataValue p ++ digest.
Proof. unfold HashPacket. rewrite Sum_appends. by rewrite <- !app_assoc. Qed.

(** What the eight hash bytes of a packet hold. *)
Definition sig (psk id ns dv : bytes) : bytes :=
  take 8 (psk ++ id ++ ns ++ dv ++ digest).

Lemma sig_length psk id ns dv : length (sig psk id ns dv) = 8%nat.
Proof.
  unfold sig. rewrite length_take, !length_app, (digest_length (digest := digest)). lia.
Qed.

Lemma HashPacket_long p psk : (8 ≤ length (HashPacket p psk))%nat.
Proof.
  rewrite HashPacket_eq, !length_app, (digest_length (digest := digest)). lia.
Qed.

Lemma Uint64FromBytes_HashPacket p psk :
  Uint64FromBytes (HashPacket p psk)
  = Ret (le_combine (sig psk (MessageIDBytes p) (Namespace p) (DataValue p))).
Proof.
  pose proof (HashPacket_long p psk).
  unfold Uint64FromBytes, LittleEndian_Uint64.
  rewrite (proj2 (Z.ltb_ge _ _)) by (unfold len; lia). by rewrite HashPacket_eq.
Qed.

Lemma SetHash_eq p psk :
  SetHash p psk
  = Ret (set_Hash (HashPacket p psk)
           (le_combine (sig psk (MessageIDBytes p) (Namespace p) (DataValue p))) p).
Proof. unfold SetHash. by rewrite Uint64FromBytes_HashPacket. Qed.

Lemma Validate_eq p psk :
  Validate p psk
  = Ret (if Hash p =? le_combine (sig psk (MessageIDBytes p) (Namespace p) (DataValue p))
         then None else Some ErrBadHash).
Proof.
  unfold Validate. rewrite Uint64FromBytes_HashPacket, go_bind_Ret.
  by destruct (_ =? _).
Qed.

(** The packet the constructor builds. *)
Definition parts_packet (cmd : Byte.byte) (id ns dv psk : bytes) : Packet :=
  let ns := pad 64 ns in
  let dv := pad 1419 dv in
  mkPacket cmd (psk ++ id ++ ns ++ dv ++ digest) (le_combine (sig psk id ns dv))
    id (le_combine (take 4 id)) ns dv None.

Lemma NewPacketFromParts_eq cmd id ns dv psk :
  (4 ≤ length id)%nat →
  NewPacketFromParts cmd id ns dv psk = Ret (parts_packet cmd id ns dv psk).
Proof.
  intros Hi. unfold NewPacketFromParts, Uint32FromBytes, LittleEndian_Uint32.
  rewrite (proj2 (Z.ltb_ge _ _)) by (unfold len; lia).
  rewrite go_bind_Ret. autorewrite with proto. rewrite !go_bind_Ret, SetHash_eq.
  by rewrite HashPacket_eq.
Qed.

(** The datagram of a packet built from parts. *)
Definition datagram (cmd : Byte.byte) (id ns dv psk : bytes) : bytes :=
  wire cmd (sig psk id (pad 64 ns) (pad 1419 dv)) id (pad 64 ns) (pad 1419 dv).

Lemma Bytes_parts cmd id ns dv psk :
  length id = 4%nat →
  Bytes (parts_packet cmd id ns dv psk)
  = Ret (datagram cmd id ns dv psk,
         if ((length ns <=? 64) && (length dv <=? 1419))%nat || IsTcpOnlyCmd cmd
         then None else Some ErrBadOutputSize).
Proof.
  intros Hi. rewrite Bytes_eq; simpl; [|by rewrite !length_app, (digest_length (digest := digest)); lia | lia].
  rewrite !pad_idemp, (take_ge id) by lia. unfold datagram, sig.
  rewrite !pad_length.
  destruct (Nat.leb_spec (length ns) 64); destruct (Nat.leb_spec (length dv) 1419);
    destruct (Nat.leb_spec (Nat.max 64 (length ns)) 64);
    destruct (Nat.leb_spec (Nat.max 1419 (length dv)) 1419); done || lia.
Qed.

(** The packet parsed from a datagram. *)
Definition parsed_packet (cmd : Byte.byte) (id ns dv psk : bytes) : Packet :=
  mkPacket cmd (sig psk id (pad 64 ns) (pad 1419 dv))
    (le_combine (sig psk id (pad 64 ns) (pad 1419 dv)))
    id (le_combine id) (pad 64 ns) (pad 1419 dv) None.

Lemma datagram_length cmd id ns dv psk :
  length id = 4%nat → (length ns ≤ 64)%nat → (length dv ≤ 1419)%nat →
  len (datagram cmd id ns dv psk) = PacketSize.
Proof.
  intros Hi Hn Hd. unfold datagram, wire. rewrite frame_length; try done.
  - unfold len. rewrite pad_length. unfold PacketSize. lia.
  - apply sig_length.
  - rewrite pad_length. lia.
Qed.

Lemma ParsePacket_datagram cmd id ns dv psk :
  length id = 4%nat → (length ns ≤ 64)%nat → (length dv ≤ 1419)%nat →
  commandIsValid cmd = true →
  ParsePacket (datagram cmd id ns dv psk)
  = Ret (Some (parsed_packet cmd id ns dv psk), None).
Proof.
  intros Hi Hn Hd Hc. unfold datagram.
  rewrite ParsePacket_wire; try done; rewrite ?sig_length, ?pad_length; try done; lia.
Qed.

Lemma Validate_parsed cmd id ns dv psk :
  Validate (parsed_packet cmd id ns dv psk) psk = Ret None.
Proof. rewrite Validate_eq. simpl. by rewrite Z.eqb_refl. Qed.

(** C8. Round trip: a packet built from parts that fit is formatted to
    exactly 1500 bytes without an error; parsing those bytes gives back the
    command, the message id, and the trimmed namespace and data, and the
    parsed packet authenticates under the key it was built with. *)
Theorem packet_roundtrip cmd id ns dv psk :
  length id = 4%nat → (length ns ≤ 64)%nat → (length dv ≤ 1419)%nat →
  commandIsValid cmd = true →
  ∃ p b q,
    NewPacketFromParts cmd id ns dv psk = Ret p ∧
    Bytes p = Ret (b, None) ∧ len b = PacketSize ∧
    ParsePacket b = Ret (Some q, None) ∧
    Command q = cmd ∧ MessageIDBytes q = id ∧ MessageID q = MessageID p ∧
    NamespaceString q = TrimSpace ns ∧ DataValueString q = TrimSpace dv ∧
    Validate q psk = Ret None.
Proof.
  intros Hi Hn Hd Hc.
  exists (parts_packet cmd id ns dv psk), (datagram cmd id ns dv psk),
    (parsed_packet cmd id ns dv psk).
  rewrite NewPacketFromParts_eq by lia.
  rewrite Bytes_parts by done. rewrite !(proj2 (Nat.leb_le _ _)) by done.
  rewrite datagram_length, ParsePacket_datagram, Validate_parsed by done.
  unfold NamespaceString, DataValueString. simpl.
  rewrite !TrimSpace_padded, take_ge by lia. done.
Qed.

(** The formatter reports a wrong size exactly when the namespace or
    the data is longer than its field and the command is not one of the
    TCP-only commands, which are sent at any size. *)
Theorem Bytes_rejects_oversize cmd id ns dv psk :
  length id = 4%nat →
  ∃ p b e,
    NewPacketFromParts cmd id ns dv psk = Ret p ∧ Bytes p = Ret (b, e) ∧
    (e = Some ErrBadOutputSize ↔
     ((64 < length ns)%nat ∨ (1419 < length dv)%nat) ∧ IsTcpOnlyCmd cmd = false) ∧
    (e = None ∨ e = Some ErrBadOutputSize).
Proof.
  intros Hi. eexists _, _, _. split; [by apply NewPacketFromParts_eq; lia|].
  split; [by apply Bytes_parts|].
  destruct (Nat.leb_spec (length ns) 64); destruct (Nat.leb_spec (length dv) 1419);
    destruct (IsTcpOnlyCmd cmd); simpl; (split; [|by auto]); split; intros; try done;
    destruct_and?; try done; try lia; (split; [|done]); lia.
Qed.

(** C21. What the hash authenticates: [HashPacket] does not return the
    eight bytes of a digest but the whole input followed by the digest of
    nothing, eight bytes that are always the same. So the eight bytes the
    code keeps are the first eight bytes of key, message id, namespace and
    data. Under a key of eight bytes or more a packet is accepted exactly when
    its hash field holds the first eight bytes of the key, whatever its
    message id, namespace and data. *)
Theorem Validate_checks_key_prefix_only p psk :
  (8 ≤ length psk)%nat →
  HashPacket p psk = psk ++ MessageIDBytes p ++ Namespace p ++ DataValue p ++ digest ∧
  length digest = 8%nat ∧
  length (HashPacket p psk)
    = (length psk + length (MessageIDBytes p) + length (Namespace p)
       + length (DataValue p) + 8)%nat ∧
  (Validate p psk = Ret None ↔ Hash p = le_combine (take 8 psk)) ∧
  (Validate p psk = Ret (Some ErrBadHash) ↔ Hash p ≠ le_combine (take 8 psk)).
Proof.
  intros Hk. rewrite HashPacket_eq. split; [done|]. split; [apply digest_length|].
  rewrite !length_app, (digest_length (digest := digest)). split; [lia|]. rewrite Validate_eq. unfold sig. rewrite take_app_le by done.
  destruct (Z.eqb_spec (Hash p) (le_combine (take 8 psk))); naive_solver.
Qed.

(** C22. Tampering goes unnoticed and the key leaks: the datagram of any
    packet built under a key of eight bytes or more carries the first eight
    bytes of the key in clear, and replacing its command, message id,
    namespace and data by any others gives a datagram that still parses and
    authenticates. *)
Theorem tampered_packet_authenticates cmd id ns dv psk cmd' id' ns' dv' :
  (8 ≤ length psk)%nat →
  length id = 4%nat → length id' = 4%nat → length ns' = 64%nat →
  length dv' = 1419%nat → commandIsValid cmd' = true →
  ∃ h tail,
    datagram cmd id ns dv psk = [cmd; space] ++ h ++ tail ∧ h = take 8 psk ∧
    ∃ q, ParsePacket (wire cmd' h id' ns' dv') = Ret (Some q, None) ∧
      Command q = cmd' ∧ MessageIDBytes q = id' ∧ Namespace q = ns' ∧ DataValue q = dv' ∧
      Validate q psk = Ret None.
Proof.
  intros Hk Hi Hi' Hn' Hd' Hc'. exists (take 8 psk). eexists. split.
  { unfold datagram, wire, frame, sig. rewrite take_app_le by done. reflexivity. }
  split; [done|]. eexists. split.
  { apply ParsePacket_wire; try done. rewrite length_take. lia. }
  simpl. repeat split; try done.
  rewrite Validate_eq. simpl. unfold sig. rewrite take_app_le by done.
  by rewrite Z.eqb_refl.
Qed.

(** A hash that differs from the expected one is refused. *)
Lemma Validate_rejects cmd id ns dv psk psk' :
  length id = 4%nat →
  sig psk id (pad 64 ns) (pad 1419 dv) ≠ sig psk' id (pad 64 ns) (pad 1419 dv) →
  Validate (parsed_packet cmd id ns dv psk) psk' = Ret (Some ErrBadHash).
Proof.
  intros Hi Hne. rewrite Validate_eq. simpl.
  destruct (Z.eqb_spec (le_combine (sig psk id (pad 64 ns) (pad 1419 dv)))
              (le_combine (sig psk' id (pad 64 ns) (pad 1419 dv)))) as [E|E]; [|done].
  destruct Hne. eapply le_combine_inj; [|exact E]. by rewrite !sig_length.
Qed.

(** Wrong keys: a packet built under one key of eight bytes or more is
    refused by a server with another such key when the keys differ in their
    first eight bytes, and accepted when they agree there, even if the keys
    differ. *)
Theorem Validate_wrong_key cmd id ns dv psk psk' :
  length id = 4%nat → (8 ≤ length psk)%nat → (8 ≤ length psk')%nat →
  Validate (parsed_packet cmd id ns dv psk) psk'
  = Ret (if decide (take 8 psk = take 8 psk') then None else Some ErrBadHash).
Proof.
  intros Hi H1 H2. case_decide as E.
  - rewrite Validate_eq. simpl. unfold sig. rewrite !take_app_le by done.
    by rewrite E, Z.eqb_refl.
  - apply Validate_rejects; [done|]. unfold sig. by rewrite !take_app_le.
Qed.
End AuthLaws.

Arguments sig {digest} psk id ns dv.
Arguments parts_packet {digest} cmd id ns dv psk.
Arguments datagram {digest} cmd id ns dv psk.
Arguments parsed_packet {digest} cmd id ns dv psk.

(** ** Witnesses

    The hasher of [Concrete] and a key of eleven bytes. *)
Module ProtocolWitness.
Import Concrete.

Definition secret : bytes := str "supersecret".
Definition id1 : bytes := [x17; x68; x03; x00].

Lemma packet_roundtrip_witness :
  ∃ p b q,
    NewPacketFromParts "C"%byte id1 (str "willy_nilly") (str "random") secret = Ret p ∧
    Bytes p = Ret (b, None) ∧ len b = PacketSize ∧
    ParsePacket b = Ret (Some q, None) ∧
    Command q = "C"%byte ∧ MessageIDBytes q = id1 ∧ MessageID q = MessageID p ∧
    NamespaceString q = str "willy_nilly" ∧ DataValueString q = str "random" ∧
    Validate q secret = Ret None.
Proof.
  apply (packet_roundtrip (digest := empty_digest) "C"%byte id1 (str "willy_nilly")
           (str "random") secret); try reflexivity; vm_compute; lia.
Defined.

(** A short packet for the server to accept. *)
Definition short_packet : bytes := wire CmdPut (str "12345678") id1 (pad 64 (str "ns")) (str "key").

Lemma accepted_packets_print_back_witness :
  ∃ p, ParsePacket short_packet = Ret (Some p, None) ∧ wf_packet p ∧
    Bytes p = Ret (pad 1500 short_packet, None).
Proof.
  eexists. assert (E : ParsePacket short_packet = Ret (Some (frame_packet CmdPut (str "12345678") id1
    (pad 64 (str "ns")) (str "key")), None)) by (vm_compute; reflexivity).
  split; [exact E|]. destruct (accepted_packets_print_back _ _ E) as (Hwf & _ & Hb & _).
  split; [exact Hwf|]. rewrite Hb. vm_compute. reflexivity.
Defined.

Lemma Bytes_rejects_oversize_witness :
  ∃ p b, NewPacketFromParts "C"%byte id1 (replicate 65 space) [] secret = Ret p ∧
    Bytes p = Ret (b, Some ErrBadOutputSize).
Proof.
  destruct (Bytes_rejects_oversize (digest := empty_digest) "C"%byte id1 (replicate 65 space)
              [] secret eq_refl) as (p & b & e & Hp & Hb & He & _).
  exists p, b. split; [exact Hp|]. rewrite Hb. f_equal. f_equal. apply He.
  split; [left; vm_compute; lia | reflexivity].
Defined.

Lemma Validate_checks_key_prefix_only_witness :
  Validate (mkPacket "P"%byte [] (le_combine (str "supersec")) id1 0 [] (str "forged") None) secret
  = Ret None.
Proof.
  destruct (Validate_checks_key_prefix_only (digest := empty_digest)
    (mkPacket "P"%byte [] (le_combine (str "supersec")) id1 0 [] (str "forged") None) secret)
    as (_ & _ & _ & [_ H] & _); [vm_compute; lia|].
  apply H. reflexivity.
Defined.

Lemma tampered_packet_authenticates_witness :
  ∃ h tail,
    datagram (digest := empty_digest) "C"%byte id1 (str "ns") (str "key") secret
      = [("C"%byte : Byte.byte); space] ++ h ++ tail ∧
    h = str "supersec" ∧
    ∃ q, ParsePacket (wire "P"%byte h id1 (pad 64 (str "other")) (pad 1419 (str "forged")))
           = Ret (Some q, None) ∧
      Command q = "P"%byte ∧ MessageIDBytes q = id1 ∧ Namespace q = pad 64 (str "other") ∧
      DataValue q = pad 1419 (str "forged") ∧ Validate q secret = Ret None.
Proof.
  apply (tampered_packet_authenticates (digest := empty_digest)); try reflexivity.
  vm_compute. lia.
Defined.

Lemma Validate_wrong_key_witness :
  Validate (parsed_packet (digest := empty_digest) "C"%byte id1 [] [] secret) (str "Brute-Force9")
    = Ret (Some ErrBadHash) ∧
  Validate (parsed_packet (digest := empty_digest) "C"%byte id1 [] [] secret) (str "supersection")
    = Ret None.
Proof.
  split.
  - rewrite (Validate_wrong_key (digest := empty_digest)); [reflexivity|reflexivity|..];
      vm_compute; lia.
  - rewrite (Validate_wrong_key (digest := empty_digest)); [reflexivity|reflexivity|..];
      vm_compute; lia.
Defined.
End ProtocolWitness.
