(* ===== verification/Env.v ===== *)
(** * State, the clock and the random order of keys

    Stateful code is written in the state monad [M St]: a function from the
    component's state and the number of environment events that have happened
    to a result and the new pair. There are two kinds of events: reading the
    clock, and asking a hash map for its keys, whose random order the event's
    number selects. [clock i] is the value of [time.Now().Unix()] when event
    [i] reads the clock. *)
From Stdlib Require Import ZArith Lia FunctionalExtensionality.
From stdpp Require Import base list.
From S2P Require Import Prelude.
Local Open Scope Z_scope.

Class Clock := clock : nat → Z.

(** The clock does not run backwards. *)
Class ClockMono `{Clock} : Prop := clock_mono i j : (i ≤ j)%nat → clock i <= clock j.

(** The clock and a time to live fit in [int64] together, so adding them does
    not wrap around. *)
Class ClockFits `{Clock} (ttl : Z) : Prop :=
  clock_fits i : - 2 ^ 63 <= clock i + ttl < 2 ^ 63.

(** Milliseconds between two events, [time.Since(start).Milliseconds()]. *)
Class Stopwatch := elapsed_ms : nat → nat → Z.

(** The random order of a [range] over a built-in map. *)
Class RangeOrder := range_order : ∀ A : Type, nat → list A → list A.
Arguments range_order {_ A} seed l.
Class RangeOrderLaws `{RangeOrder} : Prop :=
  range_order_Permutation (A : Type) n (l : list A) : range_order n l ≡ₚ l.

(** Whether the write to a socket that is event [n] succeeds. *)
Class Network := {
  udp_write_ok : nat → bool;
  tcp_write_ok : nat → bool
}.

(** [rand.Intn(l)]: event [n] makes the choice. *)
Class Rand := Intn : nat → nat → nat.
Class RandLaws `{Rand} : Prop := Intn_lt n l : (0 < l)%nat → (Intn n l < l)%nat.

Definition M (St A : Type) : Type := St * nat → A * (St * nat).

#[global] Instance M_ret {St} : MRet (M St) := λ A a σ, (a, σ).
#[global] Instance M_bind {St} : MBind (M St) := λ A B f m σ,
  let '(a, σ') := m σ in f a σ'.

(** [time.Now().Unix()] *)
Definition now `{Clock} {St} : M St Z := λ '(s, n), (clock n, (s, S n)).
(** The number of the next event, consumed as the seed of a random choice. *)
Definition seed {St} : M St nat := λ '(s, n), (n, (s, S n)).

Definition get {St} : M St St := λ '(s, n), (s, (s, n)).
Definition put {St} (s : St) : M St unit := λ '(_, n), (tt, (s, n)).
Definition modify {St} (f : St → St) : M St unit := λ '(s, n), (tt, (f s, n)).

Lemma M_bind_eq {St A B} (m : M St A) (f : A → M St B) σ a σ' :
  m σ = (a, σ') → (x ← m; f x) σ = f a σ'.
Proof. intros H. unfold mbind, M_bind. by rewrite H. Qed.

(** A run from its result. *)
Lemma M_result {A B C} (r : A * (B * C)) a : r.1 = a → ∃ b c, r = (a, (b, c)).
Proof. destruct r as [a' [b c]]. intros <-. by exists b, c. Qed.

Lemma M_bind_ret {St A B} (a : A) (f : A → M St B) : (x ← mret a; f x) = f a.
Proof. done. Qed.

Lemma M_bind_ext {St A B} (m : M St A) (f g : A → M St B) :
  (∀ a, f a = g a) → (x ← m; f x) = (x ← m; g x).
Proof. intros E. f_equal. by apply functional_extensionality. Qed.

Lemma M_bind_assoc {St A B C} (m : M St A) (f : A → M St B) (g : B → M St C) :
  (y ← (x ← m; f x); g y) = (x ← m; y ← f x; g y).
Proof.
  apply functional_extensionality. intros σ. unfold mbind, M_bind. by destruct (m σ).
Qed.

(** ** State with panics

    [G St] adds Go's panics to [M St]. *)

Definition G (St A : Type) : Type := St * nat → go (A * (St * nat)).

#[global] Instance G_ret {St} : MRet (G St) := λ A a σ, Ret (a, σ).
#[global] Instance G_bind {St} : MBind (G St) := λ A B f m σ,
  match m σ with Ret (a, σ') => f a σ' | Panic => Panic end.

(** A step that cannot panic, and a step that only can. *)
Definition liftM {St A} (m : M St A) : G St A := λ σ, Ret (m σ).
Definition liftgo {St A} (m : go A) : G St A := λ σ,
  match m with Ret a => Ret (a, σ) | Panic => Panic end.

Lemma G_bind_eq {St A B} (m : G St A) (f : A → G St B) σ a σ' :
  m σ = Ret (a, σ') → (x ← m; f x) σ = f a σ'.
Proof. intros H. unfold mbind, G_bind. by rewrite H. Qed.

Lemma G_bind_inv {St A B} (m : G St A) (f : A → G St B) σ b σ' :
  (x ← m; f x) σ = Ret (b, σ') → ∃ a σ1, m σ = Ret (a, σ1) ∧ f a σ1 = Ret (b, σ').
Proof. unfold mbind, G_bind. destruct (m σ) as [[a σ1]|]; [eauto | done]. Qed.

Lemma G_bind_lift {St A B} (m : M St A) (f : A → G St B) σ :
  (x ← liftM m; f x) σ = f (m σ).1 (m σ).2.
Proof. unfold mbind, G_bind, liftM. by destruct (m σ). Qed.

Lemma G_bind_go {St A B} (a : A) (f : A → G St B) σ : (x ← liftgo (Ret a); f x) σ = f a σ.
Proof. done. Qed.

(** ** A clock for witnesses: from 1000, it ticks at every other event up to
    2000. *)
Module ConcreteClock.
#[export] Instance clk : Clock := λ n, 1000 + Z.min 1000 (Z.of_nat n / 2).

#[export] Instance clk_mono : ClockMono.
Proof.
  intros i j H. unfold clock, clk. apply Z.add_le_mono_l, Z.min_le_compat_l, Z.div_le_mono; lia.
Qed.

Lemma clk_range i : 1000 <= clock i <= 2000.
Proof.
  unfold clock, clk. pose proof (Z.div_pos (Z.of_nat i) 2 ltac:(lia) ltac:(lia)). lia.
Qed.

Lemma clk_fits ttl : 0 <= ttl < 2 ^ 62 → ClockFits ttl.
Proof. intros H i. pose proof (clk_range i). lia. Qed.

(** A stopped clock. *)
Definition stopped (t : Z) : Clock := λ _, t.

Lemma stopped_mono t : @ClockMono (stopped t).
Proof. intros i j _. unfold clock, stopped. lia. Qed.

#[export] Instance stopwatch : Stopwatch := λ i j, 10 * (Z.of_nat j - Z.of_nat i).

#[export] Instance reversed : RangeOrder := λ A n l, if Nat.even n then l else reverse l.

#[export] Instance reversed_laws : RangeOrderLaws.
Proof.
  intros A n l. unfold range_order, reversed.
  destruct (Nat.even n); [done | apply reverse_Permutation].
Qed.

#[export] Instance modulo : Rand := λ n l, (n mod l)%nat.

#[export] Instance modulo_laws : RandLaws.
Proof. intros n l Hl. unfold Intn, modulo. apply Nat.mod_upper_bound. lia. Qed.
End ConcreteClock.
