(* ===== verification/Tree.v ===== *)
(** * The expiring key tree: [src/store/tree/tree.go]

    A [Tree] maps each key to the expiry times of its entries, in a red-black
    tree. Expired entries are dropped when a key is touched. *)
From Stdlib Require Import ZArith Lia Strings.Byte.
From stdpp Require Import base gmap list strings sorting.
From coqutil Require Import Byte.
From S2P Require Import Prelude GoStd Deps Env.
Local Open Scope Z_scope.
Local Open Scope go_scope.

Section Tree.
Context {T : Type → Type} {RB : RedBlackTree T} {CK : Clock} {RE : Regexp}.

Record Tree := mkTree {
  defaultExpireAfterSecs : Z;
  tree : T (list Z)
}.

Definition NewTree (expireAfterSecs : Z) : Tree := mkTree expireAfterSecs rb_New.

Definition tree_Put (k : bytes) (dates : list Z) : M Tree unit :=
  modify (λ n, mkTree (defaultExpireAfterSecs n) (rb_Put (tree n) k dates)).
Definition tree_Remove (k : bytes) : M Tree unit :=
  modify (λ n, mkTree (defaultExpireAfterSecs n) (rb_Remove (tree n) k)).

(** The loop of [removeExpired]. *)
Definition removeExpired_loop (currentTime : Z) (datesSecs : list Z) : list Z :=
  fold_left (λ out removeAt, if currentTime <? removeAt then out ++ [removeAt] else out)
    datesSecs [].

Definition removeExpired (datesSecs : list Z) : M Tree (list Z) :=
  if len datesSecs =? 0 then mret datesSecs
  else
    currentTime ← now;
    mret (removeExpired_loop currentTime datesSecs).

Definition getAndCleanupUnsafe (entryKey : bytes) : M Tree (option (list Z)) :=
  n ← get;
  match rb_Get (tree n) entryKey with
  | None => mret None
  | Some dates =>
      if len dates =? 0 then tree_Remove entryKey;; mret None
      else mret (Some dates)
  end.

Definition Count (entryKey : bytes) : M Tree Z :=
  datesSecs ← getAndCleanupUnsafe entryKey;
  match datesSecs with
  | None => mret 0
  | Some datesSecs =>
      if len datesSecs =? 0 then tree_Remove entryKey;; mret 0
      else
        datesSecs ← removeExpired datesSecs;
        let count := len datesSecs in
        tree_Put entryKey datesSecs;;
        mret count
  end.

Definition Put (entryKey : bytes) : M Tree unit :=
  datesSecs ← getAndCleanupUnsafe entryKey;
  let datesSecs := match datesSecs with None => [] | Some d => d end in
  datesSecs ← removeExpired datesSecs;
  secs ← now;
  n ← get;
  let nextDatesSecs := datesSecs ++ [i64 (secs + defaultExpireAfterSecs n)] in
  tree_Put entryKey nextDatesSecs.

(** The loop of [Keys] over the keys fetched at its start. *)
Fixpoint Keys_loop (keys : list bytes) (outKeys : list bytes) (outCount : Z)
    : M Tree (list bytes * Z) :=
  match keys with
  | [] => mret (outKeys, outCount)
  | key :: keys' =>
      keyCount ← Count key;
      let outCount := outCount + keyCount in
      if keyCount =? 0 then Keys_loop keys' outKeys outCount
      else Keys_loop keys' (outKeys ++ [key]) outCount
  end.

Definition Keys : M Tree (list bytes * Z) :=
  n ← get;
  let keysI := rb_Keys (tree n) in
  Keys_loop keysI [] 0.

(** The loop of [KeyMatch]: [k] is the key the iterator was at, and the
    iterator moves on before [k] is counted. *)
Fixpoint KeyMatch_loop (fuel : nat) (MatchString : bytes → bool)
    (position : option bytes) (out : list bytes) : M Tree (list bytes) :=
  match position, fuel with
  | Some k, S fuel' =>
      n ← get;
      let next := rb_Next (tree n) (Some k) in
      if MatchString k
      then
        c ← Count k;
        KeyMatch_loop fuel' MatchString next (if 0 <? c then out ++ [k] else out)
      else KeyMatch_loop fuel' MatchString next out
  | _, _ => mret out
  end.

(** [(^|$|.+)], what a star of the pattern stands for. *)
Definition star : bytes := str "(^|$|.+)".

Definition KeyMatch (keyPattern : bytes) : M Tree (list bytes) :=
  match Compile (ReplaceAll keyPattern x2a star) with
  | inl err => mret [err]
  | inr re =>
      n ← get;
      let fuel := length (rb_Keys (tree n)) in
      KeyMatch_loop fuel re (rb_Next (tree n) None) []
  end.
End Tree.

Arguments Tree T : clear implicits.

(** * Properties *)

(** The entries of a list that expire after time [t]. *)
Definition live (t : Z) (l : list Z) : list Z := filter (λ e, t < e) l.

Lemma live_live t t' l : t' <= t → live t (live t' l) = live t l.
Proof.
  intros H. unfold live. rewrite list_filter_filter. apply list_filter_iff. lia.
Qed.

Lemma live_app t l1 l2 : live t (l1 ++ l2) = live t l1 ++ live t l2.
Proof. apply filter_app. Qed.

Lemma live_mono_length t t' l : t' <= t → (length (live t l) ≤ length (live t' l))%nat.
Proof. intros H. rewrite <- (live_live t t' l H). apply length_filter. Qed.

Lemma removeExpired_loop_live currentTime l :
  removeExpired_loop currentTime l = live currentTime l.
Proof.
  unfold removeExpired_loop.
  assert (H : ∀ out, fold_left (λ out removeAt,
                if currentTime <? removeAt then out ++ [removeAt] else out) l out
              = out ++ live currentTime l); [|apply (H [])].
  induction l as [|e l IH]; intros out; simpl.
  - by rewrite app_nil_r.
  - rewrite IH. unfold live. rewrite filter_cons.
    destruct (Z.ltb_spec currentTime e); case_decide; try lia; [|done].
    by rewrite <- app_assoc.
Qed.

Lemma removeExpired_run {T : Type → Type} {CK : Clock} l (t : Tree T) n :
  removeExpired l (t, n) = match l with [] => ([], (t, n)) | _ => (live (clock n) l, (t, S n)) end.
Proof.
  unfold removeExpired. destruct l as [|e l]; [done|]. rewrite len_cons.
  rewrite (proj2 (Z.eqb_neq (1 + len l) 0)) by (pose proof (len_nonneg l); lia).
  unfold mbind, M_bind, mret, M_ret. simpl. by rewrite removeExpired_loop_live.
Qed.

Section TreeFacts.
Context {T : Type → Type} {RB : RedBlackTree T} {RL : RedBlackTreeLaws T}
  {CK : Clock} {CM : ClockMono} {RE : Regexp}.
Implicit Types (t : Tree T) (n : nat) (k : bytes).

(** The entries at a key; a missing key has none. *)
Definition entries t k : list Z := default [] (rb_Get (tree t) k).

(** Each operation as an equation on the state. *)
Lemma Count_run k t n :
  Count k (t, n)
  = match rb_Get (tree t) k with
    | None => (0, (t, n))
    | Some [] => (0, (mkTree (defaultExpireAfterSecs t) (rb_Remove (tree t) k), n))
    | Some d =>
        (len (live (clock n) d),
         (mkTree (defaultExpireAfterSecs t) (rb_Put (tree t) k (live (clock n) d)), S n))
    end.
Proof.
  unfold Count, getAndCleanupUnsafe, mbind, M_bind, get. simpl.
  destruct (rb_Get (tree t) k) as [[|e d]|] eqn:E; [done| |done].
  rewrite len_cons, (proj2 (Z.eqb_neq (1 + len d) 0)) by (pose proof (len_nonneg d); lia).
  cbn [mret M_ret]. unfold mret, M_ret. rewrite len_cons.
  rewrite (proj2 (Z.eqb_neq (1 + len d) 0)) by (pose proof (len_nonneg d); lia).
  by rewrite removeExpired_run.
Qed.

Lemma Put_run k t n :
  Put k (t, n)
  = match rb_Get (tree t) k with
    | None | Some [] =>
        let t' := match rb_Get (tree t) k with
                  | Some _ => rb_Remove (tree t) k | None => tree t end in
        (tt, (mkTree (defaultExpireAfterSecs t)
                (rb_Put t' k [i64 (clock n + defaultExpireAfterSecs t)]), S n))
    | Some d =>
        (tt, (mkTree (defaultExpireAfterSecs t)
                (rb_Put (tree t) k
                   (live (clock n) d ++ [i64 (clock (S n) + defaultExpireAfterSecs t)])),
              S (S n)))
    end.
Proof.
  unfold Put, getAndCleanupUnsafe, mbind, M_bind, get. simpl.
  destruct (rb_Get (tree t) k) as [[|e d]|] eqn:E; [done| |done].
  rewrite len_cons, (proj2 (Z.eqb_neq (1 + len d) 0)) by (pose proof (len_nonneg d); lia).
  unfold mret, M_ret. by rewrite removeExpired_run.
Qed.

(** ** The frame of an operation: it changes no other key *)
Lemma Count_frame k t n c t' n' :
  Count k (t, n) = (c, (t', n')) →
  defaultExpireAfterSecs t' = defaultExpireAfterSecs t ∧
  (n ≤ n' ≤ S n)%nat ∧
  (∀ k', k' ≠ k → rb_Get (tree t') k' = rb_Get (tree t) k').
Proof.
  rewrite Count_run.
  destruct (rb_Get (tree t) k) as [[|e d]|]; intros [= <- <- <-]; simpl.
  - split; [done|]. split; [lia|]. intros k' Hk. rewrite rb_Get_Remove.
    by rewrite decide_False by congruence.
  - split; [done|]. split; [lia|]. intros k' Hk. rewrite rb_Get_Put.
    by rewrite decide_False by congruence.
  - split; [done|]. split; [lia|]. done.
Qed.

Lemma Put_frame k t n u t' n' :
  Put k (t, n) = (u, (t', n')) →
  defaultExpireAfterSecs t' = defaultExpireAfterSecs t ∧
  (n < n' ≤ S (S n))%nat ∧
  (∀ k', k' ≠ k → rb_Get (tree t') k' = rb_Get (tree t) k').
Proof.
  rewrite Put_run. destruct (rb_Get (tree t) k) as [[|e d]|]; intros [= <- <- <-]; simpl;
    (split; [done|]); (split; [lia|]); intros k' Hk;
    rewrite ?rb_Get_Put, ?rb_Get_Remove; by rewrite !decide_False by congruence.
Qed.

(** ** The abstract specification: a log of puts

    The specification of a tree is the list of all entries ever put, each
    with its expiry time. A tree represents a log at event [n] when, from
    that time on, both have the same live entries at every key. *)
Definition expiries (log : list (bytes * Z)) k : list Z :=
  (filter (λ p, p.1 = k) log).*2.

Definition rep (n : nat) (log : list (bytes * Z)) t : Prop :=
  ∀ k time, clock n <= time → live time (entries t k) = live time (expiries log k).

(** The number of entries at a key, and in the whole log, alive at [time]. *)
Definition count_key (log : list (bytes * Z)) k (time : Z) : Z :=
  len (live time (expiries log k)).
Definition count_all (log : list (bytes * Z)) (time : Z) : Z :=
  len (filter (λ p, time < p.2) log).

Lemma expiries_app log1 log2 k :
  expiries (log1 ++ log2) k = expiries log1 k ++ expiries log2 k.
Proof. unfold expiries. by rewrite filter_app, fmap_app. Qed.

Lemma expiries_one k e k' : expiries [(k, e)] k' = if decide (k = k') then [e] else [].
Proof. unfold expiries. rewrite filter_cons. simpl. by case_decide. Qed.

Lemma count_key_nonneg log k time : 0 <= count_key log k time.
Proof. apply len_nonneg. Qed.

Lemma count_key_mono log k time time' :
  time' <= time → count_key log k time <= count_key log k time'.
Proof.
  intros H. unfold count_key, len. pose proof (live_mono_length _ _ (expiries log k) H). lia.
Qed.

Lemma rep_mono n n' log t : (n ≤ n')%nat → rep n log t → rep n' log t.
Proof. intros Hn Hr k time Ht. apply Hr. pose proof (clock_mono n n' Hn). lia. Qed.

Lemma rep_New n ttl : rep n [] (NewTree ttl).
Proof. intros k time _. unfold entries. simpl. by rewrite rb_Get_New. Qed.

(** [Count] returns the number of live entries and keeps the log. *)
Lemma Count_spec k n log t c t' n' :
  rep n log t → Count k (t, n) = (c, (t', n')) →
  c = count_key log k (clock n) ∧ rep n' log t'.
Proof.
  intros Hr Hc. pose proof (Count_frame _ _ _ _ _ _ Hc) as (_ & Hn & Hf).
  assert (Hk : live (clock n) (entries t k) = live (clock n) (expiries log k))
    by (apply Hr; lia).
  rewrite Count_run in Hc. unfold count_key. rewrite <- Hk.
  assert (Hother : ∀ k' time, k' ≠ k → clock n' <= time →
    live time (entries t' k') = live time (expiries log k')).
  { intros k' time Hne Ht. unfold entries. rewrite Hf by done.
    apply Hr. pose proof (clock_mono n n' ltac:(lia)). lia. }
  unfold entries in Hk |- *.
  destruct (rb_Get (tree t) k) as [[|e d]|] eqn:E; injection Hc as <- <- <-.
  - split; [done|]. intros k' time Ht.
    destruct (decide (k' = k)) as [->|]; [|by apply Hother].
    rewrite <- (Hr k time Ht). unfold entries. simpl.
    by rewrite rb_Get_Remove, decide_True, E.
  - split; [done|]. intros k' time Ht.
    destruct (decide (k' = k)) as [->|]; [|by apply Hother].
    pose proof (clock_mono n (S n) ltac:(lia)).
    rewrite <- (Hr k time ltac:(lia)). unfold entries. simpl.
    rewrite rb_Get_Put, decide_True, E by done. simpl. apply live_live. lia.
  - split; [done | exact Hr].
Qed.

(** [Put] adds one entry that expires [defaultExpireAfterSecs] after a
    reading of the clock during the call. *)
Lemma Put_spec k n log t u t' n' :
  rep n log t → Put k (t, n) = (u, (t', n')) →
  ∃ m, (n ≤ m < n')%nat ∧
    rep n' (log ++ [(k, i64 (clock m + defaultExpireAfterSecs t))]) t'.
Proof.
  intros Hr Hp. pose proof (Put_frame _ _ _ _ _ _ Hp) as (_ & Hn & Hf).
  assert (Hother : ∀ m k' time, k' ≠ k → clock n' <= time →
    live time (entries t' k')
    = live time (expiries (log ++ [(k, i64 (clock m + defaultExpireAfterSecs t))]) k')).
  { intros m k' time Hne Ht. rewrite expiries_app, expiries_one, decide_False by congruence.
    rewrite app_nil_r. unfold entries. rewrite Hf by done.
    apply Hr. pose proof (clock_mono n n' ltac:(lia)). lia. }
  assert (Hk : ∀ time, clock n' <= time →
    live time (entries t k) = live time (expiries log k)).
  { intros time Ht. apply Hr. pose proof (clock_mono n n' ltac:(lia)). lia. }
  rewrite Put_run in Hp. unfold entries in Hk.
  destruct (rb_Get (tree t) k) as [[|e d]|] eqn:E; injection Hp as <- <- <-.
  - exists n. split; [lia|]. intros k' time Ht.
    destruct (decide (k' = k)) as [->|]; [|by apply Hother].
    rewrite expiries_app, expiries_one, decide_True, live_app by done.
    rewrite <- Hk by done. unfold entries. simpl. by rewrite rb_Get_Put, decide_True.
  - exists (S n). split; [lia|]. intros k' time Ht.
    destruct (decide (k' = k)) as [->|]; [|by apply Hother].
    rewrite expiries_app, expiries_one, decide_True, live_app by done.
    rewrite <- Hk by done. unfold entries. simpl. rewrite rb_Get_Put, decide_True by done.
    simpl. rewrite live_app, live_live; [done|].
    pose proof (clock_mono n (S (S n)) ltac:(lia)). lia.
  - exists n. split; [lia|]. intros k' time Ht.
    destruct (decide (k' = k)) as [->|]; [|by apply Hother].
    rewrite expiries_app, expiries_one, decide_True, live_app by done.
    rewrite <- Hk by done. unfold entries. simpl. by rewrite rb_Get_Put, decide_True.
Qed.

(** ** Keys: counting key by key while the clock runs *)

(** The counts read for the keys [ks] between the events [n] and [n']. *)
Definition counted (n n' : nat) (log : list (bytes * Z)) (ks : list bytes)
    (cs : list Z) : Prop :=
  Forall2 (λ k c, ∃ i, (n ≤ i ≤ n')%nat ∧ c = count_key log k (clock i)) ks cs.

Lemma counted_weaken n1 n2 n1' n2' log ks cs :
  (n2 ≤ n1)%nat → (n1' ≤ n2')%nat → counted n1 n1' log ks cs → counted n2 n2' log ks cs.
Proof.
  intros H1 H2 H. eapply Forall2_impl; [exact H|].
  intros k c (i & Hi & ->). exists i. split; [lia | done].
Qed.

(** The keys with a count that is not zero. *)
Definition nonzero (ks : list bytes) (cs : list Z) : list bytes :=
  (filter (λ p, p.2 ≠ 0) (zip ks cs)).*1.

Lemma Keys_loop_spec ks n log t out c out' c' t' n' :
  rep n log t →
  Keys_loop ks out c (t, n) = ((out', c'), (t', n')) →
  rep n' log t' ∧ (n ≤ n')%nat ∧
  defaultExpireAfterSecs t' = defaultExpireAfterSecs t ∧
  ∃ cs, counted n n' log ks cs ∧ c' = c + sum cs ∧ out' = out ++ nonzero ks cs.
Proof.
  revert n t out c. induction ks as [|k ks IH]; intros n t out c Hr; simpl.
  - intros [= <- <- <- <-]. split; [done|]. split; [lia|]. split; [done|]. exists [].
    split; [constructor|]. simpl. split; [lia|]. by rewrite app_nil_r.
  - unfold mbind, M_bind. destruct (Count k (t, n)) as [ck [t1 n1]] eqn:EC.
    destruct (Count_spec _ _ _ _ _ _ _ Hr EC) as [Hck Hr1].
    destruct (Count_frame _ _ _ _ _ _ EC) as (Httl & Hn1 & _).
    intros HK.
    assert (∃ out1, Keys_loop ks out1 (c + ck) (t1, n1) = ((out', c'), (t', n')) ∧
      out1 = out ++ if decide (ck ≠ 0) then [k] else []) as (out1 & HK1 & ->).
    { destruct (Z.eqb_spec ck 0) as [->|Hne].
      - exists out. split; [done|]. by rewrite decide_False, app_nil_r by lia.
      - exists (out ++ [k]). split; [done|]. by rewrite decide_True. }
    destruct (IH _ _ _ _ Hr1 HK1) as (Hr' & Hn' & Httl' & cs & Hcs & -> & ->).
    split; [done|]. split; [lia|]. split; [congruence|]. exists (ck :: cs). split; [|split].
    + constructor; [|by apply (counted_weaken n1 _ n'); [lia..|]].
      exists n. split; [lia | done].
    + simpl. lia.
    + rewrite <- app_assoc. f_equal. unfold nonzero. simpl. rewrite filter_cons. simpl.
      by case_decide.
Qed.

Lemma count_key_cons p log k time :
  count_key (p :: log) k time
  = (if decide (p.1 = k ∧ time < p.2) then 1 else 0) + count_key log k time.
Proof.
  unfold count_key, expiries, live. rewrite filter_cons.
  destruct (decide (p.1 = k)) as [Hk|Hk].
  - rewrite fmap_cons, filter_cons.
    destruct (decide (time < p.2)); [|by rewrite decide_False by tauto].
    by rewrite decide_True, len_cons by tauto.
  - by rewrite decide_False by tauto.
Qed.

Lemma count_key_nil k time : count_key [] k time = 0.
Proof. done. Qed.

Lemma count_key_app log1 log2 k time :
  count_key (log1 ++ log2) k time = count_key log1 k time + count_key log2 k time.
Proof.
  induction log1 as [|p log1 IH]; [done|]. cbn [app]. rewrite !count_key_cons, IH. lia.
Qed.

Lemma count_key_filter log k time :
  count_key log k time = len (filter (λ p, p.1 = k ∧ time < p.2) log).
Proof.
  induction log as [|p log IH]; [done|]. rewrite count_key_cons, filter_cons, IH.
  case_decide; [by rewrite len_cons | done].
Qed.

(** Over duplicate-free keys that include every live key, the counts per
    key add up to the count of the whole log. *)
Lemma count_all_sum log time ks :
  NoDup ks → (∀ k, 0 < count_key log k time → k ∈ ks) →
  sum ((λ k, count_key log k time) <$> ks) = count_all log time.
Proof.
  intros Hnd Hin.
  rewrite (list_fmap_ext _ (λ k, len (filter (λ p, p.1 = k ∧ time < p.2) log)));
    [|intros i k _; apply count_key_filter].
  apply (sum_partition fst (λ p, time < p.2)); [done|].
  intros p Hp Ht. apply Hin. rewrite count_key_filter.
  assert (Hf : p ∈ filter (λ q, q.1 = p.1 ∧ time < q.2) log) by (by apply list_elem_of_filter).
  destruct (filter _ _) as [|q l]; [by apply elem_of_nil in Hf|]. rewrite len_cons.
  pose proof (len_nonneg l). lia.
Qed.

(** A key with a live entry is in the tree. *)
Lemma rep_key_in n log t k time :
  rep n log t → clock n <= time → 0 < count_key log k time → k ∈ rb_Keys (tree t).
Proof.
  intros Hr Ht Hk. apply rb_Keys_elem. unfold count_key in Hk.
  rewrite <- (Hr k time Ht) in Hk. unfold entries in Hk.
  destruct (rb_Get (tree t) k); [done|]. simpl in Hk. unfold len in Hk. simpl in Hk. lia.
Qed.

Lemma sorted_nodup (ks : list bytes) : StronglySorted bytes_lt ks → NoDup ks.
Proof.
  induction 1 as [|k ks _ IH Hall]; constructor; [|done]. intros Hk.
  rewrite Forall_forall in Hall. by apply (bytes_lt_irrefl k), Hall.
Qed.

Lemma rb_Keys_nodup t : NoDup (rb_Keys (tree t)).
Proof. apply sorted_nodup, rb_Keys_sorted. Qed.

Lemma counted_bounds n n' log ks cs :
  counted n n' log ks cs →
  sum ((λ k, count_key log k (clock n')) <$> ks) <= sum cs
    <= sum ((λ k, count_key log k (clock n)) <$> ks).
Proof.
  induction 1 as [|k c ks cs (i & Hi & ->) _ IH]; [simpl; lia|].
  rewrite !fmap_cons, !sum_cons.
  pose proof (count_key_mono log k (clock i) (clock n) (clock_mono n i ltac:(lia))).
  pose proof (count_key_mono log k (clock n') (clock i) (clock_mono i n' ltac:(lia))).
  lia.
Qed.

Lemma elem_of_nonzero ks cs k :
  k ∈ nonzero ks cs ↔ ∃ c, (k, c) ∈ zip ks cs ∧ c ≠ 0.
Proof.
  unfold nonzero. rewrite list_elem_of_fmap. split.
  - intros ([k' c] & -> & [Hc Hin]%list_elem_of_filter). eauto.
  - intros (c & Hin & Hc). exists (k, c). split; [done|]. by apply list_elem_of_filter.
Qed.

Lemma counted_zip n n' log ks cs k c :
  counted n n' log ks cs → (k, c) ∈ zip ks cs →
  k ∈ ks ∧ ∃ i, (n ≤ i ≤ n')%nat ∧ c = count_key log k (clock i).
Proof.
  induction 1 as [|k' c' ks cs Hc _ IH]; simpl.
  - intros H. by apply elem_of_nil in H.
  - intros [[= -> ->]|H]%elem_of_cons.
    + split; [left | done].
    + destruct (IH H). split; [by right | done].
Qed.

Lemma counted_elem n n' log ks cs k :
  counted n n' log ks cs → k ∈ ks → ∃ c, (k, c) ∈ zip ks cs.
Proof.
  induction 1 as [|k' c' ks cs Hc _ IH]; simpl; intros H.
  - by apply elem_of_nil in H.
  - apply elem_of_cons in H as [->|H]; [exists c'; left|].
    destruct (IH H) as [c Hin]. exists c. by right.
Qed.

Lemma nonzero_sorted ks cs :
  StronglySorted bytes_lt ks → StronglySorted bytes_lt (nonzero ks cs).
Proof.
  intros H. revert cs. induction H as [|k ks Hs IH Hall]; intros [|c cs];
    unfold nonzero; simpl; try constructor.
  rewrite filter_cons. simpl. fold (nonzero ks cs).
  assert (Hsub : ∀ k', k' ∈ nonzero ks cs → k' ∈ ks).
  { intros k' (c' & Hin & _)%elem_of_nonzero. by apply elem_of_zip_l in Hin. }
  case_decide; simpl; [|apply IH]. constructor; [apply IH|].
  rewrite Forall_forall in Hall |- *. auto.
Qed.

(** The keys read by a scan: in order, each with an entry that was live at
    some point of the scan, and every key live at its end. *)
Record scanned (n n' : nat) (log : list (bytes * Z)) (Q : bytes → Prop)
    (out : list bytes) : Prop := {
  scanned_sorted : StronglySorted bytes_lt out;
  scanned_sound k :
    k ∈ out → Q k ∧ ∃ i, (n ≤ i ≤ n')%nat ∧ 0 < count_key log k (clock i);
  scanned_complete k : Q k → 0 < count_key log k (clock n') → k ∈ out
}.

Lemma counted_scanned n n' log t ks cs (Q : bytes → Prop) :
  rep n log t → counted n n' log ks cs → StronglySorted bytes_lt ks → (n ≤ n')%nat →
  (∀ k, k ∈ ks ↔ Q k ∧ k ∈ rb_Keys (tree t)) →
  scanned n n' log Q (nonzero ks cs).
Proof.
  intros Hr Hcs Hs Hn Hks. split.
  - by apply nonzero_sorted.
  - intros k (c & Hin & Hc)%elem_of_nonzero.
    destruct (counted_zip _ _ _ _ _ _ _ Hcs Hin) as (Hk & i & Hi & ->).
    apply Hks in Hk as [HQ _]. split; [done|]. exists i. split; [done|].
    pose proof (count_key_nonneg log k (clock i)). lia.
  - intros k HQ Hk.
    assert (Hin : k ∈ ks).
    { apply Hks. split; [done|]. eapply rep_key_in; [exact Hr| |exact Hk].
      by apply clock_mono. }
    destruct (counted_elem _ _ _ _ _ _ Hcs Hin) as [c Hc].
    apply elem_of_nonzero. exists c. split; [done|].
    destruct (counted_zip _ _ _ _ _ _ _ Hcs Hc) as (_ & i & Hi & ->).
    pose proof (count_key_mono log k (clock n') (clock i) (clock_mono i n' ltac:(lia))). lia.
Qed.

(** The effect of [Keys], for the callers of the tree. *)
Lemma Keys_spec n log t ks c t' n' :
  rep n log t → Keys (t, n) = ((ks, c), (t', n')) →
  (n ≤ n')%nat ∧ defaultExpireAfterSecs t' = defaultExpireAfterSecs t ∧
  rep n' log t' ∧ scanned n n' log (λ _, True) ks ∧
  count_all log (clock n') <= c <= count_all log (clock n).
Proof.
  intros Hr HK. unfold Keys, mbind, M_bind, get in HK.
  destruct (Keys_loop_spec _ _ _ _ _ _ _ _ _ _ Hr HK) as (Hr' & Hn & Httl & cs & Hcs & -> & ->).
  split; [done|]. split; [done|]. split; [done|]. split.
  - apply (counted_scanned _ _ _ t (rb_Keys (tree t))); try done; [apply rb_Keys_sorted|].
    tauto.
  - pose proof (counted_bounds _ _ _ _ _ Hcs) as Hb.
    rewrite !count_all_sum in Hb; [lia|..]; try apply rb_Keys_nodup.
    + intros k Hk. eapply rep_key_in; [done| |done]. lia.
    + intros k Hk. eapply rep_key_in; [done| |done]. by apply clock_mono.
Qed.

(** ** KeyMatch: the iterator walks the keys in order *)

Lemma sorted_ext (l1 l2 : list bytes) :
  StronglySorted bytes_lt l1 → StronglySorted bytes_lt l2 →
  (∀ k, k ∈ l1 ↔ k ∈ l2) → l1 = l2.
Proof.
  intros H1 H2 Hiff. apply (StronglySorted_unique_strong bytes_lt); try done.
  - intros x1 x2 _ _ Hlt Hgt. destruct (bytes_lt_irrefl x1). by etrans.
  - apply NoDup_Permutation; [by apply sorted_nodup..|done].
Qed.

Lemma filter_sorted (P : bytes → Prop) `{!∀ k, Decision (P k)} l :
  StronglySorted bytes_lt l → StronglySorted bytes_lt (filter P l).
Proof.
  induction 1 as [|k l Hs IH Hall]; [constructor|]. rewrite filter_cons.
  case_decide; [|done]. constructor; [done|].
  rewrite Forall_forall in Hall |- *. intros k' [_ Hk']%list_elem_of_filter. auto.
Qed.

(** The keys an iterator at [k] has still to visit. *)
Lemma filter_after_next prev keys k ks :
  StronglySorted bytes_lt keys → filter (after prev) keys = k :: ks →
  filter (after (Some k)) keys = ks.
Proof.
  intros Hs HF. pose proof (filter_sorted (after prev) _ Hs) as HsF. rewrite HF in HsF.
  inversion HsF as [|? ? Hks Hall]; subst. rewrite Forall_forall in Hall.
  assert (Hmem : ∀ x, x ∈ k :: ks ↔ after prev x ∧ x ∈ keys)
    by (intros x; rewrite <- HF; apply list_elem_of_filter).
  apply sorted_ext; [by apply filter_sorted | done|].
  intros x. rewrite list_elem_of_filter. simpl. split.
  - intros [Hkx Hx]. destruct (proj1 (Hmem k) ltac:(left)) as [Hpk _].
    assert (Hin : x ∈ k :: ks).
    { apply Hmem. split; [|done]. destruct prev; simpl in *; [by etrans | done]. }
    apply elem_of_cons in Hin as [->|]; [|done]. by destruct (bytes_lt_irrefl k).
  - intros Hx. split; [by apply Hall|]. by apply Hmem; right.
Qed.

(** [KeyMatch_loop] visits the keys that were in the tree at its start, in
    order, and has enough fuel: it counts the matching ones. *)
Lemma KeyMatch_loop_keys fuel re ks prev out c t n :
  filter (after prev) (rb_Keys (tree t)) = ks → (length ks ≤ fuel)%nat →
  KeyMatch_loop fuel re (head ks) out (t, n)
  = let '((out', _), σ) := Keys_loop (filter (λ k, re k = true) ks) out c (t, n) in (out', σ).
Proof.
  revert fuel prev out c t n. induction ks as [|k ks IH]; intros fuel prev out c t n HF Hfuel.
  - by destruct fuel.
  - destruct fuel as [|fuel]; simpl in Hfuel; [lia|].
    pose proof (filter_after_next _ _ _ _ (rb_Keys_sorted (tree t)) HF) as Hnext.
    cbn [head KeyMatch_loop]. unfold mbind, M_bind, get. cbn [fst snd].
    rewrite rb_Next_spec, Hnext, filter_cons.
    destruct (re k) eqn:Hre; [rewrite decide_True by done|rewrite decide_False by done].
    + cbn [Keys_loop]. unfold mbind, M_bind.
      destruct (Count k (t, n)) as [ck [t1 n1]] eqn:EC.
      assert (Hck : 0 <= ck).
      { rewrite Count_run in EC.
        destruct (rb_Get (tree t) k) as [[|]|]; injection EC as <- _ _; try apply len_nonneg; lia. }
      assert (HF1 : filter (after (Some k)) (rb_Keys (tree t1)) = ks).
      { rewrite <- Hnext. apply sorted_ext; [apply filter_sorted, rb_Keys_sorted..|].
        intros x. rewrite !list_elem_of_filter, !rb_Keys_elem. simpl.
        destruct (Count_frame _ _ _ _ _ _ EC) as (_ & _ & Hf).
        split; intros [Hx Hs]; (split; [done|]); [rewrite <- Hf|rewrite Hf]; try done;
          intros ->; by apply (bytes_lt_irrefl k). }
      rewrite (IH fuel (Some k) _ (c + ck) t1 n1 HF1) by lia.
      destruct (Z.ltb_spec 0 ck); destruct (Z.eqb_spec ck 0); try lia; done.
    + by apply (IH fuel (Some k)); [|lia].
Qed.

(** The effect of [KeyMatch], for the callers of the tree. A pattern that
    does not compile gives the error text as the only key. *)
Lemma KeyMatch_spec n log t pat ks t' n' :
  rep n log t → KeyMatch pat (t, n) = (ks, (t', n')) →
  (n ≤ n')%nat ∧ defaultExpireAfterSecs t' = defaultExpireAfterSecs t ∧ rep n' log t' ∧
  match Compile (ReplaceAll pat x2a star) with
  | inl err => ks = [err]
  | inr re => scanned n n' log (λ k, re k = true) ks
  end.
Proof.
  intros Hr HK. unfold KeyMatch, mbind, M_bind, get in HK.
  destruct (Compile (ReplaceAll pat x2a star)) as [err|re]; cbn [fst snd] in HK.
  { by injection HK as <- <- <-. }
  rewrite rb_Next_spec in HK.
  assert (HF : filter (after None) (rb_Keys (tree t)) = rb_Keys (tree t)).
  { apply sorted_ext; [apply filter_sorted, rb_Keys_sorted | apply rb_Keys_sorted|].
    intros x. rewrite list_elem_of_filter. simpl. tauto. }
  rewrite HF, (KeyMatch_loop_keys _ re (rb_Keys (tree t)) None [] 0 t n HF) in HK by done.
  destruct (Keys_loop _ _ _ _) as [[out c] [t1 n1]] eqn:EK.
  injection HK as -> -> ->.
  destruct (Keys_loop_spec _ _ _ _ _ _ _ _ _ _ Hr EK) as (Hr' & Hn & Httl & cs & Hcs & _ & ->).
  split; [done|]. split; [done|]. split; [done|].
  eapply (counted_scanned _ _ _ t _ cs); [done | exact Hcs | | done |].
  - apply filter_sorted, rb_Keys_sorted.
  - intros k. rewrite list_elem_of_filter. tauto.
Qed.

(** ** Histories *)

Inductive op :=
  | OPut (k : bytes)
  | OCount (k : bytes)
  | OKeys
  | OKeyMatch (pat : bytes).

Definition step (o : op) : M (Tree T) unit :=
  match o with
  | OPut k => Put k
  | OCount k => Count k;; mret tt
  | OKeys => Keys;; mret tt
  | OKeyMatch pat => KeyMatch pat;; mret tt
  end.

Fixpoint run (ops : list op) : M (Tree T) unit :=
  match ops with
  | [] => mret tt
  | o :: ops' => step o;; run ops'
  end.

(** The keys put, in order. *)
Definition puts (ops : list op) : list bytes :=
  omap (λ o, match o with OPut k => Some k | _ => None end) ops.

Definition put_log (ttl : Z) (ks : list bytes) (times : list Z) : list (bytes * Z) :=
  zip_with (λ k time, (k, i64 (time + ttl))) ks times.

(** The clock was read between the events [n] and [n']. *)
Definition read_between (n n' : nat) (time : Z) : Prop :=
  ∃ m, (n ≤ m < n')%nat ∧ time = clock m.

(** The clock was read during [span], the numbers of the events before and
    after an operation. *)
Definition during (span : nat * nat) (time : Z) : Prop := read_between span.1 span.2 time.

(** The span of each put of a history, as it runs from [σ]. *)
Definition op_spans (o : op) (n n' : nat) : list (nat * nat) :=
  match o with OPut _ => [(n, n')] | _ => [] end.

Fixpoint put_spans (ops : list op) (σ : Tree T * nat) : list (nat * nat) :=
  match ops with
  | [] => []
  | o :: ops' => let σ' := (step o σ).2 in op_spans o σ.2 σ'.2 ++ put_spans ops' σ'
  end.

Lemma during_fits ttl `{!ClockFits ttl} spans times :
  Forall2 during spans times → Forall (λ time, i64 (time + ttl) = time + ttl) times.
Proof.
  induction 1 as [|span time spans times (m & _ & ->) _ IH]; constructor; [|done].
  apply i64_small, clock_fits.
Qed.

Lemma step_spec o n log t t' n' :
  rep n log t → step o (t, n) = (tt, (t', n')) →
  defaultExpireAfterSecs t' = defaultExpireAfterSecs t ∧ (n ≤ n')%nat ∧
  ∃ times, length times = length (puts [o]) ∧
    Forall2 during (op_spans o n n') times ∧
    rep n' (log ++ put_log (defaultExpireAfterSecs t) (puts [o]) times) t'.
Proof.
  intros Hr. destruct o as [k|k| |pat]; cbn [step].
  - intros Hp. destruct (Put_frame _ _ _ _ _ _ Hp) as (Httl & Hn & _).
    destruct (Put_spec _ _ _ _ _ _ _ Hr Hp) as (m & Hm & Hr').
    split; [done|]. split; [lia|]. exists [clock m]. split; [done|]. split; [|done].
    constructor; [by exists m | constructor].
  - unfold mbind, M_bind. destruct (Count k (t, n)) as [c [t1 n1]] eqn:E. intros [= <- <-].
    destruct (Count_frame _ _ _ _ _ _ E) as (Httl & Hn & _).
    destruct (Count_spec _ _ _ _ _ _ _ Hr E) as [_ Hr'].
    split; [done|]. split; [lia|]. exists []. by rewrite app_nil_r.
  - unfold mbind, M_bind. destruct (Keys (t, n)) as [[ks c] [t1 n1]] eqn:E.
    intros [= <- <-]. destruct (Keys_spec _ _ _ _ _ _ _ Hr E) as (Hn & Httl & Hr' & _).
    split; [done|]. split; [done|]. exists []. by rewrite app_nil_r.
  - unfold mbind, M_bind. destruct (KeyMatch pat (t, n)) as [ks [t1 n1]] eqn:E.
    intros [= <- <-]. destruct (KeyMatch_spec _ _ _ _ _ _ _ Hr E) as (Hn & Httl & Hr' & _).
    split; [done|]. split; [done|]. exists []. by rewrite app_nil_r.
Qed.

Lemma puts_app ops1 ops2 : puts (ops1 ++ ops2) = puts ops1 ++ puts ops2.
Proof. apply omap_app. Qed.

Lemma read_between_weaken n1 n1' n2 n2' time :
  (n2 ≤ n1)%nat → (n1' ≤ n2')%nat → read_between n1 n1' time → read_between n2 n2' time.
Proof. intros H1 H2 (m & Hm & ->). exists m. split; [lia|done]. Qed.

(** Every history refines the specification: the tree represents the log of
    its puts. *)
Lemma run_spec ops n log t t' n' :
  rep n log t → run ops (t, n) = (tt, (t', n')) →
  defaultExpireAfterSecs t' = defaultExpireAfterSecs t ∧ (n ≤ n')%nat ∧
  ∃ times, length times = length (puts ops) ∧
    Forall2 during (put_spans ops (t, n)) times ∧
    rep n' (log ++ put_log (defaultExpireAfterSecs t) (puts ops) times) t'.
Proof.
  revert n log t. induction ops as [|o ops IH]; intros n log t Hr.
  - intros [= <- <-]. split; [done|]. split; [lia|]. exists []. by rewrite app_nil_r.
  - cbn [run]. unfold mbind, M_bind.
    destruct (step o (t, n)) as [[] [t1 n1]] eqn:Eo. intros Hrun.
    destruct (step_spec _ _ _ _ _ _ Hr Eo) as (Httl1 & Hn1 & ts1 & Hl1 & Hts1 & Hr1).
    destruct (IH _ _ _ Hr1 Hrun) as (Httl & Hn & ts & Hl & Hts & Hr').
    split; [congruence|]. split; [lia|]. exists (ts1 ++ ts).
    change (o :: ops) with ([o] ++ ops). rewrite puts_app, !length_app.
    split; [lia|]. split.
    + change ([o] ++ ops) with (o :: ops). cbn [put_spans]. rewrite Eo. by apply Forall2_app.
    + unfold put_log in *. rewrite zip_with_app by done.
      rewrite Httl1 in Hr'. by rewrite app_assoc.
Qed.

(** ** An invariant that counting keeps is kept by the scans *)
Lemma Keys_loop_inv (P : nat → Tree T → Prop) ks n t out c r t' n' :
  (∀ k n t c t' n', P n t → Count k (t, n) = (c, (t', n')) → P n' t') →
  P n t → Keys_loop ks out c (t, n) = (r, (t', n')) → P n' t'.
Proof.
  intros HP. revert n t out c. induction ks as [|k ks IH]; intros n t out c Hp; simpl.
  - by intros [= <- <- <-].
  - unfold mbind, M_bind. destruct (Count k (t, n)) as [ck [t1 n1]] eqn:E.
    pose proof (HP _ _ _ _ _ _ Hp E). destruct (ck =? 0); by apply IH.
Qed.

Lemma step_inv (P : nat → Tree T → Prop) o n t u t' n' :
  (∀ k n t c t' n', P n t → Count k (t, n) = (c, (t', n')) → P n' t') →
  (∀ k n t u t' n', P n t → Put k (t, n) = (u, (t', n')) → P n' t') →
  P n t → step o (t, n) = (u, (t', n')) → P n' t'.
Proof.
  intros HC HPut Hp. destruct o as [k|k| |pat]; cbn [step]; [eauto|..];
    unfold mbind, M_bind, mret, M_ret.
  - destruct (Count k (t, n)) as [c [t1 n1]] eqn:E. intros [= <- <- <-]. eauto.
  - destruct (Keys (t, n)) as [r [t1 n1]] eqn:E. intros [= <- <- <-].
    eapply Keys_loop_inv; [exact HC | exact Hp | exact E].
  - destruct (KeyMatch pat (t, n)) as [r [t1 n1]] eqn:E. intros [= <- <- <-].
    unfold KeyMatch, mbind, M_bind, get in E.
    destruct (Compile _) as [err|re]; [by injection E as <- <- <-|]. cbn [fst snd] in E.
    rewrite rb_Next_spec in E.
    assert (HF : filter (after None) (rb_Keys (tree t)) = rb_Keys (tree t)).
    { apply sorted_ext; [apply filter_sorted, rb_Keys_sorted | apply rb_Keys_sorted|].
      intros x. rewrite list_elem_of_filter. simpl. tauto. }
    rewrite HF, (KeyMatch_loop_keys _ re (rb_Keys (tree t)) None [] 0 t n HF) in E by done.
    destruct (Keys_loop _ _ _ _) as [[out c] [t2 n2]] eqn:EK.
    injection E as <- -> ->. eapply Keys_loop_inv; [exact HC | exact Hp | exact EK].
Qed.

Lemma run_inv (P : nat → Tree T → Prop) ops n t u t' n' :
  (∀ k n t c t' n', P n t → Count k (t, n) = (c, (t', n')) → P n' t') →
  (∀ k n t u t' n', P n t → Put k (t, n) = (u, (t', n')) → P n' t') →
  P n t → run ops (t, n) = (u, (t', n')) → P n' t'.
Proof.
  intros HC HPut. revert n t. induction ops as [|o ops IH]; intros n t Hp; cbn [run].
  - by intros [= <- <- <-].
  - unfold mbind, M_bind. destruct (step o (t, n)) as [u1 [t1 n1]] eqn:E.
    apply IH. by apply (step_inv P o n t u1).
Qed.

(** ** The entries of a key are sorted *)
Record sorted_tree (ttl : Z) (n : nat) (t : Tree T) : Prop := {
  st_ttl : defaultExpireAfterSecs t = ttl;
  st_sorted k : StronglySorted Z.le (entries t k);
  st_bound k : Forall (λ e, e <= clock n + ttl) (entries t k)
}.

Lemma Forall_live (P : Z → Prop) time l : Forall P l → Forall P (live time l).
Proof.
  rewrite !Forall_forall. intros H e [_ He]%list_elem_of_filter. auto.
Qed.

Lemma live_sorted time l : StronglySorted Z.le l → StronglySorted Z.le (live time l).
Proof.
  unfold live. induction 1 as [|e l Hs IH Hall]; [constructor|]. rewrite filter_cons.
  case_decide; [|done]. constructor; [done|]. by apply Forall_live.
Qed.

Lemma snoc_sorted l e :
  StronglySorted Z.le l → Forall (λ x, x <= e) l → StronglySorted Z.le (l ++ [e]).
Proof.
  induction 1 as [|x l Hs IH Hall]; intros Hb; simpl; [repeat constructor|].
  inversion Hb; subst. constructor; [by apply IH|].
  apply Forall_app. split; [done|]. by constructor.
Qed.

Lemma entries_bound_mono ttl n n' l :
  (n ≤ n')%nat → Forall (λ e, e <= clock n + ttl) l → Forall (λ e, e <= clock n' + ttl) l.
Proof.
  intros Hn Hl. eapply Forall_impl; [exact Hl|]. intros e He. simpl in He.
  pose proof (clock_mono n n' Hn). lia.
Qed.

Lemma Count_sorted ttl k n t c t' n' :
  sorted_tree ttl n t → Count k (t, n) = (c, (t', n')) → sorted_tree ttl n' t'.
Proof.
  intros [Httl Hs Hb] E. pose proof (Count_frame _ _ _ _ _ _ E) as (Httl' & Hn & Hf).
  assert (Hk : ∃ f, entries t' k = f ∧ StronglySorted Z.le f ∧ Forall (λ e, e <= clock n' + ttl) f).
  { eexists. split; [done|]. specialize (Hs k). specialize (Hb k).
    rewrite Count_run in E. unfold entries in *.
    destruct (rb_Get (tree t) k) as [[|e d]|] eqn:Eg; injection E as <- <- <-; simpl.
    - rewrite rb_Get_Remove, decide_True by done. repeat constructor.
    - rewrite rb_Get_Put, decide_True by done. simpl in *. split; [by apply live_sorted|].
      apply (entries_bound_mono ttl n); [lia|]. by apply Forall_live.
    - rewrite Eg. repeat constructor. }
  destruct Hk as (f & Hkf & Hfs & Hfb).
  split; [congruence|..]; intros k'; destruct (decide (k' = k)) as [->|Hne];
    rewrite ?Hkf; try done; unfold entries; rewrite Hf by done; [apply Hs|].
  apply (entries_bound_mono ttl n); [lia | apply Hb].
Qed.

Lemma Put_sorted ttl `{!ClockFits ttl} k n t u t' n' :
  sorted_tree ttl n t → Put k (t, n) = (u, (t', n')) → sorted_tree ttl n' t'.
Proof.
  intros [Httl Hs Hb] E. pose proof (Put_frame _ _ _ _ _ _ E) as (Httl' & Hn & Hf).
  assert (Hfit : ∀ i, i64 (clock i + ttl) = clock i + ttl)
    by (intros i; apply i64_small, clock_fits).
  assert (Hone : ∀ i, (i ≤ n')%nat → Forall (λ e, e <= clock n' + ttl) [clock i + ttl]).
  { intros i Hi. constructor; [|constructor]. pose proof (clock_mono i n' Hi). lia. }
  assert (Hk : ∃ f, entries t' k = f ∧ StronglySorted Z.le f ∧ Forall (λ e, e <= clock n' + ttl) f).
  { eexists. split; [done|]. specialize (Hs k). specialize (Hb k).
    rewrite Put_run in E. unfold entries in *. rewrite Httl, !Hfit in E.
    destruct (rb_Get (tree t) k) as [[|e d]|] eqn:Eg; injection E as <- <- <-; simpl;
      rewrite rb_Get_Put, decide_True by done; cbn [default];
      [split; [repeat constructor | apply Hone; lia]| |split; [repeat constructor | apply Hone; lia]].
    split.
    - apply snoc_sorted; [by apply live_sorted|]. apply (entries_bound_mono ttl n); [lia|].
      by apply Forall_live.
    - apply Forall_app. split; [|apply Hone; lia].
      apply (entries_bound_mono ttl n); [lia|]. by apply Forall_live. }
  destruct Hk as (f & Hkf & Hfs & Hfb).
  split; [congruence|..]; intros k'; destruct (decide (k' = k)) as [->|Hne];
    rewrite ?Hkf; try done; unfold entries; rewrite Hf by done; [apply Hs|].
  apply (entries_bound_mono ttl n); [lia | apply Hb].
Qed.

Lemma count_key_put_log ttl ks times k time :
  length times = length ks → Forall (λ s, i64 (s + ttl) = s + ttl) times →
  count_key (put_log ttl ks times) k time
  = len (filter (λ p, p.1 = k ∧ time < p.2 + ttl) (zip ks times)).
Proof.
  revert times. induction ks as [|k' ks IH]; intros [|s times] Hl Hf; try done.
  inversion Hf as [|? ? Hs Hf']; subst.
  cbn [put_log zip_with zip]. fold (put_log ttl ks times).
  rewrite count_key_cons, IH, filter_cons by (simpl in Hl; lia || done). cbn [fst snd].
  rewrite Hs. destruct (decide (k' = k ∧ time < s + ttl)); [by rewrite len_cons|done].
Qed.

(** * Theorems *)

(** C20. Refinement: after any history of operations on a new tree, [Count]
    returns the number of puts of that key that are live: each put has its
    time, a reading of the clock during that very put, and is counted as long
    as the clock has not reached this time plus the time to live. So a put is
    counted once, and no later operation extends its life or cuts it short. *)
Theorem Count_counts_recent_puts ttl `{!ClockFits ttl} ops n0 t n k c σ :
  run ops (NewTree ttl, n0) = (tt, (t, n)) → Count k (t, n) = (c, σ) →
  ∃ times, length times = length (puts ops) ∧
    Forall2 during (put_spans ops (NewTree ttl, n0)) times ∧
    c = len (filter (λ p, p.1 = k ∧ clock n < p.2 + ttl) (zip (puts ops) times)).
Proof.
  intros Hrun HC. destruct σ as [t' n'].
  destruct (run_spec _ _ [] _ _ _ (rep_New n0 ttl) Hrun) as (_ & _ & times & Hl & Hts & Hr).
  destruct (Count_spec _ _ _ _ _ _ _ Hr HC) as [-> _].
  exists times. split; [done|]. split; [done|]. apply (count_key_put_log ttl); [done|].
  by eapply during_fits.
Qed.

(** A scan by [Keys] while the clock runs: the keys come in order, each
    had a live entry at some point of the scan, and no key still live at
    the end is missing; the sum is between the number of entries live at
    the end and the number live at the start. The tree still represents
    the same puts. *)
Theorem Keys_scan n log t ks c t' n' :
  rep n log t → Keys (t, n) = ((ks, c), (t', n')) →
  StronglySorted bytes_lt ks ∧
  (∀ k, k ∈ ks → ∃ i, (n ≤ i ≤ n')%nat ∧ 0 < count_key log k (clock i)) ∧
  (∀ k, 0 < count_key log k (clock n') → k ∈ ks) ∧
  count_all log (clock n') <= c <= count_all log (clock n) ∧
  rep n' log t'.
Proof.
  intros Hr HK. destruct (Keys_spec _ _ _ _ _ _ _ Hr HK) as (_ & _ & Hr' & [Hs Ha Hb] & Hc).
  split; [done|]. split; [intros k Hk; by apply Ha|]. split; [auto|]. done.
Qed.

(** C34. [KeyMatch] terminates with the keys that match, in order: each
    matches and had a live entry during the walk, and no matching key still
    live at the end is missing, although counting a key may remove it from
    the tree the iterator walks. A pattern that does not compile gives the
    text of the error as the only key. *)
Theorem KeyMatch_walk n log t pat ks t' n' :
  rep n log t → KeyMatch pat (t, n) = (ks, (t', n')) →
  rep n' log t' ∧
  match Compile (ReplaceAll pat x2a star) with
  | inl err => ks = [err]
  | inr re =>
      StronglySorted bytes_lt ks ∧
      (∀ k, k ∈ ks → re k = true ∧
        ∃ i, (n ≤ i ≤ n')%nat ∧ 0 < count_key log k (clock i)) ∧
      (∀ k, re k = true → 0 < count_key log k (clock n') → k ∈ ks)
  end.
Proof.
  intros Hr HK. destruct (KeyMatch_spec _ _ _ _ _ _ _ Hr HK) as (_ & _ & Hr' & Hs).
  split; [done|]. destruct (Compile _); [done|]. by destruct Hs.
Qed.

(** The entries of every key are sorted by expiry time and expire at
    most the time to live from now, after any history. *)
Theorem entries_stay_sorted ttl `{!ClockFits ttl} ops n0 t n k :
  run ops (NewTree ttl, n0) = (tt, (t, n)) →
  StronglySorted Z.le (entries t k) ∧ Forall (λ e, e <= clock n + ttl) (entries t k).
Proof.
  intros Hrun.
  assert (Hst : sorted_tree ttl n t); [|by destruct Hst].
  eapply (run_inv (sorted_tree ttl)); [| | |exact Hrun].
  - apply Count_sorted.
  - by apply Put_sorted.
  - split; [done|..]; intros k'; unfold entries; simpl; rewrite rb_Get_New; constructor.
Qed.

(** An expired key outlives one [Count]: the first call finds its
    entries expired, answers zero and stores the empty list, so the key is
    still in the tree; the second call removes it. *)
Theorem expired_key_takes_two_counts n t k d :
  rb_Get (tree t) k = Some d → d ≠ [] → live (clock n) d = [] →
  ∃ t1 t2,
    Count k (t, n) = (0, (t1, S n)) ∧ k ∈ rb_Keys (tree t1) ∧
    Count k (t1, S n) = (0, (t2, S n)) ∧ k ∉ rb_Keys (tree t2).
Proof.
  intros Hg Hd Hl. eexists _, _. split; [|split; [|split]].
  - rewrite Count_run, Hg, Hl. by destruct d.
  - apply rb_Keys_elem. simpl. rewrite rb_Get_Put, decide_True by done. eauto.
  - rewrite Count_run. simpl. by rewrite rb_Get_Put, decide_True.
  - intros Hin%rb_Keys_elem. simpl in Hin.
    rewrite rb_Get_Remove, decide_True in Hin by done. by destruct Hin.
Qed.

(** A time to live that overflows [int64] when added to the clock makes
    every entry expire at once: a put is not counted even right after it. *)
Theorem ttl_overflow_expires_at_once ttl n k t1 n1 :
  (∀ i, 0 <= clock i < 2 ^ 62) → 2 ^ 63 - clock 0%nat <= ttl < 2 ^ 63 →
  Put k (NewTree ttl, n) = (tt, (t1, n1)) →
  (Count k (t1, n1)).1 = 0.
Proof.
  intros Hclk Httl Hp.
  destruct (Put_spec _ _ _ _ _ _ _ (rep_New n ttl) Hp) as (m & Hm & Hr).
  destruct (Count k (t1, n1)) as [c [t2 n2]] eqn:HC.
  destruct (Count_spec _ _ _ _ _ _ _ Hr HC) as [-> _]. cbn [fst].
  unfold count_key. simpl. rewrite expiries_one, decide_True by done.
  unfold live. rewrite filter_cons, decide_False; [done|].
  pose proof (clock_mono 0 m ltac:(lia)). pose proof (Hclk m). pose proof (Hclk n1).
  unfold i64.
  replace (clock m + ttl + 2 ^ 63) with (clock m + ttl - 2 ^ 63 + 1 * 2 ^ 64) by lia.
  rewrite Z.mod_add, Z.mod_small by lia. lia.
Qed.
End TreeFacts.

(** ** Witnesses

    A tree of [gmap]s, the clock of [ConcreteClock] (a second every other
    event, from 1000) and substring patterns. *)
Module TreeWitness.
Import Concrete ConcreteClock.

Definition ops : list op :=
  [OPut (str "a"); OPut (str "b"); OPut (str "a"); OCount (str "a"); OKeys].

(** The count of a key after the history, and the entries of a key. *)
Definition count_after (ttl : Z) (k : bytes) : Z :=
  (Count k (run ops (NewTree (T := gmap bytes) ttl, 0%nat)).2).1.
Definition entries_after (ttl : Z) (k : bytes) : list Z :=
  entries (run ops (NewTree (T := gmap bytes) ttl, 0%nat)).2.1 k.

(** With three seconds to live the first of two puts of a key is expired when
    it is counted, with sixty none is. *)
Lemma Count_counts_recent_puts_witness :
  put_spans ops (NewTree (T := gmap bytes) 3, 0%nat) = [(0, 1); (1, 2); (2, 4)]%nat ∧
  count_after 60 (str "a") = 2 ∧ count_after 3 (str "a") = 1 ∧
  ∃ n times, length times = 3%nat ∧
    Forall2 during (put_spans ops (NewTree (T := gmap bytes) 3, 0%nat)) times ∧
    1 = len (filter (λ p, p.1 = str "a" ∧ clock n < p.2 + 3) (zip (puts ops) times)).
Proof.
  split; [vm_compute; reflexivity|]. split; [vm_compute; reflexivity|].
  assert (H1 : count_after 3 (str "a") = 1) by (vm_compute; reflexivity).
  split; [exact H1|]. unfold count_after in H1.
  destruct (run ops (NewTree 3, 0%nat)) as [[] [t n]] eqn:Hrun. cbn [fst snd] in H1.
  destruct (Count (str "a") (t, n)) as [c σ] eqn:HC. cbn [fst] in H1. subst c. exists n.
  exact (Count_counts_recent_puts 3 (ClockFits0 := clk_fits 3 ltac:(lia)) _ _ _ _ _ _ _ Hrun HC).
Defined.

(** A time to live of three seconds: entries expire during the history. *)
Lemma entries_stay_sorted_witness :
  entries_after 3 (str "a") = [1003; 1004] ∧ StronglySorted Z.le (entries_after 3 (str "a")).
Proof.
  split; [vm_compute; reflexivity|]. unfold entries_after.
  destruct (run ops (NewTree 3, 0%nat)) as [[] [t n]] eqn:Hrun. cbn [fst snd].
  exact (proj1 (entries_stay_sorted 3 (ClockFits0 := clk_fits 3 ltac:(lia)) _ _ _ _ _ Hrun)).
Defined.

Lemma Keys_scan_witness :
  (Keys (run ops (NewTree (T := gmap bytes) 60, 0%nat)).2).1 = ([str "a"; str "b"], 3) ∧
  ∃ log n n', count_all log (clock n') <= 3 <= count_all log (clock n).
Proof.
  assert (H : (Keys (run ops (NewTree (T := gmap bytes) 60, 0%nat)).2).1
              = ([str "a"; str "b"], 3)) by (vm_compute; reflexivity).
  split; [exact H|].
  destruct (run ops (NewTree 60, 0%nat)) as [[] [t n]] eqn:Hrun. cbn [fst snd] in H.
  destruct (run_spec _ _ [] _ _ _ (rep_New 0 60) Hrun) as (_ & _ & times & _ & _ & Hr).
  destruct (Keys (t, n)) as [[ks c] [t' n']] eqn:HK. cbn [fst] in H. injection H as -> ->.
  exists ([] ++ put_log (defaultExpireAfterSecs (NewTree (T := gmap bytes) 60)) (puts ops) times), n, n'.
  exact (proj1 (proj2 (proj2 (proj2 (Keys_scan _ _ _ _ _ _ _ Hr HK))))).
Defined.

Lemma KeyMatch_walk_witness :
  (KeyMatch (str "a") (run ops (NewTree (T := gmap bytes) 60, 0%nat)).2).1 = [str "a"] ∧
  ∃ n' log t', rep (T := gmap bytes) n' log t'.
Proof.
  assert (H : (KeyMatch (str "a") (run ops (NewTree (T := gmap bytes) 60, 0%nat)).2).1
              = [str "a"]) by (vm_compute; reflexivity).
  split; [exact H|].
  destruct (run ops (NewTree 60, 0%nat)) as [[] [t n]] eqn:Hrun. cbn [fst snd] in H.
  destruct (run_spec _ _ [] _ _ _ (rep_New 0 60) Hrun) as (_ & _ & times & _ & _ & Hr).
  destruct (KeyMatch (str "a") (t, n)) as [ks [t' n']] eqn:HK. cbn [fst] in H.
  eexists n', _, t'. exact (proj1 (KeyMatch_walk _ _ _ _ _ _ _ Hr HK)).
Defined.

Lemma expired_key_takes_two_counts_witness :
  ∃ t1 t2 : Tree (gmap bytes),
    Count (str "k") (mkTree 2 {[str "k" := [5; 6]]}, 0%nat) = (0, (t1, 1%nat)) ∧
    str "k" ∈ rb_Keys (tree t1) ∧
    Count (str "k") (t1, 1%nat) = (0, (t2, 1%nat)) ∧ str "k" ∉ rb_Keys (tree t2).
Proof.
  apply (expired_key_takes_two_counts 0 (mkTree 2 {[str "k" := [5; 6]]}) (str "k") [5; 6]).
  - vm_compute. reflexivity.
  - discriminate.
  - vm_compute. reflexivity.
Defined.

Lemma ttl_overflow_expires_at_once_witness :
  (Count (str "k") (Put (str "k") (NewTree (T := gmap bytes) (2 ^ 63 - 1), 0%nat)).2).1 = 0.
Proof.
  destruct (Put (str "k") (NewTree (T := gmap bytes) (2 ^ 63 - 1), 0%nat))
    as [[] [t1 n1]] eqn:Hp.
  apply (ttl_overflow_expires_at_once (2 ^ 63 - 1) 0 (str "k") t1 n1).
  - intros i. pose proof (clk_range i). lia.
  - vm_compute. split; [discriminate | reflexivity].
  - exact Hp.
Defined.
End TreeWitness.
