(* ===== verification/Store.v ===== *)
(** * The store: [src/store/store.go]

    A [Store] maps namespaces to trees, which are shared by pointer: the hash
    map holds addresses of trees in [heap], so that a tree that was fetched
    from the map stays the same tree after the map has changed. [scheduled]
    counts the runs of [runCleanup] that are started or pending on a timer. *)
From Stdlib Require Import ZArith Lia Strings.Byte.
From stdpp Require Import base gmap list strings sorting.
From coqutil Require Import Byte.
From S2P Require Import Prelude GoStd Deps Env.
From S2P Require Tree.
Import Tree (Tree, mkTree, NewTree, rep).
Local Open Scope Z_scope.

Definition loc : Set := nat.

(** [runDuration], 15 seconds, in milliseconds *)
Definition runDuration : Z := 15 * 1000.
Definition maxNamespacesDenom : nat := 2.

(** The gauges of the registry. *)
Record Metrics := mkMetrics {
  maxNamespacesDenomGauge : Z;
  namespacesTotalCount : Z;
  namespacesGarbageCollected : Z;
  keysRemainingInGCNamespaces : Z;
  countTotalRemainingInGCNamespaces : Z;
  gcPauseTime : Z
}.

Section Store.
Context {T : Type → Type} {RB : RedBlackTree T} {H : Type → Type} {HM : HashMap H}
  {CK : Clock} {SW : Stopwatch} {RO : RangeOrder} {RE : Regexp}.

Record Store := mkStore {
  namespaces : H loc;
  heap : loc → Tree T;
  next_loc : loc;
  expireAfterSecs : Z;
  cleanupServiceEnabled : bool;
  LastMetrics : Metrics;
  lastGCdNamespaces : gset bytes;
  scheduled : nat
}.

Definition set_namespaces (f : H loc → H loc) (s : Store) : Store :=
  mkStore (f (namespaces s)) (heap s) (next_loc s) (expireAfterSecs s)
    (cleanupServiceEnabled s) (LastMetrics s) (lastGCdNamespaces s) (scheduled s).
Definition set_tree (p : loc) (t : Tree T) (s : Store) : Store :=
  mkStore (namespaces s) (λ q, if decide (q = p) then t else heap s q) (next_loc s) (expireAfterSecs s)
    (cleanupServiceEnabled s) (LastMetrics s) (lastGCdNamespaces s) (scheduled s).
Definition bump_loc (s : Store) : Store :=
  mkStore (namespaces s) (heap s) (S (next_loc s)) (expireAfterSecs s)
    (cleanupServiceEnabled s) (LastMetrics s) (lastGCdNamespaces s) (scheduled s).
Definition set_enabled (b : bool) (s : Store) : Store :=
  mkStore (namespaces s) (heap s) (next_loc s) (expireAfterSecs s)
    b (LastMetrics s) (lastGCdNamespaces s) (scheduled s).
Definition set_metrics (f : Metrics → Metrics) (s : Store) : Store :=
  mkStore (namespaces s) (heap s) (next_loc s) (expireAfterSecs s)
    (cleanupServiceEnabled s) (f (LastMetrics s)) (lastGCdNamespaces s) (scheduled s).
Definition set_lastGCd (g : gset bytes) (s : Store) : Store :=
  mkStore (namespaces s) (heap s) (next_loc s) (expireAfterSecs s)
    (cleanupServiceEnabled s) (LastMetrics s) g (scheduled s).
Definition set_scheduled (f : nat → nat) (s : Store) : Store :=
  mkStore (namespaces s) (heap s) (next_loc s) (expireAfterSecs s)
    (cleanupServiceEnabled s) (LastMetrics s) (lastGCdNamespaces s) (f (scheduled s)).

(** [NewStore] starts one run of [runCleanup]. *)
Definition NewStore (expireAfterSecs : Z) : Store :=
  mkStore hm_New (λ _, NewTree expireAfterSecs) 0%nat expireAfterSecs true
    (mkMetrics (Z.of_nat maxNamespacesDenom) 0 0 0 0 0) ∅ 1%nat.

Definition EnableCleanup : M Store unit := modify (set_enabled true).
Definition DisableCleanup : M Store unit := modify (set_enabled false).

(** ** The critical sections *)

(** [s.Lock(); s.namespaces.Get(ns); s.Unlock()] *)
Definition namespaces_Get (ns : bytes) : M Store (option loc) :=
  s ← get; mret (hm_Get (namespaces s) ns).
Definition namespaces_Put (ns : bytes) (p : loc) : M Store unit :=
  modify (set_namespaces (λ m, hm_Put m ns p)).
Definition namespaces_Remove (ns : bytes) : M Store unit :=
  modify (set_namespaces (λ m, hm_Remove m ns)).
Definition namespaces_Keys : M Store (list bytes) :=
  n ← seed; s ← get; mret (hm_Keys n (namespaces s)).

(** [tree.NewTree(s.expireAfterSecs)] at a fresh address *)
Definition new_tree : M Store loc :=
  s ← get;
  let p := next_loc s in
  modify (λ s, bump_loc (set_tree p (NewTree (expireAfterSecs s)) s));;
  mret p.

(** An operation of the tree at an address, which takes the tree's lock. *)
Definition on_tree {A} (p : loc) (m : M (Tree T) A) : M Store A := λ '(s, n),
  let '(a, (t', n')) := m (heap s p, n) in (a, (set_tree p t' s, n')).

(** ** Operations *)

Definition Put (ns entryKey : bytes) : M Store unit :=
  subtreeI ← namespaces_Get ns;
  subtree ←
    match subtreeI with
    | None => subtree ← new_tree; namespaces_Put ns subtree;; mret subtree
    | Some subtree => mret subtree
    end;
  on_tree subtree (Tree.Put entryKey).

Definition Count (ns entryKey : bytes) : M Store Z :=
  subtreeI ← namespaces_Get ns;
  match subtreeI with
  | None => mret 0
  | Some subtree => on_tree subtree (Tree.Count entryKey)
  end.

Definition CountEntries (ns : bytes) : M Store Z :=
  subtreeI ← namespaces_Get ns;
  match subtreeI with
  | None => mret 0
  | Some subtree => r ← on_tree subtree Tree.Keys; mret r.2
  end.

Definition KeyMatch (ns keyPattern : bytes) : M Store (list bytes) :=
  subtreeI ← namespaces_Get ns;
  match subtreeI with
  | None => mret []
  | Some subtree => on_tree subtree (Tree.KeyMatch keyPattern)
  end.

Fixpoint CountServerEntries_loop (spaces : list bytes) (entryCount : Z) : M Store Z :=
  match spaces with
  | [] => mret entryCount
  | ns :: spaces' => c ← CountEntries ns; CountServerEntries_loop spaces' (entryCount + c)
  end.

Definition CountServerEntries : M Store Z :=
  spaces ← namespaces_Keys;
  CountServerEntries_loop spaces 0.

(** ** Garbage collection *)

(** The loop that fetches the subtrees of the first namespaces, skipping the
    ones crawled by the last run. *)
Definition fetch (keys : list bytes) (s : Store) : list (bytes * loc) :=
  omap (λ ns,
    if decide (ns ∈ lastGCdNamespaces s) then None
    else p ← hm_Get (namespaces s) ns; Some (ns, p)) keys.

(** The loop that counts the fetched subtrees and removes the empty ones. *)
Fixpoint crawl (nsSubtrees : list (bytes * loc)) (crawledKeys : gset bytes)
    (knownKeysCount tally : Z) : M Store (gset bytes * Z * Z) :=
  match nsSubtrees with
  | [] => mret (crawledKeys, knownKeysCount, tally)
  | (ns, subtree) :: rest =>
      r ← on_tree subtree Tree.Keys;
      let '(subtreeKeys, subtreeKeyTrackCount) := r in
      let knownKeysCount := knownKeysCount + len subtreeKeys in
      let tally := tally + subtreeKeyTrackCount in
      if len subtreeKeys =? 0
      then namespaces_Remove ns;; crawl rest crawledKeys knownKeysCount tally
      else crawl rest ({[ns]} ∪ crawledKeys) knownKeysCount tally
  end.

Definition runCleanup : M Store (list bytes) :=
  s ← get;
  if negb (cleanupServiceEnabled s) then mret []
  else
    start ← seed;
    keys ← namespaces_Keys;
    let hashSize := length keys in
    let maxNamespaces := (hashSize / maxNamespacesDenom)%nat in
    modify (set_metrics (λ m,
      mkMetrics (maxNamespacesDenomGauge m) (Z.of_nat hashSize) (Z.of_nat maxNamespaces)
        (keysRemainingInGCNamespaces m) (countTotalRemainingInGCNamespaces m)
        (gcPauseTime m)));;
    s ← get;
    let nsSubtrees := fetch (take maxNamespaces keys) s in
    order ← seed;
    r ← crawl (range_order order nsSubtrees) ∅ 0 0;
    let '(crawledKeys, knownKeysCount, tally) := r in
    modify (set_lastGCd crawledKeys);;
    finish ← seed;
    modify (set_metrics (λ m,
      mkMetrics (maxNamespacesDenomGauge m) (namespacesTotalCount m)
        (namespacesGarbageCollected m) knownKeysCount tally
        (elapsed_ms start finish)));;
    keyList ← namespaces_Keys;
    (* the deferred time.AfterFunc(runDuration, s.runCleanup) *)
    modify (set_scheduled S);;
    mret keyList.

(** A scheduled run starts: its timer fires, or the goroutine of [NewStore]. *)
Definition timer_fires : M Store unit :=
  s ← get;
  match scheduled s with
  | O => mret tt
  | S _ => modify (set_scheduled Nat.pred);; runCleanup;; mret tt
  end.

Definition Namespaces : M Store (list bytes) :=
  keys ← runCleanup;
  mret keys.
End Store.

Arguments Store T H : clear implicits.

(** * Properties *)

Section StoreFacts.
Context {T : Type → Type} {RB : RedBlackTree T} {RL : RedBlackTreeLaws T}
  {H : Type → Type} {HM : HashMap H} {HL : HashMapLaws H}
  {CK : Clock} {CM : ClockMono} {SW : Stopwatch} {RO : RangeOrder} {ROL : RangeOrderLaws}
  {RE : Regexp}.
Implicit Types (s : Store T H) (n : nat) (ns k : bytes).

(** ** The view of a store: a tree per namespace *)

(** An unknown namespace behaves like an empty tree. *)
Definition subtree s ns : Tree T :=
  match hm_Get (namespaces s) ns with
  | Some p => heap s p
  | None => NewTree (expireAfterSecs s)
  end.

(** Every namespace has an allocated tree of its own with the time to live
    of the store. *)
Record wf s : Prop := {
  wf_alloc ns p : hm_Get (namespaces s) ns = Some p → (p < next_loc s)%nat;
  wf_ttl ns p :
    hm_Get (namespaces s) ns = Some p →
    Tree.defaultExpireAfterSecs (heap s p) = expireAfterSecs s;
  wf_inj ns ns' p :
    hm_Get (namespaces s) ns = Some p → hm_Get (namespaces s) ns' = Some p → ns = ns'
}.

(** What the operations do not touch. *)
Definition same_settings s s' : Prop :=
  expireAfterSecs s' = expireAfterSecs s ∧
  cleanupServiceEnabled s' = cleanupServiceEnabled s.

Lemma wf_New ttl : wf (NewStore ttl).
Proof.
  split; simpl.
  - intros ns p Hp. by rewrite hm_Get_New in Hp.
  - done.
  - intros ns ns' p Hp. by rewrite hm_Get_New in Hp.
Qed.

Lemma subtree_ttl s ns :
  wf s → Tree.defaultExpireAfterSecs (subtree s ns) = expireAfterSecs s.
Proof.
  intros Hwf. unfold subtree. destruct (hm_Get _ ns) as [p|] eqn:E; [|done].
  by eapply wf_ttl.
Qed.

(** An operation on the tree of a namespace acts on that part of the view
    only. *)
Lemma on_tree_view {A} s n ns p (m : M (Tree T) A) a s' n' :
  wf s → hm_Get (namespaces s) ns = Some p → on_tree p m (s, n) = (a, (s', n')) →
  (∀ t' n', m (subtree s ns, n) = (a, (t', n')) →
    Tree.defaultExpireAfterSecs t' = Tree.defaultExpireAfterSecs (subtree s ns)) →
  m (subtree s ns, n) = (a, (subtree s' ns, n')) ∧ wf s' ∧
  (∀ ns', ns' ≠ ns → subtree s' ns' = subtree s ns') ∧
  namespaces s' = namespaces s ∧ lastGCdNamespaces s' = lastGCdNamespaces s ∧
  scheduled s' = scheduled s ∧ same_settings s s'.
Proof.
  intros Hwf Hp Hop Httl. unfold on_tree in Hop.
  assert (Hs : subtree s ns = heap s p) by (unfold subtree; by rewrite Hp).
  rewrite Hs in Httl |- *. destruct (m (heap s p, n)) as [a1 [t1 n1]] eqn:E.
  injection Hop as -> <- ->. specialize (Httl _ _ eq_refl).
  assert (Hns : subtree (set_tree p t1 s) ns = t1).
  { unfold subtree. simpl. by rewrite Hp, decide_True. }
  rewrite Hns. split; [done|]. split; [|split; [|done]].
  - split; simpl.
    + apply Hwf.
    + intros ns' q Hq. destruct (decide (q = p)) as [->|]; [|by eapply wf_ttl].
      rewrite Httl. by eapply wf_ttl.
    + apply Hwf.
  - intros ns' Hne. unfold subtree. simpl.
    destruct (hm_Get (namespaces s) ns') as [q|] eqn:Eq; [|done].
    rewrite decide_False; [done|]. intros ->. by destruct Hne; eapply wf_inj.
Qed.

(** ** The specification: a log of puts *)

Definition nslog (log : list (bytes * bytes * Z)) ns : list (bytes * Z) :=
  omap (λ '(ns', k, e), if decide (ns' = ns) then Some (k, e) else None) log.

Definition store_rep n (log : list (bytes * bytes * Z)) s : Prop :=
  wf s ∧ ∀ ns, rep n (nslog log ns) (subtree s ns).

Lemma nslog_app log1 log2 ns : nslog (log1 ++ log2) ns = nslog log1 ns ++ nslog log2 ns.
Proof. apply omap_app. Qed.

Lemma nslog_one ns k e ns' :
  nslog [(ns, k, e)] ns' = if decide (ns = ns') then [(k, e)] else [].
Proof. unfold nslog. simpl. by case_decide. Qed.

Lemma store_rep_New n ttl : store_rep n [] (NewStore ttl).
Proof.
  split; [apply wf_New|]. intros ns. unfold subtree. simpl. rewrite hm_Get_New.
  apply Tree.rep_New.
Qed.

Lemma store_rep_mono n n' log s : (n ≤ n')%nat → store_rep n log s → store_rep n' log s.
Proof. intros Hn [Hwf Hr]. split; [done|]. intros ns. by eapply Tree.rep_mono. Qed.

(** The specification reads the namespaces, the trees and the time to live
    only. *)
Lemma store_rep_ext n log s s' :
  store_rep n log s → namespaces s' = namespaces s → heap s' = heap s →
  next_loc s' = next_loc s → expireAfterSecs s' = expireAfterSecs s → store_rep n log s'.
Proof.
  intros [Hwf Hr] Hm Hh Hl He.
  assert (Hsub : ∀ ns, subtree s' ns = subtree s ns)
    by (intros ns; unfold subtree; by rewrite Hm, Hh, He).
  split; [|intros ns; rewrite Hsub; apply Hr]. destruct Hwf as [Ha Ht Hi].
  split; rewrite Hm, ?Hl, ?Hh, ?He; [exact Ha | exact Ht | exact Hi].
Qed.

(** Replacing the tree of one namespace. *)
Lemma store_rep_update n n' log log' s s' ns :
  store_rep n log s → (n ≤ n')%nat → wf s' →
  (∀ ns', ns' ≠ ns → subtree s' ns' = subtree s ns') →
  (∀ ns', ns' ≠ ns → nslog log' ns' = nslog log ns') →
  rep n' (nslog log' ns) (subtree s' ns) →
  store_rep n' log' s'.
Proof.
  intros [_ Hr] Hn Hwf' Hsub Hlog Hns. split; [done|]. intros ns'.
  destruct (decide (ns' = ns)) as [->|Hne]; [done|].
  rewrite Hsub, Hlog by done. by eapply Tree.rep_mono.
Qed.

(** ** The operations on the view *)

(** A namespace gets a fresh tree, whether it had one or not. *)
Definition with_fresh_tree ns s : Store T H :=
  set_namespaces (λ m, hm_Put m ns (next_loc s))
    (bump_loc (set_tree (next_loc s) (NewTree (expireAfterSecs s)) s)).

Lemma fresh_tree_view s ns :
  wf s →
  let p := next_loc s in
  let s' := with_fresh_tree ns s in
  wf s' ∧ (∀ ns', ns' ≠ ns → subtree s' ns' = subtree s ns') ∧
  subtree s' ns = NewTree (expireAfterSecs s) ∧ same_settings s s' ∧
  hm_Get (namespaces s') ns = Some p.
Proof.
  intros Hwf p s'. subst p.
  assert (Hold : ∀ ns' q, hm_Get (namespaces s) ns' = Some q → q ≠ next_loc s).
  { intros ns' q Hq. apply (wf_alloc _ Hwf) in Hq. lia. }
  split; [|split; [|split; [|split; [done|]]]].
  - split; simpl.
    + intros ns' q. rewrite hm_Get_Put. case_decide; [intros [= <-]; lia|].
      intros Hq. apply (wf_alloc _ Hwf) in Hq. lia.
    + intros ns' q. rewrite hm_Get_Put. case_decide.
      * intros [= <-]. by rewrite decide_True.
      * intros Hq. rewrite decide_False by (by eapply Hold). by eapply wf_ttl.
    + intros ns1 ns2 q. rewrite !hm_Get_Put. do 2 case_decide; try congruence.
      * intros [= <-] Hq. by destruct (Hold _ _ Hq).
      * intros Hq [= <-]. by destruct (Hold _ _ Hq).
      * by apply (wf_inj _ Hwf).
  - intros ns' Hne. unfold subtree, s'. simpl. rewrite hm_Get_Put, decide_False by congruence.
    destruct (hm_Get (namespaces s) ns') as [q|] eqn:Hq; [|done].
    rewrite decide_False; [done|]. by eapply Hold.
  - unfold subtree, s'. simpl. by rewrite hm_Get_Put, !decide_True.
  - simpl. by rewrite hm_Get_Put, decide_True.
Qed.

(** A state with a fresh tree for an unknown namespace has the same view. *)
Lemma new_namespace_view s ns :
  wf s → hm_Get (namespaces s) ns = None →
  let p := next_loc s in
  let s' := with_fresh_tree ns s in
  wf s' ∧ (∀ ns', subtree s' ns' = subtree s ns') ∧ same_settings s s' ∧
  hm_Get (namespaces s') ns = Some p.
Proof.
  intros Hwf Hns p s'. destruct (fresh_tree_view s ns Hwf) as (Hwf' & Hv & Hnew & Hs & Hg).
  split; [done|]. split; [|done]. intros ns'. destruct (decide (ns' = ns)) as [->|]; [|by apply Hv].
  etrans; [exact Hnew|]. unfold subtree. by rewrite Hns.
Qed.

(** [Put] is the tree's [Put] on the view of its namespace. *)
Lemma Put_view s n ns k u s' n' :
  wf s → Put ns k (s, n) = (u, (s', n')) →
  Tree.Put k (subtree s ns, n) = (u, (subtree s' ns, n')) ∧ wf s' ∧
  (∀ ns', ns' ≠ ns → subtree s' ns' = subtree s ns') ∧ same_settings s s'.
Proof.
  intros Hwf. unfold Put, namespaces_Get, new_tree, namespaces_Put, mbind, M_bind, get, modify.
  unfold mret, M_ret.
  assert (Hkeep : ∀ (t t' : Tree T) m m', Tree.Put k (t, m) = (u, (t', m')) →
    Tree.defaultExpireAfterSecs t' = Tree.defaultExpireAfterSecs t)
    by (intros t t' m m' E; by apply Tree.Put_frame in E as [? _]).
  destruct (hm_Get (namespaces s) ns) as [p|] eqn:Hp.
  - intros Hop. destruct (on_tree_view _ _ _ _ _ _ _ _ Hwf Hp Hop) as (E & Hwf' & Hf & _ & _ & _ & Hs);
      [intros t' m'; apply Hkeep|]. done.
  - destruct (new_namespace_view s ns Hwf Hp) as (Hwf1 & Hv1 & Hs1 & Hp1).
    intros Hop. destruct (on_tree_view _ _ _ _ _ _ _ _ Hwf1 Hp1 Hop) as (E & Hwf' & Hf & _ & _ & _ & Hs);
      [intros t' m'; apply Hkeep|].
    rewrite Hv1 in E. split; [done|]. split; [done|]. split.
    + intros ns' Hne. rewrite Hf by done. apply Hv1.
    + destruct Hs, Hs1. split; congruence.
Qed.

Lemma Count_view s n ns k c s' n' :
  wf s → Count ns k (s, n) = (c, (s', n')) →
  Tree.Count k (subtree s ns, n) = (c, (subtree s' ns, n')) ∧ wf s' ∧
  (∀ ns', ns' ≠ ns → subtree s' ns' = subtree s ns') ∧ same_settings s s'.
Proof.
  intros Hwf. unfold Count, namespaces_Get, mbind, M_bind, get, mret, M_ret.
  destruct (hm_Get (namespaces s) ns) as [p|] eqn:Hp.
  - intros Hop. destruct (on_tree_view _ _ _ _ _ _ _ _ Hwf Hp Hop) as (E & Hwf' & Hf & _ & _ & _ & Hs);
      [intros t' m' E; by apply Tree.Count_frame in E as [? _]|]. done.
  - intros [= <- <- <-]. split; [|done].
    rewrite Tree.Count_run. unfold subtree. rewrite Hp. simpl. by rewrite rb_Get_New.
Qed.

(** ** The operations on the specification *)

Lemma Put_rep n log s ns k u s' n' :
  store_rep n log s → Put ns k (s, n) = (u, (s', n')) →
  (n ≤ n')%nat ∧ same_settings s s' ∧
  ∃ m, (n ≤ m < n')%nat ∧
    store_rep n' (log ++ [(ns, k, i64 (clock m + expireAfterSecs s))]) s'.
Proof.
  intros [Hwf Hr] HP. destruct (Put_view _ _ _ _ _ _ _ Hwf HP) as (HT & Hwf' & Hf & Hs).
  pose proof (Tree.Put_frame _ _ _ _ _ _ HT) as (_ & Hn & _).
  destruct (Tree.Put_spec _ _ _ _ _ _ _ (Hr ns) HT) as (m & Hm & Hr').
  rewrite subtree_ttl in Hr' by done.
  split; [lia|]. split; [done|]. exists m. split; [done|].
  apply (store_rep_update n _ log _ s s' ns); try done; [lia|..].
  - intros ns' Hne. rewrite nslog_app, nslog_one, decide_False by congruence. apply app_nil_r.
  - by rewrite nslog_app, nslog_one, decide_True.
Qed.

Lemma Count_rep n log s ns k c s' n' :
  store_rep n log s → Count ns k (s, n) = (c, (s', n')) →
  (n ≤ n')%nat ∧ same_settings s s' ∧ store_rep n' log s' ∧
  c = Tree.count_key (nslog log ns) k (clock n).
Proof.
  intros [Hwf Hr] HC. destruct (Count_view _ _ _ _ _ _ _ Hwf HC) as (HT & Hwf' & Hf & Hs).
  pose proof (Tree.Count_frame _ _ _ _ _ _ HT) as (_ & Hn & _).
  destruct (Tree.Count_spec _ _ _ _ _ _ _ (Hr ns) HT) as [-> Hr'].
  split; [lia|]. split; [done|]. split; [|done].
  by apply (store_rep_update n _ log _ s s' ns); [|lia|..].
Qed.

(** Any operation of a tree that keeps its specification. *)
Lemma on_tree_rep {A} n log s ns p (m : M (Tree T) A) a s' n' :
  store_rep n log s → hm_Get (namespaces s) ns = Some p →
  on_tree p m (s, n) = (a, (s', n')) →
  (∀ t' n', m (subtree s ns, n) = (a, (t', n')) →
    (n ≤ n')%nat ∧
    Tree.defaultExpireAfterSecs t' = Tree.defaultExpireAfterSecs (subtree s ns) ∧
    rep n' (nslog log ns) t') →
  m (subtree s ns, n) = (a, (subtree s' ns, n')) ∧ (n ≤ n')%nat ∧ store_rep n' log s' ∧
  namespaces s' = namespaces s ∧ lastGCdNamespaces s' = lastGCdNamespaces s ∧
  scheduled s' = scheduled s ∧ same_settings s s'.
Proof.
  intros [Hwf Hr] Hp Hop Hm.
  destruct (on_tree_view _ _ _ _ _ _ _ _ Hwf Hp Hop) as (E & Hwf' & Hf & Hrest);
    [intros t1 n1 E1; by apply Hm in E1 as (_ & ? & _)|].
  destruct (Hm _ _ E) as (Hn & _ & Hr'). split; [done|]. split; [done|].
  split; [|done]. by apply (store_rep_update n _ log _ s s' ns).
Qed.

Lemma on_tree_Keys n log s ns p ks c s' n' :
  store_rep n log s → hm_Get (namespaces s) ns = Some p →
  on_tree p Tree.Keys (s, n) = ((ks, c), (s', n')) →
  (n ≤ n')%nat ∧ store_rep n' log s' ∧
  Tree.scanned n n' (nslog log ns) (λ _, True) ks ∧
  Tree.count_all (nslog log ns) (clock n') <= c <= Tree.count_all (nslog log ns) (clock n) ∧
  namespaces s' = namespaces s ∧ lastGCdNamespaces s' = lastGCdNamespaces s ∧
  scheduled s' = scheduled s ∧ same_settings s s'.
Proof.
  intros Hrep Hp Hop. pose proof Hrep as [_ Hr].
  destruct (on_tree_rep _ _ _ _ _ _ _ _ _ Hrep Hp Hop) as (E & Hn & Hr' & Hrest).
  { intros t1 n1 E1. destruct (Tree.Keys_spec _ _ _ _ _ _ _ (Hr ns) E1) as (? & ? & ? & _). done. }
  destruct (Tree.Keys_spec _ _ _ _ _ _ _ (Hr ns) E) as (_ & _ & _ & Hsc & Hc). done.
Qed.

(** The live entries of an unknown namespace. *)
Lemma unknown_dead n log s ns time :
  store_rep n log s → hm_Get (namespaces s) ns = None → clock n <= time →
  (∀ k, Tree.count_key (nslog log ns) k time = 0) ∧ Tree.count_all (nslog log ns) time = 0.
Proof.
  intros [_ Hr] Hns Ht. specialize (Hr ns). unfold subtree in Hr. rewrite Hns in Hr.
  assert (Hk : ∀ k, Tree.count_key (nslog log ns) k time = 0).
  { intros k. unfold Tree.count_key. rewrite <- (Hr k time Ht). unfold Tree.entries. simpl.
    by rewrite rb_Get_New. }
  split; [done|].
  rewrite <- (Tree.count_all_sum _ _ []); [done|apply NoDup_nil_2|]. intros k. rewrite Hk. lia.
Qed.

Lemma CountEntries_rep n log s ns c s' n' :
  store_rep n log s → CountEntries ns (s, n) = (c, (s', n')) →
  (n ≤ n')%nat ∧ store_rep n' log s' ∧ same_settings s s' ∧ namespaces s' = namespaces s ∧
  Tree.count_all (nslog log ns) (clock n') <= c <= Tree.count_all (nslog log ns) (clock n).
Proof.
  intros Hrep. unfold CountEntries, namespaces_Get, mbind, M_bind, get, mret, M_ret.
  destruct (hm_Get (namespaces s) ns) as [p|] eqn:Hp.
  - destruct (on_tree p Tree.Keys (s, n)) as [[ks c1] [s1 n1]] eqn:E. intros [= <- <- <-].
    destruct (on_tree_Keys _ _ _ _ _ _ _ _ _ Hrep Hp E) as (? & ? & ? & ? & ? & ? & ? & ?).
    done.
  - intros [= <- <- <-]. destruct (unknown_dead n log s ns (clock n) Hrep Hp) as [_ ->]; [lia|].
    split; [lia|]. repeat split; try done; try apply Hrep; lia.
Qed.

Lemma KeyMatch_rep n log s ns pat ks s' n' :
  store_rep n log s → KeyMatch ns pat (s, n) = (ks, (s', n')) →
  (n ≤ n')%nat ∧ store_rep n' log s' ∧ same_settings s s' ∧
  match hm_Get (namespaces s) ns, Compile (ReplaceAll pat x2a Tree.star) with
  | None, _ => ks = []
  | Some _, inl err => ks = [err]
  | Some _, inr re => Tree.scanned n n' (nslog log ns) (λ k, re k = true) ks
  end.
Proof.
  intros Hrep. pose proof Hrep as [_ Hr].
  unfold KeyMatch, namespaces_Get, mbind, M_bind, get, mret, M_ret.
  destruct (hm_Get (namespaces s) ns) as [p|] eqn:Hp.
  - intros Hop. destruct (on_tree_rep _ _ _ _ _ _ _ _ _ Hrep Hp Hop) as (E & Hn & Hr' & _ & _ & _ & Hs).
    { intros t1 n1 E1. by destruct (Tree.KeyMatch_spec _ _ _ _ _ _ _ (Hr ns) E1) as (? & ? & ? & _). }
    destruct (Tree.KeyMatch_spec _ _ _ _ _ _ _ (Hr ns) E) as (_ & _ & _ & Hm). done.
  - by intros [= <- <- <-].
Qed.

(** ** Counting the whole server *)

Definition count_server (log : list (bytes * bytes * Z)) (time : Z) : Z :=
  len (filter (λ p, time < p.2) log).

Lemma count_all_nslog log ns time :
  Tree.count_all (nslog log ns) time = len (filter (λ p, p.1.1 = ns ∧ time < p.2) log).
Proof.
  unfold Tree.count_all. induction log as [|[[ns' k] e] log IH]; [done|].
  change ((ns', k, e) :: log) with ([(ns', k, e)] ++ log).
  rewrite nslog_app, nslog_one, !filter_app, !len_app, IH. f_equal.
  rewrite (filter_cons (λ p, p.1.1 = ns ∧ time < p.2)). simpl.
  destruct (decide (ns' = ns)) as [->|Hne].
  - rewrite filter_cons. simpl.
    destruct (decide (time < e)); [rewrite decide_True by done|rewrite decide_False by tauto];
      done.
  - by rewrite decide_False by tauto.
Qed.

Lemma count_server_sum log time nss :
  NoDup nss → (∀ ns, 0 < Tree.count_all (nslog log ns) time → ns ∈ nss) →
  sum ((λ ns, Tree.count_all (nslog log ns) time) <$> nss) = count_server log time.
Proof.
  intros Hnd Hin.
  rewrite (list_fmap_ext _ (λ ns, len (filter (λ p, p.1.1 = ns ∧ time < p.2) log)));
    [|intros i ns _; apply count_all_nslog].
  apply (sum_partition (λ p, p.1.1) (λ p, time < p.2)); [done|].
  intros p Hp Ht. apply Hin. rewrite count_all_nslog.
  assert (Hf : p ∈ filter (λ q, q.1.1 = p.1.1 ∧ time < q.2) log)
    by (by apply list_elem_of_filter).
  destruct (filter _ _) as [|q l]; [by apply elem_of_nil in Hf|]. rewrite len_cons.
  pose proof (len_nonneg l). lia.
Qed.

Lemma count_all_mono log time time' :
  time' <= time → Tree.count_all log time <= Tree.count_all log time'.
Proof.
  intros Ht. unfold Tree.count_all, len.
  rewrite <- (list_filter_filter_l (λ p, time < p.2) (λ p, time' < p.2));
    [|intros p Hp; simpl in *; lia].
  pose proof (length_filter (λ p, time < p.2) (filter (λ p, time' < p.2) log)). lia.
Qed.

Lemma CountServerEntries_loop_rep nss n log s c0 c s' n' :
  store_rep n log s → CountServerEntries_loop nss c0 (s, n) = (c, (s', n')) →
  (n ≤ n')%nat ∧ store_rep n' log s' ∧ same_settings s s' ∧ namespaces s' = namespaces s ∧
  c0 + sum ((λ ns, Tree.count_all (nslog log ns) (clock n')) <$> nss) <= c
    <= c0 + sum ((λ ns, Tree.count_all (nslog log ns) (clock n)) <$> nss).
Proof.
  revert n s c0. induction nss as [|ns nss IH]; intros n s c0 Hrep; cbn [CountServerEntries_loop].
  - intros [= <- <- <-]. rewrite !fmap_nil. cbn. split; [lia|].
    repeat split; try done; try apply Hrep; lia.
  - unfold mbind, M_bind. destruct (CountEntries ns (s, n)) as [c1 [s1 n1]] eqn:E1.
    destruct (CountEntries_rep _ _ _ _ _ _ _ Hrep E1) as (Hn1 & Hrep1 & Hs1 & Hm1 & Hc1).
    intros E. destruct (IH _ _ _ Hrep1 E) as (Hn & Hrep' & Hs & Hm & Hc).
    split; [lia|]. split; [done|]. split; [destruct Hs, Hs1; split; congruence|].
    split; [congruence|]. rewrite !fmap_cons, !sum_cons.
    pose proof (count_all_mono (nslog log ns) (clock n') (clock n1) (clock_mono n1 n' ltac:(lia))).
    assert (sum ((λ ns, Tree.count_all (nslog log ns) (clock n1)) <$> nss)
            <= sum ((λ ns, Tree.count_all (nslog log ns) (clock n)) <$> nss)).
    { apply sum_fmap_le. intros x. apply count_all_mono, clock_mono. lia. }
    lia.
Qed.

Lemma CountServerEntries_rep n log s c s' n' :
  store_rep n log s → CountServerEntries (s, n) = (c, (s', n')) →
  (n ≤ n')%nat ∧ store_rep n' log s' ∧ same_settings s s' ∧
  count_server log (clock n') <= c <= count_server log (clock n).
Proof.
  intros Hrep. unfold CountServerEntries, namespaces_Keys, mbind, M_bind, seed, get, mret, M_ret.
  intros E. apply (store_rep_mono n (S n)) in Hrep as Hrep1; [|lia].
  destruct (CountServerEntries_loop_rep _ _ _ _ _ _ _ _ Hrep1 E) as (Hn & Hrep' & Hs & _ & Hc).
  split; [lia|]. split; [done|]. split; [done|].
  assert (Hlive : ∀ time, clock n <= time →
    ∀ ns, 0 < Tree.count_all (nslog log ns) time → ns ∈ hm_Keys n (namespaces s)).
  { intros time Ht ns Hc1. apply hm_Keys_elem.
    destruct (hm_Get (namespaces s) ns) eqn:Hns; [done|].
    destruct (unknown_dead n log s ns time Hrep Hns Ht) as [_ H0]. lia. }
  rewrite !count_server_sum in Hc;
    [|apply hm_Keys_nodup|intros ns; apply Hlive, clock_mono; lia
     |apply hm_Keys_nodup|intros ns; apply Hlive, clock_mono; lia].
  simpl in Hc. pose proof (clock_mono n (S n) ltac:(lia)) as Ht.
  split; [lia|]. etrans; [apply Hc|]. unfold count_server, len.
  rewrite <- (list_filter_filter_l (λ p, clock (S n) < p.2) (λ p, clock n < p.2));
    [|intros p Hp; simpl in *; lia].
  pose proof (length_filter (λ p, clock (S n) < p.2) (filter (λ p, clock n < p.2) log)).
  simpl in *. lia.
Qed.

(** ** Garbage collection *)

Lemma namespaces_Remove_rep n log s ns :
  store_rep n log s →
  (∀ k, Tree.count_key (nslog log ns) k (clock n) = 0) →
  store_rep n log (set_namespaces (λ m, hm_Remove m ns) s).
Proof.
  intros [Hwf Hr] Hdead.
  assert (Hget : ∀ ns' p, hm_Get (hm_Remove (namespaces s) ns) ns' = Some p →
                   hm_Get (namespaces s) ns' = Some p).
  { intros ns' p. rewrite hm_Get_Remove. by case_decide. }
  split; [split; simpl|].
  - intros ns' p Hp. eapply wf_alloc; [done|by apply Hget].
  - intros ns' p Hp. eapply wf_ttl; [done|by apply Hget].
  - intros ns1 ns2 p H1 H2. eapply wf_inj; [done|by apply Hget|by apply Hget].
  - intros ns'. unfold subtree. simpl. rewrite hm_Get_Remove.
    destruct (decide (ns = ns')) as [<-|Hne]; [|apply Hr].
    intros k time Ht. unfold Tree.entries. simpl. rewrite rb_Get_New.
    pose proof (Tree.count_key_mono (nslog log ns) k time (clock n) Ht) as Hle.
    pose proof (Tree.count_key_nonneg (nslog log ns) k time).
    rewrite Hdead in Hle. unfold Tree.count_key, len in *.
    destruct (Tree.live time (Tree.expiries (nslog log ns) k)); [done|]. simpl in *. lia.
Qed.

(** What a crawl leaves of a namespace: it stays and is remembered, or it is
    removed and has no live entry. *)
Definition crawled n (log : list (bytes * bytes * Z)) s s' (g : gset bytes) ns : Prop :=
  (hm_Get (namespaces s') ns = hm_Get (namespaces s) ns ∧ ns ∈ g) ∨
  (hm_Get (namespaces s') ns = None ∧ ∀ k, Tree.count_key (nslog log ns) k (clock n) = 0).

(** What a crawl over the trees of [names] does, from [s] to [s']. *)
Definition crawl_spec n n' (log : list (bytes * bytes * Z)) s s' (g g' : gset bytes) (names : list bytes) : Prop :=
  (n ≤ n')%nat ∧ store_rep n' log s' ∧ same_settings s s' ∧ scheduled s' = scheduled s ∧
  g ⊆ g' ∧
  (∀ ns, ns ∉ names → hm_Get (namespaces s') ns = hm_Get (namespaces s) ns) ∧
  (∀ ns, ns ∈ names → crawled n' log s s' g' ns).

(** A namespace that stays, then the rest. *)
Lemma crawl_spec_keep n n1 n' log s s1 s' g g' ns names :
  (n ≤ n1)%nat → (∀ ns', hm_Get (namespaces s1) ns' = hm_Get (namespaces s) ns') →
  same_settings s s1 → scheduled s1 = scheduled s → ns ∉ names →
  crawl_spec n1 n' log s1 s' ({[ns]} ∪ g) g' names → crawl_spec n n' log s s' g g' (ns :: names).
Proof.
  intros Hn1 Hm1 Hs1 Hsd1 Hns (Hn & Hrep & Hs & Hsd & Hgg & Hout & Hin).
  split; [lia|]. split; [done|]. split; [destruct Hs, Hs1; split; congruence|]. split; [congruence|].
  split; [etrans; [apply union_subseteq_r | exact Hgg]|]. split.
  - intros ns' [Hne Hl]%not_elem_of_cons. by rewrite Hout, Hm1.
  - intros ns' [->|Hl]%elem_of_cons.
    + left. rewrite Hout, Hm1 by done. split; [done|].
      by apply Hgg, elem_of_union_l, elem_of_singleton.
    + destruct (Hin ns' Hl) as [[Hsame Hg]|Hdead]; [left|by right]. by rewrite Hsame, Hm1.
Qed.

(** A dead namespace that is removed, then the rest. *)
Lemma crawl_spec_drop n n1 n' log s s1 s' g g' ns names :
  (n ≤ n1)%nat → (∀ ns', ns' ≠ ns → hm_Get (namespaces s1) ns' = hm_Get (namespaces s) ns') →
  hm_Get (namespaces s1) ns = None → (∀ k, Tree.count_key (nslog log ns) k (clock n1) = 0) →
  same_settings s s1 → scheduled s1 = scheduled s → ns ∉ names →
  crawl_spec n1 n' log s1 s' g g' names → crawl_spec n n' log s s' g g' (ns :: names).
Proof.
  intros Hn1 Hm1 Hgone Hdead Hs1 Hsd1 Hns (Hn & Hrep & Hs & Hsd & Hgg & Hout & Hin).
  split; [lia|]. split; [done|]. split; [destruct Hs, Hs1; split; congruence|]. split; [congruence|].
  split; [done|]. split.
  - intros ns' [Hne Hl]%not_elem_of_cons. by rewrite Hout, Hm1.
  - intros ns' [->|Hl]%elem_of_cons.
    + right. rewrite Hout by done. split; [done|]. intros k.
      pose proof (Tree.count_key_mono (nslog log ns) k (clock n') (clock n1) (clock_mono n1 n' ltac:(lia))).
      pose proof (Tree.count_key_nonneg (nslog log ns) k (clock n')). specialize (Hdead k). lia.
    + assert (ns' ≠ ns) by (by intros ->).
      destruct (Hin ns' Hl) as [[Hsame Hg]|Hdead']; [left|by right]. by rewrite Hsame, Hm1.
Qed.

Lemma crawl_rep l n log s g kc ta g' kc' ta' s' n' :
  store_rep n log s → NoDup l.*1 →
  (∀ ns p, (ns, p) ∈ l → hm_Get (namespaces s) ns = Some p) →
  crawl l g kc ta (s, n) = ((g', kc', ta'), (s', n')) → crawl_spec n n' log s s' g g' l.*1.
Proof.
  revert n s g kc ta. induction l as [|[ns p] l IH]; intros n s g kc ta Hrep Hnd Hget; cbn [crawl].
  { intros [= <- <- <- <- <-]. unfold crawl_spec. do 6 (split; [done|]). intros ns Hns. by apply elem_of_nil in Hns. }
  apply NoDup_cons in Hnd as [Hns Hnd]. unfold mbind at 1, M_bind at 1.
  destruct (on_tree p Tree.Keys (s, n)) as [[ks c] [s1 n1]] eqn:E1.
  destruct (on_tree_Keys _ _ _ _ _ _ _ _ _ Hrep (Hget ns p ltac:(left)) E1)
    as (Hn1 & Hrep1 & Hsc & _ & Hm1 & Hg1 & Hsd1 & Hs1).
  destruct (Z.eqb_spec (len ks) 0) as [Hz|Hnz]; intros E.
  - unfold namespaces_Remove, mbind, M_bind, modify in E.
    assert (Hdead : ∀ k, Tree.count_key (nslog log ns) k (clock n1) = 0).
    { intros k. pose proof (Tree.count_key_nonneg (nslog log ns) k (clock n1)).
      destruct (Z.eq_dec (Tree.count_key (nslog log ns) k (clock n1)) 0) as [|Hne]; [done|].
      assert (Hin : k ∈ ks) by (apply Hsc; [done|lia]).
      destruct ks; [by apply elem_of_nil in Hin|]. rewrite len_cons in Hz.
      pose proof (len_nonneg ks). lia. }
    apply IH in E; [|by apply namespaces_Remove_rep|done|].
    + eapply (crawl_spec_drop n n1); [done| |..|exact E]; try done; simpl.
      * intros ns' Hne. by rewrite hm_Get_Remove, decide_False, Hm1.
      * by rewrite hm_Get_Remove, decide_True.
    + intros ns' q Hq. simpl. rewrite hm_Get_Remove, decide_False, Hm1; [by apply Hget; right|].
      intros ->. apply Hns. apply list_elem_of_fmap. by exists (ns', q).
  - apply IH in E; [eapply (crawl_spec_keep n n1); [..|exact E]; try done; intros ns'; by rewrite Hm1|done|done|].
    intros ns' q Hq. rewrite Hm1. by apply Hget; right.
Qed.

Lemma elem_of_fetch keys s ns p :
  (ns, p) ∈ fetch keys s ↔
  (ns ∈ keys) ∧ (ns ∉ lastGCdNamespaces s) ∧ hm_Get (namespaces s) ns = Some p.
Proof.
  unfold fetch. rewrite list_elem_of_omap. split.
  - intros (ns' & Hin & Heq). case_decide; [done|].
    apply bind_Some in Heq as (q & Hq & [= -> ->]). done.
  - intros (Hin & Hg & Hp). exists ns. split; [done|].
    rewrite decide_False by done. by rewrite Hp.
Qed.

Lemma fetch_nodup keys s : NoDup keys → NoDup (fetch keys s).*1.
Proof.
  induction 1 as [|ns keys Hns Hnd IH]; [apply NoDup_nil_2|].
  unfold fetch. cbn [omap list_omap]. fold (fetch keys s).
  case_decide; [done|]. destruct (hm_Get (namespaces s) ns) as [p|]; simpl; [|done].
  apply NoDup_cons. split; [|done].
  intros ([ns' q] & -> & Hin)%list_elem_of_fmap. by apply elem_of_fetch in Hin as [? _].
Qed.

(** The namespaces a run of the collector looks at: the first half of the
    keys, less the ones of the last run. *)
Definition candidate n s ns : Prop :=
  let keys := hm_Keys (S n) (namespaces s) in
  (ns ∈ take (length keys / maxNamespacesDenom) keys) ∧ ns ∉ lastGCdNamespaces s.

(** What an enabled run does. *)
Record cleaned n n' (log : list (bytes * bytes * Z)) s s' (keys : list bytes) : Prop := {
  cl_kept ns :
    hm_Get (namespaces s') ns = hm_Get (namespaces s) ns ∨
    (candidate n s ns ∧ hm_Get (namespaces s') ns = None ∧
     ∀ k, Tree.count_key (nslog log ns) k (clock n') = 0);
  cl_keys ns : ns ∈ keys ↔ is_Some (hm_Get (namespaces s') ns);
  cl_keys_nodup : NoDup keys;
  cl_scheduled : scheduled s' = S (scheduled s);
  cl_total : namespacesTotalCount (LastMetrics s') = len (hm_Keys (S n) (namespaces s))
}.

Lemma crawl_metrics l s n g kc ta r s' n' :
  crawl l g kc ta (s, n) = (r, (s', n')) → LastMetrics s' = LastMetrics s.
Proof.
  revert s n g kc ta. induction l as [|[ns p] l IH]; intros s n g kc ta; cbn [crawl].
  - by intros [= _ <- _].
  - unfold mbind at 1, M_bind at 1.
    destruct (on_tree p Tree.Keys (s, n)) as [[ks c] [s1 n1]] eqn:E1.
    assert (Hm : LastMetrics s1 = LastMetrics s).
    { unfold on_tree in E1. destruct (Tree.Keys _) as [? [? ?]]. by injection E1 as _ <- _. }
    destruct (len ks =? 0); intros E; apply IH in E; [|congruence]. simpl in E. congruence.
Qed.

Lemma runCleanup_rep n log s keys s' n' :
  store_rep n log s → runCleanup (s, n) = (keys, (s', n')) →
  (n ≤ n')%nat ∧ store_rep n' log s' ∧ same_settings s s' ∧
  if cleanupServiceEnabled s then cleaned n n' log s s' keys
  else keys = [] ∧ s' = s ∧ n' = n.
Proof.
  intros Hrep. unfold runCleanup, namespaces_Keys, seed, modify, get, mret, M_ret, mbind, M_bind.
  destruct (cleanupServiceEnabled s) eqn:Hen; cbn [negb].
  2: { intros [= <- <- <-]. split; [done|]. split; [done|]. split; [done|]. done. }
  set (ks := hm_Keys (S n) (namespaces s)).
  set (s1 := set_metrics _ s).
  set (l := range_order _ _).
  destruct (crawl l ∅ 0 0 _) as [[[g kc] ta] [s2 n2]] eqn:EC. intros [= <- <- <-].
  assert (Hrep1 : store_rep (S (S (S n))) log s1)
    by (apply (store_rep_mono n); [lia | by apply (store_rep_ext n log s)]).
  assert (Hl : l ≡ₚ fetch (take (length ks / maxNamespacesDenom) ks) s1)
    by apply range_order_Permutation.
  apply crawl_rep with (log := log) in EC as EC'; [|done|..].
  2: { rewrite Hl. apply fetch_nodup. eapply sublist_NoDup; [|apply sublist_take].
       apply hm_Keys_nodup. }
  2: { intros ns p. rewrite Hl, elem_of_fetch. tauto. }
  destruct EC' as (Hn & Hrep2 & Hs & Hsd & _ & Hout & Hin).
  split; [lia|]. split; [by apply (store_rep_mono n2); [lia|]; apply (store_rep_ext n2 log s2)|].
  split; [done|]. split; simpl.
  - intros ns. destruct (decide (ns ∈ l.*1)) as [Hns|Hns]; [|left; by apply Hout].
    destruct (Hin ns Hns) as [[Hsame _]|[Hnone Hdead]]; [by left|right].
    split; [|split; [done|]].
    + apply list_elem_of_fmap in Hns as ([ns' p] & -> & Hp).
      rewrite Hl in Hp. apply elem_of_fetch in Hp as (? & ? & _). done.
    + intros k. pose proof (Tree.count_key_mono (nslog log ns) k (clock (S (S n2))) (clock n2)
        (clock_mono n2 (S (S n2)) ltac:(lia))) as Hle. rewrite Hdead in Hle.
      pose proof (Tree.count_key_nonneg (nslog log ns) k (clock (S (S n2)))). lia.
  - intros ns. apply hm_Keys_elem.
  - apply hm_Keys_nodup.
  - by rewrite Hsd.
  - by rewrite (crawl_metrics _ _ _ _ _ _ _ _ _ EC).
Qed.

(** A scheduled run keeps the specification. *)
Lemma timer_fires_rep n log s u s' n' :
  store_rep n log s → timer_fires (s, n) = (u, (s', n')) →
  (n ≤ n')%nat ∧ store_rep n' log s' ∧ same_settings s s'.
Proof.
  intros Hrep. unfold timer_fires, mbind, M_bind, get, modify.
  destruct (scheduled s) as [|m]; [by intros [= _ <- <-]|].
  destruct (runCleanup _) as [keys [s1 n1]] eqn:E. intros [= _ <- <-].
  assert (Hrep0 : store_rep n log (set_scheduled Nat.pred s)) by (by apply (store_rep_ext n log s)).
  destruct (runCleanup_rep _ _ _ _ _ _ Hrep0 E) as (Hn & Hr & Hs & _). done.
Qed.

(** ** Histories *)

Inductive op :=
  | OPut (ns k : bytes)
  | OCount (ns k : bytes)
  | OCountEntries (ns : bytes)
  | OCountServerEntries
  | OKeyMatch (ns pat : bytes)
  | ONamespaces
  | OTimer
  | OEnableCleanup
  | ODisableCleanup.

Definition step (o : op) : M (Store T H) unit :=
  match o with
  | OPut ns k => Put ns k
  | OCount ns k => Count ns k;; mret tt
  | OCountEntries ns => CountEntries ns;; mret tt
  | OCountServerEntries => CountServerEntries;; mret tt
  | OKeyMatch ns pat => KeyMatch ns pat;; mret tt
  | ONamespaces => Namespaces;; mret tt
  | OTimer => timer_fires
  | OEnableCleanup => EnableCleanup
  | ODisableCleanup => DisableCleanup
  end.

Fixpoint run (ops : list op) : M (Store T H) unit :=
  match ops with
  | [] => mret tt
  | o :: ops' => step o;; run ops'
  end.

Definition puts (ops : list op) : list (bytes * bytes) :=
  omap (λ o, match o with OPut ns k => Some (ns, k) | _ => None end) ops.

Definition put_log (ttl : Z) (ks : list (bytes * bytes)) (times : list Z)
    : list (bytes * bytes * Z) :=
  zip_with (λ nk time, (nk, i64 (time + ttl))) ks times.

(** The span of each put of a history, as it runs from [σ]. *)
Definition op_spans (o : op) (n n' : nat) : list (nat * nat) :=
  match o with OPut _ _ => [(n, n')] | _ => [] end.

Fixpoint put_spans (ops : list op) (σ : Store T H * nat) : list (nat * nat) :=
  match ops with
  | [] => []
  | o :: ops' => let σ' := (step o σ).2 in op_spans o σ.2 σ'.2 ++ put_spans ops' σ'
  end.

Lemma store_step_spec o n log s s' n' :
  store_rep n log s → step o (s, n) = (tt, (s', n')) →
  (n ≤ n')%nat ∧ expireAfterSecs s' = expireAfterSecs s ∧
  ∃ times, length times = length (puts [o]) ∧
    Forall2 Tree.during (op_spans o n n') times ∧
    store_rep n' (log ++ put_log (expireAfterSecs s) (puts [o]) times) s'.
Proof.
  intros Hrep Hst.
  assert (Hquiet : puts [o] = [] → op_spans o n n' = [] →
    (n ≤ n')%nat ∧ expireAfterSecs s' = expireAfterSecs s ∧ store_rep n' log s' →
    (n ≤ n')%nat ∧ expireAfterSecs s' = expireAfterSecs s ∧
    ∃ times, length times = length (puts [o]) ∧
      Forall2 Tree.during (op_spans o n n') times ∧
      store_rep n' (log ++ put_log (expireAfterSecs s) (puts [o]) times) s').
  { intros -> -> (Hn & He & Hr). split; [done|]. split; [done|]. exists [].
    by rewrite app_nil_r. }
  destruct o; cbn [step] in Hst; unfold mbind, M_bind, mret, M_ret in Hst;
    try (apply Hquiet; [done|done|]; clear Hquiet).
  - destruct (Put_rep _ _ _ _ _ _ _ _ Hrep Hst) as (Hn & [He _] & m & Hm & Hr).
    split; [done|]. split; [done|]. exists [clock m]. split; [done|]. split; [|done].
    constructor; [by exists m | constructor].
  - destruct (Count ns k (s, n)) as [c [s1 n1]] eqn:E. injection Hst as <- <-.
    by destruct (Count_rep _ _ _ _ _ _ _ _ Hrep E) as (? & [? _] & ? & _).
  - destruct (CountEntries ns (s, n)) as [c [s1 n1]] eqn:E. injection Hst as <- <-.
    by destruct (CountEntries_rep _ _ _ _ _ _ _ Hrep E) as (? & ? & [? _] & _).
  - destruct (CountServerEntries (s, n)) as [c [s1 n1]] eqn:E. injection Hst as <- <-.
    by destruct (CountServerEntries_rep _ _ _ _ _ _ Hrep E) as (? & ? & [? _] & _).
  - destruct (KeyMatch ns pat (s, n)) as [c [s1 n1]] eqn:E. injection Hst as <- <-.
    by destruct (KeyMatch_rep _ _ _ _ _ _ _ _ Hrep E) as (? & ? & [? _] & _).
  - unfold Namespaces, mbind, M_bind, mret, M_ret in Hst.
    destruct (runCleanup (s, n)) as [c [s1 n1]] eqn:E. injection Hst as <- <-.
    by destruct (runCleanup_rep _ _ _ _ _ _ Hrep E) as (? & ? & [? _] & _).
  - by destruct (timer_fires_rep _ _ _ _ _ _ Hrep Hst) as (? & ? & [? _]).
  - injection Hst as <- <-. split; [done|]. split; [done|]. by apply (store_rep_ext n log s).
  - injection Hst as <- <-. split; [done|]. split; [done|]. by apply (store_rep_ext n log s).
Qed.

Lemma store_puts_app ops1 ops2 : puts (ops1 ++ ops2) = puts ops1 ++ puts ops2.
Proof. apply omap_app. Qed.

Lemma store_run_spec ops n log s s' n' :
  store_rep n log s → run ops (s, n) = (tt, (s', n')) →
  (n ≤ n')%nat ∧ expireAfterSecs s' = expireAfterSecs s ∧
  ∃ times, length times = length (puts ops) ∧
    Forall2 Tree.during (put_spans ops (s, n)) times ∧
    store_rep n' (log ++ put_log (expireAfterSecs s) (puts ops) times) s'.
Proof.
  revert n log s. induction ops as [|o ops IH]; intros n log s Hr.
  - intros [= <- <-]. split; [done|]. split; [done|]. exists []. by rewrite app_nil_r.
  - cbn [run]. unfold mbind, M_bind.
    destruct (step o (s, n)) as [[] [s1 n1]] eqn:Eo. intros Hrun.
    destruct (store_step_spec _ _ _ _ _ _ Hr Eo) as (Hn1 & He1 & ts1 & Hl1 & Hts1 & Hr1).
    destruct (IH _ _ _ Hr1 Hrun) as (Hn & He & ts & Hl & Hts & Hr').
    split; [lia|]. split; [congruence|]. exists (ts1 ++ ts).
    change (o :: ops) with ([o] ++ ops). rewrite store_puts_app, !length_app.
    split; [lia|]. split.
    + change ([o] ++ ops) with (o :: ops). cbn [put_spans]. rewrite Eo. by apply Forall2_app.
    + unfold put_log in *. rewrite zip_with_app by done.
      rewrite He1 in Hr'. by rewrite app_assoc.
Qed.

Lemma nslog_cons ns k e log ns' :
  nslog ((ns, k, e) :: log) ns' = (if decide (ns = ns') then [(k, e)] else []) ++ nslog log ns'.
Proof. change ((ns, k, e) :: log) with ([(ns, k, e)] ++ log). by rewrite nslog_app, nslog_one. Qed.

Lemma count_put_log ttl ks times ns k time :
  length times = length ks → Forall (λ t, i64 (t + ttl) = t + ttl) times →
  Tree.count_key (nslog (put_log ttl ks times) ns) k time
  = len (filter (λ p, p.1 = (ns, k) ∧ time < p.2 + ttl) (zip ks times)).
Proof.
  revert times. induction ks as [|[ns' k'] ks IH]; intros [|t times] Hl Hf; try done.
  inversion Hf as [|? ? Ht Hf']; subst.
  cbn [put_log zip_with zip]. fold (put_log ttl ks times).
  rewrite nslog_cons, filter_cons, Ht. cbn [fst snd].
  destruct (decide (ns' = ns)) as [->|Hne].
  - cbn [app]. rewrite Tree.count_key_cons, IH by (simpl in Hl; lia || done). cbn [fst snd].
    destruct (decide (k' = k ∧ time < t + ttl)) as [[-> ?]|Hd].
    + by rewrite decide_True, len_cons.
    + rewrite decide_False; [done|]. intros [[= ->] ?]. tauto.
  - cbn [app]. rewrite IH by (simpl in Hl; lia || done).
    rewrite decide_False; [done|]. intros [[= -> _] ?]. tauto.
Qed.

(** * Theorems *)

(** C3. Refinement: after any sequential history of a new store, with
    garbage collection runs, scans and counts anywhere in it, [Count] returns
    the number of puts of that namespace and key that are live: each put has
    its time, a reading of the clock during that very put, and is counted as
    long as the clock has not reached this time plus the time to live. So a
    put is counted once, and no later operation extends its life or cuts it
    short. *)
Theorem Store_counts_recent_puts ttl `{!ClockFits ttl} ops n0 s n ns k c σ :
  run ops (NewStore ttl, n0) = (tt, (s, n)) → Count ns k (s, n) = (c, σ) →
  ∃ times, length times = length (puts ops) ∧
    Forall2 Tree.during (put_spans ops (NewStore ttl, n0)) times ∧
    c = len (filter (λ p, p.1 = (ns, k) ∧ clock n < p.2 + ttl) (zip (puts ops) times)).
Proof.
  intros Hrun HC. destruct σ as [s' n'].
  destruct (store_run_spec _ _ [] _ _ _ (store_rep_New n0 ttl) Hrun) as (_ & _ & times & Hl & Hts & Hr).
  destruct (Count_rep _ _ _ _ _ _ _ _ Hr HC) as (_ & _ & _ & ->).
  exists times. split; [done|]. split; [done|]. apply count_put_log; [done|].
  by eapply Tree.during_fits.
Qed.

(** C35. Counting the whole server key by key and namespace by namespace
    while the clock runs gives a number between the entries live at the
    end and the entries live at the start; without a tick during the scan
    it is the exact count. *)
Theorem CountServerEntries_counts_live n log s c s' n' :
  store_rep n log s → CountServerEntries (s, n) = (c, (s', n')) →
  count_server log (clock n') <= c <= count_server log (clock n) ∧
  (clock n' = clock n → c = count_server log (clock n)) ∧
  store_rep n' log s'.
Proof.
  intros Hrep E. destruct (CountServerEntries_rep _ _ _ _ _ _ Hrep E) as (_ & Hr & _ & Hc).
  split; [done|]. split; [|done]. intros Ht. rewrite Ht in Hc. lia.
Qed.

(** C33. A run of the garbage collector, in sequence: it removes only
    namespaces among the first half of the keys that the last run did not
    crawl and that have no live entry; every other namespace keeps its
    tree; it returns the names of the remaining namespaces; and every count
    from then on is what it would have been. A disabled collector does
    nothing and returns no namespace at all. *)
Theorem runCleanup_removes_dead_namespaces_only n log s keys s' n' :
  store_rep n log s → runCleanup (s, n) = (keys, (s', n')) →
  store_rep n' log s' ∧
  (cleanupServiceEnabled s = false → keys = [] ∧ s' = s) ∧
  (cleanupServiceEnabled s = true →
    (∀ ns, hm_Get (namespaces s') ns = hm_Get (namespaces s) ns ∨
      (candidate n s ns ∧ hm_Get (namespaces s') ns = None ∧
       ∀ k, Tree.count_key (nslog log ns) k (clock n') = 0)) ∧
    NoDup keys ∧ (∀ ns, ns ∈ keys ↔ is_Some (hm_Get (namespaces s') ns))).
Proof.
  intros Hrep E. destruct (runCleanup_rep _ _ _ _ _ _ Hrep E) as (_ & Hr & _ & Hc).
  split; [done|]. destruct (cleanupServiceEnabled s); (split; [|]); try done.
  - intros _. destruct Hc. done.
  - intros _. by destruct Hc as (? & ? & _).
Qed.

(** A store with a single namespace never frees it: half of one is
    zero, so the collector looks at no namespace and the only one stays
    for ever, however long all of its entries are expired. *)
Theorem single_namespace_is_never_collected n log s keys s' n' ns p :
  store_rep n log s →
  (∀ ns', is_Some (hm_Get (namespaces s) ns') ↔ ns' = ns) →
  hm_Get (namespaces s) ns = Some p →
  runCleanup (s, n) = (keys, (s', n')) →
  hm_Get (namespaces s') ns = Some p.
Proof.
  intros Hrep Hone Hp E. destruct (runCleanup_rep _ _ _ _ _ _ Hrep E) as (_ & _ & _ & Hc).
  destruct (cleanupServiceEnabled s); [|by destruct Hc as (_ & -> & _)].
  destruct Hc as [Hkept _ _ _ _]. destruct (Hkept ns) as [->|[[Hin _] _]]; [done|].
  assert (Hlen : (length (hm_Keys (S n) (namespaces s)) ≤ 1)%nat).
  { change 1%nat with (length [ns]). apply NoDup_incl_length; [apply NoDup_ListNoDup, hm_Keys_nodup|].
    intros x Hx%list_elem_of_In%hm_Keys_elem%Hone. subst. by left. }
  replace (length (hm_Keys (S n) (namespaces s)) / maxNamespacesDenom)%nat with 0%nat in Hin.
  - by apply elem_of_nil in Hin.
  - unfold maxNamespacesDenom. symmetry. apply Nat.div_small. lia.
Qed.

(** Cleanup loops multiply: every run of an enabled collector schedules
    the next one, also the run that [Namespaces] makes for a request. So a
    timer that fires leaves the number of pending runs as it was, and each
    call of [Namespaces] adds a loop that never ends. *)
Theorem Namespaces_adds_a_cleanup_loop n log s :
  store_rep n log s → cleanupServiceEnabled s = true →
  scheduled (Namespaces (s, n)).2.1 = S (scheduled s) ∧
  ((0 < scheduled s)%nat → scheduled (timer_fires (s, n)).2.1 = scheduled s).
Proof.
  intros Hrep Hen. split.
  - unfold Namespaces, mbind, M_bind, mret, M_ret.
    destruct (runCleanup (s, n)) as [keys [s' n']] eqn:E. simpl.
    destruct (runCleanup_rep _ _ _ _ _ _ Hrep E) as (_ & _ & _ & Hc).
    rewrite Hen in Hc. by destruct Hc.
  - intros Hpos. unfold timer_fires, mbind, M_bind, get, modify, mret, M_ret.
    destruct (scheduled s) as [|m] eqn:Hs; [lia|].
    destruct (runCleanup _) as [keys [s' n']] eqn:E. simpl.
    assert (Hrep0 : store_rep n log (set_scheduled Nat.pred s))
      by (by apply (store_rep_ext n log s)).
    destruct (runCleanup_rep _ _ _ _ _ _ Hrep0 E) as (_ & _ & _ & Hc). simpl in Hc.
    rewrite Hen in Hc. destruct Hc as [_ _ _ -> _]. simpl. by rewrite Hs.
Qed.
End StoreFacts.

(** ** Witnesses *)
Module StoreWitness.
Import Concrete ConcreteClock.

Definition ops : list op :=
  [OPut (str "default") (str "a"); OPut (str "other") (str "a"); ONamespaces;
   OPut (str "default") (str "a"); OTimer; OCountServerEntries; OCountEntries (str "other")].

Abbreviation store0 ttl := (NewStore (T := gmap bytes) (H := gmap bytes) ttl, 0%nat).
Abbreviation after0 ttl := (run ops (store0 ttl)).2.

(** With eight seconds to live the first of two puts of a key is expired when
    it is counted, with sixty none is. *)
Lemma Store_counts_recent_puts_witness :
  put_spans ops (store0 8) = [(0, 1); (1, 2); (8, 10)]%nat ∧
  (Count (str "default") (str "a") (after0 60)).1 = 2 ∧
  (Count (str "default") (str "a") (after0 8)).1 = 1 ∧
  ∃ n times, length times = 3%nat ∧ Forall2 Tree.during (put_spans ops (store0 8)) times ∧
    1 = len (filter (λ p, p.1 = (str "default", str "a") ∧ clock n < p.2 + 8)
               (zip (puts ops) times)).
Proof.
  split; [vm_compute; reflexivity|]. split; [vm_compute; reflexivity|].
  assert (H1 : (Count (str "default") (str "a") (after0 8)).1 = 1) by (vm_compute; reflexivity).
  split; [exact H1|].
  destruct (run ops (store0 8)) as [[] [s n]] eqn:Hrun. cbn [fst snd] in H1.
  destruct (Count (str "default") (str "a") (s, n)) as [c σ] eqn:HC. cbn [fst] in H1. subst c.
  exists n. exact (Store_counts_recent_puts 8 (ClockFits0 := clk_fits 8 ltac:(lia))
                     _ _ _ _ _ _ _ _ Hrun HC).
Defined.

Lemma CountServerEntries_counts_live_witness :
  (CountServerEntries (after0 60)).1 = 3 ∧
  ∃ log n n', count_server log (clock n') <= 3 <= count_server log (clock n).
Proof.
  assert (H3 : (CountServerEntries (after0 60)).1 = 3) by (vm_compute; reflexivity).
  split; [exact H3|].
  destruct (run ops (store0 60)) as [[] [s n]] eqn:Hrun. cbn [fst snd] in H3.
  destruct (store_run_spec _ _ [] _ _ _ (store_rep_New 0 60) Hrun) as (_ & _ & times & _ & _ & Hr).
  destruct (CountServerEntries (s, n)) as [c [s' n']] eqn:HC. cbn [fst] in H3. subst c.
  eexists _, n, n'. exact (proj1 (CountServerEntries_counts_live _ _ _ _ _ _ Hr HC)).
Defined.

(** Nothing was put after both namespaces expired: a run collects one. *)
Lemma runCleanup_removes_dead_namespaces_only_witness :
  length (runCleanup (after0 3)).1 = 1%nat ∧
  ∃ s' n' log, store_rep (T := gmap bytes) (H := gmap bytes) n' log s'.
Proof.
  split; [vm_compute; reflexivity|].
  destruct (run ops (store0 3)) as [[] [s n]] eqn:Hrun. cbn [fst snd].
  destruct (store_run_spec _ _ [] _ _ _ (store_rep_New 0 3) Hrun) as (_ & _ & times & _ & _ & Hr).
  destruct (runCleanup (s, n)) as [keys [s' n']] eqn:E. eexists s', n', _.
  exact (proj1 (runCleanup_removes_dead_namespaces_only _ _ _ _ _ _ Hr E)).
Defined.

(** A store with one namespace and an empty tree, cleaned up. *)
Definition one_namespace : Store (gmap bytes) (gmap bytes) :=
  set_namespaces (λ m, hm_Put m (str "ns") 0%nat)
    (bump_loc (set_tree 0%nat (NewTree 2) (NewStore 2))).

Lemma one_namespace_rep : store_rep 0 [] one_namespace.
Proof.
  destruct (store_rep_New (T := gmap bytes) (H := gmap bytes) 0 2) as [Hwf Hr].
  destruct (new_namespace_view (NewStore 2) (str "ns") Hwf) as (Hwf' & Hv & _);
    [apply hm_Get_New|].
  split; [exact Hwf'|]. intros ns. unfold one_namespace. rewrite Hv. apply Hr.
Qed.

Lemma single_namespace_is_never_collected_witness :
  hm_Get (H := gmap bytes) (namespaces (runCleanup (one_namespace, 0%nat)).2.1) (str "ns")
  = Some 0%nat.
Proof.
  destruct (runCleanup (one_namespace, 0%nat)) as [keys [s' n']] eqn:E.
  apply (single_namespace_is_never_collected 0 [] one_namespace keys s' n' (str "ns") 0%nat
           one_namespace_rep); [|reflexivity|exact E].
  intros ns'. unfold one_namespace. simpl. rewrite lookup_insert, lookup_empty.
  case_decide; split; [by intros _|by eauto|by intros [? ?]|congruence].
Defined.

Lemma Namespaces_adds_a_cleanup_loop_witness :
  scheduled (Namespaces (store0 60)).2.1 = 2%nat ∧
  (scheduled (timer_fires (store0 60)).2.1 = 1)%nat.
Proof.
  destruct (Namespaces_adds_a_cleanup_loop 0 [] _ (store_rep_New 0 60) eq_refl) as [H1 H2].
  split; [exact H1|]. apply H2. simpl. lia.
Defined.
End StoreWitness.
