(* ===== verification/Conc.v ===== *)
(** * Programs of critical sections

    Goroutines that share a state take its lock for a part of their work at a
    time. A [prog] is such a piece of code: a sequence of atomic actions on the
    shared state, each of which may decide what follows. [alone] runs a program
    without interruption. [safe] is a small rely-guarantee logic for programs
    that run among others: it bounds what a program adds to a shared history. *)
From Stdlib Require Import ZArith Lia.
From stdpp Require Import base gmap list relations.
From S2P Require Import Prelude Env.
From Stdlib Require Import Permutation FunctionalExtensionality.
Local Open Scope Z_scope.

Section Prog.
Context {St : Type}.

(** A program: its steps are atomic actions on the shared state. *)
Inductive prog (A : Type) : Type :=
  | Return (a : A)
  | Step {B : Set} (m : M St B) (k : B → prog A).
Arguments Return {A} a.
Arguments Step {A B} m k.

#[global] Instance prog_ret : MRet prog := @Return.
#[global] Instance prog_bind : MBind prog :=
  λ A B f, fix go (p : prog A) : prog B :=
    match p with
    | Return a => f a
    | Step m k => Step m (λ x, go (k x))
    end.

Definition atomic {B : Set} (m : M St B) : prog B := Step m Return.

Lemma prog_bind_assoc {A B C} (p : prog A) (f : A → prog B) (g : B → prog C) :
  (y ← (x ← p; f x); g y) = (x ← p; y ← f x; g y).
Proof.
  induction p as [a|D m k IH]; [done|]. cbn. f_equal. apply functional_extensionality. apply IH.
Qed.

Lemma prog_bind_ext {A B} (p : prog A) (f g : A → prog B) :
  (∀ a, f a = g a) → (x ← p; f x) = (x ← p; g x).
Proof. intros E. f_equal. by apply functional_extensionality. Qed.

(** A program that runs alone. *)
Fixpoint alone {A} (p : prog A) : M St A :=
  match p with
  | Return a => mret a
  | Step m k => λ σ, let '(b, σ') := m σ in alone (k b) σ'
  end.

(** Its next step. *)
Definition run1 {A} (p : prog A) (σ : St * nat) : prog A * (St * nat) :=
  match p with
  | Return a => (Return a, σ)
  | Step m k => let '(b, σ') := m σ in (k b, σ')
  end.

(** Running alone is a morphism of monads. *)
Lemma alone_bind {A B} (p : prog A) (f : A → prog B) :
  alone (x ← p; f x) = (x ← alone p; alone (f x)).
Proof.
  apply functional_extensionality. intros σ. revert σ.
  induction p as [a|C m k IH]; intros σ; [done|].
  unfold mbind, M_bind in *. simpl. destruct (m σ) as [b σ']. apply IH.
Qed.

Lemma alone_atomic {B : Set} (m : M St B) : alone (atomic m) = m.
Proof. apply functional_extensionality. intros σ. simpl. by destruct (m σ). Qed.

Lemma alone_ret {A} (a : A) : alone (mret a) = mret a.
Proof. done. Qed.
End Prog.

(** [alone_steps] compares a program that runs alone with an operation,
    section by section. *)
Create Rewrite HintDb alone.
#[export] Hint Rewrite @alone_bind @alone_atomic @alone_ret @M_bind_assoc @M_bind_ret : alone.
Ltac alone_steps :=
  repeat (autorewrite with alone; first
    [ reflexivity
    | apply M_bind_ext; intros ?
    | match goal with
      | |- context [match ?x with _ => _ end] => destruct x eqn:?
      | |- context [if ?x then _ else _] => destruct x eqn:?
      end ]).

Arguments prog St A : clear implicits.
Arguments Return {St A} a.
Arguments Step {St A B} m k.

(** ** Threads

    Any number of calls run at once, each the program of its goroutine. *)
Class Programs (St Call Ans : Type) := program : Call → prog St Ans.

Section Threads.
Context {St Call Ans : Type} {PG : Programs St Call Ans}.

Abbreviation thread := (Call * prog St Ans)%type.
Abbreviation config := (list thread * (St * nat))%type.

(** The system: a call is started, a thread runs its next section, or an
    event happens elsewhere. *)
Inductive step : config → config → Prop :=
  | step_start c ts σ : step (ts, σ) (ts ++ [(c, program c)], σ)
  | step_run i c (B : Set) (m : M St B) k ts σ b σ' :
      ts !! i = Some (c, Step m k) → m σ = (b, σ') →
      step (ts, σ) (<[i:=(c, k b)]> ts, σ')
  | step_tick ts s n : step (ts, (s, n)) (ts, (s, S n)).

Lemma steps_tick ts s n n' : (n ≤ n')%nat → rtc step (ts, (s, n)) (ts, (s, n')).
Proof.
  induction 1 as [|n' _ IH]; [apply rtc_refl|]. eapply rtc_r; [exact IH|]. apply step_tick.
Qed.

Lemma step_run1 ts i c pr σ :
  ts !! i = Some (c, pr) → rtc step (ts, σ) (<[i:=(c, (run1 pr σ).1)]> ts, (run1 pr σ).2).
Proof.
  intros Hi. destruct pr as [a|B m k]; cbn [run1].
  - rewrite list_insert_id by done. apply rtc_refl.
  - destruct (m σ) as [b σ'] eqn:E. apply rtc_once. cbn [fst snd]. by eapply step_run.
Qed.

Definition finished (t : thread) : bool :=
  match t.2 with Return _ => true | Step _ _ => false end.

(** The system run by a schedule. *)
Inductive event := EStart (c : Call) | ERun (i : nat).

Definition exec1 (e : event) (c : config) : config :=
  match e with
  | EStart o => (c.1 ++ [(o, program o)], c.2)
  | ERun i =>
      match c.1 !! i with
      | Some (o, Step m k) => let '(b, σ) := m c.2 in (<[i:=(o, k b)]> c.1, σ)
      | _ => c
      end
  end.
Definition exec (es : list event) (c : config) : config := fold_left (λ c e, exec1 e c) es c.

Lemma exec_steps es c : rtc step c (exec es c).
Proof.
  revert c. induction es as [|e es IH]; intros c; [apply rtc_refl|].
  etrans; [|apply IH]. destruct c as [ts σ], e as [o|i]; simpl.
  - apply rtc_once. constructor.
  - destruct (ts !! i) as [[o [a|B m k]]|] eqn:E; [done| |done].
    destruct (m σ) as [b σ'] eqn:Em. apply rtc_once. by econstructor.
Qed.
(** A thread that runs a part of its program without interruption. *)
Definition runs (pr : prog St Ans) σ (pr' : prog St Ans) σ' : Prop :=
  ∀ ts i c, ts !! i = Some (c, pr) → rtc step (ts, σ) (<[i:=(c, pr')]> ts, σ').

Lemma runs_refl pr σ : runs pr σ pr σ.
Proof. intros ts i c Hi. by rewrite list_insert_id. Qed.

Lemma runs_trans pr1 σ1 pr2 σ2 pr3 σ3 :
  runs pr1 σ1 pr2 σ2 → runs pr2 σ2 pr3 σ3 → runs pr1 σ1 pr3 σ3.
Proof.
  intros H1 H2 ts i c Hi. etrans; [by apply H1|].
  assert (Hlt : (i < length ts)%nat) by (by eapply lookup_lt_Some).
  specialize (H2 (<[i:=(c, pr2)]> ts) i c). rewrite list_insert_insert_eq in H2.
  apply H2. by apply list_lookup_insert_eq.
Qed.

Lemma runs_section {B : Set} (m : M St B) k σ : runs (Step m k) σ (k (m σ).1) (m σ).2.
Proof. intros ts i c Hi. apply rtc_once. eapply step_run; [exact Hi|]. apply surjective_pairing. Qed.

Lemma runs_step {B : Set} (m : M St B) k σ b σ' :
  m σ = (b, σ') → runs (Step m k) σ (k b) σ'.
Proof. intros E. pose proof (runs_section m k σ) as Hr. by rewrite E in Hr. Qed.

Lemma runs_part {A} (pr : prog St A) (f : A → prog St Ans) σ :
  runs (x ← pr; f x) σ (f (alone pr σ).1) (alone pr σ).2.
Proof.
  revert σ. induction pr as [a|B m k IH]; intros σ; [apply runs_refl|].
  eapply runs_trans; [apply runs_section|]. simpl. destruct (m σ) as [b σ']. apply IH.
Qed.

Lemma bind_return {A} (pr : prog St A) : (x ← pr; Return x) = pr.
Proof.
  induction pr as [a|B m k IH]; [done|]. cbn. f_equal. by apply functional_extensionality.
Qed.

Lemma runs_to_the_end pr σ : runs pr σ (Return (alone pr σ).1) (alone pr σ).2.
Proof. pose proof (runs_part pr Return σ) as Hr. by rewrite bind_return in Hr. Qed.
End Threads.
Arguments event Call : clear implicits.

(** ** Reasoning about interleavings

    A world [W] records what happened; it grows along [le]. [Inv] is the
    invariant of the shared state in a world, and [log] the tokens spent so
    far. A program is [safe] with a budget of tokens when, from every world
    and state its environment may lead to, each of its steps keeps the
    invariant and spends a part of the budget, and its result satisfies [Q]
    from then on, the budget spent. *)
Section Logic.
Context {St W Tok : Type} (le : relation W) `{!PreOrder le}
  (log : W → list Tok) (Inv : W → St * nat → Prop).

Fixpoint safe {A} (Q : W → A → Prop) (bud : list Tok) (w : W) (p : prog St A) : Prop :=
  match p with
  | Return a => bud = [] ∧ ∀ w', le w w' → Q w' a
  | Step m k =>
      ∀ w1 σ, le w w1 → Inv w1 σ →
      ∃ w2 used bud', le w1 w2 ∧ Inv w2 (m σ).2 ∧ log w2 ≡ₚ log w1 ++ used ∧
        bud = used ++ bud' ∧ safe Q bud' w2 (k (m σ).1)
  end.

Lemma safe_le {A} Q bud w w' (p : prog St A) : le w w' → safe Q bud w p → safe Q bud w' p.
Proof.
  intros Hle. destruct p as [a|B m k]; simpl.
  - intros [-> HQ]. split; [done|]. intros w1 H1. apply HQ. by etrans.
  - intros Hs w1 σ H1. apply Hs. by etrans.
Qed.

Lemma safe_bind {A B} (Q : W → A → Prop) (R : W → B → Prop) bud1 bud2 w p (f : A → prog St B) :
  safe Q bud1 w p → (∀ a w', le w w' → Q w' a → safe R bud2 w' (f a)) →
  safe R (bud1 ++ bud2) w (x ← p; f x).
Proof.
  revert bud1 w. induction p as [a|C m k IH]; intros bud1 w Hp Hf.
  - destruct Hp as [-> HQ]. apply Hf; [done|]. by apply HQ.
  - intros w1 σ H1 HI. destruct (Hp w1 σ H1 HI) as (w2 & used & bud' & H2 & HI2 & Hl & -> & Hs).
    exists w2, used, (bud' ++ bud2). split; [done|]. split; [done|]. split; [done|].
    split; [by rewrite app_assoc|]. apply IH; [done|].
    intros a w' H' HQ. apply Hf; [|done]. etrans; [exact H1|]. by etrans.
Qed.

(** A step without tokens before the rest. *)
Lemma safe_step {A B} (Q : W → A → Prop) (R : W → B → Prop) bud w p (f : A → prog St B) :
  safe Q [] w p → (∀ a w', le w w' → Q w' a → safe R bud w' (f a)) →
  safe R bud w (x ← p; f x).
Proof. apply (safe_bind Q R [] bud). Qed.

Lemma safe_conseq {A} (Q R : W → A → Prop) bud w (p : prog St A) :
  (∀ w' a, le w w' → Q w' a → R w' a) → safe Q bud w p → safe R bud w p.
Proof.
  intros HQR. revert bud w HQR. induction p as [a|C m k IH]; intros bud w HQR.
  - intros [-> HQ]. split; [done|]. intros w' H1. apply HQR; [done|]. by apply HQ.
  - intros Hp w1 σ H1 HI. destruct (Hp w1 σ H1 HI) as (w2 & used & bud' & H2 & HI2 & Hl & -> & Hs).
    exists w2, used, bud'. split; [done|]. split; [done|]. split; [done|]. split; [done|].
    apply IH; [|done]. intros w' a H'. apply HQR. etrans; [exact H1|]. by etrans.
Qed.

Lemma safe_ret {A} (Q : W → A → Prop) w a : (∀ w', le w w' → Q w' a) → safe Q [] w (mret a).
Proof. done. Qed.

Lemma safe_atomic {B : Set} (Q : W → B → Prop) bud w (m : M St B) :
  (∀ w1 σ, le w w1 → Inv w1 σ →
    ∃ w2, le w1 w2 ∧ Inv w2 (m σ).2 ∧ log w2 ≡ₚ log w1 ++ bud ∧
      ∀ w', le w2 w' → Q w' (m σ).1) →
  safe Q bud w (atomic m).
Proof.
  intros Hm w1 σ H1 HI. destruct (Hm w1 σ H1 HI) as (w2 & H2 & HI2 & Hl & HQ).
  exists w2, bud, []. by rewrite app_nil_r.
Qed.

(** A step that changes nothing of the world. *)
Lemma safe_quiet {B : Set} (Q : W → B → Prop) w (m : M St B) :
  (∀ w1 σ, le w w1 → Inv w1 σ → Inv w1 (m σ).2 ∧ ∀ w', le w1 w' → Q w' (m σ).1) →
  safe Q [] w (atomic m).
Proof.
  intros Hm. apply safe_atomic. intros w1 σ H1 HI. exists w1. rewrite app_nil_r.
  split; [done|]. destruct (Hm w1 σ H1 HI). done.
Qed.
End Logic.

Lemma concat_insert {A} (ls : list (list A)) i used rest :
  ls !! i = Some (used ++ rest) → used ++ concat (<[i:=rest]> ls) ≡ₚ concat ls.
Proof.
  revert i. induction ls as [|l ls IH]; intros [|i] Hi; try done; cbn in *.
  - injection Hi as ->. by rewrite app_assoc.
  - rewrite Permutation_app_swap_app. by rewrite (IH _ Hi).
Qed.

(** ** Every interleaving of safe programs is safe *)

Section Adequacy.
Context {St Call Ans : Type} {PG : Programs St Call Ans}.
Context {W Tok : Type} (le : relation W) `{!PreOrder le}
  (log : W → list Tok) (Inv : W → St * nat → Prop)
  (allowed : Call → Prop) (post : Call → W → Ans → Prop) (tok : Call → list Tok).

Hypothesis inv_tick : ∀ w s n, Inv w (s, n) → Inv w (s, S n).
Hypothesis programs_safe : ∀ c w, allowed c →
  safe (Tok := Tok) le log Inv (post c) (tok c) w (program c).

(** Every interleaving of safe programs keeps the invariant, and the tokens
    spent and the budgets left are those of the calls. *)
Lemma steps_safe w0 σ0 cf :
  Inv w0 σ0 → rtc step ([], σ0) cf → Forall allowed cf.1.*1 →
  ∃ w buds, le w0 w ∧ Inv w cf.2 ∧
    Forall2 (λ t bud, safe le log Inv (post t.1) bud w t.2) cf.1 buds ∧
    log w ++ concat buds ≡ₚ log w0 ++ concat (tok <$> cf.1.*1).
Proof.
  intros HI. revert cf. apply (rtc_ind_r (λ cf, Forall allowed cf.1.*1 → _)).
  - intros _. exists w0, []. done.
  - intros cf1 cf2 _ Hstep IH Hall.
    destruct Hstep as [c ts1 σ1|i c B m k ts1 σ1 b σ2 Hi Hm|ts1 s n]; cbn [fst snd] in *.
    + rewrite fmap_app, Forall_app in Hall. destruct Hall as [Hall Hc].
      destruct (IH Hall) as (w & buds & Hle & HI' & Hs & Hl).
      exists w, (buds ++ [tok c]). split; [done|]. split; [done|]. split.
      * apply Forall2_app; [done|]. constructor; [|constructor].
        apply programs_safe. by inversion Hc.
      * rewrite concat_app, fmap_app, fmap_app, concat_app. cbn. rewrite !app_nil_r.
        by rewrite !app_assoc, Hl.
    + assert (Hts : (<[i:=(c, k b)]> ts1).*1 = ts1.*1).
      { rewrite list_fmap_insert. apply list_insert_id. by rewrite list_lookup_fmap, Hi. }
      rewrite Hts in Hall |- *.
      destruct (IH Hall) as (w & buds & Hle & HI' & Hs & Hl).
      destruct (Forall2_lookup_l _ _ _ _ _ Hs Hi) as (bud & Hbud & Hsafe).
      destruct (Hsafe w σ1 ltac:(done) HI') as (w2 & used & bud' & Hw2 & HI2 & Hlog & -> & Hs').
      rewrite Hm in HI2, Hs'. exists w2, (<[i:=bud']> buds). split; [by etrans|]. split; [done|].
      split.
      * apply Forall2_insert; [|done]. eapply Forall2_impl; [exact Hs|]. intros [c1 p1] b1 H1.
        by eapply safe_le.
      * by rewrite Hlog, <- Hl, <- app_assoc, (concat_insert _ _ _ _ Hbud).
    + destruct (IH Hall) as (w & buds & Hle & HI' & Hs & Hl). exists w, buds. auto.
Qed.

(** When all calls have returned, all tokens are spent and every call's
    result is as promised. *)
Lemma finished_safe w0 σ0 ts σ :
  Inv w0 σ0 → rtc step ([], σ0) (ts, σ) → Forall allowed ts.*1 →
  forallb finished ts = true →
  ∃ w, le w0 w ∧ Inv w σ ∧ log w ≡ₚ log w0 ++ concat (tok <$> ts.*1).
Proof.
  intros HI Hsteps Hall Hfin.
  destruct (steps_safe _ _ _ HI Hsteps Hall) as (w & buds & Hle & HI' & Hs & Hl).
  cbn [fst snd] in *. exists w. split; [done|]. split; [done|]. rewrite <- Hl.
  assert (concat buds = []) as ->; [|by rewrite app_nil_r].
  clear Hsteps Hall Hl. induction Hs as [|[c p] bud ts buds Ht Hs IH]; [done|].
  simpl in Hfin. apply andb_true_iff in Hfin as [Hf Hfin].
  destruct p as [a|]; [|done]. destruct Ht as [-> _]. exact (IH Hfin).
Qed.

(** The result of a call that has returned. *)
Lemma answer_safe w0 σ0 ts σ i c a :
  Inv w0 σ0 → rtc step ([], σ0) (ts, σ) → Forall allowed ts.*1 →
  ts !! i = Some (c, Return a) →
  ∃ w rest, Inv w σ ∧ post c w a ∧ log w ++ rest ≡ₚ log w0 ++ concat (tok <$> ts.*1).
Proof.
  intros HI Hsteps Hall Hi.
  destruct (steps_safe _ _ _ HI Hsteps Hall) as (w & buds & Hle & HI' & Hs & Hl).
  destruct (Forall2_lookup_l _ _ _ _ _ Hs Hi) as (bud & _ & [_ HQ]).
  exists w, (concat buds). split; [done|]. split; [|done]. by apply HQ.
Qed.
End Adequacy.

(** ** Counting in the history *)

(** How many tokens satisfy [P]. *)
Definition tally {A} (P : A → Prop) `{!∀ x, Decision (P x)} (l : list A) : Z := len (filter P l).

Lemma tally_app {A} (P : A → Prop) `{!∀ x, Decision (P x)} l1 l2 :
  tally P (l1 ++ l2) = tally P l1 + tally P l2.
Proof. unfold tally. by rewrite filter_app, len_app. Qed.

Lemma tally_nonneg {A} (P : A → Prop) `{!∀ x, Decision (P x)} l : 0 <= tally P l.
Proof. apply len_nonneg. Qed.

Lemma tally_one {A} (P : A → Prop) `{!∀ x, Decision (P x)} x : P x → tally P [x] = 1.
Proof. intros Hx. unfold tally. by rewrite filter_cons, decide_True. Qed.

Lemma tally_prefix {A} (P : A → Prop) `{!∀ x, Decision (P x)} l1 l2 :
  l1 `prefix_of` l2 → tally P l1 <= tally P l2.
Proof. intros [l ->]. rewrite tally_app. pose proof (tally_nonneg P l). lia. Qed.

Lemma tally_mono {A} (P Q : A → Prop) `{!∀ x, Decision (P x), !∀ x, Decision (Q x)} l :
  (∀ x, Q x → P x) → tally Q l <= tally P l.
Proof.
  intros HP. unfold tally. induction l as [|x l IH]; [done|]. rewrite !filter_cons.
  specialize (HP x). destruct (decide (P x)), (decide (Q x)); rewrite ?len_cons; try lia; tauto.
Qed.

Lemma tally_perm {A} (P : A → Prop) `{!∀ x, Decision (P x)} l1 l2 :
  l1 ≡ₚ l2 → tally P l1 = tally P l2.
Proof. intros E. unfold tally, len. by rewrite E. Qed.

Lemma tally_split {A} (P Q R : A → Prop) `{!∀ x, Decision (P x), !∀ x, Decision (Q x), !∀ x, Decision (R x)} l :
  (∀ x, Q x ∨ R x → P x) → (∀ x, ¬ (Q x ∧ R x)) → tally Q l + tally R l <= tally P l.
Proof.
  intros HP Hd. unfold tally. induction l as [|x l IH]; [done|]. rewrite !filter_cons.
  specialize (HP x). specialize (Hd x).
  destruct (decide (P x)), (decide (Q x)), (decide (R x)); rewrite ?len_cons; try lia; tauto.
Qed.
