(* ===== verification/SharedKey.v ===== *)
(** * One key, many workers: the appends of [src/protocol/protocol.go]

    [HashPacket] and [SetHash] append to the slice [preSharedKey] they are
    given. Every worker of a server, and every caller of a client, passes the
    same slice; when its array has room beyond the key, the appends of all of
    them write to that one array. Here the array is the shared state, a slice
    of it is its length, and the functions are programs ([prog]) that load and
    store one byte at a time. *)
From Stdlib Require Import ZArith Lia Strings.Byte.
From stdpp Require Import base gmap list strings relations.
From coqutil Require Import Byte LittleEndianList.
From S2P Require Import Prelude GoStd Deps Protocol Env Conc.
Local Open Scope Z_scope.
Local Open Scope go_scope.

(** ** Slices of the shared array *)

(** The first [n] bytes of the array of the key, or bytes in an array that no
    other goroutine has. *)
Inductive Slice :=
  | Shared (n : nat)
  | Own (b : bytes).

Abbreviation prog := (prog bytes).

Definition load (i : nat) : M bytes Corelib.Init.Byte.byte := a ← get; mret (nth i a x00).
Definition store (i : nat) (b : Byte.byte) : M bytes unit := modify (<[i:=b]>).

Fixpoint read_bytes (i n : nat) : prog bytes :=
  match n with
  | O => mret []
  | S n' => b ← atomic (B := Corelib.Init.Byte.byte) (load i); rest ← read_bytes (S i) n'; mret (b :: rest)
  end.

Fixpoint write_bytes (i : nat) (xs : bytes) : prog unit :=
  match xs with
  | [] => mret tt
  | x :: xs' => atomic (store i x);; write_bytes (S i) xs'
  end.

Section SharedKey.
(** The length of the key and the capacity of its array; what [Sum] appends. *)
Context (klen cap : nat) (digest : bytes).

(** [append(s, xs...)] writes behind the slice when the array has room, and
    copies the slice to a new array otherwise. *)
Definition append (s : Slice) (xs : bytes) : prog Slice :=
  match s with
  | Own b => mret (Own (b ++ xs))
  | Shared n =>
      if (n + length xs <=? cap)%nat then write_bytes n xs;; mret (Shared (n + length xs))
      else b ← read_bytes 0 n; mret (Own (b ++ xs))
  end.

Definition preSharedKey : Slice := Shared klen.

(** The first eight bytes, which [Uint64FromBytes] and [Packet.bytes] look at. *)
Definition eight (s : Slice) : prog bytes :=
  match s with
  | Own b => mret (take 8 b)
  | Shared n => read_bytes 0 (Nat.min n 8)
  end.

Definition HashPacket (p : Packet) : prog Slice :=
  bytesToHash ← append preSharedKey (MessageIDBytes p);
  bytesToHash ← append bytesToHash (Namespace p);
  bytesToHash ← append bytesToHash (DataValue p);
  append bytesToHash digest.

(** The hash bytes of the packet and its hash; the appends before the call
    are there in the code, without a use of their result. *)
Definition SetHash (p : Packet) : prog (Slice * go Z) :=
  bytesToHash ← append preSharedKey (MessageIDBytes p);
  bytesToHash ← append bytesToHash (Namespace p);
  bytesToHash ← append bytesToHash (DataValue p);
  hashBytes ← HashPacket p;
  b ← eight hashBytes;
  mret (hashBytes, Uint64FromBytes b).

Definition Validate (p : Packet) : prog (go (option ProtoErr)) :=
  hashBytes ← HashPacket p;
  b ← eight hashBytes;
  mret (expectedHash ← Uint64FromBytes b;
        if negb (Hash p =? expectedHash) then Ret (Some ErrBadHash) else Ret None).
End SharedKey.

(** What a goroutine does with the key: it validates a packet, or it hashes
    one and formats it, which reads the hash bytes again. *)
Inductive call :=
  | KValidate (p : Packet)
  | KHash (p : Packet).

Inductive answer :=
  | AVerdict (r : go (option ProtoErr))
  | AHash (h : go Z) (b : bytes).

(** A key of [klen] bytes in an array of [cap]. *)
Definition key_program (klen cap : nat) (digest : bytes) (c : call) : prog answer :=
  match c with
  | KValidate p => r ← Validate klen cap digest p; mret (AVerdict r)
  | KHash p =>
      r ← SetHash klen cap digest p;
      b ← eight r.1;
      mret (AHash r.2 b)
  end.

(** * Properties *)

Section Facts.
Context {X : XXHash} {digest : bytes} {XL : XXHashLaws digest}.
Implicit Types (a psk : bytes) (p q : Packet) (n : nat).

(** What a call answers when nobody else writes to the array. *)
Definition expected psk (c : call) : answer :=
  match c with
  | KValidate p => AVerdict (Protocol.Validate p psk)
  | KHash p =>
      match Protocol.SetHash p psk with
      | Ret q => AHash (Ret (Hash q)) (take 8 (HashBytes q))
      | Panic => AHash Panic []
      end
  end.

Definition packet_of (c : call) : Packet := match c with KValidate p | KHash p => p end.

Lemma Uint64FromBytes_eight b : (8 ≤ length b)%nat → Uint64FromBytes (take 8 b) = Ret (le_combine (take 8 b)).
Proof.
  intros Hb. unfold Uint64FromBytes. rewrite LittleEndian_Uint64_exact; [done|].
  rewrite length_take. lia.
Qed.

Lemma expected_eq psk c :
  expected psk c
  = let h := take 8 (Protocol.HashPacket (packet_of c) psk) in
    match c with
    | KValidate p => AVerdict (expectedHash ← Uint64FromBytes h;
        if negb (Hash p =? expectedHash) then Ret (Some ErrBadHash) else Ret None)
    | KHash p => AHash (Uint64FromBytes h) h
    end.
Proof.
  pose proof (HashPacket_long (digest := digest) (packet_of c) psk) as Hl.
  cbn zeta. rewrite Uint64FromBytes_eight by done. destruct c as [p|p]; cbn in *.
  - rewrite Validate_eq, HashPacket_eq. cbn [mbind go_bind].
    unfold sig. by destruct (Hash p =? _).
  - rewrite SetHash_eq. cbn. by rewrite HashPacket_eq.
Qed.

(** ** Keys that are not disturbed *)

#[local] Instance always_preorder : PreOrder (λ _ _ : unit, True).
Proof. done. Qed.

Section Undisturbed.
Context (psk : bytes) (cap : nat).
Abbreviation klen := (length psk).

(** The array begins with the key. *)
Definition key_kept (_ : unit) (σ : bytes * nat) : Prop := take klen σ.1 = psk ∧ length σ.1 = cap.

Definition holds {A} (Q : A → Prop) (pr : prog A) : Prop :=
  safe (Tok := unit) (λ _ _ : unit, True) (λ _, []) key_kept (λ _, Q) [] tt pr.

Lemma holds_bind {A B} (Q : A → Prop) (R : B → Prop) pr (f : A → prog B) :
  holds Q pr → (∀ x, Q x → holds R (f x)) → holds R (x ← pr; f x).
Proof. intros Hp Hf. eapply safe_step; [apply _|exact Hp|]. intros x [] _. apply Hf. Qed.

Lemma holds_conseq {A} (Q R : A → Prop) pr : (∀ x, Q x → R x) → holds Q pr → holds R pr.
Proof. intros HQ. apply safe_conseq; [apply _|]. intros [] x _. apply HQ. Qed.

Lemma holds_ret {A} (Q : A → Prop) x : Q x → holds Q (mret x).
Proof. done. Qed.

Lemma holds_bind_ret {A B} (R : B → Prop) x (f : A → prog B) : holds R (f x) → holds R (y ← mret x; f y).
Proof. done. Qed.

Lemma holds_atomic {B : Set} (Q : B → Prop) (m : M bytes B) :
  (∀ σ, key_kept tt σ → key_kept tt (m σ).2 ∧ Q (m σ).1) → holds Q (atomic m).
Proof. intros Hm. apply safe_quiet; [apply _|]. intros [] σ _ Hσ. destruct (Hm σ Hσ). done. Qed.

Lemma holds_read i m :
  holds (λ r, length r = m ∧ take (klen - i) r = take m (drop i psk)) (read_bytes i m).
Proof.
  revert i. induction m as [|m IH]; intros i; cbn [read_bytes].
  - apply holds_ret. by rewrite take_nil.
  - eapply (holds_bind (λ b, (i < klen)%nat → psk !! i = Some b)).
    + apply holds_atomic. intros [a n] [Ha Hc]. split; [done|]. simpl in *. intros Hi.
      assert (psk !! i = a !! i) as -> by (rewrite <- Ha at 1; by apply lookup_take_lt).
      destruct (nth_lookup_or_length a i x00) as [E|E]; [done|].
      apply (f_equal length) in Ha. rewrite length_take in Ha. lia.
    + intros b Hb. eapply holds_bind; [apply IH|]. intros rest [Hl Ht]. apply holds_ret.
      split; [simpl; lia|]. destruct (decide (i < klen)%nat) as [Hi|Hi].
      * rewrite (drop_S _ _ _ (Hb Hi)). replace (klen - i)%nat with (S (klen - S i)) by lia.
        cbn. by rewrite Ht.
      * rewrite drop_ge by lia. replace (klen - i)%nat with 0%nat by lia. by rewrite take_nil.
Qed.

Lemma holds_write i xs : (klen ≤ i)%nat → holds (λ _, True) (write_bytes i xs).
Proof.
  revert i. induction xs as [|x xs IH]; intros i Hi; [done|]. cbn [write_bytes].
  eapply (holds_bind (λ _, True)); [|intros; apply IH; lia].
  apply holds_atomic. intros [a n] [Ha Hc]. split; [|done]. split; simpl in *.
  - by rewrite take_insert_ge.
  - by rewrite length_insert.
Qed.

(** The slice is as long as [c] and has its first eight bytes. *)
Definition agrees (c : bytes) (s : Slice) : Prop :=
  match s with
  | Own b => length b = length c ∧ take 8 b = take 8 c
  | Shared m => m = length c ∧ take klen c = psk ∧ (8 ≤ klen)%nat
  end.

Lemma take_8_app (b c xs : bytes) : length b = length c → take 8 b = take 8 c → take 8 (b ++ xs) = take 8 (c ++ xs).
Proof. intros Hl Ht. by rewrite !take_app, Ht, Hl. Qed.

Lemma holds_append c s xs :
  agrees c s ∨ (s = Shared klen ∧ c = psk ∧ (cap < klen + length xs)%nat) →
  holds (agrees (c ++ xs)) (append cap s xs).
Proof.
  intros Hs. assert (Hcopy : ∀ m, s = Shared m →
    holds (agrees (c ++ xs)) (b ← read_bytes 0 m; mret (Own (b ++ xs)))).
  { intros m ->. eapply holds_bind; [apply holds_read|]. intros b [Hl Ht]. apply holds_ret.
    rewrite Nat.sub_0_r, drop_0 in Ht.
    assert (Hb : length b = length c ∧ take 8 b = take 8 c); [|].
    { destruct Hs as [(Hm & Hc & H8)|([= Hm] & -> & _)]; [|].
      - split; [lia|]. rewrite (take_ge psk) in Ht by (subst; apply (f_equal length) in Hc; rewrite length_take in Hc; lia).
        rewrite <- (Nat.min_l 8 klen), <- !take_take, Ht, Hc by lia. done.
      - split; [lia|]. rewrite !take_ge in Ht by lia. by subst. }
    destruct Hb as [Hbl Hbt]. split; [by rewrite !length_app, Hbl | by apply take_8_app]. }
  destruct s as [m|b]; cbn [append]; [|].
  - case_match eqn:Eroom; [|by apply Hcopy]. apply Nat.leb_le in Eroom.
    destruct Hs as [(Hm & Hc & H8)|([= Hm] & -> & ?)]; [|lia].
    assert (klen ≤ length c)%nat by (apply (f_equal length) in Hc; rewrite length_take in Hc; lia).
    eapply holds_bind; [apply holds_write; lia|]. intros _ _. apply holds_ret.
    split; [rewrite length_app; lia|]. split; [|done]. by rewrite take_app_le by done.
  - apply holds_ret. destruct Hs as [[Hl Ht]|[? _]]; [|done].
    split; [by rewrite !length_app, Hl | by apply take_8_app].
Qed.

Lemma holds_eight c s : agrees c s → (8 ≤ length c)%nat → holds (λ b, b = take 8 c) (eight s).
Proof.
  intros Hs H8. destruct s as [m|b]; cbn [eight].
  - destruct Hs as (-> & Hc & Hk). rewrite Nat.min_r by lia.
    eapply holds_conseq; [|apply holds_read]. intros b [Hl Ht].
    rewrite Nat.sub_0_r, drop_0, (take_ge b) in Ht by lia.
    by rewrite Ht, <- Hc, take_take, Nat.min_l by lia.
  - apply holds_ret. apply Hs.
Qed.

Lemma holds_more c s xs : agrees c s → holds (agrees (c ++ xs)) (append cap s xs).
Proof. intros Hs. apply holds_append. by left. Qed.

Hypothesis undisturbed : (8 ≤ klen ∨ cap < klen + 4)%nat.

Lemma holds_key (id : bytes) :
  length id = 4%nat → holds (agrees (psk ++ id)) (append cap (preSharedKey klen) id).
Proof.
  intros Hid. apply holds_append. destruct undisturbed as [H8|Hc]; [left|right].
  - split; [done|]. by rewrite take_ge.
  - split; [done|]. split; [done|]. lia.
Qed.

Lemma holds_HashPacket p :
  length (MessageIDBytes p) = 4%nat →
  holds (agrees (Protocol.HashPacket p psk)) (HashPacket klen cap digest p).
Proof.
  intros Hid. rewrite HashPacket_eq. unfold HashPacket.
  eapply holds_bind; [by apply holds_key|]. intros s1 H1.
  eapply holds_bind; [by apply holds_more|]. intros s2 H2.
  eapply holds_bind; [by apply holds_more|]. intros s3 H3.
  eapply holds_conseq; [|by apply holds_more]. intros s4. by rewrite <- !app_assoc.
Qed.

Lemma holds_program c :
  length (MessageIDBytes (packet_of c)) = 4%nat →
  holds (λ r, r = expected psk c) (key_program klen cap digest c).
Proof.
  intros Hid. rewrite expected_eq. cbn zeta.
  pose proof (HashPacket_long (digest := digest) (packet_of c) psk) as Hl.
  destruct c as [p|p]; cbn [key_program packet_of] in *; unfold Validate, SetHash; rewrite !prog_bind_assoc.
  - eapply holds_bind; [by apply holds_HashPacket|]. intros s Hs. rewrite prog_bind_assoc.
    eapply holds_bind; [by apply holds_eight|]. intros b ->. by apply holds_ret.
  - eapply holds_bind; [by apply holds_key|]. intros s1 H1. rewrite prog_bind_assoc.
    eapply holds_bind; [by apply holds_more|]. intros s2 H2. rewrite prog_bind_assoc.
    eapply holds_bind; [by apply holds_more|]. intros s3 H3. rewrite prog_bind_assoc.
    eapply holds_bind; [by apply holds_HashPacket|]. intros s Hs. rewrite prog_bind_assoc.
    eapply holds_bind; [by apply holds_eight|]. intros b ->.
    apply holds_bind_ret. cbn [fst snd].
    eapply holds_bind; [by apply holds_eight|]. intros b ->. by apply holds_ret.
Qed.
End Undisturbed.

(** C17. When sharing the key is harmless: if the key has eight bytes or more,
    or its array has no room for a message id behind it, then however many
    goroutines validate and hash packets with that one key slice, and however
    their loads and stores of single bytes interleave, each gets the verdict
    or the hash bytes it would get alone. *)
Theorem shared_key_is_harmless psk a n ts σ i c r :
  (8 ≤ length psk ∨ length a < length psk + 4)%nat → take (length psk) a = psk →
  rtc (step (PG := key_program (length psk) (length a) digest)) ([], (a, n)) (ts, σ) →
  Forall (λ c, length (MessageIDBytes (packet_of c)) = 4%nat) ts.*1 →
  ts !! i = Some (c, Return r) → r = expected psk c.
Proof.
  intros Hroom Hkey Hsteps Hids Hi.
  assert (HI : key_kept psk (length a) tt (a, n)) by done.
  destruct (answer_safe (PG := key_program (length psk) (length a) digest) (λ _ _ : unit, True) (λ _, [])
    (key_kept psk (length a)) (λ c, length (MessageIDBytes (packet_of c)) = 4%nat)
    (λ c _ r, r = expected psk c) (λ _, []) (λ w s n HI, HI) (λ c w, match w with tt => holds_program psk (length a) Hroom c end)
    tt _ _ _ _ _ _ HI Hsteps Hids Hi) as (_ & _ & _ & Hr & _). exact Hr.
Qed.

(** ** A short key in a long array *)

Lemma alone_read i m a n : (i + m ≤ length a)%nat → alone (read_bytes i m) (a, n) = (take m (drop i a), (a, n)).
Proof.
  revert i. induction m as [|m IH]; intros i Hl; [done|]. cbn [read_bytes].
  destruct (lookup_lt_is_Some_2 a i ltac:(lia)) as [b Hb].
  assert (E : load i (a, n) = (b, (a, n))).
  { unfold load, mbind, M_bind, get, mret, M_ret. by rewrite (nth_lookup_Some _ _ _ _ Hb). }
  rewrite alone_bind, alone_atomic, (M_bind_eq _ _ _ _ _ E).
  rewrite alone_bind, (M_bind_eq _ _ _ _ _ (IH (S i) ltac:(lia))). by rewrite (drop_S _ _ _ Hb).
Qed.

Lemma alone_write i xs a n :
  (i + length xs ≤ length a)%nat →
  alone (write_bytes i xs) (a, n) = (tt, (take i a ++ xs ++ drop (i + length xs) a, n)).
Proof.
  revert i a. induction xs as [|x xs IH]; intros i a Hl; cbn [write_bytes].
  - cbn. by rewrite Nat.add_0_r, take_drop.
  - cbn in Hl. rewrite alone_bind, alone_atomic, (M_bind_eq (store i x) _ (a, n) tt (<[i:=x]> a, n) eq_refl).
    rewrite IH by (rewrite length_insert; lia).
    rewrite (take_S_r _ _ x) by (apply list_lookup_insert_eq; lia).
    rewrite take_insert_ge, drop_insert_lt, <- app_assoc by lia. cbn [length app].
    by rewrite Nat.add_succ_r.
Qed.

(** What is left of a validation that has appended the message id. *)
Definition validate_rest (klen cap : nat) p (bytesToHash : Slice) : prog answer :=
  bytesToHash ← append cap bytesToHash (Namespace p);
  bytesToHash ← append cap bytesToHash (DataValue p);
  hashBytes ← append cap bytesToHash digest;
  b ← eight hashBytes;
  mret (AVerdict (expectedHash ← Uint64FromBytes b;
                  if negb (Hash p =? expectedHash) then Ret (Some ErrBadHash) else Ret None)).

Lemma validate_split klen cap p :
  key_program klen cap digest (KValidate p)
  = (s ← append cap (preSharedKey klen) (MessageIDBytes p); validate_rest klen cap p s).
Proof.
  unfold key_program, Validate, HashPacket, validate_rest.
  do 5 (rewrite ?prog_bind_assoc; apply prog_bind_ext; intros ?). done.
Qed.

Lemma alone_append_in_place cap psk id a n :
  take (length psk) a = psk → (length psk + length id ≤ cap)%nat → cap = length a →
  alone (append cap (preSharedKey (length psk)) id) (a, n)
  = (Shared (length psk + length id), (psk ++ id ++ drop (length psk + length id) a, n)).
Proof.
  intros Hkey Hroom ->. cbn [append preSharedKey]. rewrite (proj2 (Nat.leb_le _ _) Hroom).
  rewrite alone_bind, (M_bind_eq _ _ _ _ _ (alone_write (length psk) id a n Hroom)). by rewrite Hkey.
Qed.

(** The rest of a validation finds the message id of another packet. *)
Lemma alone_validate_rest cap psk id p tail n :
  length id = 4%nat → (length psk + 4 ≤ cap < length psk + 4 + length (Namespace p))%nat →
  alone (validate_rest (length psk) cap p (Shared (length psk + 4))) (psk ++ id ++ tail, n)
  = (AVerdict (Ret (if Hash p =? le_combine (sig (digest := digest) psk id (Namespace p) (DataValue p))
                    then None else Some ErrBadHash)), (psk ++ id ++ tail, n)).
Proof.
  intros Hid Hroom. unfold validate_rest. cbn [append].
  rewrite (proj2 (Nat.leb_gt _ _)) by lia.
  assert (Hread : alone (read_bytes 0 (length psk + 4)) (psk ++ id ++ tail, n) = (psk ++ id, (psk ++ id ++ tail, n))).
  { rewrite alone_read by (rewrite !length_app; lia). rewrite drop_0, app_assoc, take_app_length'; [done|].
    rewrite length_app. lia. }
  rewrite alone_bind, alone_bind, M_bind_assoc, (M_bind_eq _ _ _ _ _ Hread).
  pose proof (digest_length (digest := digest)).
  change (?l = ?r) with
    ((AVerdict (expectedHash ← Uint64FromBytes (take 8 ((((psk ++ id) ++ Namespace p) ++ DataValue p) ++ digest));
       if negb (Hash p =? expectedHash) then Ret (Some ErrBadHash) else Ret None), (psk ++ id ++ tail, n)) = r).
  rewrite Uint64FromBytes_eight by (rewrite !length_app; lia). rewrite go_bind_Ret.
  unfold sig. rewrite <- !app_assoc. by destruct (Hash p =? _).
Qed.

Lemma sig_inj psk id id' ns ns' dv dv' :
  length id = length id' →
  sig (digest := digest) psk id ns dv = sig (digest := digest) psk id' ns' dv' →
  take (8 - length psk) id = take (8 - length psk) id'.
Proof.
  intros Hid E. unfold sig in E. rewrite !take_app in E. apply app_inv_head in E.
  by apply app_inj_1 in E as [E _]; [|rewrite !length_take; lia].
Qed.

(** A validation that appends its message id, when others have appended theirs. *)
Lemma runs_append cap psk p a n :
  take (length psk) a = psk → length (MessageIDBytes p) = 4%nat → cap = length a → (length psk + 4 ≤ cap)%nat →
  runs (PG := key_program (length psk) cap digest) (key_program (length psk) cap digest (KValidate p)) (a, n)
    (validate_rest (length psk) cap p (Shared (length psk + 4)))
    (psk ++ MessageIDBytes p ++ drop (length psk + 4) a, n).
Proof.
  intros Hkey Hid Hcap Hroom. rewrite validate_split.
  pose proof (runs_part (PG := key_program (length psk) cap digest)
    (append cap (preSharedKey (length psk)) (MessageIDBytes p)) (validate_rest (length psk) cap p) (a, n)) as Hr.
  rewrite (alone_append_in_place cap psk _ a n) in Hr by (rewrite ?Hid; done). by rewrite Hid in Hr.
Qed.

(** C16. When sharing the key does harm: a short key in an array that has room
    for a message id, not for a namespace, behind it. The ids that two
    workers append land in the same bytes, so the worker that is overtaken
    hashes the id of the other packet: an authentic packet is refused for a
    bad hash, although the other worker's verdict is right. *)
Theorem short_key_is_overwritten psk a p q n :
  take (length psk) a = psk → (length psk + 4 ≤ length a < length psk + 4 + 64)%nat →
  length (MessageIDBytes p) = 4%nat → length (MessageIDBytes q) = 4%nat →
  length (Namespace p) = 64%nat → length (Namespace q) = 64%nat →
  take (8 - length psk) (MessageIDBytes p) ≠ take (8 - length psk) (MessageIDBytes q) →
  Protocol.Validate p psk = Ret None →
  ∃ σ, rtc (step (PG := key_program (length psk) (length a) digest)) ([], (a, n))
    ([(KValidate p, Return (AVerdict (Ret (Some ErrBadHash))));
      (KValidate q, Return (AVerdict (Protocol.Validate q psk)))], σ).
Proof.
  intros Hkey Hcap Hp Hq Hnp Hnq Hne Hv. set (cap := length a) in *.
  set (a1 := psk ++ MessageIDBytes p ++ drop (length psk + 4) a).
  assert (Hlen1 : length a1 = cap).
  { unfold a1. rewrite !length_app, length_drop. unfold cap. lia. }
  assert (Hkey1 : take (length psk) a1 = psk) by (unfold a1; by rewrite take_app_length).
  exists (psk ++ MessageIDBytes q ++ drop (length psk + 4) a1, n).
  eapply rtc_l; [apply (step_start (KValidate p))|].
  etrans; [apply (runs_append cap psk p a n Hkey Hp eq_refl ltac:(lia) _ 0%nat); reflexivity|].
  eapply rtc_l; [apply (step_start (KValidate q))|]. cbn [app insert list_insert].
  etrans; [apply (runs_append cap psk q a1 n Hkey1 Hq (eq_sym Hlen1) ltac:(lia) _ 1%nat); reflexivity|].
  cbn [insert list_insert].
  etrans; [apply (runs_to_the_end (PG := key_program (length psk) cap digest)
    (validate_rest (length psk) cap p (Shared (length psk + 4))) _ _ 0%nat); reflexivity|].
  rewrite (alone_validate_rest cap psk _ p) by (rewrite ?Hnp; lia). cbn [insert list_insert fst snd].
  etrans; [apply (runs_to_the_end (PG := key_program (length psk) cap digest)
    (validate_rest (length psk) cap q (Shared (length psk + 4))) _ _ 1%nat); reflexivity|].
  rewrite (alone_validate_rest cap psk _ q) by (rewrite ?Hnq; lia). cbn [insert list_insert fst snd].
  rewrite !Validate_eq in *. injection Hv as Hv.
  destruct (Z.eqb_spec (Hash p) (le_combine (sig (digest := digest) psk (MessageIDBytes q) (Namespace p) (DataValue p))))
    as [E|_]; [|apply rtc_refl].
  destruct (Z.eqb_spec (Hash p) (le_combine (sig (digest := digest) psk (MessageIDBytes p) (Namespace p) (DataValue p))))
    as [E'|]; [|done].
  destruct Hne. rewrite E' in E. apply le_combine_inj in E; [|by rewrite !sig_length].
  by eapply sig_inj; [|exact E]; lia.
Qed.
End Facts.

(** ** Witnesses *)
Module SharedKeyWitness.
Import Concrete ProtocolWitness.

(** Two packets under a key, with different message ids. *)
Definition first_packet (psk : bytes) : Packet :=
  parsed_packet (digest := empty_digest) CmdCount id1 (str "default") (str "a") psk.
Definition second_packet (psk : bytes) : Packet :=
  parsed_packet (digest := empty_digest) CmdPut [x2a; x00; x00; x00] (str "default") (str "b") psk.

(** Two workers that take turns at single loads and stores. *)
Definition turns (psk : bytes) : list (event call) :=
  [EStart (KValidate (first_packet psk)); EStart (KHash (second_packet psk))]
  ++ concat (replicate 60 [ERun 0; ERun 1]).

(** The key of [ProtocolWitness] in an array of sixteen bytes. *)
Definition room : bytes := secret ++ replicate 5 x00.
Definition finish := exec (PG := key_program (length secret) (length room) empty_digest) (turns secret)
  ([], (room, 0%nat)).

Lemma shared_key_is_harmless_witness :
  AVerdict (Ret None) = expected secret (KValidate (first_packet secret)).
Proof.
  apply (shared_key_is_harmless (digest := empty_digest) secret room 0 finish.1 finish.2 0
    (KValidate (first_packet secret))); [left; vm_compute; lia|reflexivity|..].
  - rewrite <- surjective_pairing. apply exec_steps.
  - apply (bool_decide_unpack _). vm_compute. exact I.
  - vm_compute. reflexivity.
Defined.

(** A key of three bytes in an array of eight. *)
Definition short_key : bytes := str "key".

Lemma short_key_is_overwritten_witness :
  ∃ ts σ, rtc (step (PG := key_program 3 8 empty_digest)) ([], (short_key ++ replicate 5 x00, 0%nat)) (ts, σ) ∧
    ts !! 0%nat = Some (KValidate (first_packet short_key), Return (AVerdict (Ret (Some ErrBadHash)))).
Proof.
  destruct (short_key_is_overwritten (digest := empty_digest) short_key (short_key ++ replicate 5 x00)
    (first_packet short_key) (second_packet short_key) 0) as (σ & Hs);
    [reflexivity|simpl; lia|reflexivity|reflexivity|reflexivity|reflexivity|discriminate|vm_compute; reflexivity|].
  eexists _, σ. split; [exact Hs|reflexivity].
Defined.
End SharedKeyWitness.
