(* ===== verification/StoreConc.v ===== *)
(** * The store under concurrent calls: [src/store/store.go], step by step

    The operations of the store are called by several goroutines, and none
    holds a lock from its start to its end: each is a sequence of critical
    sections. Here an operation is a program ([prog]) whose steps are its
    critical sections, any number of programs run at once ([threads]), and a
    step of the system runs one section of one of them. Run alone, a program
    is the operation of [Store.v]. [KeyMatch] is left out: it walks its tree
    without the lock. *)
From Stdlib Require Import ZArith Lia Strings.Byte.
From stdpp Require Import base gmap list strings sorting relations.
From coqutil Require Import Byte.
From S2P Require Import Prelude GoStd Deps Env Conc.
From S2P Require Tree Store.
Import Tree (Tree, mkTree, NewTree, rep).
Import Store (Store, loc, store_rep, wf, nslog, namespaces, heap, next_loc, expireAfterSecs).
From Stdlib Require Import Permutation FunctionalExtensionality.
Local Open Scope Z_scope.

(** ** The operations *)

Section Programs.
Context {T : Type → Type} {RB : RedBlackTree T} {H : Type → Type} {HM : HashMap H}
  {CK : Clock} {SW : Stopwatch} {RO : RangeOrder}.

Abbreviation prog := (prog (Store T H)).

(** [Tree.Put] and [Tree.Count] hold the lock of the tree throughout;
    [Tree.Keys] takes it once for the keys and once for each count. *)
Definition Tree_Put (subtree : loc) (entryKey : bytes) : prog unit :=
  atomic (Store.on_tree subtree (Tree.Put entryKey)).
Definition Tree_Count (subtree : loc) (entryKey : bytes) : prog Z :=
  atomic (Store.on_tree subtree (Tree.Count entryKey)).

Fixpoint Tree_Keys_loop (subtree : loc) (keys outKeys : list bytes) (outCount : Z)
    : prog (list bytes * Z) :=
  match keys with
  | [] => mret (outKeys, outCount)
  | key :: keys' =>
      keyCount ← Tree_Count subtree key;
      let outCount := outCount + keyCount in
      if keyCount =? 0 then Tree_Keys_loop subtree keys' outKeys outCount
      else Tree_Keys_loop subtree keys' (outKeys ++ [key]) outCount
  end.

Definition tree_Keys : M (Tree T) (list bytes) := n ← get; mret (rb_Keys (Tree.tree n)).

Definition Tree_Keys (subtree : loc) : prog (list bytes * Z) :=
  keysI ← atomic (B := list bytes) (Store.on_tree subtree tree_Keys);
  Tree_Keys_loop subtree keysI [] 0.

Definition Put (ns entryKey : bytes) : prog unit :=
  subtreeI ← atomic (Store.namespaces_Get ns);
  subtree ←
    match subtreeI with
    | None =>
        subtree ← atomic Store.new_tree;
        atomic (Store.namespaces_Put ns subtree);;
        mret subtree
    | Some subtree => mret subtree
    end;
  Tree_Put subtree entryKey.

Definition Count (ns entryKey : bytes) : prog Z :=
  subtreeI ← atomic (Store.namespaces_Get ns);
  match subtreeI with
  | None => mret 0
  | Some subtree => Tree_Count subtree entryKey
  end.

Definition CountEntries (ns : bytes) : prog Z :=
  subtreeI ← atomic (Store.namespaces_Get ns);
  match subtreeI with
  | None => mret 0
  | Some subtree => r ← Tree_Keys subtree; mret r.2
  end.

Fixpoint CountServerEntries_loop (spaces : list bytes) (entryCount : Z) : prog Z :=
  match spaces with
  | [] => mret entryCount
  | ns :: spaces' => c ← CountEntries ns; CountServerEntries_loop spaces' (entryCount + c)
  end.

Definition CountServerEntries : prog Z :=
  spaces ← atomic Store.namespaces_Keys;
  CountServerEntries_loop spaces 0.

Fixpoint crawl (nsSubtrees : list (bytes * loc)) (crawledKeys : gset bytes)
    (knownKeysCount tally : Z) : prog (gset bytes * Z * Z) :=
  match nsSubtrees with
  | [] => mret (crawledKeys, knownKeysCount, tally)
  | (ns, subtree) :: rest =>
      r ← Tree_Keys subtree;
      let '(subtreeKeys, subtreeKeyTrackCount) := r in
      let knownKeysCount := knownKeysCount + len subtreeKeys in
      let tally := tally + subtreeKeyTrackCount in
      if len subtreeKeys =? 0
      then atomic (Store.namespaces_Remove ns);; crawl rest crawledKeys knownKeysCount tally
      else crawl rest ({[ns]} ∪ crawledKeys) knownKeysCount tally
  end.

Definition runCleanup : prog (list bytes) :=
  enabled ← atomic (s ← get; mret (Store.cleanupServiceEnabled s));
  if negb enabled then mret []
  else
    start ← atomic seed;
    keys ← atomic Store.namespaces_Keys;
    let hashSize := length keys in
    let maxNamespaces := (hashSize / Store.maxNamespacesDenom)%nat in
    atomic (modify (Store.set_metrics (λ m,
      Store.mkMetrics (Store.maxNamespacesDenomGauge m) (Z.of_nat hashSize) (Z.of_nat maxNamespaces)
        (Store.keysRemainingInGCNamespaces m) (Store.countTotalRemainingInGCNamespaces m)
        (Store.gcPauseTime m))));;
    nsSubtrees ← atomic (s ← get; mret (Store.fetch (take maxNamespaces keys) s));
    order ← atomic seed;
    r ← crawl (range_order order nsSubtrees) ∅ 0 0;
    let '(crawledKeys, knownKeysCount, tally) := r in
    atomic (modify (Store.set_lastGCd crawledKeys));;
    finish ← atomic seed;
    atomic (modify (Store.set_metrics (λ m,
      Store.mkMetrics (Store.maxNamespacesDenomGauge m) (Store.namespacesTotalCount m)
        (Store.namespacesGarbageCollected m) knownKeysCount tally
        (elapsed_ms start finish))));;
    keyList ← atomic Store.namespaces_Keys;
    atomic (modify (Store.set_scheduled S));;
    mret keyList.
End Programs.

(** ** Calls and threads *)

Inductive call :=
  | CPut (ns k : bytes)
  | CCount (ns k : bytes)
  | CCountEntries (ns : bytes)
  | CCountServerEntries
  | CCleanup
  | CIdle.

Inductive answer :=
  | AUnit
  | AInt (c : Z)
  | AKeys (keys : list bytes).

Section Threads.
Context {T : Type → Type} {RB : RedBlackTree T} {H : Type → Type} {HM : HashMap H}
  {CK : Clock} {SW : Stopwatch} {RO : RangeOrder}.

(** What a goroutine runs; [CCleanup] is a run of the collector, by a timer
    or by [Namespaces], [CIdle] does not use the store. *)
Definition store_program (c : call) : prog (Store T H) answer :=
  match c with
  | CPut ns k => Put ns k;; mret AUnit
  | CCount ns k => c ← Count ns k; mret (AInt c)
  | CCountEntries ns => c ← CountEntries ns; mret (AInt c)
  | CCountServerEntries => c ← CountServerEntries; mret (AInt c)
  | CCleanup => keys ← runCleanup; mret (AKeys keys)
  | CIdle => mret AUnit
  end.

(** The same call as one operation of [Store.v]. *)
Definition operation (c : call) : M (Store T H) answer :=
  match c with
  | CPut ns k => Store.Put ns k;; mret AUnit
  | CCount ns k => c ← Store.Count ns k; mret (AInt c)
  | CCountEntries ns => c ← Store.CountEntries ns; mret (AInt c)
  | CCountServerEntries => c ← Store.CountServerEntries; mret (AInt c)
  | CCleanup => keys ← Store.runCleanup; mret (AKeys keys)
  | CIdle => mret AUnit
  end.

#[export] Instance store_programs : Programs (Store T H) call answer := store_program.
End Threads.

(** * Properties *)

(** ** A program alone is its operation *)

Section AloneFacts.
Context {T : Type → Type} {RB : RedBlackTree T} {H : Type → Type} {HM : HashMap H}
  {CK : Clock} {SW : Stopwatch} {RO : RangeOrder}.
Implicit Types (s : Store T H) (n : nat) (p : loc).

Lemma set_tree_set p t1 t2 s : Store.set_tree p t2 (Store.set_tree p t1 s) = Store.set_tree p t2 s.
Proof.
  unfold Store.set_tree. simpl. f_equal. apply functional_extensionality. intros q. by case_decide.
Qed.

Lemma set_tree_same p s : Store.set_tree p (heap s p) s = s.
Proof.
  destruct s. unfold Store.set_tree. simpl. f_equal. apply functional_extensionality. intros q.
  by case_decide; subst.
Qed.

Lemma heap_set_tree p t s : heap (Store.set_tree p t s) p = t.
Proof. simpl. by rewrite decide_True. Qed.

(** Two operations on a tree, under one lock or under two. *)
Lemma on_tree_bind {A B} p (m : M (Tree T) A) (f : A → M (Tree T) B) :
  Store.on_tree (H := H) p (x ← m; f x) = (x ← Store.on_tree p m; Store.on_tree p (f x)).
Proof.
  apply functional_extensionality. intros [s n]. unfold Store.on_tree, mbind, M_bind.
  destruct (m (heap s p, n)) as [a [t n1]]. rewrite heap_set_tree.
  destruct (f a (t, n1)) as [b [t' n']]. by rewrite set_tree_set.
Qed.

Lemma on_tree_ret {A} p (a : A) : Store.on_tree (T := T) (H := H) p (mret a) = mret a.
Proof.
  apply functional_extensionality. intros [s n]. unfold Store.on_tree, mret, M_ret.
  by rewrite set_tree_same.
Qed.

Lemma alone_Keys_loop p keys out c :
  alone (Tree_Keys_loop p keys out c) = Store.on_tree (H := H) p (Tree.Keys_loop keys out c).
Proof.
  revert out c. induction keys as [|k keys IH]; intros out c; cbn [Tree_Keys_loop Tree.Keys_loop].
  - by rewrite on_tree_ret.
  - rewrite alone_bind, on_tree_bind. unfold Tree_Count. rewrite alone_atomic. apply M_bind_ext.
    intros c1. destruct (c1 =? 0); apply IH.
Qed.

Lemma alone_Keys p : alone (Tree_Keys p) = Store.on_tree (H := H) p Tree.Keys.
Proof.
  unfold Tree_Keys, Tree.Keys, tree_Keys.
  rewrite alone_bind, alone_atomic, !on_tree_bind, M_bind_assoc. apply M_bind_ext. intros t.
  rewrite on_tree_ret, M_bind_ret. apply alone_Keys_loop.
Qed.
#[local] Hint Rewrite @alone_Keys : alone.

Lemma alone_Put ns k : alone (Put ns k) = Store.Put (T := T) (H := H) ns k.
Proof. unfold Put, Store.Put, Tree_Put. alone_steps. Qed.
#[local] Hint Rewrite @alone_Put : alone.

Lemma alone_Count ns k : alone (Count ns k) = Store.Count (T := T) (H := H) ns k.
Proof. unfold Count, Store.Count, Tree_Count. alone_steps. Qed.
#[local] Hint Rewrite @alone_Count : alone.

Lemma alone_CountEntries ns : alone (CountEntries ns) = Store.CountEntries (T := T) (H := H) ns.
Proof. unfold CountEntries, Store.CountEntries. alone_steps. Qed.
#[local] Hint Rewrite @alone_CountEntries : alone.

Lemma alone_CountServerEntries_loop spaces c :
  alone (CountServerEntries_loop spaces c) = Store.CountServerEntries_loop (T := T) (H := H) spaces c.
Proof.
  revert c. induction spaces as [|ns spaces IH]; intros c; [done|].
  cbn [CountServerEntries_loop Store.CountServerEntries_loop].
  rewrite alone_bind, alone_CountEntries. apply M_bind_ext. intros c'. apply IH.
Qed.
#[local] Hint Rewrite @alone_CountServerEntries_loop : alone.

Lemma alone_CountServerEntries :
  alone CountServerEntries = Store.CountServerEntries (T := T) (H := H).
Proof. unfold CountServerEntries, Store.CountServerEntries. alone_steps. Qed.
#[local] Hint Rewrite @alone_CountServerEntries : alone.

Lemma alone_crawl l g kc ta : alone (crawl l g kc ta) = Store.crawl (T := T) (H := H) l g kc ta.
Proof.
  revert g kc ta. induction l as [|[ns p] l IH]; intros g kc ta; [done|].
  cbn [crawl Store.crawl]. rewrite alone_bind, alone_Keys. apply M_bind_ext. intros [ks c].
  destruct (len ks =? 0); [|apply IH]. rewrite alone_bind, alone_atomic. apply M_bind_ext.
  intros _. apply IH.
Qed.
#[local] Hint Rewrite @alone_crawl : alone.

Lemma alone_runCleanup : alone runCleanup = Store.runCleanup (T := T) (H := H).
Proof. unfold runCleanup, Store.runCleanup. alone_steps. Qed.

(** The critical sections of every call, put together, are the whole call:
    its program run alone is the operation of the store. *)
Lemma alone_store_program c : alone (store_program c) = operation (T := T) (H := H) c.
Proof.
  destruct c; cbn [store_program operation]; rewrite ?alone_bind, ?alone_runCleanup; alone_steps.
Qed.
End AloneFacts.

(** Reading programs, where the sections they consist of keep the world. *)
Section Quiet.
Context {T : Type → Type} {RB : RedBlackTree T} {H : Type → Type} {HM : HashMap H} {CK : Clock}.
Context {W Tok : Type} (le : relation W) `{!PreOrder le}
  (log : W → list Tok) (Inv : W → Store T H * nat → Prop).

Definition quiet {A} (p : prog (Store T H) A) : Prop :=
  ∀ w, safe le log Inv (λ _ _, True) [] w p.

Lemma quiet_bind {A B} (p : prog _ A) (f : A → prog _ B) :
  quiet p → (∀ a, quiet (f a)) → quiet (x ← p; f x).
Proof. intros Hp Hf w. eapply safe_step; [done|apply Hp|]. intros a w' _ _. apply Hf. Qed.

Lemma quiet_ret {A} (a : A) : quiet (mret a).
Proof. done. Qed.

Hypothesis quiet_Get : ∀ ns, quiet (atomic (Store.namespaces_Get ns)).
Hypothesis quiet_spaces : quiet (atomic Store.namespaces_Keys).
Hypothesis quiet_tree_Keys : ∀ p, quiet (atomic (Store.on_tree p tree_Keys)).
Hypothesis quiet_tree_Count : ∀ p k, quiet (Tree_Count p k).

Lemma quiet_Keys p : quiet (Tree_Keys p).
Proof.
  apply quiet_bind; [apply quiet_tree_Keys|]. intros keys.
  generalize (@nil bytes) as out, 0 as c. induction keys as [|k keys IH]; intros out c; [done|].
  cbn [Tree_Keys_loop]. apply quiet_bind; [apply quiet_tree_Count|]. intros c1.
  destruct (c1 =? 0); apply IH.
Qed.

Lemma quiet_Count ns k : quiet (Count ns k).
Proof. apply quiet_bind; [apply quiet_Get|]. intros [p|]; [apply quiet_tree_Count|done]. Qed.

Lemma quiet_CountEntries ns : quiet (CountEntries ns).
Proof.
  apply quiet_bind; [apply quiet_Get|]. intros [p|]; [|done].
  apply quiet_bind; [apply quiet_Keys|done].
Qed.

Lemma quiet_CountServerEntries : quiet CountServerEntries.
Proof.
  apply quiet_bind; [apply quiet_spaces|]. intros spaces. generalize 0 as c.
  induction spaces as [|ns spaces IH]; intros c; [done|].
  apply quiet_bind; [apply quiet_CountEntries|]. intros c1. apply IH.
Qed.
End Quiet.
