(* ===== verification/StoreRaces.v ===== *)
(** * What concurrent calls of the store keep and lose

    The theorems on interleavings of [StoreConc.v]. For every interleaving:
    no count exceeds the puts that were called, and puts to a namespace that
    has its tree are all kept while no collector runs. For some interleavings:
    two first puts to a namespace lose one of them, and the collector removes
    a tree with an entry that was put after it had looked. *)
From stdpp Require Import base gmap list strings sorting relations.
From coqutil Require Import Byte.
From S2P Require Import Prelude GoStd Deps Env Conc StoreConc.
From S2P Require Tree Store.
Import Tree (Tree, mkTree, NewTree, rep).
Import Store (Store, loc, store_rep, wf, nslog, namespaces, heap, next_loc, expireAfterSecs).
From Stdlib Require Import Permutation FunctionalExtensionality.
Local Open Scope Z_scope.
(** The put a call makes, and the puts a count is about. *)
Definition put_of (c : call) : list (bytes * bytes) :=
  match c with CPut ns k => [(ns, k)] | _ => [] end.

Definition about (c : call) (t : bytes * bytes) : Prop :=
  match c with
  | CCount ns k => t = (ns, k)
  | CCountEntries ns => t.1 = ns
  | CCountServerEntries => True
  | _ => False
  end.

#[global] Instance about_dec c t : Decision (about c t).
Proof. destruct c; simpl; apply _. Defined.

(** The key a call puts to the namespace [ns]. *)
Definition keys_put (ns : bytes) (c : call) : list bytes :=
  match c with CPut ns' k => if decide (ns' = ns) then [k] else [] | _ => [] end.

Section Reach.
Context {T : Type → Type} {RB : RedBlackTree T} {H : Type → Type} {HM : HashMap H}
  {CK : Clock} {SW : Stopwatch} {RO : RangeOrder}.

(** Some interleaving of calls that start on the store [σ] leads to the
    threads [ts] and the store [σ']. *)
Definition reaches (σ : Store T H * nat) (ts : list (call * prog (Store T H) answer)) σ' : Prop :=
  rtc step ([], σ) (ts, σ').

Lemma reaches_exec es σ : reaches σ (exec es ([], σ)).1 (exec es ([], σ)).2.
Proof. unfold reaches. rewrite <- surjective_pairing. apply exec_steps. Qed.
End Reach.

(** ** No call counts a put that was not made *)

Section NoPhantoms.
Context {T : Type → Type} {RB : RedBlackTree T} {RL : RedBlackTreeLaws T}
  {H : Type → Type} {HM : HashMap H} {HL : HashMapLaws H}
  {CK : Clock} {SW : Stopwatch} {RO : RangeOrder} {ROL : RangeOrderLaws}.
Implicit Types (s : Store T H) (n : nat) (p : loc).

(** The namespace each tree was made for, and the puts so far. *)
Record world := mkWorld { owner : gmap loc bytes; made : list (bytes * bytes) }.

Definition grows (w w' : world) : Prop := owner w ⊆ owner w' ∧ made w `prefix_of` made w'.

#[local] Instance grows_preorder : PreOrder grows.
Proof.
  split; [done|]. intros w1 w2 w3 [H1 H2] [H3 H4]. split; by etrans.
Qed.

Record bounded (w : world) (σ : Store T H * nat) : Prop := {
  b_owner ns p : hm_Get (namespaces σ.1) ns = Some p → owner w !! p = Some ns;
  b_alloc p ns : owner w !! p = Some ns → (p < next_loc σ.1)%nat;
  b_entries p ns k : owner w !! p = Some ns →
    len (Tree.entries (heap σ.1 p) k) <= tally (λ t, t = (ns, k)) (made w)
}.

Lemma bounded_ext w s n s' n' :
  bounded w (s, n) → namespaces s' = namespaces s → heap s' = heap s → next_loc s' = next_loc s →
  bounded w (s', n').
Proof. intros [Ho Ha He] Hn Hh Hl. split; simpl in *; rewrite ?Hn, ?Hh, ?Hl; done. Qed.

Lemma bounded_tick w s n : bounded w (s, n) → bounded w (s, S n).
Proof. intros HB. by eapply bounded_ext. Qed.

(** A tree operation that adds no entry. *)
Definition adds_nothing {A} (m : M (Tree T) A) : Prop :=
  ∀ t n k, len (Tree.entries (m (t, n)).2.1 k) <= len (Tree.entries t k).

Lemma bounded_on_tree {A} w p (m : M (Tree T) A) σ :
  adds_nothing m → bounded w σ → bounded w (Store.on_tree p m σ).2.
Proof.
  destruct σ as [s n]. intros Hm [Ho Ha He]. unfold Store.on_tree.
  specialize (Hm (heap s p) n). destruct (m (heap s p, n)) as [a [t n']]. split; simpl in *; [done|done|].
  intros q ns k Hq. case_decide; [subst|by apply He]. specialize (Hm k). specialize (He _ _ k Hq). lia.
Qed.

Lemma Count_adds_nothing k : adds_nothing (Tree.Count k).
Proof.
  intros t n k'. rewrite Tree.Count_run. unfold Tree.entries.
  destruct (rb_Get (Tree.tree t) k) as [[|e d]|] eqn:E; simpl; [| |lia].
  - rewrite rb_Get_Remove. case_decide; [subst; by rewrite E|]. lia.
  - rewrite rb_Get_Put. case_decide; [subst; rewrite E|lia]. unfold len. cbn [from_option].
    pose proof (length_filter (λ e, clock n < e) (e :: d)). unfold Tree.live in *. simpl in *. lia.
Qed.

Lemma Count_bounded t n k : (Tree.Count k (t, n)).1 <= len (Tree.entries t k).
Proof.
  rewrite Tree.Count_run. unfold Tree.entries.
  destruct (rb_Get (Tree.tree t) k) as [[|e d]|]; simpl; [done| |done].
  unfold len. pose proof (length_filter (λ e, clock n < e) (e :: d)). unfold Tree.live in *. simpl in *. lia.
Qed.

Lemma Count_nonneg t n k : 0 <= (Tree.Count k (t, n)).1.
Proof.
  rewrite Tree.Count_run. destruct (rb_Get (Tree.tree t) k) as [[|e d]|]; simpl; [done| |done].
  apply len_nonneg.
Qed.

Lemma Put_adds_one t n k k' :
  len (Tree.entries (Tree.Put k (t, n)).2.1 k')
  <= len (Tree.entries t k') + if decide (k = k') then 1 else 0.
Proof.
  rewrite Tree.Put_run. unfold Tree.entries.
  destruct (rb_Get (Tree.tree t) k) as [[|e d]|] eqn:E; simpl;
    rewrite rb_Get_Put, ?rb_Get_Remove; case_decide; subst; rewrite ?E; simpl; rewrite ?len_nil, ?len_cons;
    try (unfold len; simpl; lia).
  rewrite len_app. pose proof (length_filter (λ e, clock n < e) (e :: d)).
  unfold Tree.live, len in *. simpl in *. lia.
Qed.

Abbreviation safe_w := (safe grows made bounded).

(** Each critical section. *)
Lemma section_Get ns w : safe_w (λ w' r, ∀ p, r = Some p → owner w' !! p = Some ns) [] w
  (atomic (Store.namespaces_Get ns)).
Proof.
  apply safe_quiet; [apply _|]. intros w1 [s n] _ HB. split; [done|]. intros w' [Ho _] p Hp.
  eapply lookup_weaken; [|done]. by apply HB.
Qed.

Lemma section_local {B : Set} (m : M (Store T H) B) (Q : B → Prop) w :
  (∀ s n, let '(b, (s', n')) := m (s, n) in Q b ∧ namespaces s' = namespaces s ∧
     heap s' = heap s ∧ next_loc s' = next_loc s) →
  safe_w (λ _, Q) [] w (atomic m).
Proof.
  intros Hm. apply safe_quiet; [apply _|]. intros w1 [s n] _ HB. specialize (Hm s n).
  destruct (m (s, n)) as [b [s' n']]. destruct Hm as (HQ & Hn & Hh & Hl).
  split; [by eapply bounded_ext|done].
Qed.

Lemma section_tree {B : Set} p (m : M (Tree T) B) (Q : B → Prop) w :
  adds_nothing m → (∀ σ, Q (m σ).1) → safe_w (λ _, Q) [] w (atomic (Store.on_tree p m)).
Proof.
  intros Hm HQ. apply safe_quiet; [apply _|]. intros w1 [s n] _ HB.
  split; [by apply bounded_on_tree|]. intros w' _. unfold Store.on_tree.
  specialize (HQ (heap s p, n)). by destruct (m (heap s p, n)) as [b [t n']].
Qed.

Lemma section_Count ns p k w : owner w !! p = Some ns →
  safe_w (λ w' c, 0 <= c <= tally (λ t, t = (ns, k)) (made w')) [] w (Tree_Count p k).
Proof.
  intros Hp. apply safe_quiet; [apply _|]. intros w1 [s n] [Ho _] HB.
  split; [apply bounded_on_tree; [apply Count_adds_nothing|done]|].
  intros w' [_ Hm]. unfold Store.on_tree.
  pose proof (Count_bounded (heap s p) n k) as Hc. pose proof (Count_nonneg (heap s p) n k) as Hc0.
  pose proof (b_entries _ _ HB p ns k ltac:(by eapply lookup_weaken)) as He. simpl in He.
  pose proof (tally_prefix (λ t, t = (ns, k)) _ _ Hm).
  destruct (Tree.Count k (heap s p, n)) as [c [t n']]. simpl in *. lia.
Qed.

Lemma section_Put ns p k w : owner w !! p = Some ns →
  safe_w (λ _ _, True) [(ns, k)] w (Tree_Put p k).
Proof.
  intros Hp. apply safe_atomic. intros w1 [s n] [Ho _] HB.
  exists (mkWorld (owner w1) (made w1 ++ [(ns, k)])).
  split; [split; [done|by eexists]|]. split; [|done].
  assert (Hp1 : owner w1 !! p = Some ns) by (by eapply lookup_weaken).
  destruct HB as [HBo HBa HBe]. unfold Store.on_tree. pose proof (Put_adds_one (heap s p) n k) as Hadd.
  destruct (Tree.Put k (heap s p, n)) as [u [t n']]. split; simpl in *; [done|done|].
  intros q ns' k' Hq. rewrite tally_app. specialize (HBe q ns' k' Hq) as He.
  pose proof (tally_nonneg (λ t, t = (ns', k')) [(ns, k)]) as Hpos.
  case_decide; [subst q|simpl in *; lia]. assert (ns' = ns) as -> by congruence.
  specialize (Hadd k'). destruct (decide (k = k')) as [->|]; [|simpl in *; lia].
  rewrite (tally_one (λ t, t = (ns, k'))) by done. simpl in *. lia.
Qed.

(** A fresh tree belongs to the namespace it was made for. *)
Lemma section_new_tree ns w : safe_w (λ w' p, owner w' !! p = Some ns) [] w (atomic Store.new_tree).
Proof.
  apply safe_atomic. intros w1 [s n] _ HB. destruct HB as [HBo HBa HBe]. simpl in *.
  assert (Hfresh : owner w1 !! next_loc s = None).
  { destruct (owner w1 !! next_loc s) as [ns'|] eqn:E; [|done]. apply HBa in E. lia. }
  exists (mkWorld (<[next_loc s:=ns]> (owner w1)) (made w1)). rewrite app_nil_r.
  split; [split; [by apply insert_subseteq|done]|]. split; [|split; [done|]].
  - split; simpl.
    + intros ns' p Hp. rewrite lookup_insert_ne; [by apply HBo|]. apply HBo, HBa in Hp. lia.
    + intros p ns' [[-> _]|[_ Hp]]%lookup_insert_Some; [lia|]. apply HBa in Hp. lia.
    + intros p ns' k [[<- <-]|[Hne Hp]]%lookup_insert_Some.
      * rewrite decide_True by done. unfold Tree.entries. simpl. rewrite rb_Get_New. apply len_nonneg.
      * rewrite decide_False by done. by apply HBe.
  - intros w' [Ho _]. eapply lookup_weaken; [|done]. simpl. by rewrite lookup_insert_eq.
Qed.

Lemma section_insert ns p w : owner w !! p = Some ns →
  safe_w (λ _ _, True) [] w (atomic (Store.namespaces_Put ns p)).
Proof.
  intros Hp. apply safe_quiet; [apply _|]. intros w1 [s n] [Ho _] [HBo HBa HBe]. split; [|done].
  split; simpl in *; [|done|done]. intros ns' q. rewrite hm_Get_Put. case_decide; [|apply HBo].
  intros [= <-]. subst. by eapply lookup_weaken.
Qed.

Lemma section_remove ns w : safe_w (λ _ _, True) [] w (atomic (Store.namespaces_Remove ns)).
Proof.
  apply safe_quiet; [apply _|]. intros w1 [s n] _ [HBo HBa HBe]. split; [|done].
  split; simpl in *; [|done|done]. intros ns' q. rewrite hm_Get_Remove. case_decide; [done|apply HBo].
Qed.

(** The programs. *)
Lemma safe_Keys_quiet p : quiet grows made bounded (Tree_Keys p).
Proof.
  apply quiet_Keys; [apply _|..].
  - intros q w. apply (section_tree _ _ (λ _, True)); [|done]. intros t n k. simpl. lia.
  - intros q k w. by apply (section_tree _ _ (λ _, True)); [apply Count_adds_nothing|].
Qed.

Lemma safe_Keys_loop ns p keys out c w : owner w !! p = Some ns → NoDup keys → 0 <= c →
  safe_w (λ w' r, 0 <= r.2 <= c + tally (λ t, t.1 = ns ∧ t.2 ∈ keys) (made w')) [] w
    (Tree_Keys_loop p keys out c).
Proof.
  revert w out c. induction keys as [|k keys IH]; intros w out c Hp Hnd Hc; cbn [Tree_Keys_loop].
  - apply safe_ret. intros w' _. simpl.
    pose proof (tally_nonneg (λ t, t.1 = ns ∧ t.2 ∈ []) (made w')). lia.
  - apply NoDup_cons in Hnd as [Hk Hnd].
    eapply safe_step; [apply _|by apply section_Count|]. intros c1 w1 Hw1 Hc1. simpl in Hc1.
    assert (Hp1 : owner w1 !! p = Some ns) by (eapply lookup_weaken; [done|apply Hw1]).
    assert (Hrest : ∀ out', safe_w
      (λ w' r, 0 <= r.2 <= c + tally (λ t, t.1 = ns ∧ t.2 ∈ k :: keys) (made w')) [] w1
      (Tree_Keys_loop p keys out' (c + c1))); [|destruct (c1 =? 0); apply Hrest].
    intros out'. eapply safe_conseq; [apply _| |apply IH; [done|done|lia]]. intros w' r [_ Hm] Hr. simpl in Hr.
    pose proof (tally_prefix (λ t, t = (ns, k)) _ _ Hm).
    assert (tally (λ t, t = (ns, k)) (made w') + tally (λ t, t.1 = ns ∧ t.2 ∈ keys) (made w')
            <= tally (λ t, t.1 = ns ∧ t.2 ∈ k :: keys) (made w')); [|lia].
    apply tally_split; [|by intros [a b] [[= -> ->] [_ ?]]].
    intros [a b] [[= -> ->]|[-> ?]]; (split; [done|]); [left|by right].
Qed.

Lemma safe_Keys ns p w : owner w !! p = Some ns →
  safe_w (λ w' r, 0 <= r.2 <= tally (λ t, t.1 = ns) (made w')) [] w (Tree_Keys p).
Proof.
  intros Hp. eapply safe_step; [apply _|apply (section_tree _ _ NoDup)|].
  - intros t n k. simpl. lia.
  - intros [t n]. apply Tree.rb_Keys_nodup.
  - intros keys w1 Hw1 Hnd. eapply safe_conseq; [apply _| |apply (safe_Keys_loop ns); [|exact Hnd|done]].
    + intros w' r _ [Hr0 Hr]. simpl in Hr. split; [exact Hr0|]. etrans; [exact Hr|].
      apply tally_mono. by intros t [? _].
    + eapply lookup_weaken; [done|apply Hw1].
Qed.

Lemma safe_CountEntries ns w :
  safe_w (λ w' c, 0 <= c <= tally (λ t, t.1 = ns) (made w')) [] w (CountEntries ns).
Proof.
  eapply safe_step; [apply _|apply section_Get|]. intros [p|] w1 _ Hp.
  - eapply safe_step; [apply _|apply (safe_Keys ns); by apply Hp|].
    intros r w2 _ [Hr0 Hr]. apply safe_ret. intros w' [_ Hm]. split; [exact Hr0|].
    etrans; [exact Hr|]. by apply (tally_prefix (λ t, t.1 = ns)).
  - apply safe_ret. intros w' _. split; [done|apply tally_nonneg].
Qed.

Lemma safe_CountServerEntries_loop spaces c w : NoDup spaces → 0 <= c →
  safe_w (λ w' r, 0 <= r <= c + tally (λ t, t.1 ∈ spaces) (made w')) [] w (CountServerEntries_loop spaces c).
Proof.
  revert w c. induction spaces as [|ns spaces IH]; intros w c Hnd Hc; cbn [CountServerEntries_loop].
  - apply safe_ret. intros w' _. pose proof (tally_nonneg (λ t, t.1 ∈ []) (made w')). simpl in *. lia.
  - apply NoDup_cons in Hnd as [Hns Hnd].
    eapply safe_step; [apply _|apply safe_CountEntries|]. intros c1 w1 _ Hc1. simpl in Hc1.
    eapply safe_conseq; [apply _| |apply IH; [done|lia]]. intros w' r [_ Hm] Hr. simpl in Hr.
    pose proof (tally_prefix (λ t, t.1 = ns) _ _ Hm).
    assert (tally (λ t, t.1 = ns) (made w') + tally (λ t, t.1 ∈ spaces) (made w')
            <= tally (λ t, t.1 ∈ ns :: spaces) (made w')); [|lia].
    apply tally_split; [|by intros [a b] [-> ?]]. intros [a b] [->|?]; [left|by right].
Qed.

Lemma safe_CountServerEntries w :
  safe_w (λ w' r, 0 <= r <= tally (λ _, True) (made w')) [] w CountServerEntries.
Proof.
  eapply safe_step; [apply _|apply (section_local _ NoDup)|].
  - intros s n. split; [apply hm_Keys_nodup|done].
  - intros spaces w1 _ Hnd. eapply safe_conseq; [apply _| |by apply safe_CountServerEntries_loop].
    intros w' r _ [Hr0 Hr]. simpl in Hr. split; [exact Hr0|]. etrans; [exact Hr|]. by apply tally_mono.
Qed.

Lemma safe_Put ns k w : safe_w (λ _ _, True) [(ns, k)] w (Put ns k).
Proof.
  eapply safe_step; [apply _|apply section_Get|]. intros r w1 _ Hr.
  eapply safe_step with (Q := λ w' p, owner w' !! p = Some ns); [apply _| |
    intros p w2 _ Hp; by apply section_Put].
  destruct r as [p|]; [apply safe_ret; intros w' Hw'; eapply lookup_weaken; [by apply Hr|apply Hw']|].
  eapply safe_step; [apply _|apply section_new_tree|]. intros p w2 _ Hp.
  eapply safe_step; [apply _|apply (section_insert ns p); exact Hp|]. intros u w3 Hw3 _.
  apply safe_ret. intros w' Hw'. eapply lookup_weaken; [|apply Hw'].
  eapply lookup_weaken; [exact Hp|apply Hw3].
Qed.

Lemma safe_Count ns k w :
  safe_w (λ w' c, 0 <= c <= tally (λ t, t = (ns, k)) (made w')) [] w (Count ns k).
Proof.
  eapply safe_step; [apply _|apply section_Get|]. intros [p|] w1 _ Hp.
  - apply section_Count. by apply Hp.
  - apply safe_ret. intros w' _. split; [done|apply tally_nonneg].
Qed.

Lemma safe_crawl l g kc ta w : safe_w (λ _ _, True) [] w (crawl l g kc ta).
Proof.
  revert g kc ta w. induction l as [|[ns p] l IH]; intros g kc ta w; [done|]. cbn [crawl].
  eapply safe_step; [apply _|apply safe_Keys_quiet|]. intros [ks c] w1 _ _.
  destruct (len ks =? 0); [|apply IH].
  eapply safe_step; [apply _|apply section_remove|]. intros u w2 _ _. apply IH.
Qed.

Lemma safe_runCleanup w : safe_w (λ _ _, True) [] w runCleanup.
Proof.
  assert (Hlocal : ∀ (B : Set) (A : Type) (m : M (Store T H) B) (f : B → prog (Store T H) A) w,
    (∀ s n, let '(b, (s', n')) := m (s, n) in namespaces s' = namespaces s ∧
       heap s' = heap s ∧ next_loc s' = next_loc s) →
    (∀ b w, safe_w (λ _ _, True) [] w (f b)) → safe_w (λ _ _, True) [] w (x ← atomic m; f x)).
  { intros B A m f w0 Hm Hf. eapply safe_step; [apply _|apply (section_local _ (λ _, True))|auto].
    intros s n. specialize (Hm s n). by destruct (m (s, n)) as [b [s' n']]. }
  apply Hlocal; [done|]. intros enabled w1. destruct (negb enabled); [done|].
  do 5 (apply Hlocal; [done|]; intros ? ?).
  eapply safe_step; [apply _|apply safe_crawl|]. intros [[g kc] ta] w7 _ _.
  do 5 (apply Hlocal; [done|]; intros ? ?). done.
Qed.

Definition at_most (c : call) (w : world) (a : answer) : Prop :=
  match a with AInt v => 0 <= v <= tally (about c) (made w) | _ => True end.

Lemma at_most_prefix c w w' v : grows w w' →
  0 <= v <= tally (about c) (made w) → 0 <= v <= tally (about c) (made w').
Proof. intros [_ Hm] [H0 Hv]. split; [done|]. etrans; [exact Hv|]. by apply tally_prefix. Qed.

Lemma bounded_New ttl n : bounded (mkWorld ∅ []) (Store.NewStore (T := T) (H := H) ttl, n).
Proof. split; simpl; intros *; by rewrite ?hm_Get_New, ?lookup_empty. Qed.

Lemma program_safe c w : safe_w (at_most c) (put_of c) w (program c).
Proof.
  destruct c as [ns k|ns k|ns| | |]; cbn [program put_of]; [| | | | |done].
  - apply (safe_bind _ _ _ (λ _ _, True) _ [(ns, k)] []); [apply safe_Put|done].
  - eapply safe_step; [apply _|apply safe_Count|]. intros c w1 _ Hc. apply safe_ret.
    intros w' Hw'. by apply (at_most_prefix (CCount ns k) _ _ _ Hw').
  - eapply safe_step; [apply _|apply safe_CountEntries|]. intros c w1 _ Hc. apply safe_ret.
    intros w' Hw'. by apply (at_most_prefix (CCountEntries ns) _ _ _ Hw').
  - eapply safe_step; [apply _|apply safe_CountServerEntries|]. intros c w1 _ Hc. apply safe_ret.
    intros w' Hw'. by apply (at_most_prefix CCountServerEntries _ _ _ Hw').
  - eapply safe_step; [apply _|apply safe_runCleanup|]. intros ks w1 _ _. by apply safe_ret.
Qed.

(** C5. No phantom counts: however any number of puts, counts and collector
    runs interleave on a new store, section by section, no count ever
    returns more than the number of puts of its key, its namespace or the
    server that were called. *)
Theorem no_phantom_counts ttl n0 ts σ i c v :
  reaches (Store.NewStore (T := T) (H := H) ttl, n0) ts σ →
  ts !! i = Some (c, Return (AInt v)) →
  v <= tally (about c) (concat (put_of <$> ts.*1)).
Proof.
  intros Hsteps Hi.
  pose proof (bounded_New ttl n0) as HB.
  destruct (answer_safe grows made bounded (λ _, True) at_most put_of bounded_tick (λ c w _, program_safe c w)
              _ _ _ _ _ _ _ HB Hsteps ltac:(by apply Forall_true) Hi) as (w & rest & _ & Hv & Hl).
  simpl in Hv. rewrite <- (tally_perm (about c) _ _ Hl), tally_app.
  pose proof (tally_nonneg (about c) rest). lia.
Qed.
End NoPhantoms.

(** ** No put to a known namespace is lost while nothing is collected *)

Section KnownNamespace.
Context {T : Type → Type} {RB : RedBlackTree T} {RL : RedBlackTreeLaws T}
  {H : Type → Type} {HM : HashMap H} {HL : HashMapLaws H}
  {CK : Clock} {CM : ClockMono} {SW : Stopwatch} {RO : RangeOrder}.
Implicit Types (s : Store T H) (n : nat) (p : loc) (w : list (bytes * Z)).

(** The namespace, its tree, the puts the tree represented at event [n0]. *)
Context (ns0 : bytes) (p0 : loc) (base : list (bytes * Z)) (ttl : Z) (n0 : nat).

Record known w (σ : Store T H * nat) : Prop := {
  k_get : hm_Get (namespaces σ.1) ns0 = Some p0;
  k_own ns : hm_Get (namespaces σ.1) ns = Some p0 → ns = ns0;
  k_alloc : (p0 < next_loc σ.1)%nat;
  k_ttl : Tree.defaultExpireAfterSecs (heap σ.1 p0) = ttl;
  k_rep : rep σ.2 (base ++ w) (heap σ.1 p0);
  k_start : (n0 ≤ σ.2)%nat;
  k_times : Forall (λ e, ∃ m, (n0 ≤ m < σ.2)%nat ∧ e.2 = i64 (clock m + ttl)) w
}.


Definition spent w : list bytes := w.*1.
Abbreviation safe_k := (safe prefix spent known).
Abbreviation quiet_k := (quiet prefix spent known).

(** A section that keeps the tree of the namespace and its place. *)
Lemma known_ext w s n s' n' :
  known w (s, n) → (n ≤ n')%nat → hm_Get (namespaces s') ns0 = hm_Get (namespaces s) ns0 →
  (∀ ns, hm_Get (namespaces s') ns = Some p0 → hm_Get (namespaces s) ns = Some p0) →
  (next_loc s ≤ next_loc s')%nat → heap s' p0 = heap s p0 → known w (s', n').
Proof.
  intros [Hg Ho Ha Ht Hr Hs Htm] Hn Hget Hown Hl Hh. split; simpl in *; rewrite ?Hh; try done.
  - by rewrite Hget.
  - intros ns Hns. by apply Ho, Hown.
  - lia.
  - by eapply Tree.rep_mono.
  - lia.
  - eapply Forall_impl; [exact Htm|]. intros e (m & ? & ?). exists m. split; [lia|done].
Qed.

Lemma known_tick w s n : known w (s, n) → known w (s, S n).
Proof. intros HK. eapply known_ext; [exact HK|lia|done..]. Qed.

(** A tree operation that keeps what the tree represents. *)
Lemma known_on_tree {A} w q (m : M (Tree T) A) σ :
  (∀ t n log, rep n log t →
    let t' := (m (t, n)).2.1 in let n' := (m (t, n)).2.2 in
    (n ≤ n')%nat ∧ Tree.defaultExpireAfterSecs t' = Tree.defaultExpireAfterSecs t ∧ rep n' log t') →
  (∀ t n, (n ≤ (m (t, n)).2.2)%nat) →
  known w σ → known w (Store.on_tree q m σ).2.
Proof.
  destruct σ as [s n]. intros Hm Hmn HK. pose proof HK as [Hg Ho Ha Ht Hr Hs Htm]. simpl in *.
  unfold Store.on_tree. specialize (Hm (heap s q) n). specialize (Hmn (heap s q) n).
  destruct (m (heap s q, n)) as [a [t n']]. simpl in *.
  destruct (decide (p0 = q)) as [<-|Hne].
  - destruct (Hm _ Hr) as (Hn & Httl & Hr'). split; simpl; rewrite ?decide_True by done; try done; [congruence|lia|].
    eapply Forall_impl; [exact Htm|]. intros e (i & ? & ?). exists i. split; [lia|done].
  - eapply known_ext; try done. simpl. by rewrite decide_False.
Qed.

Lemma quiet_k_Get ns : quiet_k (atomic (Store.namespaces_Get ns)).
Proof. intros w. apply safe_quiet; [apply _|]. by intros w1 [s n] _ HK. Qed.

Lemma quiet_k_spaces : quiet_k (atomic Store.namespaces_Keys).
Proof.
  intros w. apply safe_quiet; [apply _|]. intros w1 [s n] _ HK. split; [|done].
  by eapply known_ext; [exact HK|lia|..].
Qed.

Lemma quiet_k_tree_Keys p : quiet_k (atomic (Store.on_tree p tree_Keys)).
Proof.
  intros w. apply safe_quiet; [apply _|]. intros w1 σ _ HK. split; [|done].
  apply known_on_tree; [|simpl; lia|done]. intros t n log Hr. simpl. by split; [lia|].
Qed.

Lemma quiet_k_Count p k : quiet_k (Tree_Count p k).
Proof.
  intros w. apply safe_quiet; [apply _|]. intros w1 σ _ HK. split; [|done].
  apply known_on_tree; [..|done].
  - intros t n log Hr. destruct (Tree.Count k (t, n)) as [c [t' n']] eqn:E. simpl.
    destruct (Tree.Count_frame _ _ _ _ _ _ E) as (? & ? & _).
    destruct (Tree.Count_spec _ _ _ _ _ _ _ Hr E). split; [lia|done].
  - intros t n. destruct (Tree.Count k (t, n)) as [c [t' n']] eqn:E. simpl.
    destruct (Tree.Count_frame _ _ _ _ _ _ E) as (? & ? & _). lia.
Qed.

(** What a put to another namespace gets, and what a put to this one gets. *)
Definition got ns (r : option loc) : Prop :=
  if decide (ns = ns0) then r = Some p0 else r ≠ Some p0.

Lemma known_Get ns w : safe_k (λ _, got ns) [] w (atomic (Store.namespaces_Get ns)).
Proof.
  apply safe_quiet; [apply _|]. intros w1 [s n] _ HK. split; [done|]. intros w' _. unfold got. simpl.
  case_decide as E; [subst; by apply HK|]. intros Hp. by apply HK in Hp.
Qed.

Abbreviation spends ns k := (keys_put ns0 (CPut ns k)).

Lemma known_Put ns p k w : got ns (Some p) → safe_k (λ _ _, True) (spends ns k) w (Tree_Put p k).
Proof.
  intros Hp. apply safe_atomic. intros w1 [s n] _ HK.
  pose proof HK as [Hg Ho Ha Ht Hr Hs Htm]. simpl in *. unfold got, keys_put, Store.on_tree in *.
  destruct (Tree.Put k (heap s p, n)) as [u [t n']] eqn:E.
  destruct (Tree.Put_frame _ _ _ _ _ _ E) as (Httl & Hn & _). simpl.
  case_decide as Ens.
  - injection Hp as ->. destruct (Tree.Put_spec _ _ _ _ _ _ _ Hr E) as (m & Hm & Hr').
    exists (w1 ++ [(k, i64 (clock m + ttl))]). rewrite Ht, <- app_assoc in Hr'.
    split; [by eexists|]. split; [|by split; [unfold spent; rewrite fmap_app|]].
    split; simpl; rewrite ?decide_True by done; try done; [congruence|lia|].
    apply Forall_app. split; [|constructor; [exists m; simpl; split; [lia|done]|constructor]].
    eapply Forall_impl; [exact Htm|]. intros e (i & ? & ?). exists i. split; [lia|done].
  - exists w1. rewrite app_nil_r. split; [done|]. split; [|done].
    assert (p0 ≠ p) by congruence.
    eapply known_ext; [exact HK|simpl; lia|done..|]. simpl. by rewrite decide_False.
Qed.

Lemma known_new_tree w : safe_k (λ _ p, p ≠ p0) [] w (atomic Store.new_tree).
Proof.
  apply safe_quiet; [apply _|]. intros w1 [s n] _ HK. pose proof (k_alloc _ _ HK) as Ha. simpl in *.
  split; [|intros; simpl; lia].
  eapply known_ext; [exact HK|done|done|done|simpl; lia|]. simpl. rewrite decide_False by lia. done.
Qed.

Lemma known_insert ns p w : ns ≠ ns0 → p ≠ p0 →
  safe_k (λ _ _, True) [] w (atomic (Store.namespaces_Put ns p)).
Proof.
  intros Hns Hp. apply safe_quiet; [apply _|]. intros w1 [s n] _ HK. split; [|done]. simpl.
  eapply known_ext; [exact HK|done|..]; simpl; [|intros ns'|done|done].
  - by rewrite hm_Get_Put, decide_False.
  - rewrite hm_Get_Put. case_decide; [congruence|done].
Qed.

Lemma known_program c w : c ≠ CCleanup →
  safe_k (λ _ _, True) (keys_put ns0 c) w (program c).
Proof.
  intros Hc. destruct c as [ns k|ns k|ns| | |]; try done; cbn [program].
  - rewrite <- (app_nil_r (keys_put _ _)). apply safe_bind with (Q := λ _ _, True); [apply _| |done].
    eapply safe_step; [apply _|apply known_Get|]. intros r w1 _ Hr.
    apply safe_step with (Q := λ _ q, got ns (Some q)); [apply _| |intros q w2 _ Hq; by apply known_Put].
    destruct r as [q|]; [by apply safe_ret|]. simpl in Hr.
    assert (ns ≠ ns0) by (intros ->; unfold got in Hr; by rewrite decide_True in Hr).
    eapply safe_step; [apply _|apply known_new_tree|]. intros q w2 _ Hq.
    eapply safe_step; [apply _|by apply known_insert|]. intros u w3 _ _. apply safe_ret. intros w' _.
    unfold got. rewrite decide_False by done. simpl in Hq. congruence.
  - apply quiet_bind; [apply _| |done].
    apply quiet_Count; [apply _|apply quiet_k_Get|apply quiet_k_Count].
  - apply quiet_bind; [apply _| |done].
    apply quiet_CountEntries; [apply _|apply quiet_k_Get|apply quiet_k_tree_Keys|apply quiet_k_Count].
  - apply quiet_bind; [apply _| |done]. apply quiet_CountServerEntries;
      [apply _|apply quiet_k_Get|apply quiet_k_spaces|apply quiet_k_tree_Keys|apply quiet_k_Count].
Qed.
End KnownNamespace.


Section Theorems.
Context {T : Type → Type} {RB : RedBlackTree T} {RL : RedBlackTreeLaws T}
  {H : Type → Type} {HM : HashMap H} {HL : HashMapLaws H}
  {CK : Clock} {CM : ClockMono} {SW : Stopwatch} {RO : RangeOrder}.
Implicit Types (s : Store T H) (n : nat) (p : loc).

(** Concurrent puts to a known namespace are all kept: when the namespace
    already has its tree and no collector runs, then however puts and counts
    interleave, section by section, once all calls have returned a count of
    any key of the namespace is exact: the entries from before and one entry
    for each put that was called, each expiring the time to live after a
    reading of the clock in between. *)
Theorem known_puts_are_kept n log s ns p ts s' n' :
  store_rep n log s → hm_Get (namespaces s) ns = Some p →
  reaches (s, n) ts (s', n') → CCleanup ∉ ts.*1 → forallb finished ts = true →
  ∃ entries, entries.*1 ≡ₚ concat (keys_put ns <$> ts.*1) ∧
    Forall (λ e, ∃ m, (n ≤ m < n')%nat ∧ e.2 = i64 (clock m + expireAfterSecs s)) entries ∧
    ∀ k, (Store.Count ns k (s', n')).1
         = Tree.count_key (nslog log ns ++ entries) k (clock n').
Proof.
  intros [Hwf Hr] Hp Hsteps Hno Hfin.
  assert (HK : known ns p (nslog log ns) (expireAfterSecs s) n [] (s, n)).
  { split; simpl; try done.
    - intros ns' Hns'. by eapply Store.wf_inj.
    - by eapply Store.wf_alloc.
    - by eapply Store.wf_ttl.
    - rewrite app_nil_r. specialize (Hr ns). unfold Store.subtree in Hr. by rewrite Hp in Hr. }
  destruct (finished_safe _ _ _ (λ c, c ≠ CCleanup) (λ _ _ _, True) (keys_put ns)
              (known_tick ns p (nslog log ns) (expireAfterSecs s) n)
              (known_program ns p (nslog log ns) (expireAfterSecs s) n)
              _ _ _ _ HK Hsteps) as (entries & _ & [Hg _ _ _ Hrep _ Htimes] & Hl); [|done|].
  { apply Forall_forall. intros c Hc ->. done. }
  exists entries. split; [done|]. split; [done|]. intros k. simpl in *.
  unfold Store.Count, Store.namespaces_Get, mbind, M_bind, get, mret, M_ret. rewrite Hg.
  unfold Store.on_tree. destruct (Tree.Count k (heap s' p, n')) as [c [t n1]] eqn:E. simpl.
  by destruct (Tree.Count_spec _ _ _ _ _ _ _ Hrep E).
Qed.

(** What is left of a put that has asked for the tree of its namespace. *)
Definition Put_rest (ns k : bytes) (subtreeI : option loc) : prog (Store T H) unit :=
  subtree ←
    match subtreeI with
    | None =>
        subtree ← atomic Store.new_tree;
        atomic (Store.namespaces_Put ns subtree);;
        mret subtree
    | Some subtree => mret subtree
    end;
  Tree_Put subtree k.

Definition put_rest (ns k : bytes) (subtreeI : option loc) : prog (Store T H) answer :=
  Put_rest ns k subtreeI;; mret AUnit.

Lemma put_first_step ns k s n :
  runs (program (CPut ns k)) (s, n) (put_rest ns k (hm_Get (namespaces s) ns)) (s, n).
Proof. exact (runs_section (Store.namespaces_Get ns) (put_rest ns k) (s, n)). Qed.

(** Without a tree, the rest is a whole put after a fresh tree was made. *)
Lemma Put_rest_fresh ns k s n :
  alone (Put_rest ns k None) (s, n) = Store.Put ns k (Store.with_fresh_tree ns s, n).
Proof.
  unfold Put_rest, Tree_Put. autorewrite with alone.
  unfold Store.Put, Store.namespaces_Get, mbind, M_bind, get, mret, M_ret. simpl.
  rewrite hm_Get_Put, !decide_True by done. unfold Store.on_tree. simpl. rewrite decide_True by done.
  by destruct (Tree.Put k _) as [u [t n']].
Qed.

Lemma put_rest_fresh ns k s n :
  (alone (put_rest ns k None) (s, n)).2 = (Store.Put ns k (Store.with_fresh_tree ns s, n)).2.
Proof.
  unfold put_rest. rewrite alone_bind. unfold mbind, M_bind. rewrite Put_rest_fresh.
  by destruct (Store.Put ns k _).
Qed.

(** A fresh tree forgets what the namespace held, and nothing else. *)
Lemma fresh_tree_rep n log log' ns s :
  store_rep n log s → (∀ ns', ns' ≠ ns → nslog log' ns' = nslog log ns') →
  rep n (nslog log' ns) (NewTree (T := T) (expireAfterSecs s)) →
  store_rep n log' (Store.with_fresh_tree ns s).
Proof.
  intros Hrep Hlog Hnew. pose proof Hrep as [Hwf _].
  destruct (Store.fresh_tree_view s ns Hwf) as (Hwf' & Hv & Hns & _).
  apply (Store.store_rep_update n n log log' s _ ns); try done. by rewrite Hns.
Qed.

(** Two puts to a namespace without a tree that both make one: the store
    represents the second only. *)
Lemma fresh_puts_lose_one n log s ns k1 k2 :
  store_rep n log s → hm_Get (namespaces s) ns = None →
  ∃ s1 n1 s2 n2 m, Store.Put ns k1 (Store.with_fresh_tree ns s, n) = (tt, (s1, n1)) ∧
    Store.Put ns k2 (Store.with_fresh_tree ns s1, n1) = (tt, (s2, n2)) ∧ (n ≤ m < n2)%nat ∧
    store_rep n2 (log ++ [(ns, k2, i64 (clock m + expireAfterSecs s))]) s2.
Proof.
  intros Hrep Hp. pose proof Hrep as [_ Hr].
  assert (Hnew : rep n (nslog log ns) (NewTree (T := T) (expireAfterSecs s))).
  { specialize (Hr ns). unfold Store.subtree in Hr. by rewrite Hp in Hr. }
  assert (Hrep1 : store_rep n log (Store.with_fresh_tree ns s)) by (by eapply fresh_tree_rep).
  destruct (Store.Put ns k1 (Store.with_fresh_tree ns s, n)) as [[] [s1 n1]] eqn:E1.
  destruct (Store.Put_rep _ _ _ _ _ _ _ _ Hrep1 E1) as (Hn1 & [Hs1 _] & m1 & _ & Hrep2).
  assert (Hrep3 : store_rep n1 log (Store.with_fresh_tree ns s1)).
  { eapply fresh_tree_rep; [exact Hrep2|..].
    - intros ns' Hne. rewrite Store.nslog_app, Store.nslog_one, decide_False by congruence.
      by rewrite app_nil_r.
    - rewrite Hs1. simpl. by eapply Tree.rep_mono. }
  destruct (Store.Put ns k2 (Store.with_fresh_tree ns s1, n1)) as [[] [s2 n2]] eqn:E2.
  destruct (Store.Put_rep _ _ _ _ _ _ _ _ Hrep3 E2) as (Hn2 & _ & m & Hm & Hrep4).
  simpl in Hrep4. rewrite Hs1 in Hrep4.
  exists s1, n1, s2, n2, m. split; [done|]. split; [exact E2|]. split; [lia|done].
Qed.

(** A lost update: two concurrent puts to a namespace that has no tree can
    both find it missing and make a tree each. Both calls return, and the
    store then represents the second put only: the first is never counted. *)
Theorem racing_puts_lose_one n log s ns k1 k2 :
  store_rep n log s → hm_Get (namespaces s) ns = None →
  ∃ ts s' n' m, reaches (s, n) ts (s', n') ∧
    ts.*1 = [CPut ns k1; CPut ns k2] ∧ forallb finished ts = true ∧ (n ≤ m < n')%nat ∧
    store_rep n' (log ++ [(ns, k2, i64 (clock m + expireAfterSecs s))]) s'.
Proof.
  intros Hrep Hp. destruct (fresh_puts_lose_one n log s ns k1 k2 Hrep Hp)
    as (s1 & n1 & s2 & n2 & m & E1 & E2 & Hm & Hr).
  eexists _, s2, n2, m. split.
  - eapply rtc_l; [apply (step_start (CPut ns k1))|]. eapply rtc_l; [apply (step_start (CPut ns k2))|].
    etrans; [by apply (put_first_step ns k1 _ _ _ 0%nat)|].
    etrans; [by apply (put_first_step ns k2 _ _ _ 1%nat)|]. rewrite Hp.
    etrans; [by apply (runs_to_the_end (put_rest ns k1 None) (s, n) _ 0%nat)|]. rewrite put_rest_fresh, E1. cbn [snd].
    etrans; [by apply (runs_to_the_end (put_rest ns k2 None) (s1, n1) _ 1%nat)|]. rewrite put_rest_fresh, E2. apply rtc_refl.
  - split; [done|]. split; [done|]. split; [lia|done].
Qed.

(** What a run of the collector does after it has fetched the trees. *)
Definition collect_rest (start : nat) (l : list (bytes * loc)) (g : gset bytes) (kc ta : Z)
    : prog (Store T H) answer :=
  keys ← (r ← crawl l g kc ta;
    let '(crawledKeys, knownKeysCount, tally) := r in
    atomic (modify (Store.set_lastGCd crawledKeys));;
    finish ← atomic seed;
    atomic (modify (Store.set_metrics (λ m,
      Store.mkMetrics (Store.maxNamespacesDenomGauge m) (Store.namespacesTotalCount m)
        (Store.namespacesGarbageCollected m) knownKeysCount tally
        (elapsed_ms start finish))));;
    keyList ← atomic Store.namespaces_Keys;
    atomic (modify (Store.set_scheduled S));;
    mret keyList);
  mret (AKeys keys).

(** The trees a run of the collector at event [n] fetches, in its order. *)
Definition fetched n s : list (bytes * loc) :=
  let keys := hm_Keys (S n) (namespaces s) in
  range_order (S (S n)) (Store.fetch (take (length keys / Store.maxNamespacesDenom) keys) s).

Lemma collector_fetches n s : Store.cleanupServiceEnabled s = true →
  ∃ s', runs (program CCleanup) (s, n) (collect_rest n (fetched n s) ∅ 0 0) (s', S (S (S n))) ∧
    namespaces s' = namespaces s ∧ heap s' = heap s ∧ next_loc s' = next_loc s ∧
    expireAfterSecs s' = expireAfterSecs s.
Proof.
  intros Hen. eexists. split.
  - eapply runs_trans; [eapply runs_step; reflexivity|]. rewrite Hen.
    do 5 (eapply runs_trans; [eapply runs_step; reflexivity|]). apply runs_refl.
  - done.
Qed.

(** The collector counts the first tree it fetched, finds no live entry, and
    is about to remove the namespace. *)
Lemma collector_about_to_remove n0 n log s ns p l g kc ta :
  store_rep n log s → hm_Get (namespaces s) ns = Some p →
  (∀ k, Tree.count_key (nslog log ns) k (clock n) = 0) →
  ∃ rest s' n', runs (collect_rest n0 ((ns, p) :: l) g kc ta) (s, n)
                  (Step (Store.namespaces_Remove ns) rest) (s', n').
Proof.
  intros Hrep Hp Hdead. unfold collect_rest. cbn [crawl]. rewrite !prog_bind_assoc.
  pose proof (alone_Keys (T := T) (H := H) p) as Ha.
  destruct (Store.on_tree p Tree.Keys (s, n)) as [[ks c] [s1 n1]] eqn:E.
  destruct (Store.on_tree_Keys _ _ _ _ _ _ _ _ _ Hrep Hp E) as (_ & _ & Hsc & _).
  assert (ks = []) as ->.
  { destruct ks as [|k ks]; [done|].
    destruct (Tree.scanned_sound _ _ _ _ _ Hsc k ltac:(left)) as (_ & i & Hi & Hc).
    pose proof (Tree.count_key_mono (nslog log ns) k (clock i) (clock n) (clock_mono n i ltac:(lia))).
    rewrite Hdead in *. lia. }
  do 3 eexists. eapply runs_trans; [apply runs_part|]. rewrite Ha, E. apply runs_refl.
Qed.

(** C15. The collector loses puts: it holds no lock between the count of a tree
    and its removal. When the first tree that a run of the collector counts
    has no live entry, a put to that namespace may run from its start to its
    end before the removal; the removal then drops the entry with the tree,
    and a count, however soon, finds nothing. *)
Theorem collection_loses_a_put n log s ns p l k :
  store_rep n log s → Store.cleanupServiceEnabled s = true →
  fetched n s = (ns, p) :: l → hm_Get (namespaces s) ns = Some p →
  (∀ key, Tree.count_key (nslog log ns) key (clock n) = 0) →
  ∃ pr s' n', reaches (s, n) [(CCleanup, pr); (CPut ns k, Return AUnit)] (s', n') ∧
    (Store.Count ns k (s', n')).1 = 0.
Proof.
  intros Hrep Hen Hl Hp Hdead.
  destruct (collector_fetches n s Hen) as (s1 & Hrun1 & Hns & Hh & Hloc & Httl). rewrite Hl in Hrun1.
  assert (Hrep1 : store_rep (S (S (S n))) log s1)
    by (apply (Store.store_rep_mono n); [lia|]; by apply (Store.store_rep_ext n log s)).
  assert (Hdead1 : ∀ key, Tree.count_key (nslog log ns) key (clock (S (S (S n)))) = 0).
  { intros key. pose proof (Tree.count_key_mono (nslog log ns) key _ _ (clock_mono n (S (S (S n))) ltac:(lia))).
    pose proof (Tree.count_key_nonneg (nslog log ns) key (clock (S (S (S n))))).
    rewrite Hdead in *. lia. }
  destruct (collector_about_to_remove n _ log s1 ns p l ∅ 0 0 Hrep1 ltac:(by rewrite Hns) Hdead1)
    as (rest & s2 & n2 & Hrun2).
  destruct (alone (store_program (T := T) (H := H) (CPut ns k)) (s2, n2)) as [a [s3 n3]] eqn:Ea.
  assert (a = AUnit) as ->.
  { rewrite alone_store_program in Ea. cbn [operation] in Ea. unfold mbind, M_bind in Ea.
    destruct (Store.Put ns k (s2, n2)). by injection Ea as <- _. }
  exists (rest tt), (Store.set_namespaces (λ m, hm_Remove m ns) s3), n3. split.
  - eapply rtc_l; [apply (step_start CCleanup)|]. etrans; [by apply (Hrun1 _ 0%nat)|].
    etrans; [by apply (Hrun2 _ 0%nat)|]. eapply rtc_l; [apply (step_start (CPut ns k))|].
    etrans; [by apply (runs_to_the_end (store_program (CPut ns k)) (s2, n2) _ 1%nat)|]. rewrite Ea.
    exact (runs_step (Store.namespaces_Remove ns) rest (s3, n3) tt _ eq_refl
             [(CCleanup, Step (Store.namespaces_Remove ns) rest); (CPut ns k, Return AUnit)]
             0%nat CCleanup eq_refl).
  - unfold Store.Count, Store.namespaces_Get, mbind, M_bind, get, mret, M_ret. simpl.
    by rewrite hm_Get_Remove, decide_True.
Qed.
End Theorems.

(** ** Witnesses *)
Module StoreRacesWitness.
Import Concrete ConcreteClock.

Abbreviation ns := (str "ns").
Abbreviation new ttl := (Store.NewStore (T := gmap bytes) (H := gmap bytes) ttl, 0%nat).

(** Two puts race, a count starts in the middle. *)
Definition race : list (event call) :=
  [EStart (CPut ns (str "a")); EStart (CPut ns (str "b")); EStart (CCount ns (str "a"));
   ERun 0; ERun 1; ERun 0; ERun 0; ERun 0; ERun 2; ERun 2; ERun 1; ERun 1; ERun 1].

Lemma no_phantom_counts_witness :
  1 <= tally (about (CCount ns (str "a"))) (concat (put_of <$> (exec race ([], new 60)).1.*1)).
Proof.
  apply (no_phantom_counts 60 0 _ (exec race ([], new 60)).2 2).
  - apply reaches_exec.
  - vm_compute. reflexivity.
Defined.

Lemma racing_puts_lose_one_witness :
  ∃ s' n' e, store_rep (T := gmap bytes) (H := gmap bytes) n' [(ns, str "b", e)] s'.
Proof.
  destruct (racing_puts_lose_one 0 [] _ ns (str "a") (str "b") (Store.store_rep_New 0 60)
              ltac:(apply hm_Get_New)) as (ts & s' & n' & m & _ & _ & _ & _ & Hr).
  eexists s', n', _. exact Hr.
Defined.

(** A known namespace, two more puts to it at once. *)
Definition before := Store.run [Store.OPut ns (str "a")] (new 60).
Definition both : list (event call) :=
  [EStart (CPut ns (str "a")); EStart (CPut ns (str "b")); ERun 1; ERun 0; ERun 0; ERun 1].

Lemma known_puts_are_kept_witness :
  (Store.Count ns (str "a") (exec both ([], before.2)).2).1 = 2 ∧
  ∃ entries n', entries.*1 ≡ₚ [str "a"; str "b"] ∧
    ∃ log, Tree.count_key (nslog log ns ++ entries) (str "a") (clock n') = 2.
Proof.
  assert (H2 : (Store.Count ns (str "a") (exec both ([], before.2)).2).1 = 2) by (vm_compute; reflexivity).
  split; [exact H2|].
  assert (Hf : forallb finished (exec both ([], before.2)).1 = true) by (vm_compute; reflexivity).
  assert (Hc : (exec both ([], before.2)).1.*1 = [CPut ns (str "a"); CPut ns (str "b")])
    by (vm_compute; reflexivity).
  assert (Hg : hm_Get (namespaces before.2.1) ns = Some 0%nat) by (vm_compute; reflexivity).
  pose proof (exec_steps both ([], before.2)) as Hsteps.
  destruct before as [[] [s n]] eqn:Eb. cbn [snd fst] in *.
  destruct (Store.store_run_spec _ _ [] _ _ _ (Store.store_rep_New 0 60) Eb) as (_ & _ & times & _ & _ & Hr).
  destruct (exec both ([], (s, n))) as [ts [s' n']]. cbn [fst snd] in *.
  destruct (known_puts_are_kept _ _ _ _ _ _ _ _ Hr Hg Hsteps
              ltac:(rewrite Hc, !elem_of_cons, elem_of_nil; by intros [?|[?|?]]) Hf) as (entries & He & _ & Hk).
  rewrite Hc in He. exists entries, n'. split; [exact He|]. eexists.
  rewrite <- Hk. exact H2.
Defined.

(** Two namespaces with empty trees. *)
Definition emptied : Store (gmap bytes) (gmap bytes) :=
  Store.with_fresh_tree (str "other") (Store.with_fresh_tree ns (Store.NewStore 60)).

Lemma emptied_rep : store_rep 0 [] emptied.
Proof.
  apply (fresh_tree_rep 0 [] []); [|done|apply Tree.rep_New].
  apply (fresh_tree_rep 0 [] []); [|done|apply Tree.rep_New]. apply Store.store_rep_New.
Qed.

Lemma collection_loses_a_put_witness :
  ∃ pr s' n',
    rtc step ([], (emptied, 0%nat)) ([(CCleanup, pr); (CPut (str "other") (str "b"), Return AUnit)], (s', n')) ∧
    (Store.Count (str "other") (str "b") (s', n')).1 = 0.
Proof.
  assert (Hl : fetched 0 emptied = [(str "other", 1%nat)]) by (vm_compute; reflexivity).
  assert (Hp : hm_Get (namespaces emptied) (str "other") = Some 1%nat) by (vm_compute; reflexivity).
  exact (collection_loses_a_put 0 [] emptied _ _ _ (str "b") emptied_rep eq_refl Hl Hp (λ _, eq_refl)).
Defined.
End StoreRacesWitness.
