(* ===== verification/RawMessage.v ===== *)
(** * TCP framing: [src/server/rawmessage/rawmessage.go]

    A TCP connection is the list of the byte strings its reads return, in
    order, after which every read is an error (the end of the stream, or a
    closed connection). [ReadOneTcpMessage] puts a new [bufio.Reader] on the
    connection at every call: what a read returned beyond the message is lost
    with that reader. *)
From Stdlib Require Import ZArith Lia Strings.Byte.
From stdpp Require Import base gmap list strings.
From coqutil Require Import Byte.
From S2P Require Import Prelude GoStd Deps Protocol.
Local Open Scope Z_scope.
Local Open Scope go_scope.

(** ** bufio *)

Definition newline : Byte.byte := x0a.

(** The text through its first newline, and the rest. *)
Fixpoint cut_line (s : bytes) : option (bytes * bytes) :=
  match s with
  | [] => None
  | c :: s' =>
      if c =b newline then Some ([c], s')
      else '(l, r) ← cut_line s'; Some (c :: l, r)
  end.

(** A [bufio.Reader]: its buffer, and the reads to come. *)
Definition Reader : Type := bytes * list bytes.

Definition NewReader (conn : list bytes) : Reader := ([], conn).

(** [reader.ReadBytes('\n')]; [None] is an error, with which the source drops
    the bytes read so far. *)
Fixpoint ReadBytes_loop (buf : bytes) (conn : list bytes) : option bytes * Reader :=
  match cut_line buf with
  | Some (l, r) => (Some l, (r, conn))
  | None =>
      match conn with
      | [] => (None, ([], []))
      | c :: conn' => ReadBytes_loop (buf ++ c) conn'
      end
  end.
Definition ReadBytes (r : Reader) : option bytes * Reader := ReadBytes_loop r.1 r.2.

(** ** Messages *)

Record RawMessage := mkRawMessage {
  Message : bytes;
  Remote : option Addr;
  MaybeTcpClient : option TCPConn
}.

(** The bytes a reader can still deliver. *)
Definition pending (r : Reader) : bytes := r.1 ++ concat r.2.

(** [for !bytes.HasSuffix(message, protocol.StopSymbol) { ... }]: every round
    but the last takes a line of at least one byte from the reader, so the
    number of pending bytes bounds the rounds. *)
Fixpoint fill (fuel : nat) (message : bytes) (r : Reader) : bytes * Reader :=
  match fuel with
  | O => (message, r)
  | S fuel' =>
      if HasSuffix message StopSymbol then (message, r)
      else
        match ReadBytes r with
        | (None, r') => (message, r')
        | (Some line, r') => fill fuel' (message ++ line) r'
        end
  end.

(** [sendToChannel <- m], which panics when the channel was closed. *)
Definition send {A} (open : bool) (m : A) : go A := if open then Ret m else Panic.

(** The result is the message sent to the channel, [None] for an error, and
    the reads left on the connection. *)
Definition ReadOneTcpMessage (open : bool) (id : TCPConn) (tcpAddr : Addr) (conn : list bytes)
    : go (option RawMessage * list bytes) :=
  let reader := NewReader conn in
  match ReadBytes reader with
  | (None, reader) => Ret (None, reader.2)
  | (Some message, reader) =>
      let message := TrimLeftSpace message in
      let '(message, reader) := fill (S (length (pending reader))) message reader in
      message ← slice message 0 (len message - len StopSymbol);
      let message := TrimRightSpace message in
      message ← PadRight message PacketSize;
      m ← send open (mkRawMessage message (Some tcpAddr) (Some id));
      Ret (Some m, reader.2)
  end.

(** * Properties *)

(** ** Lines *)

Lemma cut_line_Some s l r :
  cut_line s = Some (l, r) ↔ ∃ w, l = w ++ [newline] ∧ (newline ∉ w) ∧ s = l ++ r.
Proof.
  revert l. induction s as [|c s IH]; intros l; simpl.
  - split; [done|]. intros (w & -> & _ & E). by destruct w.
  - destruct (c =b newline) eqn:E.
    + apply byte_eqb_eq in E as ->. split.
      * intros [= <- <-]. exists []. split; [done|]. split; [apply not_elem_of_nil|done].
      * intros ([|x w] & -> & Hw & [= E]); [by subst|].
        exfalso. apply Hw. rewrite <- E. left.
    + apply byte_eqb_neq in E. destruct (cut_line s) as [[l' r']|] eqn:Es; simpl.
      * split.
        -- intros [= <- <-]. destruct (proj1 (IH l') eq_refl) as (w & -> & Hw & ->).
           exists (c :: w). split; [done|]. split; [|done]. apply not_elem_of_cons. auto.
        -- intros ([|x w] & -> & Hw & [= E1 E2]); [done|subst x].
           apply not_elem_of_cons in Hw as [_ Hw].
           assert (Some (l', r') = Some (w ++ [newline], r)) as [= -> ->]; [|done].
           apply IH. exists w. done.
      * split; [done|]. intros ([|x w] & -> & Hw & [= E1 E2]); [done|].
        apply not_elem_of_cons in Hw as [_ Hw]. subst.
        assert (None = Some (w ++ [newline], r)); [|done]. apply IH. exists w. done.
Qed.

Lemma cut_line_None s : cut_line s = None ↔ (newline ∉ s).
Proof.
  induction s as [|c s IH]; simpl.
  - split; [intros _; apply not_elem_of_nil|done].
  - rewrite not_elem_of_cons, <- IH. destruct (c =b newline) eqn:E.
    + apply byte_eqb_eq in E as ->. by split; [|intros [? _]].
    + apply byte_eqb_neq in E. destruct (cut_line s) as [[l r]|]; simpl.
      * by split; [|intros [_ ?]].
      * split; [|done]. intros _. auto.
Qed.

Lemma cut_line_app s t l r : cut_line s = Some (l, r) → cut_line (s ++ t) = Some (l, r ++ t).
Proof.
  rewrite !cut_line_Some. intros (w & -> & Hw & ->). exists w.
  by rewrite <- !app_assoc.
Qed.

(** ** Readers *)

(** The reader that has taken [n] bytes from a connection: it holds the rest
    of the read that the last of these bytes was in. *)
Fixpoint reader_at (n : nat) (conn : list bytes) : Reader :=
  match conn with
  | [] => ([], [])
  | c :: conn' => if decide (n ≤ length c)%nat then (drop n c, conn') else reader_at (n - length c) conn'
  end.

Lemma reader_at_cons n c conn :
  reader_at n (c :: conn)
  = if decide (n ≤ length c)%nat then (drop n c, conn) else reader_at (n - length c) conn.
Proof. done. Qed.

Lemma pending_reader_at n conn : pending (reader_at n conn) = drop n (concat conn).
Proof.
  revert n. induction conn as [|c conn IH]; intros n; simpl; [by rewrite drop_nil|].
  case_decide as Hn.
  - unfold pending. simpl. rewrite drop_app. by replace (n - length c)%nat with 0%nat by lia.
  - by rewrite IH, drop_app, (drop_ge c), app_nil_l by lia.
Qed.

Lemma reader_at_add n m conn :
  (n ≤ length (concat conn))%nat →
  let r := reader_at n conn in reader_at m (r.1 :: r.2) = reader_at (n + m) conn.
Proof.
  revert n m. induction conn as [|c conn IH]; intros n m Hn; cbn zeta.
  - simpl. by case_decide; rewrite ?drop_nil.
  - cbn [concat] in Hn. rewrite length_app in Hn. rewrite (reader_at_cons n), (reader_at_cons (n + m)).
    destruct (decide (n ≤ length c)%nat) as [Hc|Hc].
    + cbn [fst snd]. rewrite reader_at_cons, length_drop, drop_drop.
      case_decide; case_decide; [done|lia|lia|]. f_equal. lia.
    + rewrite (decide_False (P := (n + m ≤ length c)%nat)) by lia.
      rewrite (IH (n - length c)%nat m) by lia. f_equal. lia.
Qed.

Lemma ReadBytes_loop_spec buf conn :
  match cut_line (buf ++ concat conn) with
  | Some (l, _) => ReadBytes_loop buf conn = (Some l, reader_at (length l) (buf :: conn))
  | None => ReadBytes_loop buf conn = (None, ([], []))
  end.
Proof.
  revert buf. induction conn as [|c conn IH]; intros buf; cbn [ReadBytes_loop concat];
    destruct (cut_line buf) as [[l r]|] eqn:E.
  1,3: rewrite (cut_line_app _ _ _ _ E); cbn [reader_at];
       apply cut_line_Some in E as (w & _ & _ & ->);
       rewrite decide_True by (rewrite length_app; lia); by rewrite drop_app_length.
  - by rewrite app_nil_r, E.
  - specialize (IH (buf ++ c)). rewrite <- app_assoc in IH.
    destruct (cut_line (buf ++ c ++ concat conn)) as [[l r]|] eqn:E'; [|done].
    rewrite IH. f_equal. apply cut_line_Some in E' as (w & -> & Hw & Heq).
    apply cut_line_None in E.
    assert (Hlen : (length buf < length (w ++ [newline]))%nat).
    { destruct (decide (length buf < length (w ++ [newline]))%nat) as [|Hge]; [done|].
      exfalso. apply E. assert (Hp : take (length (w ++ [newline])) buf = w ++ [newline]).
      { apply (f_equal (take (length (w ++ [newline])))) in Heq.
        rewrite take_app_le, take_app_length in Heq by lia. done. }
      rewrite <- (take_drop (length (w ++ [newline])) buf), Hp.
      apply elem_of_app. left. apply elem_of_app. right. left. }
    clear Hw Heq. revert Hlen. generalize (length (w ++ [newline])) as m. intros m Hlen.
    rewrite !reader_at_cons, length_app, (decide_False (P := (m ≤ length buf)%nat)) by lia.
    case_decide; case_decide; try lia.
    + rewrite drop_app. by rewrite (drop_ge buf), app_nil_l by lia.
    + f_equal. lia.
Qed.

(** Reading a line advances the reader by its length. *)
Lemma ReadBytes_spec n conn :
  (n ≤ length (concat conn))%nat →
  match cut_line (drop n (concat conn)) with
  | Some (l, _) => ReadBytes (reader_at n conn) = (Some l, reader_at (n + length l) conn)
  | None => ReadBytes (reader_at n conn) = (None, ([], []))
  end.
Proof.
  intros Hn. pose proof (ReadBytes_loop_spec (reader_at n conn).1 (reader_at n conn).2) as HR.
  pose proof (pending_reader_at n conn) as HP. unfold pending in HP. rewrite HP in HR.
  destruct (cut_line _) as [[l r]|]; [|done]. unfold ReadBytes.
  by rewrite HR, (reader_at_add n (length l) conn Hn).
Qed.

(** ** The stop symbol *)

(** The text before the first stop symbol and the text after it. *)
Fixpoint cut_stop (s : bytes) : option (bytes * bytes) :=
  match strip_prefix StopSymbol s with
  | Some r => Some ([], r)
  | None =>
      match s with
      | [] => None
      | c :: s' => '(w, r) ← cut_stop s'; Some (c :: w, r)
      end
  end.

Definition has_stop (s : bytes) : Prop := ∃ w r, s = w ++ StopSymbol ++ r.

Lemma cut_stop_unfold s :
  cut_stop s
  = match strip_prefix StopSymbol s with
    | Some r => Some ([], r)
    | None =>
        match s with
        | [] => None
        | c :: s' => '(w, r) ← cut_stop s'; Some (c :: w, r)
        end
    end.
Proof. by destruct s. Qed.

Lemma cut_stop_sound s w r : cut_stop s = Some (w, r) → s = w ++ StopSymbol ++ r.
Proof.
  revert w. induction s as [|c s IH]; intros w; rewrite cut_stop_unfold;
    destruct (strip_prefix StopSymbol _) as [r'|] eqn:E; try done.
  1: apply strip_prefix_Some in E; by intros [= <- <-].
  destruct (cut_stop s) as [[w' r']|]; simpl; [|done].
  intros [= <- <-]. by rewrite (IH w').
Qed.

Lemma cut_stop_None s : cut_stop s = None ↔ ¬ has_stop s.
Proof.
  split.
  - induction s as [|c s IH]; rewrite cut_stop_unfold;
      destruct (strip_prefix StopSymbol _) as [r'|] eqn:E; try done.
    + intros _ ([|? ?] & ? & ?); done.
    + intros H ([|x w] & r & Heq).
      * apply (strip_prefix_Some StopSymbol (c :: s) r) in Heq. congruence.
      * injection Heq as -> ->. apply IH; [by destruct (cut_stop _) as [[? ?]|]|].
        by exists w, r.
  - intros H. destruct (cut_stop s) as [[w r]|] eqn:E; [|done].
    destruct H. exists w, r. by apply cut_stop_sound.
Qed.

(** A cut is complete when no stop symbol ends earlier. *)
Lemma cut_stop_first w r :
  (∀ p q, w ++ StopSymbol = p ++ StopSymbol ++ q → q = []) →
  cut_stop (w ++ StopSymbol ++ r) = Some (w, r).
Proof.
  induction w as [|c w IH]; intros Hfirst; rewrite cut_stop_unfold.
  - by rewrite (proj2 (strip_prefix_Some StopSymbol _ r)).
  - destruct (strip_prefix StopSymbol _) as [r'|] eqn:E.
    + exfalso. apply strip_prefix_Some in E.
      rewrite app_assoc in E. apply app_eq_inv in E as [(k & E & _)|(k & E & _)].
      * specialize (Hfirst [] k E) as ->. apply (f_equal length) in E.
        rewrite !length_app in E. simpl in E. lia.
      * apply (f_equal length) in E. rewrite !length_app in E. simpl in E. lia.
    + cbn [app]. rewrite IH; [done|]. intros p q Hpq. apply (Hfirst (c :: p) q). simpl. by f_equal.
Qed.

Lemma cut_stop_min s w r :
  cut_stop s = Some (w, r) → ∀ p q, s = p ++ StopSymbol ++ q → (length w ≤ length p)%nat.
Proof.
  revert w r. induction s as [|y s IH]; intros w r; rewrite cut_stop_unfold;
    destruct (strip_prefix StopSymbol _) as [r0|] eqn:Es; try done.
  - intros [= <- _]. simpl. lia.
  - destruct (cut_stop s) as [[w0 r1]|] eqn:Ec; simpl; [|done]. intros [= <- <-] [|z p] q E.
    + apply (strip_prefix_Some StopSymbol (y :: s) q) in E. congruence.
    + injection E as -> ->. specialize (IH _ _ eq_refl p q eq_refl). simpl. lia.
Qed.

(** A stop symbol that a line completes ends the line. *)
Lemma line_stop m l p q :
  ¬ has_stop m → newline ∉ l → m ++ l ++ [newline] = p ++ StopSymbol ++ q → q = [].
Proof.
  intros Hm Hl. destruct q as [|x q _] using rev_ind; [done|]. intros E. exfalso.
  rewrite !app_assoc in E. apply app_inj_tail in E as [E _].
  apply app_eq_inv in E as [(k & E & _)|(k & E & Ek)].
  - apply Hm. exists p, k. by rewrite E, <- app_assoc.
  - destruct k as [|y k _] using rev_ind.
    + apply Hm. exists p, []. by rewrite app_nil_r in E |- *.
    + apply Hl. rewrite Ek. change StopSymbol with ([x0a; x2e] ++ [newline]) in E.
      rewrite !app_assoc in E. apply app_inj_tail in E as [_ <-].
      apply elem_of_app. left. apply elem_of_app. right. left.
Qed.

Lemma line_no_stop l : newline ∉ l → ¬ has_stop (l ++ [newline]).
Proof.
  intros Hl (w & r & E).
  assert (Hr : r = []).
  { apply (line_stop [] l w r); [|done|done]. intros (p & q & Epq). by destruct p. }
  subst r. rewrite app_nil_r in E. change StopSymbol with ([x0a; x2e] ++ [newline]) in E.
  rewrite app_assoc in E. apply app_inj_tail in E as [-> _]. apply Hl.
  apply elem_of_app. right. left.
Qed.

(** ** Filling the buffer *)

(** The complete lines of a text. *)
Definition ends_line (m : bytes) : Prop := m = [] ∨ ∃ w, m = w ++ [newline].

Lemma fill_spec fuel message n conn :
  (n ≤ length (concat conn))%nat → ¬ has_stop message → ends_line message →
  (length (drop n (concat conn)) < fuel)%nat →
  let t := message ++ drop n (concat conn) in
  match cut_stop t with
  | Some (w, r) =>
      fill fuel message (reader_at n conn)
      = (w ++ StopSymbol, reader_at (length (concat conn) - length r) conn)
  | None =>
      ∃ m p, t = m ++ p ∧ (newline ∉ p) ∧ ends_line m ∧
        fill fuel message (reader_at n conn) = (m, ([], []))
  end.
Proof.
  revert message n. induction fuel as [|fuel IH]; intros message n Hn Hm Hends Hfuel; [lia|].
  cbn zeta. cbn [fill].
  destruct (HasSuffix message StopSymbol) eqn:Hs.
  { exfalso. apply HasSuffix_true in Hs as [p ->]. apply Hm. exists p, []. by rewrite app_nil_r. }
  pose proof (ReadBytes_spec n conn Hn) as HR. revert HR.
  destruct (cut_line (drop n (concat conn))) as [[l r]|] eqn:El; intros ->.
  2: { apply cut_line_None in El. rewrite (proj2 (cut_stop_None _)).
       - by exists message, (drop n (concat conn)).
       - intros (w & r & E). rewrite app_assoc in E. apply app_eq_inv in E as [(k & -> & _)|(k & E & Ek)].
         + apply Hm. exists w, k. by rewrite <- app_assoc.
         + destruct k as [|x k _] using rev_ind.
           * apply Hm. exists w, []. by rewrite app_nil_r in E |- *.
           * change StopSymbol with ([x0a; x2e] ++ [newline]) in E.
             rewrite !app_assoc in E. apply app_inj_tail in E as [_ <-].
             apply El. rewrite Ek. apply elem_of_app. left. apply elem_of_app. right. left. }
  apply cut_line_Some in El as (w & -> & Hw & Hd).
  assert (Hlen : (n + length (w ++ [newline]) ≤ length (concat conn))%nat).
  { apply (f_equal length) in Hd. rewrite length_drop, length_app in Hd.
    rewrite length_app in *. simpl in *. lia. }
  assert (Hd' : drop (n + length (w ++ [newline])) (concat conn) = r).
  { by rewrite <- drop_drop, Hd, drop_app_length. }
  destruct (HasSuffix (message ++ w ++ [newline]) StopSymbol) eqn:Hs'.
  - apply HasSuffix_true in Hs' as [p Hp].
    rewrite Hd, (app_assoc message), Hp, <- app_assoc.
    rewrite cut_stop_first.
    2: { intros p' q Heq. rewrite <- Hp in Heq. by apply (line_stop message w p' q). }
    destruct fuel as [|fuel].
    { rewrite Hd, !length_app in Hfuel. simpl in Hfuel. lia. }
    cbn [fill]. rewrite HasSuffix_app. f_equal. f_equal.
    apply (f_equal length) in Hd'. rewrite length_drop in Hd'. lia.
  - assert (Hm' : ¬ has_stop (message ++ w ++ [newline])).
    { intros (p & q & E). rewrite (line_stop message w p q Hm Hw E), app_nil_r in E.
      by rewrite E, HasSuffix_app in Hs'. }
    rewrite Hd, (app_assoc message), <- Hd'. apply IH; [done|done| |].
    + right. exists (message ++ w). by rewrite app_assoc.
    + rewrite Hd'. rewrite Hd, !length_app in Hfuel. simpl in Hfuel. lia.
Qed.

(** ** Reading a message *)

(** A trimmed line is a line or nothing. *)
Lemma TrimLeftSpace_line w :
  newline ∉ w → TrimLeftSpace (w ++ [newline]) = [] ∨
  ∃ w', TrimLeftSpace (w ++ [newline]) = w' ++ [newline] ∧ newline ∉ w'.
Proof.
  intros Hw. destruct (trim_front_suffix space_runes (length (w ++ [newline])) (w ++ [newline])) as [t Ht].
  unfold TrimLeftSpace. destruct (trim_front _ _ _) as [|x l _] using rev_ind; [by left|right].
  rewrite app_assoc in Ht. apply app_inj_tail in Ht as [-> <-]. exists l. split; [done|].
  intros H. apply Hw, elem_of_app. by right.
Qed.

(** What is sent for a text cut at its stop symbol. *)
Definition message_of (w : bytes) (tcpAddr : Addr) (id : TCPConn) : RawMessage :=
  mkRawMessage (pad 1500 (TrimRightSpace w)) (Some tcpAddr) (Some id).

Lemma slice_stop w : slice (w ++ StopSymbol) 0 (len (w ++ StopSymbol) - len StopSymbol) = Ret w.
Proof.
  apply (slice_at [] w StopSymbol); [done|done|]. rewrite len_app, len_nil. lia.
Qed.

Lemma ReadOneTcpMessage_spec open id tcpAddr conn :
  let s := concat conn in
  match cut_line s with
  | None => ReadOneTcpMessage open id tcpAddr conn = Ret (None, [])
  | Some (l, rest) =>
      let t := TrimLeftSpace l ++ rest in
      match cut_stop t with
      | Some (w, r) =>
          ReadOneTcpMessage open id tcpAddr conn
          = (m ← send open (message_of w tcpAddr id);
             Ret (Some m, (reader_at (length s - length r) conn).2))
      | None =>
          ∃ m p, t = m ++ p ∧ (newline ∉ p) ∧ ends_line m ∧
            ReadOneTcpMessage open id tcpAddr conn
            = (w ← slice m 0 (len m - 3);
               m ← send open (message_of w tcpAddr id); Ret (Some m, []))
      end
  end.
Proof.
  cbn zeta. unfold ReadOneTcpMessage, NewReader, ReadBytes. cbn [fst snd].
  pose proof (ReadBytes_loop_spec [] conn) as HR. cbn [app] in HR.
  destruct (cut_line (concat conn)) as [[l rest]|] eqn:El; rewrite HR; [|done].
  apply cut_line_Some in El as (w1 & -> & Hw1 & Hs).
  set (l := w1 ++ [newline]) in *.
  assert (Hrd : reader_at (length l) ([] :: conn) = reader_at (length l) conn).
  { rewrite reader_at_cons. rewrite decide_False by (unfold l; rewrite length_app; simpl; lia).
    by rewrite Nat.sub_0_r. }
  rewrite Hrd, pending_reader_at.
  assert (Hn : (length l ≤ length (concat conn))%nat) by (rewrite Hs, length_app; lia).
  assert (Hd : drop (length l) (concat conn) = rest) by (by rewrite Hs, drop_app_length).
  assert (Hno : ¬ has_stop (TrimLeftSpace l) ∧ ends_line (TrimLeftSpace l)).
  { destruct (TrimLeftSpace_line w1 Hw1) as [E|(w' & E & Hw')]; fold l in E; rewrite E.
    - split; [|by left]. intros (p & q & Epq). by destruct p.
    - split; [by apply line_no_stop | right; by exists w']. }
  destruct Hno as [Hno Hends].
  pose proof (fill_spec (S (length (drop (length l) (concat conn)))) (TrimLeftSpace l) (length l) conn
                Hn Hno Hends ltac:(lia)) as Hfill.
  cbn zeta in Hfill. rewrite Hd in Hfill |- *.
  destruct (cut_stop (TrimLeftSpace l ++ rest)) as [[w r]|].
  - rewrite Hfill, slice_stop. cbn [mbind go_bind]. by rewrite PadRight_pad.
  - destruct Hfill as (m & p & Ht & Hp & Hm & Hfill). exists m, p.
    split; [done|]. split; [done|]. split; [done|]. rewrite Hfill.
    change (len StopSymbol) with 3.
    destruct (slice m 0 (len m - 3)) as [w|]; [|done]. cbn [mbind go_bind].
    by rewrite PadRight_pad.
Qed.

(** Nothing in front of a command byte is trimmed. *)
Lemma command_not_space c w : commandIsValid c = true → TrimLeftSpace (c :: w) = c :: w.
Proof. intros Hc. destruct c; try discriminate Hc; reflexivity. Qed.

(** The prefix of a message that starts with a command byte. *)
Lemma ReadOneTcpMessage_command open id tcpAddr conn c w r :
  commandIsValid c = true → concat conn = (c :: w) ++ StopSymbol ++ r →
  cut_stop ((c :: w) ++ StopSymbol) = Some (c :: w, []) →
  ReadOneTcpMessage open id tcpAddr conn
  = (m ← send open (message_of (c :: w) tcpAddr id);
     Ret (Some m, (reader_at (length (c :: w) + 3) conn).2)).
Proof.
  intros Hc Hs Hcut. pose proof (ReadOneTcpMessage_spec open id tcpAddr conn) as H.
  cbn zeta in H. rewrite Hs in H.
  destruct (cut_line _) as [[l rest]|] eqn:El.
  2: { apply cut_line_None in El. destruct El. rewrite elem_of_app. right. left. }
  apply cut_line_Some in El as (w1 & -> & _ & El).
  assert (Hl : TrimLeftSpace (w1 ++ [newline]) = w1 ++ [newline]).
  { destruct w1 as [|x w1]; [|injection El as <- _; by apply command_not_space].
    injection El as -> _. discriminate Hc. }
  rewrite Hl, <- El in H.
  assert (Hc2 : cut_stop ((c :: w) ++ StopSymbol ++ r) = Some (c :: w, r)).
  { apply cut_stop_first. intros p q E.
    destruct q as [|x q _] using rev_ind; [done|]. exfalso.
    pose proof (cut_stop_min _ _ _ Hcut p (q ++ [x]) E) as Hle.
    apply (f_equal length) in E. rewrite !length_app in E. simpl in *. lia. }
  rewrite Hc2 in H. rewrite H.
  replace (length ((c :: w) ++ StopSymbol ++ r) - length r)%nat with (length (c :: w) + 3)%nat;
    [done|]. rewrite !length_app. simpl. lia.
Qed.

(** Every message sent is long enough to be parsed and names its client. *)
Lemma ReadOneTcpMessage_sent open id tcpAddr conn m conn' :
  ReadOneTcpMessage open id tcpAddr conn = Ret (Some m, conn') →
  PacketSize <= len (Message m) ∧ Remote m = Some tcpAddr ∧ MaybeTcpClient m = Some id ∧
  open = true.
Proof.
  intros E. pose proof (ReadOneTcpMessage_spec open id tcpAddr conn) as H. cbn zeta in H.
  assert (Hsend : ∀ w c, (m ← send open (message_of w tcpAddr id); Ret (Some m, c)) = Ret (Some m, conn') →
    PacketSize <= len (Message m) ∧ Remote m = Some tcpAddr ∧ MaybeTcpClient m = Some id ∧ open = true).
  { intros w c. unfold send. destruct open; [|done]. intros [= <- _]. split; [|done].
    unfold message_of, len, PacketSize. cbn [Message]. rewrite pad_length. lia. }
  destruct (cut_line _) as [[l rest]|]; [|congruence].
  destruct (cut_stop _) as [[w r]|]; [rewrite E in H; by eapply Hsend, eq_sym|].
  destruct H as (m' & p & _ & _ & _ & H). rewrite E in H.
  destruct (slice m' 0 (len m' - 3)) as [w|]; [|done]. by apply (Hsend w []).
Qed.

(** A datagram whose data ends in no white space survives the trimming. *)
Lemma datagram_trim {digest} (L : length (digest : bytes) = 8%nat) cmd id ns dv psk :
  length id = 4%nat → (length ns ≤ 64)%nat → (length dv ≤ 1419)%nat →
  dv ≠ [] → TrimRightSpace dv = dv →
  pad 1500 (TrimRightSpace (datagram (digest := digest) cmd id ns dv psk))
  = datagram (digest := digest) cmd id ns dv psk.
Proof.
  intros Hid Hns Hdv Hne Htrim.
  set (h := sig (digest := digest) psk id (pad 64 ns) (pad 1419 dv)).
  assert (Hd : datagram (digest := digest) cmd id ns dv psk
    = ((cmd :: space :: h ++ space :: id ++ space :: pad 64 ns) ++ x20 :: dv)
      ++ replicate (1419 - length dv) x20).
  { unfold datagram, wire, frame. fold h. change (pad 1419 dv) with (dv ++ replicate (1419 - length dv) x20).
    rewrite <- app_assoc. cbn [app]. do 2 f_equal.
    rewrite <- !app_assoc. cbn [app]. do 2 f_equal. by rewrite <- app_assoc. }
  rewrite Hd, TrimRightSpace_pad, TrimRightSpace_space by done.
  unfold pad at 1. f_equal. unfold space. f_equal.
  assert (Hh : length h = 8%nat)
    by (unfold h, sig; rewrite length_take, !length_app, L; lia).
  rewrite length_app. cbn [length]. rewrite length_app. cbn [length].
  rewrite length_app. cbn [length]. rewrite pad_length. rewrite Hh, Hid. lia.
Qed.

(** The bytes sent over TCP: both sides append the stop symbol to the padded
    data, so it follows the datagram. *)
Lemma Bytes_stop {digest : bytes} (L : length digest = 8%nat) cmd id ns dv psk c :
  length id = 4%nat →
  ∃ e, (e = None ∨ e = Some ErrBadOutputSize) ∧ (IsTcpOnlyCmd cmd = true → e = None) ∧
    let p := parts_packet (digest := digest) cmd id ns dv psk in
    Bytes (set_DataValue (DataValue p ++ StopSymbol) (set_RequestClient c p))
    = Ret (datagram (digest := digest) cmd id ns dv psk ++ StopSymbol, e).
Proof.
  intros Hid. cbn zeta. rewrite Bytes_eq.
  2: { simpl. rewrite !length_app, L. lia. }
  2: { simpl. lia. }
  assert (Hw : wire cmd (sig (digest := digest) psk id (pad 64 ns) (pad 1419 dv)) id (pad 64 ns)
                 (pad 1419 dv) ++ StopSymbol
    = wire cmd (take 8 (psk ++ id ++ pad 64 ns ++ pad 1419 dv ++ digest)) (take 4 id)
        (pad 64 (pad 64 ns)) (pad 1419 (pad 1419 dv ++ StopSymbol))).
  { rewrite pad_idemp, (pad_full 1419 (_ ++ _)) by (rewrite length_app, pad_length; lia).
    rewrite (take_ge id) by lia. unfold wire, frame, sig. cbn [app].
    rewrite <- !app_assoc. cbn [app]. rewrite <- !app_assoc. cbn [app]. by rewrite <- !app_assoc. }
  eexists. split; [|split; [|unfold datagram; rewrite Hw; reflexivity]].
  - destruct (_ || _); auto.
  - intros Hc. simpl. by rewrite Hc, orb_true_r.
Qed.

(** A message is read from at least one read of the connection. *)
Lemma reader_at_shorter n conn :
  (0 < n)%nat → conn ≠ [] → (length (reader_at n conn).2 < length conn)%nat.
Proof.
  revert n. induction conn as [|c conn IH]; intros n Hn Hne; [done|]. rewrite reader_at_cons.
  case_decide; simpl; [lia|]. destruct conn as [|c' conn]; [simpl; lia|].
  specialize (IH (n - length c)%nat ltac:(lia) ltac:(done)). simpl in *. lia.
Qed.

Lemma ReadOneTcpMessage_shorter open id tcpAddr conn m conn' :
  ReadOneTcpMessage open id tcpAddr conn = Ret (Some m, conn') → (length conn' < length conn)%nat.
Proof.
  intros E. pose proof (ReadOneTcpMessage_spec open id tcpAddr conn) as H. cbn zeta in H.
  destruct (cut_line _) as [[l rest]|] eqn:El; [|by rewrite E in H].
  assert (Hne : conn ≠ []) by (intros ->; done).
  apply cut_line_Some in El as (w1 & -> & _ & Hs).
  destruct (cut_stop _) as [[w r]|] eqn:Ec.
  - rewrite E in H. destruct (send _ _) as [m'|]; [|done]. injection H as <- ->.
    apply reader_at_shorter; [|done]. apply cut_stop_sound in Ec.
    apply (f_equal length) in Ec, Hs. rewrite !length_app in Ec, Hs.
    assert (Ht : (length (TrimLeftSpace (w1 ++ [newline])) ≤ length (w1 ++ [newline]))%nat)
      by apply trim_front_length.
    rewrite length_app in Ht. simpl in *. lia.
  - destruct H as (m' & p & _ & _ & _ & H). rewrite E in H.
    destruct (slice _ _ _) as [w|]; [|done]. simpl in H.
    destruct (send _ _) as [m''|]; [|done]. injection H as _ ->.
    destruct conn; [done|simpl; lia].
Qed.

(** The reads of one message are used up by it, but for empty ones. *)
Lemma reader_at_end chunks more :
  concat chunks ≠ [] →
  ∃ pre, concat pre = [] ∧ reader_at (length (concat chunks)) (chunks ++ more) = ([], pre ++ more).
Proof.
  induction chunks as [|c chunks IH]; intros Hne; [done|]. cbn [app concat] in *.
  rewrite reader_at_cons, length_app. destruct (concat chunks) as [|b bs] eqn:E.
  - rewrite decide_True by (simpl; lia). exists chunks. rewrite drop_ge by lia. done.
  - rewrite decide_False by (simpl; lia). destruct (IH ltac:(done)) as (pre & Hpre & Hr).
    exists pre. split; [done|]. rewrite <- Hr. f_equal. lia.
Qed.

(** A datagram read from a connection. *)
Lemma ReadOneTcpMessage_datagram {digest : bytes} (L : length digest = 8%nat)
    tcpAddr conn_id conn cmd id ns dv psk r :
  length id = 4%nat → (length ns ≤ 64)%nat → (length dv ≤ 1419)%nat →
  dv ≠ [] → TrimRightSpace dv = dv → commandIsValid cmd = true →
  let d := datagram (digest := digest) cmd id ns dv psk in
  cut_stop (d ++ StopSymbol) = Some (d, []) → concat conn = d ++ StopSymbol ++ r →
  ∃ conn', ReadOneTcpMessage true conn_id tcpAddr conn
           = Ret (Some (mkRawMessage d (Some tcpAddr) (Some conn_id)), conn').
Proof.
  intros Hid Hns Hdv Hne Htrim Hcmd d Hcut Hconn.
  rewrite (ReadOneTcpMessage_command true conn_id tcpAddr conn cmd _ r Hcmd Hconn Hcut).
  assert (Hm : message_of d tcpAddr conn_id = mkRawMessage d (Some tcpAddr) (Some conn_id)).
  { unfold message_of. f_equal. exact (datagram_trim L cmd id ns dv psk Hid Hns Hdv Hne Htrim). }
  eexists. exact (f_equal (λ m, Ret (Some m, _)) Hm).
Qed.

(** * Theorems *)

(** C23. Framing: a datagram with a valid command and data that are not empty
    and end in no white space, followed by the stop symbol, is read back
    exactly, however the stream is cut into reads, and parses to the packet
    that was sent; the condition is that no stop symbol is completed within
    the datagram. *)
Theorem tcp_message_is_read_back {X : XXHash} {digest} {L : XXHashLaws digest}
    tcpAddr conn_id conn cmd id ns dv psk r :
  length id = 4%nat → (length ns ≤ 64)%nat → (length dv ≤ 1419)%nat →
  dv ≠ [] → TrimRightSpace dv = dv → commandIsValid cmd = true →
  let d := datagram (digest := digest) cmd id ns dv psk in
  cut_stop (d ++ StopSymbol) = Some (d, []) →
  concat conn = d ++ StopSymbol ++ r →
  ∃ m conn', ReadOneTcpMessage true conn_id tcpAddr conn = Ret (Some m, conn') ∧
    Message m = d ∧ MaybeTcpClient m = Some conn_id ∧
    ParsePacket (Message m) = Ret (Some (parsed_packet (digest := digest) cmd id ns dv psk), None).
Proof.
  intros Hid Hns Hdv Hne Htrim Hcmd d Hcut Hconn.
  destruct (ReadOneTcpMessage_datagram digest_length tcpAddr conn_id conn cmd id ns dv psk r Hid Hns Hdv
              Hne Htrim Hcmd Hcut Hconn) as (conn' & E).
  eexists _, conn'. split; [exact E|]. split; [done|]. split; [done|].
  by apply ParsePacket_datagram.
Qed.

(** Messages that arrive together: what the read that completes a message
    holds beyond it is lost with the reader, so a second message in the same
    read is never processed. *)
Theorem pipelined_message_is_lost tcpAddr id c w extra conn :
  commandIsValid c = true → cut_stop ((c :: w) ++ StopSymbol) = Some (c :: w, []) →
  ReadOneTcpMessage true id tcpAddr (((c :: w) ++ StopSymbol ++ extra) :: conn)
  = Ret (Some (message_of (c :: w) tcpAddr id), conn).
Proof.
  intros Hc Hcut.
  rewrite (ReadOneTcpMessage_command true id tcpAddr _ c w (extra ++ concat conn) Hc);
    [| cbn [concat]; by rewrite <- !app_assoc | exact Hcut].
  rewrite reader_at_cons, decide_True; [done|]. rewrite !length_app. simpl. lia.
Qed.

(** C25. A crash from the network: when the stream ends after a first line of
    at most one byte, the buffer is shorter than the stop symbol, cutting the
    stop symbol off panics, and no recover stops the panic. *)
Theorem short_line_panics open id tcpAddr conn l p :
  concat conn = l ++ [newline] ++ p → (length l ≤ 1)%nat → newline ∉ l → newline ∉ p →
  ReadOneTcpMessage open id tcpAddr conn = Panic.
Proof.
  intros Hconn Hlen Hl Hp.
  pose proof (ReadOneTcpMessage_spec open id tcpAddr conn) as H. cbn zeta in H.
  assert (Hcut : cut_line (concat conn) = Some (l ++ [newline], p)).
  { apply cut_line_Some. exists l. by rewrite Hconn, <- app_assoc. }
  rewrite Hcut in H.
  assert (Hline : ∀ m q, TrimLeftSpace (l ++ [newline]) ++ p = m ++ q → ends_line m →
    (length m ≤ 2)%nat).
  { intros m q E [->|[w ->]]; [simpl; lia|].
    destruct (trim_front_suffix space_runes (length (l ++ [newline])) (l ++ [newline])) as [t Ht].
    fold (TrimLeftSpace (l ++ [newline])) in Ht.
    apply (f_equal length) in Ht. rewrite !length_app in Ht. simpl in Ht.
    apply app_eq_inv in E as [(k & E & _)|(k & E & Ek)].
    - apply (f_equal length) in E. rewrite !length_app in *. simpl in *. lia.
    - destruct k as [|x k _] using rev_ind.
      + rewrite app_nil_r in E. rewrite E. lia.
      + rewrite app_assoc in E. apply app_inj_tail in E as [_ <-]. exfalso. apply Hp.
        rewrite Ek. apply elem_of_app. left. apply elem_of_app. right. left. }
  destruct (cut_stop _) as [[w r]|] eqn:Ec.
  - apply cut_stop_sound in Ec. rewrite app_assoc in Ec. apply Hline in Ec.
    + rewrite length_app in Ec. simpl in Ec. lia.
    + right. exists (w ++ [x0a; x2e]). by rewrite <- app_assoc.
  - destruct H as (m & q & E & _ & Hm & ->). apply Hline in E; [|done].
    assert (len m - 3 < 0) as Hneg by (unfold len; lia).
    unfold slice. by rewrite (proj2 (Z.leb_gt 0 (len m - 3)) Hneg).
Qed.

(** A message without a stop symbol is not dropped: when the stream ends
    in the middle of a message, the complete lines read so far lose their
    last three bytes, are padded like a message and are processed. *)
Theorem unterminated_message_is_sent tcpAddr id conn c w p :
  commandIsValid c = true → concat conn = (c :: w) ++ [newline] ++ p → newline ∉ p →
  (2 ≤ length (c :: w))%nat → cut_stop ((c :: w) ++ [newline] ++ p) = None →
  ReadOneTcpMessage true id tcpAddr conn
  = Ret (Some (message_of (take (length (c :: w) - 2) (c :: w)) tcpAddr id), []).
Proof.
  intros Hc Hconn Hp Hlen Hcut.
  pose proof (ReadOneTcpMessage_spec true id tcpAddr conn) as H. cbn zeta in H.
  destruct (cut_line (concat conn)) as [[l rest]|] eqn:El.
  2: { apply cut_line_None in El. destruct El. rewrite Hconn. apply elem_of_app. right. left. }
  apply cut_line_Some in El as (w1 & -> & _ & El). rewrite Hconn in El.
  assert (Hl : TrimLeftSpace (w1 ++ [newline]) = w1 ++ [newline]).
  { destruct w1 as [|x w1]; [|injection El as <- _; by apply command_not_space].
    injection El as -> _. discriminate Hc. }
  rewrite Hl, <- El, Hcut in H. destruct H as (m & q & E & Hq & Hm & ->).
  assert (m = (c :: w) ++ [newline]) as ->.
  { rewrite app_assoc in E. apply app_eq_inv in E as [(k & E & Ek)|(k & E & Ek)].
    - destruct k as [|x k _] using rev_ind; [by rewrite app_nil_r in E|].
      rewrite app_assoc in E. apply app_inj_tail in E as [_ <-]. destruct Hq.
      rewrite Ek. apply elem_of_app. left. apply elem_of_app. right. left.
    - destruct k as [|x k _] using rev_ind; [by rewrite app_nil_r in E|].
      destruct Hm as [->|[m' ->]]; [by destruct k|].
      rewrite app_assoc in E. apply app_inj_tail in E as [_ <-]. destruct Hp.
      rewrite Ek. apply elem_of_app. left. apply elem_of_app. right. left. }
  rewrite (slice_at [] (take (length (c :: w) - 2) (c :: w))
             (drop (length (c :: w) - 2) ((c :: w) ++ [newline]))); [done| |done|].
  - cbn [app]. rewrite <- (take_app_le (c :: w) [newline]) by lia. symmetry. apply take_drop.
  - rewrite len_app, len_nil. unfold len. rewrite length_take. simpl in *. lia.
Qed.

(** A message that is complete after the channel was closed is sent to a
    closed channel and panics: [Close] does not end the goroutines of the
    open TCP connections. *)
Theorem message_after_close_panics id tcpAddr conn m conn' :
  ReadOneTcpMessage true id tcpAddr conn = Ret (Some m, conn') →
  ReadOneTcpMessage false id tcpAddr conn = Panic.
Proof.
  intros E. pose proof (ReadOneTcpMessage_spec true id tcpAddr conn) as H1.
  pose proof (ReadOneTcpMessage_spec false id tcpAddr conn) as H2. cbn zeta in H1, H2.
  destruct (cut_line _) as [[l rest]|]; [|congruence].
  destruct (cut_stop _) as [[w r]|]; [done|].
  destruct H2 as (w & p & _ & _ & _ & ->).
  by destruct (slice w 0 (len w - 3)).
Qed.

(** ** Witnesses *)
Module RawMessageWitness.
Import Concrete.

Definition peer : Addr := mkAddr (Some (mkIPv4 127 0 0 1)) 40000.
Definition id1 : bytes := [x01; x00; x00; x00].
Definition keys_request : bytes :=
  datagram (digest := empty_digest) CmdTCPOnlyKeys id1 (str "default") (str "a*") (str "supersecret").

(** The request arrives in three reads, the last with more data. *)
Definition reads : list bytes :=
  [take 3 keys_request; drop 3 keys_request ++ [x0a; x2e]; [x0a] ++ str "more"].

Lemma tcp_message_is_read_back_witness :
  ∃ m conn', ReadOneTcpMessage true 7%nat peer reads = Ret (Some m, conn') ∧
    Message m = keys_request ∧ MaybeTcpClient m = Some 7%nat ∧
    ParsePacket (Message m)
    = Ret (Some (parsed_packet (digest := empty_digest) CmdTCPOnlyKeys id1 (str "default") (str "a*")
                   (str "supersecret")), None).
Proof.
  apply (tcp_message_is_read_back peer 7%nat reads CmdTCPOnlyKeys id1 (str "default") (str "a*")
           (str "supersecret") (str "more"));
    [reflexivity | simpl; lia | simpl; lia | discriminate | vm_compute; reflexivity
    | reflexivity | vm_compute; reflexivity | vm_compute; reflexivity].
Defined.

Lemma pipelined_message_is_lost_witness :
  ReadOneTcpMessage true 7%nat peer [str "L one" ++ StopSymbol ++ str "L two" ++ StopSymbol]
  = Ret (Some (message_of (str "L one") peer 7%nat), []).
Proof.
  apply (pipelined_message_is_lost peer 7%nat "L"%byte (str " one") (str "L two" ++ StopSymbol) []);
    reflexivity.
Defined.

Lemma short_line_panics_witness :
  ReadOneTcpMessage true 7%nat peer [str "x"; [newline]] = Panic.
Proof.
  apply (short_line_panics true 7%nat peer [str "x"; [newline]] (str "x") []);
    [reflexivity | simpl; lia | apply (bool_decide_unpack _); reflexivity
    | apply not_elem_of_nil].
Defined.

Lemma unterminated_message_is_sent_witness :
  ReadOneTcpMessage true 7%nat peer [str "P one two" ++ [newline] ++ str "lost"]
  = Ret (Some (message_of (str "P one t") peer 7%nat), []).
Proof.
  apply (unterminated_message_is_sent peer 7%nat _ "P"%byte (str " one two") (str "lost"));
    [reflexivity | reflexivity | apply (bool_decide_unpack _); reflexivity | simpl; lia
    | reflexivity].
Defined.

Lemma message_after_close_panics_witness :
  ReadOneTcpMessage false 7%nat peer [str "L one" ++ StopSymbol] = Panic.
Proof.
  apply (message_after_close_panics 7%nat peer _ (message_of (str "L one") peer 7%nat) []).
  vm_compute. reflexivity.
Defined.
End RawMessageWitness.
