(* ===== verification/Server.v ===== *)
(** * The server: [src/server/server.go]

    A [Server] owns a store, its peers and its sockets. The worker takes raw
    messages from a channel, changes the store and writes responses and
    replications; what is written is appended to [sent], and whether a write
    succeeds is up to the network ([Network]). [Clear] replaces the store;
    the replaced one stays reachable from its cleanup timer and from
    [StoreMetrics], so it is kept in [orphans]. *)
From Stdlib Require Import ZArith Lia Strings.Byte.
From stdpp Require Import base gmap list strings sorting.
From coqutil Require Import Byte LittleEndianList.
From S2P Require Import Prelude GoStd Deps Protocol Env RawMessage.
From S2P Require Tree Store.
Local Open Scope Z_scope.
Local Open Scope go_scope.

Definition MinimumExpirySecs : Z := 2.

Inductive ServerErr :=
  | ErrExpiryTooSmall
  | ErrServerAlreadyInit
  | ErrBadPeersFormat
  | ErrNet.

(** What was written to a socket. *)
Inductive Output :=
  | UDPDatagram (b : bytes) (to : Addr)
  | TCPBytes (b : bytes) (to : TCPConn).

(** [string(b)] of a byte is the UTF-8 encoding of the rune of that number. *)
Definition string_of_byte (c : Byte.byte) : bytes :=
  let v := byte.unsigned c in
  if v <? 128 then [c]
  else [byte.of_Z (192 + v / 64); byte.of_Z (128 + v mod 64)].

Section Server.
Context {T : Type → Type} {RB : RedBlackTree T} {H : Type → Type} {HM : HashMap H}
  {CK : Clock} {SW : Stopwatch} {RO : RangeOrder} {RE : Regexp} {X : XXHash} {NW : Network}.

Record Server := mkServer {
  store : Store.Store T H;
  orphans : list (Store.Store T H);
  conn : bool;
  tcpConn : bool;
  disposed : bool;
  preSharedKey : bytes;
  expireAfterSecs : Z;
  messageProcessing : bool; (* the channel is open *)
  workers : nat;
  peers : list Addr;
  sent : list Output
}.

Definition set_store (st : Store.Store T H) (s : Server) : Server :=
  mkServer st (orphans s) (conn s) (tcpConn s) (disposed s) (preSharedKey s)
    (expireAfterSecs s) (messageProcessing s) (workers s) (peers s) (sent s).
Definition set_orphans (l : list (Store.Store T H)) (s : Server) : Server :=
  mkServer (store s) l (conn s) (tcpConn s) (disposed s) (preSharedKey s)
    (expireAfterSecs s) (messageProcessing s) (workers s) (peers s) (sent s).
Definition set_conns (u t : bool) (s : Server) : Server :=
  mkServer (store s) (orphans s) u t (disposed s) (preSharedKey s)
    (expireAfterSecs s) (messageProcessing s) (workers s) (peers s) (sent s).
Definition set_closed (s : Server) : Server :=
  mkServer (store s) (orphans s) (conn s) (tcpConn s) true (preSharedKey s)
    (expireAfterSecs s) false (workers s) (peers s) (sent s).
Definition set_workers (w : nat) (s : Server) : Server :=
  mkServer (store s) (orphans s) (conn s) (tcpConn s) (disposed s) (preSharedKey s)
    (expireAfterSecs s) (messageProcessing s) w (peers s) (sent s).
Definition set_peers (ps : list Addr) (s : Server) : Server :=
  mkServer (store s) (orphans s) (conn s) (tcpConn s) (disposed s) (preSharedKey s)
    (expireAfterSecs s) (messageProcessing s) (workers s) ps (sent s).
Definition set_sent (o : list Output) (s : Server) : Server :=
  mkServer (store s) (orphans s) (conn s) (tcpConn s) (disposed s) (preSharedKey s)
    (expireAfterSecs s) (messageProcessing s) (workers s) (peers s) o.

(** [StoreMetrics] is the [LastMetrics] of the store [NewServer] made. *)
Definition StoreMetrics (s : Server) : Store.Metrics :=
  Store.LastMetrics (List.hd (store s) (orphans s)).

(** ** Construction *)

Definition NewServer (expireAfterSecs : Z) (preSharedKey : bytes) : go Server :=
  if expireAfterSecs <? MinimumExpirySecs then Panic
  else Ret (mkServer (Store.NewStore expireAfterSecs) [] false false false preSharedKey
              expireAfterSecs true 0%nat [] []).

(** The loop over the parts of the peer list. *)
Fixpoint parse_peers (peerParts : list bytes) (selfPeerHostPort : bytes) : go (list Addr) :=
  match peerParts with
  | [] => Ret []
  | peerHostPort :: rest =>
      if bool_decide (peerHostPort = selfPeerHostPort) then parse_peers rest selfPeerHostPort
      else
        let hostPortParts := Split peerHostPort x3a in
        if negb (len hostPortParts =? 2) then Panic
        else
          host ← index hostPortParts 0;
          portText ← index hostPortParts 1;
          match ParseIP host with
          | None => Panic
          | Some ip =>
              match Atoi portText with
              | None => Panic
              | Some port =>
                  ps ← parse_peers rest selfPeerHostPort;
                  Ret (mkAddr (Some ip) port :: ps)
              end
          end
  end.

Definition NewServerWithPeers (expireAfterSecs : Z)
    (preSharedKey selfPeerHostPort peerStringList : bytes) : go Server :=
  s ← NewServer expireAfterSecs preSharedKey;
  if 0 <? len peerStringList then
    ps ← parse_peers (Split peerStringList x2c) selfPeerHostPort;
    Ret (set_peers ps s)
  else Ret (set_peers [] s).

(** [Peers] joins the addresses with commas. *)
Fixpoint Peers_loop (ps : list Addr) (i : nat) (peers : bytes) : bytes :=
  match ps with
  | [] => peers
  | p :: ps' =>
      let peers := if bool_decide (i = 0%nat) then peers else peers ++ [x2c] in
      Peers_loop ps' (S i) (peers ++ Addr_String p)
  end.
Definition Peers (s : Server) : bytes := Peers_loop (peers s) 0 [].

(** ** Sockets *)

(** [Listen], given whether the two sockets can be opened, and the number of
    processors. *)
Definition setupWorkers (numWorkers : nat) (s : Server) : Server :=
  set_workers (workers s + S numWorkers) s.

Definition Listen (udp_ok tcp_ok : bool) (numCPU : nat) (s : Server) : option ServerErr * Server :=
  if conn s then (Some ErrServerAlreadyInit, s)
  else if negb udp_ok then (Some ErrNet, s)
  else
    let s := set_conns true (tcpConn s) s in
    if negb tcp_ok then (Some ErrNet, s)
    else
      let s := set_conns true true s in
      (None, setupWorkers numCPU s).

(** [Close], given whether closing each socket succeeds. [s.conn.Close()]
    takes the address of a part of the connection, which panics when there is
    none; [s.tcpConn.Close()] of no listener returns an error. *)
Definition Close (udp_ok tcp_ok : bool) : G Server (option ServerErr) := λ '(s, n),
  if disposed s then Ret (None, (s, n))
  else if negb (conn s) then Panic
  else
    let udpErr := negb udp_ok in
    let tcpErr := negb (tcpConn s && tcp_ok) in
    let '(_, (st, n)) := Store.DisableCleanup (store s, n) in
    let s := set_closed (set_store st s) in
    Ret (if udpErr then Some ErrNet else if tcpErr then Some ErrNet else None, (s, n)).

(** [Clear] starts a new store with a cleanup loop of its own. *)
Definition Clear : M Server unit :=
  modify (λ s, set_store (Store.NewStore (expireAfterSecs s)) (set_orphans (orphans s ++ [store s]) s)).

(** An operation of the store. *)
Definition on_store {A} (m : M (Store.Store T H) A) : M Server A := λ '(s, n),
  let '(a, (st, n')) := m (store s, n) in (a, (set_store st s, n')).

(** [s.conn.WriteToUDP(b, addr)] and [conn.Write(b)]: whether it succeeded. *)
Definition WriteToUDP (b : bytes) (addr : option Addr) : M Server bool :=
  n ← seed;
  match addr with
  | Some a =>
      if udp_write_ok n then modify (λ s, set_sent (sent s ++ [UDPDatagram b a]) s);; mret true
      else mret false
  | None => mret false
  end.
Definition WriteToTCP (b : bytes) (c : TCPConn) : M Server bool :=
  n ← seed;
  if tcp_write_ok n then modify (λ s, set_sent (sent s ++ [TCPBytes b c]) s);; mret true
  else mret false.

(** ** Responding *)

Definition respondOrLogError (addr : option Addr) (packet : Packet) : G Server unit :=
  r ← liftgo (Bytes packet);
  let '(b, err) := r in
  match err with
  | Some _ => mret tt
  | None => _ ← liftM (WriteToUDP b addr); mret tt
  end.

Definition respondOrLogErrorTCP (packet : Packet) : G Server unit :=
  let packet := set_DataValue (DataValue packet ++ StopSymbol) packet in
  r ← liftgo (Bytes packet);
  let '(b, err) := r in
  if bool_decide (err ≠ None ∧ err ≠ Some ErrBadOutputSize) then mret tt
  else
    match RequestClient packet with
    | Some c => _ ← liftM (WriteToTCP b c); mret tt
    | None => liftgo Panic
    end.

(** [respond()], with the packets it captures. *)
Definition respond (remote : option Addr) (packet resPacket : Packet) : G Server unit :=
  match RequestClient packet with
  | Some c => respondOrLogErrorTCP (set_RequestClient (Some c) resPacket)
  | None => respondOrLogError remote resPacket
  end.

(** [republish] to the peers, in order, up to the first failed write. *)
Fixpoint republish_loop (b : bytes) (ps : list Addr) : M Server unit :=
  match ps with
  | [] => mret tt
  | peer :: ps' =>
      ok ← WriteToUDP b (Some peer);
      if ok : bool then republish_loop b ps' else mret tt
  end.

Definition republish (packet : Packet) : G Server unit :=
  s ← liftM get;
  packet ← liftgo (SetHash (set_Command CmdPutReplicate packet) (preSharedKey s));
  r ← liftgo (Bytes packet);
  let '(b, err) := r in
  match err with
  | Some _ => mret tt
  | None => liftM (republish_loop b (peers s))
  end.

(** ** The worker *)

(** The response to a request: a packet of the given command and data with
    the message id and the namespace of the request. *)
Definition answer (remote : option Addr) (packet : Packet) (cmd : Byte.byte) (data : bytes)
    : G Server unit :=
  s ← liftM get;
  resPacket ← liftgo (NewPacketFromParts cmd (MessageIDBytes packet) (Namespace packet) data
                        (preSharedKey s));
  respond remote packet resPacket.

(** The conversion of a count to [uint32], clamped. *)
Definition count_bytes (countInt : Z) : bytes :=
  let countInt := if MaxUint32 <? countInt then MaxUint32 else countInt in
  Uint32ToBytes (u32 countInt).

(** The switch on the command. *)
Definition dispatch (remote : option Addr) (packet : Packet) : G Server unit :=
  let command := Command packet in
  let ns := NamespaceString packet in
  let key := DataValueString packet in
  if command =b CmdPutReplicate then liftM (on_store (Store.Put ns key))
  else if command =b CmdPut then
    liftM (on_store (Store.Put ns key));;
    answer remote packet CmdPut [];;
    s ← liftM get;
    if bool_decide (peers s ≠ []) then republish packet else mret tt
  else if command =b CmdCount then
    countInt ← liftM (on_store (Store.Count ns key));
    answer remote packet CmdCount (count_bytes countInt)
  else if command =b CmdCountNamespace then
    countInt ← liftM (on_store (Store.CountEntries ns));
    answer remote packet CmdCountNamespace (count_bytes countInt)
  else if command =b CmdCountServer then
    countInt ← liftM (on_store Store.CountServerEntries);
    answer remote packet CmdCountServer (count_bytes countInt)
  else if command =b CmdTCPOnlyKeys then
    matchedKeys ← liftM (on_store (Store.KeyMatch ns key));
    answer remote packet CmdTCPOnlyKeys (Join matchedKeys x0a)
  else if command =b CmdTCPOnlyNamespaces then
    namespaces ← liftM (on_store Store.Namespaces);
    answer remote packet CmdTCPOnlyNamespaces (Join namespaces x0a)
  else answer remote packet ResError (str "unknown_command_" ++ string_of_byte command).

(** One message of [worker]. *)
Definition worker_step (m : RawMessage) : G Server unit :=
  let remote := Remote m in
  r ← liftgo (ParsePacket (Message m));
  match r with
  | (None, _) => liftgo Panic (* the nil packet is dereferenced *)
  | (Some packet, err) =>
      let packet :=
        match MaybeTcpClient m with
        | Some c => set_RequestClient (Some c) packet
        | None => packet
        end in
      match err with
      | Some e => answer remote packet ResError (ProtoErr_Error e)
      | None =>
          s ← liftM get;
          err ← liftgo (Validate packet (preSharedKey s));
          match err with
          | Some e => answer remote packet ResError (ProtoErr_Error e)
          | None => dispatch remote packet
          end
      end
  end.

(** [worker] on the messages of the channel. *)
Fixpoint worker (messages : list RawMessage) : G Server unit :=
  match messages with
  | [] => mret tt
  | m :: rest => worker_step m;; worker rest
  end.

(** What [readUDPFrames] sends to the channel for a datagram: a buffer of
    [PacketSize] zero bytes into which the datagram is read, cut to that
    size. *)
Definition udp_message (datagram : bytes) (remote : Addr) : RawMessage :=
  mkRawMessage (take (Z.to_nat PacketSize)
                  (datagram ++ replicate (Z.to_nat PacketSize - length datagram) x00))
    (Some remote) None.

(** The loop of [handleTCPConnection]: messages until the first error; every
    round but the last takes at least a read from the connection. *)
Fixpoint handleTCPConnection_loop (fuel : nat) (open : bool) (id : TCPConn) (tcpAddr : Addr)
    (reads : list bytes) : go (list RawMessage) :=
  match fuel with
  | O => Ret []
  | S fuel' =>
      r ← ReadOneTcpMessage open id tcpAddr reads;
      match r with
      | (None, _) => Ret []
      | (Some m, reads') =>
          ms ← handleTCPConnection_loop fuel' open id tcpAddr reads';
          Ret (m :: ms)
      end
  end.

Definition handleTCPConnection (open : bool) (id : TCPConn) (tcpAddr : Addr) (reads : list bytes)
    : go (list RawMessage) :=
  handleTCPConnection_loop (S (length reads)) open id tcpAddr reads.
End Server.

Arguments Server T H : clear implicits.

(** * Properties *)

Section ServerFacts.
Context {T : Type → Type} {RB : RedBlackTree T} {RL : RedBlackTreeLaws T}
  {H : Type → Type} {HM : HashMap H} {HL : HashMapLaws H}
  {CK : Clock} {CM : ClockMono} {SW : Stopwatch} {RO : RangeOrder} {ROL : RangeOrderLaws}
  {RE : Regexp} {X : XXHash} {digest : bytes} {XL : XXHashLaws digest} {NW : Network}.
Implicit Types (s : Server T H) (n : nat).

(** ** Writing *)

Definition emit (os : list Output) s : Server T H := set_sent (sent s ++ os) s.

Lemma emit_nil s : emit [] s = s.
Proof. unfold emit. rewrite app_nil_r. by destruct s. Qed.

Lemma emit_app os1 os2 s : emit os2 (emit os1 s) = emit (os1 ++ os2) s.
Proof. unfold emit, set_sent. simpl. by rewrite app_assoc. Qed.

Lemma WriteToUDP_eq b a s n :
  WriteToUDP b (Some a) (s, n)
  = (udp_write_ok n, (emit (if udp_write_ok n then [UDPDatagram b a] else []) s, S n)).
Proof.
  unfold WriteToUDP, mbind, M_bind, seed, modify, mret, M_ret.
  destruct (udp_write_ok n); [done|]. by rewrite emit_nil.
Qed.

Lemma WriteToTCP_eq b c s n :
  WriteToTCP b c (s, n)
  = (tcp_write_ok n, (emit (if tcp_write_ok n then [TCPBytes b c] else []) s, S n)).
Proof.
  unfold WriteToTCP, mbind, M_bind, seed, modify, mret, M_ret.
  destruct (tcp_write_ok n); [done|]. by rewrite emit_nil.
Qed.

(** What answers a request that came from [a] with the datagram [b]. *)
Definition output_to (a : Addr) (p : Packet) (b : bytes) : Output :=
  match RequestClient p with
  | Some c => TCPBytes (b ++ StopSymbol) c
  | None => UDPDatagram b a
  end.
Definition write_ok n (p : Packet) : bool :=
  match RequestClient p with Some _ => tcp_write_ok n | None => udp_write_ok n end.

(** What is sent when the write is event [n]. *)
Definition answered n (a : Addr) (p : Packet) (b : bytes) : list Output :=
  if write_ok n p then [output_to a p b] else [].

(** The response datagram to a request. *)
Definition reply (p : Packet) (cmd : Byte.byte) (data psk : bytes) : bytes :=
  datagram (digest := digest) cmd (MessageIDBytes p) (Namespace p) data psk.

Lemma answer_eq a p cmd data s n :
  wf_packet p →
  (RequestClient p = None → (length data ≤ 1419)%nat ∨ IsTcpOnlyCmd cmd = true) →
  answer (Some a) p cmd data (s, n)
  = Ret (tt, (emit (answered n a p (reply p cmd data (preSharedKey s))) s, S n)).
Proof.
  intros Hwf Hfit. pose proof (wf_id p Hwf) as Hid. pose proof (wf_ns p Hwf) as Hns.
  unfold answer. rewrite G_bind_lift. cbn [get fst snd].
  rewrite (NewPacketFromParts_eq (digest := digest)), G_bind_go by lia.
  unfold respond, answered, write_ok, output_to, reply. destruct (RequestClient p) as [c|].
  - unfold respondOrLogErrorTCP.
    destruct (Bytes_stop (digest_length (digest := digest)) cmd (MessageIDBytes p) (Namespace p) data
                (preSharedKey s) (Some c) Hid) as (e & He & _ & HB).
    cbn zeta in HB |- *. cbn [DataValue set_RequestClient] in HB |- *. rewrite HB, G_bind_go.
    rewrite bool_decide_eq_false_2 by (destruct He as [->| ->]; intros [? ?]; done). cbn [RequestClient set_DataValue set_RequestClient].
    rewrite G_bind_lift, WriteToTCP_eq. done.
  - unfold respondOrLogError. rewrite Bytes_parts, G_bind_go by done. cbn beta iota zeta.
    assert (Hf : ((length (Namespace p) <=? 64) && (length data <=? 1419))%nat || IsTcpOnlyCmd cmd = true).
    { rewrite Hns. destruct (Hfit eq_refl) as [Hle| ->]; [|apply orb_true_r].
      by rewrite (proj2 (Nat.leb_le (length data) 1419) Hle). }
    rewrite Hf, G_bind_lift, WriteToUDP_eq. done.
Qed.

(** ** Replicating *)

(** The peers reached when the first write is event [n]: those before the
    first failed write. *)
Fixpoint reached n (ps : list Addr) : list Addr :=
  match ps with
  | [] => []
  | p :: ps' => if udp_write_ok n then p :: reached (S n) ps' else []
  end.

Lemma republish_loop_eq b ps s n :
  ∃ n', (n ≤ n')%nat ∧
    republish_loop b ps (s, n) = (tt, (emit (UDPDatagram b <$> reached n ps) s, n')).
Proof.
  revert s n. induction ps as [|p ps IH]; intros s n; cbn [republish_loop reached].
  - exists n. split; [done|]. by rewrite emit_nil.
  - unfold mbind, M_bind. rewrite WriteToUDP_eq. destruct (udp_write_ok n).
    + destruct (IH (emit [UDPDatagram b p] s) (S n)) as (n' & Hn & ->).
      exists n'. split; [lia|]. by rewrite emit_app.
    + exists (S n). split; [lia|]. done.
Qed.

(** The replication of a put to the peers. *)
Definition replica (p : Packet) (psk : bytes) : bytes :=
  datagram (digest := digest) CmdPutReplicate (MessageIDBytes p) (Namespace p) (DataValue p) psk.

Lemma replica_eq p psk :
  wf_packet p →
  ∃ q, SetHash (set_Command CmdPutReplicate p) psk = Ret q ∧ Bytes q = Ret (replica p psk, None).
Proof.
  intros [Hh Hid Hns Hdv _ _]. eexists. split; [apply (SetHash_eq (digest := digest))|].
  rewrite Bytes_eq.
  2: { cbn [HashBytes set_Hash]. apply (HashPacket_long (digest := digest)). }
  2: { simpl. lia. }
  cbn [Command HashBytes MessageIDBytes Namespace DataValue set_Hash set_Command].
  rewrite (HashPacket_eq (digest := digest)).
  cbn [Command HashBytes MessageIDBytes Namespace DataValue set_Hash set_Command].
  rewrite Hns, Hdv. cbn [Nat.leb andb orb].
  unfold replica, datagram, sig. rewrite (take_ge (MessageIDBytes p)) by lia.
  by rewrite !(pad_full 64), !(pad_full 1419) by lia.
Qed.

Lemma republish_eq p s n :
  wf_packet p →
  ∃ n', (n ≤ n')%nat ∧
    republish p (s, n)
    = Ret (tt, (emit (UDPDatagram (replica p (preSharedKey s)) <$> reached n (peers s)) s, n')).
Proof.
  intros Hwf. destruct (replica_eq p (preSharedKey s) Hwf) as (q & Eq & Eb).
  destruct (republish_loop_eq (replica p (preSharedKey s)) (peers s) s n) as (n' & Hn & E).
  exists n'. split; [done|]. unfold republish. rewrite G_bind_lift. cbn [get fst snd].
  rewrite Eq, G_bind_go, Eb, G_bind_go. unfold liftM. by rewrite <- E.
Qed.

(** ** Receiving *)

(** The packet of a message and why it is refused, if it is. *)
Definition received (psk buf : bytes) : option (Packet * option ProtoErr) :=
  match ParsePacket buf with
  | Ret (Some p, Some e) => Some (p, Some e)
  | Ret (Some p, None) =>
      match Validate p psk with Ret e => Some (p, e) | Panic => None end
  | _ => None
  end.

(** A message as long as both transports deliver it. *)
Definition deliverable (m : RawMessage) : Prop := 82 <= len (Message m) ∧ is_Some (Remote m).

Lemma received_long psk buf :
  82 <= len buf → ∃ p e, received psk buf = Some (p, e) ∧ wf_packet p ∧ RequestClient p = None.
Proof.
  intros Hlen.
  destruct (frame_exists buf Hlen) as (c & s1 & h & s2 & id & s3 & ns & s4 & rest & -> & Hh & Hi & Hn & Hr).
  unfold received. rewrite ParsePacket_frame by done.
  destruct (parse_error _ _ _ _ _ _) as [e|].
  - eexists _, _. split; [done|]. split; [by apply frame_packet_wf | done].
  - rewrite (Validate_eq (digest := digest)). eexists _, _.
    split; [done|]. split; [by apply frame_packet_wf | done].
Qed.

Definition of_client (m : RawMessage) (p : Packet) : Packet :=
  match MaybeTcpClient m with Some c => set_RequestClient (Some c) p | None => p end.

Lemma of_client_wf m p : wf_packet p → wf_packet (of_client m p).
Proof. unfold of_client. destruct (MaybeTcpClient m); [|done]. by intros []. Qed.

Lemma worker_step_eq m s n p e :
  received (preSharedKey s) (Message m) = Some (p, e) →
  worker_step m (s, n)
  = match e with
    | Some e => answer (Remote m) (of_client m p) ResError (ProtoErr_Error e) (s, n)
    | None => dispatch (Remote m) (of_client m p) (s, n)
    end.
Proof.
  unfold received, worker_step.
  destruct (ParsePacket (Message m)) as [[[q|] [e'|]]|]; try done.
  - by intros [= <- <-].
  - destruct (Validate q (preSharedKey s)) as [e'|] eqn:HV; [|done]. intros [= <- <-].
    rewrite G_bind_go, G_bind_lift. cbn [get fst snd].
    assert (HV' : Validate (of_client m q) (preSharedKey s) = Ret e').
    { rewrite <- HV. unfold of_client. by destruct (MaybeTcpClient m). }
    unfold of_client in HV' |- *. rewrite HV', G_bind_go. by destruct e'.
Qed.

(** ** The effect on the store *)

(** The puts of an accepted packet. *)
Definition packet_puts (p : Packet) : list (bytes * bytes) :=
  if (Command p =b CmdPutReplicate) || (Command p =b CmdPut)
  then [(NamespaceString p, DataValueString p)] else [].

(** The puts of a message for a server with the key [psk]. *)
Definition message_puts (psk : bytes) (m : RawMessage) : list (bytes * bytes) :=
  match received psk (Message m) with
  | Some (p, None) => packet_puts p
  | _ => []
  end.

(** The puts that are accepted of a sequence of messages. *)
Fixpoint accepted_puts (psk : bytes) (ms : list RawMessage) : list (bytes * bytes) :=
  match ms with
  | [] => []
  | m :: ms' => message_puts psk m ++ accepted_puts psk ms'
  end.

(** What no message changes. *)
Definition same_server s s' : Prop :=
  preSharedKey s' = preSharedKey s ∧ peers s' = peers s ∧
  orphans s' = orphans s ∧
  Store.expireAfterSecs (store s') = Store.expireAfterSecs (store s).

(** The store represents the log of the puts of [ks] after [log]. *)
Definition put_spec n n' log s s' (ks : list (bytes * bytes)) : Prop :=
  (n ≤ n')%nat ∧ same_server s s' ∧
  ∃ times, length times = length ks ∧ Forall (Tree.read_between n n') times ∧
    Store.store_rep n' (log ++ Store.put_log (Store.expireAfterSecs (store s)) ks times) (store s').

Lemma put_spec_nil n n' log s s' :
  (n ≤ n')%nat → same_server s s' → Store.store_rep n' log (store s') →
  put_spec n n' log s s' [].
Proof. intros Hn Hs Hr. split; [done|]. split; [done|]. exists []. by rewrite app_nil_r. Qed.

Lemma answer_rep a p cmd data log s n :
  wf_packet p →
  (RequestClient p = None → (length data ≤ 1419)%nat ∨ IsTcpOnlyCmd cmd = true) →
  Store.store_rep n log (store s) →
  ∃ s', answer (Some a) p cmd data (s, n) = Ret (tt, (s', S n)) ∧
    store s' = store s ∧ put_spec n (S n) log s s' [].
Proof.
  intros Hwf Hfit Hr. rewrite answer_eq by done. eexists. split; [reflexivity|].
  split; [done|]. apply put_spec_nil; [lia|done|]. by apply (Store.store_rep_mono n); [lia|].
Qed.

(** A query of the store, answered. *)
Lemma query_rep {A} (op : M (Store.Store T H) A) (data : A → bytes) a p cmd log s n :
  wf_packet p →
  (∀ r, RequestClient p = None → (length (data r) ≤ 1419)%nat ∨ IsTcpOnlyCmd cmd = true) →
  Store.store_rep n log (store s) →
  (∀ r st n', op (store s, n) = (r, (st, n')) →
    (n ≤ n')%nat ∧ Store.store_rep n' log st ∧
    Store.expireAfterSecs st = Store.expireAfterSecs (store s)) →
  ∃ r st n', op (store s, n) = (r, (st, n')) ∧
    (r ← liftM (on_store op); answer (Some a) p cmd (data r)) (s, n)
    = Ret (tt, (emit (answered n' a p (reply p cmd (data r) (preSharedKey s))) (set_store st s), S n')) ∧
    put_spec n (S n') log s
      (emit (answered n' a p (reply p cmd (data r) (preSharedKey s))) (set_store st s)) [].
Proof.
  intros Hwf Hfit Hr Hop. rewrite G_bind_lift. unfold on_store.
  destruct (op (store s, n)) as [r [st n1]] eqn:E.
  destruct (Hop r st n1 eq_refl) as (Hn & Hr1 & He). exists r, st, n1. split; [done|].
  cbn [fst snd]. rewrite answer_eq by auto. split; [done|].
  apply put_spec_nil; [lia|done|]. apply (Store.store_rep_mono n1); [lia | done].
Qed.

Lemma count_bytes_length c : length (count_bytes c) = 4%nat.
Proof. apply Uint32ToBytes_length. Qed.

Lemma on_store_Put_rep log s n ns key :
  Store.store_rep n log (store s) →
  ∃ st n', on_store (Store.Put ns key) (s, n) = (tt, (set_store st s, n')) ∧
    put_spec n n' log s (set_store st s) [(ns, key)].
Proof.
  intros Hr. unfold on_store. destruct (Store.Put ns key (store s, n)) as [[] [st n']] eqn:E.
  exists st, n'. split; [done|].
  destruct (Store.Put_rep _ _ _ _ _ _ _ _ Hr E) as (Hn & [He _] & m & Hm & Hr').
  split; [done|]. split; [done|]. exists [clock m]. split; [done|].
  split; [|done]. constructor; [by exists m | constructor].
Qed.

(** The effect of an accepted put: the store, the acknowledgement, then the
    replications. *)
Lemma dispatch_Put a p log s n :
  wf_packet p → Command p = CmdPut → Store.store_rep n log (store s) →
  ∃ st n1 n',
    put_spec n n1 log s (set_store st s) [(NamespaceString p, DataValueString p)] ∧ (n1 ≤ n')%nat ∧
    dispatch (Some a) p (s, n)
    = Ret (tt, (emit (answered n1 a p (reply p CmdPut [] (preSharedKey s))
                      ++ (UDPDatagram (replica p (preSharedKey s)) <$> reached (S n1) (peers s)))
                  (set_store st s), n')).
Proof.
  intros Hwf Hc Hr. unfold dispatch. rewrite Hc. cbn beta iota zeta delta [Byte.eqb].
  change (CmdPut =b CmdPutReplicate) with false. change (CmdPut =b CmdPut) with true. cbn iota.
  destruct (on_store_Put_rep log s n (NamespaceString p) (DataValueString p) Hr)
    as (st & n1 & E & Hput).
  rewrite G_bind_lift, E. cbn [fst snd].
  erewrite G_bind_eq by (apply answer_eq; [done | intros _; left; simpl; lia]).
  rewrite G_bind_lift. cbn [get fst snd].
  change (preSharedKey (set_store st s)) with (preSharedKey s).
  change (peers (emit _ (set_store st s))) with (peers s).
  exists st, n1. destruct (bool_decide (peers s ≠ [])) eqn:Hp.
  - destruct (republish_eq p (emit (answered n1 a p (reply p CmdPut [] (preSharedKey s))) (set_store st s))
      (S n1) Hwf) as (n' & Hn & ER).
    exists n'. split; [done|]. split; [lia|]. by rewrite ER, emit_app.
  - apply bool_decide_eq_false, dec_stable in Hp. exists (S n1). split; [done|]. split; [lia|].
    rewrite Hp. cbn [reached fmap list_fmap]. by rewrite app_nil_r.
Qed.

Lemma put_spec_emit n n1 n' log s s' ks os :
  put_spec n n1 log s s' ks → (n1 ≤ n')%nat → put_spec n n' log s (emit os s') ks.
Proof.
  intros (Hn & Hs & times & Hl & Hts & Hr) Hn'. split; [lia|]. split; [done|].
  exists times. split; [done|]. split.
  - eapply Forall_impl; [exact Hts|]. intros time. apply Tree.read_between_weaken; lia.
  - by apply (Store.store_rep_mono n1).
Qed.

(** The queries keep the specification. *)
Lemma Count_query log st n ns k r st' n' :
  Store.store_rep n log st → Store.Count ns k (st, n) = (r, (st', n')) →
  (n ≤ n')%nat ∧ Store.store_rep n' log st' ∧
  Store.expireAfterSecs st' = Store.expireAfterSecs st.
Proof. intros Hr E. by destruct (Store.Count_rep _ _ _ _ _ _ _ _ Hr E) as (? & [? _] & ? & _). Qed.

Lemma CountEntries_query log st n ns r st' n' :
  Store.store_rep n log st → Store.CountEntries ns (st, n) = (r, (st', n')) →
  (n ≤ n')%nat ∧ Store.store_rep n' log st' ∧
  Store.expireAfterSecs st' = Store.expireAfterSecs st.
Proof. intros Hr E. by destruct (Store.CountEntries_rep _ _ _ _ _ _ _ Hr E) as (? & ? & [? _] & _). Qed.

Lemma CountServerEntries_query log st n r st' n' :
  Store.store_rep n log st → Store.CountServerEntries (st, n) = (r, (st', n')) →
  (n ≤ n')%nat ∧ Store.store_rep n' log st' ∧
  Store.expireAfterSecs st' = Store.expireAfterSecs st.
Proof. intros Hr E. by destruct (Store.CountServerEntries_rep _ _ _ _ _ _ Hr E) as (? & ? & [? _] & _). Qed.

Lemma KeyMatch_query log st n ns pat r st' n' :
  Store.store_rep n log st → Store.KeyMatch ns pat (st, n) = (r, (st', n')) →
  (n ≤ n')%nat ∧ Store.store_rep n' log st' ∧
  Store.expireAfterSecs st' = Store.expireAfterSecs st.
Proof. intros Hr E. by destruct (Store.KeyMatch_rep _ _ _ _ _ _ _ _ Hr E) as (? & ? & [? _] & _). Qed.

Lemma Namespaces_query log st n r st' n' :
  Store.store_rep n log st → Store.Namespaces (st, n) = (r, (st', n')) →
  (n ≤ n')%nat ∧ Store.store_rep n' log st' ∧
  Store.expireAfterSecs st' = Store.expireAfterSecs st.
Proof.
  intros Hr E. unfold Store.Namespaces, mbind, M_bind, mret, M_ret in E.
  destruct (Store.runCleanup (st, n)) as [c [s1 n1]] eqn:E1. injection E as <- <- <-.
  by destruct (Store.runCleanup_rep _ _ _ _ _ _ Hr E1) as (? & ? & [? _] & _).
Qed.

(** Every accepted packet is handled without a panic, and only a put or a
    replication changes what the store represents. *)
Lemma dispatch_rep a p log s n :
  wf_packet p → Store.store_rep n log (store s) →
  ∃ s' n', dispatch (Some a) p (s, n) = Ret (tt, (s', n')) ∧
    put_spec n n' log s s' (packet_puts p).
Proof.
  intros Hwf Hr. unfold packet_puts.
  assert (H4 : ∀ c, RequestClient p = None → (length (count_bytes c) ≤ 1419)%nat ∨ False).
  { intros c _. left. rewrite count_bytes_length. lia. }
  destruct (Command p =b CmdPutReplicate) eqn:E1; [cbn [orb]|].
  { unfold dispatch. rewrite E1. cbn iota. unfold liftM.
    destruct (on_store_Put_rep log s n (NamespaceString p) (DataValueString p) Hr) as (st & n' & -> & Hp).
    by exists (set_store st s), n'. }
  destruct (Command p =b CmdPut) eqn:E2; [cbn [orb]|].
  { apply byte_eqb_eq in E2. destruct (dispatch_Put a p log s n Hwf E2 Hr) as (st & n1 & n' & Hp & Hn & ->).
    eexists _, n'. split; [reflexivity|]. by apply (put_spec_emit n n1). }
  unfold dispatch. rewrite E1, E2. cbn iota. cbn [orb].
  destruct (Command p =b CmdCount).
  { edestruct (query_rep (Store.Count (NamespaceString p) (DataValueString p)) count_bytes a p CmdCount)
      as (r & st & n' & _ & -> & Hp); [done| |exact Hr| |by eauto].
    - intros c Hc. destruct (H4 c Hc); auto.
    - intros r st n' E. by eapply Count_query. }
  destruct (Command p =b CmdCountNamespace).
  { edestruct (query_rep (Store.CountEntries (NamespaceString p)) count_bytes a p CmdCountNamespace)
      as (r & st & n' & _ & -> & Hp); [done| |exact Hr| |by eauto].
    - intros c Hc. destruct (H4 c Hc); auto.
    - intros r st n' E. by eapply CountEntries_query. }
  destruct (Command p =b CmdCountServer).
  { edestruct (query_rep Store.CountServerEntries count_bytes a p CmdCountServer)
      as (r & st & n' & _ & -> & Hp); [done| |exact Hr| |by eauto].
    - intros c Hc. destruct (H4 c Hc); auto.
    - intros r st n' E. by eapply CountServerEntries_query. }
  destruct (Command p =b CmdTCPOnlyKeys).
  { edestruct (query_rep (Store.KeyMatch (NamespaceString p) (DataValueString p)) (λ ks, Join ks x0a)
      a p CmdTCPOnlyKeys) as (r & st & n' & _ & -> & Hp); [done|by right|exact Hr| |by eauto].
    intros r st n' E. by eapply KeyMatch_query. }
  destruct (Command p =b CmdTCPOnlyNamespaces).
  { edestruct (query_rep Store.Namespaces (λ ks, Join ks x0a) a p CmdTCPOnlyNamespaces)
      as (r & st & n' & _ & -> & Hp); [done|by right|exact Hr| |by eauto].
    intros r st n' E. by eapply Namespaces_query. }
  destruct (answer_rep a p ResError (str "unknown_command_" ++ string_of_byte (Command p)) log s n Hwf)
    as (s' & -> & _ & Hp); [|exact Hr|by eauto].
  intros _. left. unfold string_of_byte. destruct (_ <? 128); simpl; lia.
Qed.

Lemma worker_step_rep m log s n :
  deliverable m → Store.store_rep n log (store s) →
  ∃ s' n', worker_step m (s, n) = Ret (tt, (s', n')) ∧
    put_spec n n' log s s' (message_puts (preSharedKey s) m).
Proof.
  intros [Hlen [a Ha]] Hr.
  destruct (received_long (preSharedKey s) (Message m) Hlen) as (p & e & E & Hwf & _).
  rewrite (worker_step_eq m s n p e E). unfold message_puts. rewrite E, Ha.
  pose proof (of_client_wf m p Hwf) as Hwf'. destruct e as [e|].
  - destruct (answer_rep a (of_client m p) ResError (ProtoErr_Error e) log s n Hwf')
      as (s' & -> & _ & Hp); [|exact Hr|by eauto].
    intros _. left. pose proof (ProtoErr_length e). lia.
  - destruct (dispatch_rep a (of_client m p) log s n Hwf' Hr) as (s' & n' & -> & Hp).
    exists s', n'. split; [done|]. unfold of_client in Hp. by destruct (MaybeTcpClient m).
Qed.

(** The span of each accepted put, as the worker runs from [σ]: the numbers
    of the events before and after the handling of its message. *)
Definition message_spans (psk : bytes) (m : RawMessage) (n n' : nat) : list (nat * nat) :=
  (λ _, (n, n')) <$> message_puts psk m.

Fixpoint put_spans (ms : list RawMessage) (σ : Server T H * nat) : list (nat * nat) :=
  match ms with
  | [] => []
  | m :: ms' =>
      match worker_step m σ with
      | Ret (_, σ') => message_spans (preSharedKey σ.1) m σ.2 σ'.2 ++ put_spans ms' σ'
      | Panic => []
      end
  end.

(** The store represents the log of the puts of [ks] after [log], each with
    its time within its own span. *)
Definition timed_spec n n' log s s' (ks : list (bytes * bytes)) (spans : list (nat * nat)) : Prop :=
  (n ≤ n')%nat ∧ same_server s s' ∧
  ∃ times, length times = length ks ∧ Forall2 Tree.during spans times ∧
    Forall (Tree.read_between n n') times ∧
    Store.store_rep n' (log ++ Store.put_log (Store.expireAfterSecs (store s)) ks times) (store s').

Lemma put_spec_timed n n' log s s' (ks : list (bytes * bytes)) :
  put_spec n n' log s s' ks → timed_spec n n' log s s' ks ((λ _, (n, n')) <$> ks).
Proof.
  intros (Hn & Hs & times & Hl & Hts & Hr). split; [done|]. split; [done|].
  exists times. split; [done|]. split; [|done]. clear Hr. revert times Hl Hts.
  induction ks as [|k ks IH]; intros [|t times] Hl Hts; try done.
  inversion Hts; subst. constructor; [done|]. by apply IH; [injection Hl|].
Qed.

Lemma timed_spec_app n n1 n' log s s1 s' ks1 ks2 sp1 sp2 :
  timed_spec n n1 log s s1 ks1 sp1 →
  (∀ log, Store.store_rep n1 log (store s1) → timed_spec n1 n' log s1 s' ks2 sp2) →
  timed_spec n n' log s s' (ks1 ++ ks2) (sp1 ++ sp2).
Proof.
  intros (Hn1 & (? & ? & ? & He1) & ts1 & Hl1 & Hd1 & Hts1 & Hr1) Hk.
  destruct (Hk _ Hr1) as (Hn2 & (? & ? & ? & He2) & ts2 & Hl2 & Hd2 & Hts2 & Hr2).
  split; [lia|]. split; [split; [congruence|]; split; [congruence|]; split; congruence|].
  exists (ts1 ++ ts2). rewrite !length_app. split; [lia|]. split; [by apply Forall2_app|]. split.
  - apply Forall_app. split; (eapply Forall_impl; [eassumption|]); intros time;
      apply Tree.read_between_weaken; lia.
  - unfold Store.put_log in *. rewrite zip_with_app by done. rewrite He1 in Hr2.
    by rewrite app_assoc.
Qed.

(** The worker refines the log: any messages are processed without a panic,
    and the store represents the accepted puts and replications. *)
Lemma worker_rep ms log s n :
  Forall deliverable ms → Store.store_rep n log (store s) →
  ∃ s' n', worker ms (s, n) = Ret (tt, (s', n')) ∧
    timed_spec n n' log s s' (accepted_puts (preSharedKey s) ms) (put_spans ms (s, n)).
Proof.
  intros Hms. revert log s n. induction Hms as [|m ms Hm _ IH]; intros log s n Hr.
  - exists s, n. split; [done|]. apply (put_spec_timed _ _ _ _ _ []). by apply put_spec_nil.
  - destruct (worker_step_rep m log s n Hm Hr) as (s1 & n1 & E1 & Hp1).
    cbn [worker put_spans]. rewrite (G_bind_eq _ _ _ _ _ E1), E1. cbn [fst snd].
    pose proof Hp1 as (Hn1 & (Hk & _) & ts & _ & _ & Hr1).
    destruct (IH _ _ _ Hr1) as (s' & n' & E' & _).
    exists s', n'. split; [done|]. cbn [accepted_puts].
    eapply timed_spec_app; [by apply put_spec_timed|]. intros log' Hr'.
    destruct (IH _ _ _ Hr') as (s'' & n'' & E'' & Hp'').
    rewrite E'' in E'. injection E' as <- <-. by rewrite <- Hk.
Qed.

(** ** Datagrams *)

Lemma udp_message_datagram cmd id ns dv psk a :
  length id = 4%nat → (length ns ≤ 64)%nat → (length dv ≤ 1419)%nat →
  Message (udp_message (datagram (digest := digest) cmd id ns dv psk) a)
  = datagram (digest := digest) cmd id ns dv psk.
Proof.
  intros Hid Hns Hdv. pose proof (datagram_length (digest := digest) cmd id ns dv psk Hid Hns Hdv) as Hl.
  unfold udp_message. cbn [Message]. unfold len in Hl.
  replace (Z.to_nat PacketSize) with (length (datagram (digest := digest) cmd id ns dv psk)) by lia.
  rewrite Nat.sub_diag. by rewrite take_app_length.
Qed.

Lemma udp_message_deliverable b a : deliverable (udp_message b a).
Proof.
  split; [|done]. unfold udp_message, len. cbn [Message].
  rewrite length_take, length_app, length_replicate. unfold PacketSize. lia.
Qed.

Lemma tcp_message_deliverable open id tcpAddr reads m reads' :
  ReadOneTcpMessage open id tcpAddr reads = Ret (Some m, reads') → deliverable m.
Proof.
  intros E. apply ReadOneTcpMessage_sent in E as (Hl & Hr & _). unfold PacketSize in Hl.
  split; [lia|]. by rewrite Hr.
Qed.

(** A datagram under the key of the server is accepted. *)
Lemma received_datagram cmd id ns dv psk :
  length id = 4%nat → (length ns ≤ 64)%nat → (length dv ≤ 1419)%nat → commandIsValid cmd = true →
  received psk (datagram (digest := digest) cmd id ns dv psk)
  = Some (parsed_packet (digest := digest) cmd id ns dv psk, None).
Proof.
  intros. unfold received. by rewrite ParsePacket_datagram, Validate_parsed.
Qed.

Lemma parsed_packet_wf cmd id ns dv psk :
  length id = 4%nat → (length ns ≤ 64)%nat → (length dv ≤ 1419)%nat →
  wf_packet (parsed_packet (digest := digest) cmd id ns dv psk).
Proof.
  intros. split; simpl; try done; rewrite ?pad_length; try lia. apply sig_length.
Qed.

Lemma answered_udp n a p b :
  RequestClient p = None → answered n a p b = if udp_write_ok n then [UDPDatagram b a] else [].
Proof. intros Hp. unfold answered, write_ok, output_to. by rewrite Hp. Qed.

Lemma count_bytes_eq c : 0 <= c → count_bytes c = Uint32ToBytes (Z.min c MaxUint32).
Proof.
  intros Hc. unfold count_bytes. f_equal. unfold MaxUint32.
  destruct (Z.ltb_spec (2 ^ 32 - 1) c); rewrite u32_small; lia.
Qed.

(** Responses to a padded namespace. *)
Lemma reply_parsed cmd id ns dv psk cmd' data psk' :
  reply (parsed_packet (digest := digest) cmd id ns dv psk) cmd' data psk'
  = datagram (digest := digest) cmd' id ns data psk'.
Proof. unfold reply, datagram. cbn [MessageIDBytes Namespace parsed_packet]. by rewrite !pad_idemp. Qed.

Lemma replica_parsed cmd id ns dv psk psk' :
  replica (parsed_packet (digest := digest) cmd id ns dv psk) psk'
  = datagram (digest := digest) CmdPutReplicate id ns dv psk'.
Proof.
  unfold replica, datagram. cbn [MessageIDBytes Namespace DataValue parsed_packet].
  by rewrite !pad_idemp.
Qed.

(** A datagram under the key of the server reaches the switch. *)
Lemma worker_step_datagram cmd id ns dv s n a :
  length id = 4%nat → (length ns ≤ 64)%nat → (length dv ≤ 1419)%nat → commandIsValid cmd = true →
  worker_step (udp_message (datagram (digest := digest) cmd id ns dv (preSharedKey s)) a) (s, n)
  = dispatch (Some a) (parsed_packet (digest := digest) cmd id ns dv (preSharedKey s)) (s, n).
Proof.
  intros.
  rewrite (worker_step_eq _ s n (parsed_packet (digest := digest) cmd id ns dv (preSharedKey s)) None);
    [done|].
  rewrite udp_message_datagram by done. by apply received_datagram.
Qed.

Lemma parsed_names cmd id ns dv psk :
  NamespaceString (parsed_packet (digest := digest) cmd id ns dv psk) = TrimSpace ns ∧
  DataValueString (parsed_packet (digest := digest) cmd id ns dv psk) = TrimSpace dv.
Proof.
  unfold NamespaceString, DataValueString. cbn [Namespace DataValue parsed_packet].
  by rewrite !TrimSpace_padded.
Qed.

Lemma worker_step_count log s n a id ns key :
  length id = 4%nat → (length ns ≤ 64)%nat → (length key ≤ 1419)%nat →
  Store.store_rep n log (store s) →
  let psk := preSharedKey s in
  let c := Tree.count_key (Store.nslog log (TrimSpace ns)) (TrimSpace key) (clock n) in
  ∃ st n', (n ≤ n')%nat ∧ Store.store_rep n' log st ∧
    worker_step (udp_message (datagram (digest := digest) CmdCount id ns key psk) a) (s, n)
    = Ret (tt, (emit (if udp_write_ok n'
                      then [UDPDatagram (datagram (digest := digest) CmdCount id ns
                                           (Uint32ToBytes (Z.min c MaxUint32)) psk) a]
                      else []) (set_store st s), S n')).
Proof.
  intros Hid Hns Hkey Hr psk c. unfold psk. rewrite worker_step_datagram by done.
  destruct (parsed_names CmdCount id ns key (preSharedKey s)) as [HN HD].
  unfold dispatch. rewrite HN, HD. cbn [Command parsed_packet].
  change (CmdCount =b CmdPutReplicate) with false. change (CmdCount =b CmdPut) with false.
  change (CmdCount =b CmdCount) with true. cbn iota. rewrite G_bind_lift. unfold on_store.
  destruct (Store.Count (TrimSpace ns) (TrimSpace key) (store s, n)) as [c' [st n']] eqn:HC.
  destruct (Store.Count_rep _ _ _ _ _ _ _ _ Hr HC) as (Hn & _ & Hr' & Hc). fold c in Hc. subst c'.
  exists st, n'. split; [done|]. split; [done|]. cbn [fst snd]. rewrite answer_eq.
  2: by apply parsed_packet_wf.
  2: { intros _. left. rewrite count_bytes_length. lia. }
  rewrite answered_udp, reply_parsed, count_bytes_eq by (done || apply Tree.count_key_nonneg). done.
Qed.

(** A request for keys over TCP. *)
Lemma worker_step_keys s n a conn id ns pat keys st n' :
  length id = 4%nat → (length ns ≤ 64)%nat → (length pat ≤ 1419)%nat →
  Store.KeyMatch (TrimSpace ns) (TrimSpace pat) (store s, n) = (keys, (st, n')) →
  let psk := preSharedKey s in
  worker_step (mkRawMessage (datagram (digest := digest) CmdTCPOnlyKeys id ns pat psk) (Some a) (Some conn)) (s, n)
  = Ret (tt, (emit (if tcp_write_ok n'
                    then [TCPBytes (datagram (digest := digest) CmdTCPOnlyKeys id ns (Join keys x0a) psk
                                    ++ StopSymbol) conn]
                    else []) (set_store st s), S n')).
Proof.
  intros Hid Hns Hpat HK psk. unfold psk. destruct (parsed_names CmdTCPOnlyKeys id ns pat (preSharedKey s)) as [HN HD].
  rewrite (worker_step_eq _ s n (parsed_packet (digest := digest) CmdTCPOnlyKeys id ns pat (preSharedKey s)) None)
    by (by apply received_datagram).
  cbn [Remote]. unfold of_client. cbn [MaybeTcpClient].
  set (p := set_RequestClient (Some conn) _).
  assert (HNp : NamespaceString p = TrimSpace ns) by exact HN.
  assert (HDp : DataValueString p = TrimSpace pat) by exact HD.
  unfold dispatch. rewrite HNp, HDp. change (Command p) with CmdTCPOnlyKeys.
  change (CmdTCPOnlyKeys =b CmdPutReplicate) with false. change (CmdTCPOnlyKeys =b CmdPut) with false.
  change (CmdTCPOnlyKeys =b CmdCount) with false. change (CmdTCPOnlyKeys =b CmdCountNamespace) with false.
  change (CmdTCPOnlyKeys =b CmdCountServer) with false. change (CmdTCPOnlyKeys =b CmdTCPOnlyKeys) with true.
  cbn iota. rewrite G_bind_lift. unfold on_store. rewrite HK. cbn [fst snd]. rewrite answer_eq.
  - unfold answered, write_ok, output_to, reply, p. cbn [RequestClient set_RequestClient MessageIDBytes Namespace parsed_packet].
    change (preSharedKey (set_store st s)) with (preSharedKey s).
    unfold datagram. by rewrite !pad_idemp.
  - pose proof (parsed_packet_wf CmdTCPOnlyKeys id ns pat (preSharedKey s) Hid Hns Hpat) as [].
    by split.
  - done.
Qed.

Lemma NewServerWithPeers_state ttl psk self peerList s :
  NewServerWithPeers (RB := RB) (HM := HM) ttl psk self peerList = Ret s →
  store s = Store.NewStore ttl ∧ preSharedKey s = psk ∧ sent s = [] ∧ orphans s = [].
Proof.
  unfold NewServerWithPeers, NewServer. destruct (ttl <? MinimumExpirySecs); cbn [mbind go_bind]; [done|].
  destruct (0 <? len peerList); [|by intros [= <-]].
  destruct (parse_peers (Split peerList x2c) self) as [ps|]; cbn [mbind go_bind]; [|done].
  by intros [= <-].
Qed.

(** ** Connections *)

Lemma handleTCPConnection_fuel f1 f2 open id a reads :
  (length reads < f1)%nat → (length reads < f2)%nat →
  handleTCPConnection_loop f1 open id a reads = handleTCPConnection_loop f2 open id a reads.
Proof.
  revert f2 reads. induction f1 as [|f1 IH]; intros [|f2] reads H1 H2; try lia.
  cbn [handleTCPConnection_loop].
  destruct (ReadOneTcpMessage open id a reads) as [[[m|] reads']|] eqn:E; [|done|done].
  apply ReadOneTcpMessage_shorter in E. cbn [mbind go_bind]. by rewrite (IH f2) by lia.
Qed.

(** The loop without fuel. *)
Lemma handleTCPConnection_step open id a reads :
  handleTCPConnection open id a reads
  = (r ← ReadOneTcpMessage open id a reads;
     match r with
     | (None, _) => Ret []
     | (Some m, reads') => ms ← handleTCPConnection open id a reads'; Ret (m :: ms)
     end).
Proof.
  unfold handleTCPConnection at 1. cbn [handleTCPConnection_loop].
  destruct (ReadOneTcpMessage open id a reads) as [[[m|] reads']|] eqn:E; [|done|done].
  apply ReadOneTcpMessage_shorter in E. cbn [mbind go_bind]. unfold handleTCPConnection.
  by rewrite (handleTCPConnection_fuel _ (S (length reads'))) by lia.
Qed.

(** One message after another: [d] arrives in reads of its own. *)
Definition arrives (d : bytes) (chunks : list bytes) : Prop :=
  (∃ c w, d = c :: w ∧ commandIsValid c = true) ∧
  cut_stop (d ++ StopSymbol) = Some (d, []) ∧ concat chunks = d ++ StopSymbol.

(** * Theorems *)

(** C2. The server counts what it accepted: start a server, let its worker
    process any messages from either transport (valid or not), and send it a
    count request. The worker does not panic, and the response carries the
    number of accepted puts and replications of that namespace and key that
    are live, at most [2^32-1]: each put has its time, a reading of the clock
    while its own message was handled, and is counted as long as the clock
    has not reached this time plus the time to live. *)
Theorem worker_counts_accepted_puts ttl `{!ClockFits ttl} psk self peerList s0 n0 ms a id ns key :
  NewServerWithPeers ttl psk self peerList = Ret s0 → Forall deliverable ms →
  length id = 4%nat → (length ns ≤ 64)%nat → (length key ≤ 1419)%nat →
  ∃ s n times c s' n',
    worker ms (s0, n0) = Ret (tt, (s, n)) ∧
    length times = length (accepted_puts psk ms) ∧
    Forall2 Tree.during (put_spans ms (s0, n0)) times ∧
    c = len (filter (λ p, p.1 = (TrimSpace ns, TrimSpace key) ∧ clock n < p.2 + ttl)
               (zip (accepted_puts psk ms) times)) ∧
    worker_step (udp_message (datagram (digest := digest) CmdCount id ns key psk) a) (s, n)
      = Ret (tt, (s', S n')) ∧
    sent s' = sent s ++
      (if udp_write_ok n'
       then [UDPDatagram (datagram (digest := digest) CmdCount id ns
                            (Uint32ToBytes (Z.min c MaxUint32)) psk) a]
       else []).
Proof.
  intros Hnew Hms Hid Hns Hkey.
  destruct (NewServerWithPeers_state _ _ _ _ _ Hnew) as (Hst & Hpsk & _).
  destruct (worker_rep ms [] s0 n0 Hms) as (s & n & Hrun & Hn & (Hpsk' & _) & times & Hl & Hts & _ & Hr).
  { rewrite Hst. apply Store.store_rep_New. }
  rewrite Hpsk in *. rewrite Hst in Hr. cbn [app Store.expireAfterSecs Store.NewStore] in Hr.
  destruct (worker_step_count _ s n a id ns key Hid Hns Hkey Hr) as (st & n' & _ & _ & Hstep).
  cbn zeta in Hstep. rewrite Hpsk' in Hstep.
  eexists s, n, times, _, _, n'. split; [done|]. split; [done|]. split; [done|].
  split; [|split; [exact Hstep | reflexivity]].
  apply Store.count_put_log; [done|]. by eapply Tree.during_fits.
Qed.

(** C6. No message from either transport makes the worker panic, and what the
    store represents changes by the accepted puts and replications only, in
    the order of the messages. *)
Theorem worker_refines_put_log log s n ms :
  Store.store_rep n log (store s) →
  Forall (λ m, (∃ b a, m = udp_message b a) ∨
               (∃ open id a reads reads', ReadOneTcpMessage open id a reads = Ret (Some m, reads'))) ms →
  ∃ s' n' times, worker ms (s, n) = Ret (tt, (s', n')) ∧
    length times = length (accepted_puts (preSharedKey s) ms) ∧
    Forall (Tree.read_between n n') times ∧
    Store.store_rep n' (log ++ Store.put_log (Store.expireAfterSecs (store s))
                                 (accepted_puts (preSharedKey s) ms) times) (store s').
Proof.
  intros Hr Hms. destruct (worker_rep ms log s n) as (s' & n' & E & _ & _ & times & Hl & _ & Hts & Hr');
    [|done|by exists s', n', times].
  eapply Forall_impl; [exact Hms|].
  intros m [(b & a & ->)|(open & id & a & reads & reads' & E)];
    [apply udp_message_deliverable | by eapply tcp_message_deliverable].
Qed.

(** The worker on a put request. *)
Lemma worker_step_put log s n a id ns key :
  length id = 4%nat → (length ns ≤ 64)%nat → (length key ≤ 1419)%nat →
  Store.store_rep n log (store s) →
  let psk := preSharedKey s in
  ∃ st m n1 n', (n ≤ m < n1)%nat ∧ (n1 ≤ n')%nat ∧
    Store.store_rep n1 (log ++ [(TrimSpace ns, TrimSpace key,
                                 i64 (clock m + Store.expireAfterSecs (store s)))]) st ∧
    worker_step (udp_message (datagram (digest := digest) CmdPut id ns key psk) a) (s, n)
    = Ret (tt, (emit ((if udp_write_ok n1
                       then [UDPDatagram (datagram (digest := digest) CmdPut id ns [] psk) a] else [])
                      ++ (UDPDatagram (datagram (digest := digest) CmdPutReplicate id ns key psk)
                            <$> reached (S n1) (peers s)))
                  (set_store st s), n')).
Proof.
  intros Hid Hns Hkey Hr psk. unfold psk. rewrite worker_step_datagram by done.
  destruct (dispatch_Put a (parsed_packet (digest := digest) CmdPut id ns key (preSharedKey s)) log s n
    (parsed_packet_wf _ _ _ _ _ Hid Hns Hkey) eq_refl Hr) as (st & n1 & n' & Hp & Hn' & E).
  destruct (parsed_names CmdPut id ns key (preSharedKey s)) as [HN HD].
  destruct Hp as (Hn & _ & times & Hl & Hts & Hr'). rewrite HN, HD in *.
  destruct times as [|t [|? ?]]; [done| |done].
  apply Forall_singleton in Hts as (m & Hm & ->).
  exists st, m, n1, n'. split; [done|]. split; [done|]. split; [exact Hr'|].
  rewrite E. by rewrite answered_udp, reply_parsed, replica_parsed.
Qed.

(** C24. A connection is served to its end: a client that sends its messages
    one at a time, each framed as one message and in reads of its own, and
    after them at most a tail without a newline, gets all of them to the
    worker, in order; the loop then ends with the end of the stream. Messages
    that share a read are another matter
    ([RawMessage.pipelined_message_is_lost]). *)
Theorem tcp_messages_in_turn id a ms tail :
  Forall (λ m, arrives m.1 m.2) ms → newline ∉ concat tail →
  handleTCPConnection true id a (concat ms.*2 ++ tail) = Ret ((λ m, message_of m.1 a id) <$> ms).
Proof.
  intros Hms Htail.
  enough (Hpre : ∀ pre, concat pre = [] →
    handleTCPConnection true id a (pre ++ concat ms.*2 ++ tail) = Ret ((λ m, message_of m.1 a id) <$> ms))
    by by apply (Hpre []).
  induction Hms as [|[d chunks] ms [(c & w & Hd & Hc) [Hcut Hch]] _ IH]; intros pre Hpre;
    rewrite handleTCPConnection_step.
  - pose proof (ReadOneTcpMessage_spec true id a (pre ++ tail)) as H1. cbn zeta in H1.
    rewrite concat_app, Hpre in H1. cbn [app] in H1.
    rewrite (proj2 (cut_line_None _) Htail) in H1. cbn [concat fmap list_fmap app]. by rewrite H1.
  - cbn [fmap list_fmap fst snd concat] in *. subst d.
    rewrite <- (app_assoc chunks), (app_assoc pre chunks).
    assert (Hall : concat (pre ++ chunks) = (c :: w) ++ StopSymbol)
      by (by rewrite concat_app, Hpre).
    rewrite (ReadOneTcpMessage_command true id a _ c w (concat (concat ms.*2 ++ tail)) Hc);
      [|by rewrite concat_app, Hall, <- app_assoc|exact Hcut].
    cbn [send mbind go_bind].
    destruct (reader_at_end (pre ++ chunks) (concat ms.*2 ++ tail)) as (pre' & Hpre' & Hr);
      [by rewrite Hall|].
    rewrite Hall, length_app in Hr. change (length StopSymbol) with 3%nat in Hr. rewrite Hr. cbn [snd].
    by rewrite (IH pre' Hpre').
Qed.

(** C26. A put request adds the entry, then acknowledges it with an empty 'P'
    response, then replicates it: an 'R' datagram with the same message id,
    namespace and data goes to each peer in order, up to the first write that
    fails. *)
Theorem put_acks_then_replicates log s n a id ns key :
  length id = 4%nat → (length ns ≤ 64)%nat → (length key ≤ 1419)%nat →
  Store.store_rep n log (store s) →
  let psk := preSharedKey s in
  ∃ st m n1 n', (n ≤ m < n1)%nat ∧ (n1 ≤ n')%nat ∧
    Store.store_rep n1 (log ++ [(TrimSpace ns, TrimSpace key,
                                 i64 (clock m + Store.expireAfterSecs (store s)))]) st ∧
    worker_step (udp_message (datagram (digest := digest) CmdPut id ns key psk) a) (s, n)
    = Ret (tt, (emit ((if udp_write_ok n1
                       then [UDPDatagram (datagram (digest := digest) CmdPut id ns [] psk) a] else [])
                      ++ (UDPDatagram (datagram (digest := digest) CmdPutReplicate id ns key psk)
                            <$> reached (S n1) (peers s)))
                  (set_store st s), n')).
Proof. apply worker_step_put. Qed.

(** The worker on a replication. *)
Lemma worker_step_replicate log s n a id ns key :
  length id = 4%nat → (length ns ≤ 64)%nat → (length key ≤ 1419)%nat →
  Store.store_rep n log (store s) →
  ∃ st m n', (n ≤ m < n')%nat ∧
    worker_step (udp_message (datagram (digest := digest) CmdPutReplicate id ns key (preSharedKey s)) a)
      (s, n) = Ret (tt, (set_store st s, n')) ∧
    Store.store_rep n' (log ++ [(TrimSpace ns, TrimSpace key,
                                 i64 (clock m + Store.expireAfterSecs (store s)))]) st.
Proof.
  intros Hid Hns Hkey Hr. rewrite worker_step_datagram by done.
  destruct (parsed_names CmdPutReplicate id ns key (preSharedKey s)) as [HN HD].
  unfold dispatch. rewrite HN, HD. cbn [Command parsed_packet].
  change (CmdPutReplicate =b CmdPutReplicate) with true. cbn iota. unfold liftM.
  destruct (on_store_Put_rep log s n (TrimSpace ns) (TrimSpace key) Hr) as (st & n' & -> & Hp).
  destruct Hp as (_ & _ & times & Hl & Hts & Hr').
  destruct times as [|t [|? ?]]; [done| |done].
  apply Forall_singleton in Hts as (m & Hm & ->). by exists st, m, n'.
Qed.

(** A replication adds the entry and is neither answered nor replicated
    again, so replications do not travel on. *)
Theorem replication_is_silent log s n a id ns key :
  length id = 4%nat → (length ns ≤ 64)%nat → (length key ≤ 1419)%nat →
  Store.store_rep n log (store s) →
  ∃ st m n', (n ≤ m < n')%nat ∧
    worker_step (udp_message (datagram (digest := digest) CmdPutReplicate id ns key (preSharedKey s)) a)
      (s, n) = Ret (tt, (set_store st s, n')) ∧
    Store.store_rep n' (log ++ [(TrimSpace ns, TrimSpace key,
                                 i64 (clock m + Store.expireAfterSecs (store s)))]) st.
Proof. apply worker_step_replicate. Qed.

(** C27. A message that does not parse or does not authenticate leaves the
    whole server as it was, and is answered with an 'E' packet that carries
    the text of the error and the message id and namespace of the message. *)
Theorem refused_message_changes_nothing s n m a p e :
  deliverable m → Remote m = Some a →
  received (preSharedKey s) (Message m) = Some (p, Some e) →
  worker_step m (s, n)
  = Ret (tt, (emit (answered n a (of_client m p)
                      (datagram (digest := digest) ResError (MessageIDBytes p) (Namespace p)
                         (ProtoErr_Error e) (preSharedKey s))) s, S n)).
Proof.
  intros [Hlen _] Ha E. rewrite (worker_step_eq m s n p (Some e) E), Ha.
  destruct (received_long (preSharedKey s) (Message m) Hlen) as (q & e' & E' & Hwf & _).
  rewrite E in E'. injection E' as <- <-.
  rewrite answer_eq; [|by apply of_client_wf|].
  - unfold reply, of_client. by destruct (MaybeTcpClient m).
  - intros _. left. pose proof (ProtoErr_length e). lia.
Qed.

(** ** Errors answered with errors *)

(** An error datagram: any 'E' packet whose parts fit. *)
Definition error_datagram (b : bytes) : Prop :=
  ∃ id ns dv psk, length id = 4%nat ∧ (length ns ≤ 64)%nat ∧ (length dv ≤ 1419)%nat ∧
    b = datagram (digest := digest) ResError id ns dv psk.

Lemma error_is_answered b a s n :
  error_datagram b → ∃ b', error_datagram b' ∧
    worker_step (udp_message b a) (s, n)
    = Ret (tt, (emit (if udp_write_ok n then [UDPDatagram b' a] else []) s, S n)).
Proof.
  intros (id & ns & dv & psk & Hid & Hns & Hdv & ->).
  set (q := parsed_packet (digest := digest) ResError id ns dv psk).
  set (e := if Hash q =? le_combine (sig (digest := digest) (preSharedKey s) (MessageIDBytes q)
                                        (Namespace q) (DataValue q))
            then None else Some ErrBadHash).
  assert (Hrec : received (preSharedKey s)
    (Message (udp_message (datagram (digest := digest) ResError id ns dv psk) a)) = Some (q, e)).
  { rewrite udp_message_datagram by done. unfold received.
    rewrite ParsePacket_datagram by done. by rewrite (Validate_eq (digest := digest)). }
  rewrite (worker_step_eq _ s n q e Hrec). change (of_client _ q) with q. change (Remote _) with (Some a).
  set (data := match e with Some e => ProtoErr_Error e | None => str "unknown_command_E" end).
  assert (Hdata : (length data ≤ 1419)%nat)
    by (unfold data; destruct e as [e'|]; [pose proof (ProtoErr_length e') | simpl]; lia).
  exists (datagram (digest := digest) ResError id ns data (preSharedKey s)).
  split; [by exists id, ns, data, (preSharedKey s)|].
  assert (Hq : wf_packet q) by (by apply parsed_packet_wf).
  destruct e; [|change (dispatch (Some a) q (s, n)) with (answer (Some a) q ResError data (s, n))];
    rewrite answer_eq by (done || (intros _; left; exact Hdata));
    rewrite answered_udp by done; unfold q; by rewrite reply_parsed.
Qed.

(** The datagram that is in flight after [k] deliveries between two servers,
    the first of which is to receive [b]; [None] when a server answers with
    anything but one datagram to the sender. *)
Fixpoint exchange (k : nat) (b : bytes) (s1 : Server T H) (a1 : Addr) (s2 : Server T H) (a2 : Addr)
    n : go (option bytes) :=
  match k with
  | O => Ret (Some b)
  | S k' =>
      r ← worker_step (udp_message b a2) (s1, n);
      let '(_, (s1', n')) := r in
      match drop (length (sent s1)) (sent s1') with
      | [UDPDatagram b' a] =>
          if bool_decide (a = a2) then exchange k' b' s2 a2 s1' a1 n' else Ret None
      | _ => Ret None
      end
  end.

(** C28. Errors are answered with errors for ever: an 'E' datagram that a
    server receives from the address of another server, under whatever key
    it was hashed, is answered with an 'E' datagram, which the other server
    answers in turn; as long as the network delivers, the exchange never
    ends, whatever the keys and the stores of the two servers. *)
Theorem errors_are_answered_for_ever k b s1 a1 s2 a2 n :
  (∀ i, udp_write_ok i = true) → error_datagram b →
  ∃ b', exchange k b s1 a1 s2 a2 n = Ret (Some b') ∧ error_datagram b'.
Proof.
  intros Hok. revert b s1 a1 s2 a2 n. induction k as [|k IH]; intros b s1 a1 s2 a2 n Hb.
  - by exists b.
  - destruct (error_is_answered b a2 s1 n Hb) as (b' & Hb' & E). cbn [exchange].
    rewrite E, Hok. cbn [mbind go_bind emit set_sent sent]. rewrite drop_app_length.
    rewrite bool_decide_eq_true_2 by done. by apply IH.
Qed.

(** ** The peer list *)

(** The address of a part of the peer list, if it is well formed. *)
Definition peer_addr (part : bytes) : option Addr :=
  match Split part x3a with
  | [host; portText] =>
      ip ← ParseIP host; port ← Atoi portText; Some (mkAddr (Some ip) port)
  | _ => None
  end.

Lemma peer_addr_String a : plain_addr a → peer_addr (Addr_String a) = Some a.
Proof.
  intros Ha. destruct (Addr_String_parts a Ha) as (host & portText & _ & HS & Hip & Hport & _).
  unfold peer_addr. rewrite HS, Hip, Hport.
  destruct a as [[ip|] port]; [done|]. by destruct Ha as [[] _].
Qed.

Lemma parse_peers_cons part parts self :
  parse_peers (part :: parts) self
  = if bool_decide (part = self) then parse_peers parts self
    else match peer_addr part with
         | Some a => ps ← parse_peers parts self; Ret (a :: ps)
         | None => Panic
         end.
Proof.
  cbn [parse_peers]. case_bool_decide; [done|]. unfold peer_addr.
  destruct (Split part x3a) as [|host [|portText [|x l]]]; try done.
  - change (negb (len [host; portText] =? 2)) with false. cbn iota.
    change (index [host; portText] 0) with (Ret host).
    change (index [host; portText] 1) with (Ret portText). rewrite !go_bind_Ret.
    destruct (ParseIP host) as [ip|]; cbn [mbind option_bind]; [|done].
    by destruct (Atoi portText).
  - rewrite (proj2 (Z.eqb_neq _ _)); [done|]. unfold len. simpl. lia.
Qed.

Lemma parse_peers_spec parts self :
  match mapM peer_addr (filter (λ p, p ≠ self) parts) with
  | Some addrs => parse_peers parts self = Ret addrs
  | None => parse_peers parts self = Panic
  end.
Proof.
  induction parts as [|part parts IH]; [done|]. rewrite parse_peers_cons, filter_cons.
  case_bool_decide; [rewrite decide_False by tauto | rewrite decide_True by done].
  - destruct (mapM peer_addr _); done.
  - cbn [mapM]. destruct (peer_addr part) as [a|]; [|done]. cbn [mbind option_bind].
    destruct (mapM peer_addr _); rewrite IH; done.
Qed.

Lemma Peers_loop_eq ps i acc :
  Peers_loop ps (S i) acc = acc ++ concat ((λ p, x2c :: Addr_String p) <$> ps).
Proof.
  revert i acc. induction ps as [|p ps IH]; intros i acc; cbn [Peers_loop]; [by rewrite app_nil_r|].
  rewrite bool_decide_eq_false_2 by done. rewrite IH, fmap_cons. cbn [concat].
  by rewrite <- !app_assoc.
Qed.

Lemma Peers_eq s : Peers s = Join (Addr_String <$> peers s) x2c.
Proof.
  unfold Peers. destruct (peers s) as [|p ps]; [done|]. cbn [Peers_loop].
  rewrite bool_decide_eq_true_2, Peers_loop_eq by done. cbn [app]. revert p.
  induction ps as [|q ps IH]; intros p; [by rewrite app_nil_r|].
  rewrite !fmap_cons. change (Join (Addr_String p :: Addr_String q :: (Addr_String <$> ps)) x2c)
    with (Addr_String p ++ x2c :: Join (Addr_String <$> q :: ps) x2c).
  cbn [concat]. by rewrite <- IH.
Qed.

(** A server starts exactly when its time to live is at least two seconds
    and every part of the comma-separated peer list, other than the text of
    its own address, is an IPv4 address and a number; its peers are then these
    parts in order. In every other case the constructor panics. *)
Theorem NewServerWithPeers_spec ttl psk self peerList :
  match mapM peer_addr (filter (λ p, p ≠ self) (Split peerList x2c)) with
  | Some addrs =>
      if (2 <=? ttl) then
        ∃ s : Server T H, NewServerWithPeers ttl psk self peerList = Ret s ∧
          peers s = if bool_decide (peerList = []) then [] else addrs
      else NewServerWithPeers (T := T) (H := H) ttl psk self peerList = Panic
  | None =>
      NewServerWithPeers (T := T) (H := H) ttl psk self peerList = Panic ∨
      (peerList = [] ∧ 2 <= ttl)
  end.
Proof.
  pose proof (parse_peers_spec (Split peerList x2c) self) as Hp.
  unfold NewServerWithPeers, NewServer, MinimumExpirySecs.
  destruct peerList as [|c l].
  - destruct (mapM _ _) as [addrs|].
    + destruct (Z.leb_spec 2 ttl); destruct (Z.ltb_spec ttl 2); try lia; [|done].
      eexists. split; reflexivity.
    + destruct (Z.ltb_spec ttl 2); [by left | right; split; [done|lia]].
  - set (peerList := c :: l) in *. rewrite (proj2 (Z.ltb_lt 0 (len peerList)))
      by (unfold peerList; rewrite len_cons; pose proof (len_nonneg l); lia).
    destruct (mapM _ _) as [addrs|]; rewrite Hp.
    + destruct (Z.leb_spec 2 ttl); destruct (Z.ltb_spec ttl 2); try lia; [|done].
      eexists. split; reflexivity.
    + left. by destruct (ttl <? 2).
Qed.

(** C37. The peer list round trip: from the texts of any addresses, joined with
    commas, the server keeps exactly the addresses whose text is not its own,
    and [Peers] prints them back in the same form. *)
Theorem peer_list_roundtrip ttl psk self addrs :
  2 <= ttl → Forall plain_addr addrs →
  let others := filter (λ a, Addr_String a ≠ self) addrs in
  ∃ s : Server T H,
    NewServerWithPeers ttl psk self (Join (Addr_String <$> addrs) x2c) = Ret s ∧
    peers s = others ∧ Peers s = Join (Addr_String <$> others) x2c.
Proof.
  intros Httl Hall others. pose proof (λ l, parse_peers_spec l self) as Hp.
  assert (Hparse : ∀ l, Forall plain_addr l →
    mapM peer_addr (filter (λ p, p ≠ self) (Addr_String <$> l))
    = Some (filter (λ a, Addr_String a ≠ self) l)).
  { induction 1 as [|a l Ha _ IH]; [done|]. rewrite fmap_cons, !filter_cons.
    case_decide; [|done]. cbn [mapM]. by rewrite (peer_addr_String a Ha), IH. }
  unfold NewServerWithPeers, NewServer, MinimumExpirySecs.
  rewrite (proj2 (Z.ltb_ge ttl 2)) by lia. cbn [mbind go_bind].
  destruct addrs as [|a addrs]; [by eexists|].
  assert (Hlen : (0 <? len (Join (Addr_String <$> a :: addrs) x2c)) = true).
  { apply Z.ltb_lt. unfold len. inversion Hall as [|? ? Ha _]; subst.
    destruct (Addr_String_parts a Ha) as (host & portText & HA & _).
    rewrite fmap_cons. destruct (Addr_String <$> addrs); cbn [Join];
      rewrite ?length_app, HA, length_app; cbn [length]; lia. }
  rewrite Hlen, Split_Join.
  - specialize (Hp (Addr_String <$> a :: addrs)). rewrite (Hparse _ Hall) in Hp. rewrite Hp.
    eexists. split; [reflexivity|]. split; [done|]. by rewrite Peers_eq.
  - done.
  - apply Forall_fmap. eapply Forall_impl; [exact Hall|]. intros x Hx.
    by destruct (Addr_String_parts x Hx) as (? & ? & _ & _ & _ & _ & ?).
Qed.

(** ** Listening and closing *)

(** [Listen] on a new server: with both sockets it starts one worker more
    than there are processors; when the UDP socket fails nothing changed and
    it can be called again; when only the TCP socket fails the UDP socket
    stays open and every later call is refused as already initialized. *)
Theorem Listen_outcomes s numCPU :
  conn s = false → workers s = 0%nat →
  (let '(e, s') := Listen true true numCPU s in
    e = None ∧ workers s' = S numCPU ∧ conn s' = true ∧ tcpConn s' = true) ∧
  (∀ tcp_ok, Listen false tcp_ok numCPU s = (Some ErrNet, s)) ∧
  (let '(e, s') := Listen true false numCPU s in
    e = Some ErrNet ∧ workers s' = 0%nat ∧ conn s' = true ∧
    ∀ udp_ok tcp_ok n, Listen udp_ok tcp_ok n s' = (Some ErrServerAlreadyInit, s')).
Proof.
  intros Hc Hw. unfold Listen. rewrite Hc. cbn [negb]. unfold setupWorkers. simpl. by rewrite Hw.
Qed.

Fixpoint timers (k : nat) : M (Store.Store T H) unit :=
  match k with O => mret tt | S k' => Store.timer_fires;; timers k' end.

Lemma timers_disabled k st n :
  Store.cleanupServiceEnabled st = false →
  Store.scheduled (timers k (st, n)).2.1 = (Store.scheduled st - k)%nat.
Proof.
  revert st n. induction k as [|k IH]; intros st n Hst; cbn [timers]; [simpl; lia|].
  unfold mbind, M_bind. unfold Store.timer_fires at 1, mbind at 1, M_bind at 1, get at 1.
  destruct (Store.scheduled st) as [|m] eqn:Hm; cbn [mret M_ret].
  - rewrite IH, Hm by done. lia.
  - unfold modify, Store.runCleanup, mbind, M_bind, get. cbn [Store.cleanupServiceEnabled Store.set_scheduled].
    rewrite Hst. cbn [negb mret M_ret]. rewrite IH by done. simpl. rewrite Hm. simpl. lia.
Qed.

(** [Close] of a server that never listened panics. Of one that did, whether
    or not the sockets could be closed, it closes the channel, so that a
    message completed later panics, and disables the cleanup: every pending
    run of the garbage collector ends without scheduling another, so after as
    many timers as were pending none is left. A second [Close] changes nothing
    and reports no error. *)
Theorem Close_ends_the_cleanup udp_ok tcp_ok s n :
  disposed s = false →
  if conn s then
    ∃ s' n', Close udp_ok tcp_ok (s, n)
        = Ret (if udp_ok && tcpConn s && tcp_ok then None else Some ErrNet, (s', n')) ∧
      messageProcessing s' = false ∧
      (∀ ok ok', Close ok ok' (s', n') = Ret (None, (s', n'))) ∧
      (∀ m : RawMessage, send (messageProcessing s') m = Panic) ∧
      ∀ i, Store.scheduled (timers (Store.scheduled (store s')) (store s', i)).2.1 = 0%nat
  else Close udp_ok tcp_ok (s, n) = Panic.
Proof.
  intros Hd. unfold Close. rewrite Hd. destruct (conn s); [|done]. cbn [negb Store.DisableCleanup modify].
  eexists _, _. split; [by destruct udp_ok, (tcpConn s), tcp_ok|]. split; [done|]. split; [done|].
  split; [done|]. intros i. rewrite timers_disabled by done. lia.
Qed.
End ServerFacts.

(** ** Witnesses

    A server with two peers, the key "secret-key", and a network that
    delivers everything. *)
Module ServerWitness.
Import Concrete ConcreteClock.

#[local] Instance reliable : Network := {| udp_write_ok := λ _, true; tcp_write_ok := λ _, true |}.

Definition psk : bytes := str "secret-key".
Definition id1 : bytes := [x01; x00; x00; x00].
Definition sender : Addr := mkAddr (Some (mkIPv4 127 0 0 1)) 50000.
Definition addrs : list Addr :=
  [mkAddr (Some (mkIPv4 10 0 0 1)) 3509; mkAddr (Some (mkIPv4 10 0 0 2)) 3509;
   mkAddr (Some (mkIPv4 10 0 0 3)) 80].
Definition self : bytes := str "10.0.0.2:3509".
Definition peerList : bytes := str "10.0.0.1:3509,10.0.0.2:3509,10.0.0.3:80".

Abbreviation dg cmd ns dv := (datagram (digest := empty_digest) cmd id1 (str ns) (str dv) psk).

Definition server_of (ttl : Z) : Server (gmap bytes) (gmap bytes) :=
  mkServer (Store.NewStore ttl) [] false false false psk ttl true 0%nat
    [mkAddr (Some (mkIPv4 10 0 0 1)) 3509; mkAddr (Some (mkIPv4 10 0 0 3)) 80] [].

Definition server0 : Server (gmap bytes) (gmap bytes) := server_of 60.

Lemma server0_rep : Store.store_rep (T := gmap bytes) (H := gmap bytes) 0 [] (store server0).
Proof. apply Store.store_rep_New. Qed.

(** Two puts of a key, one of another, a replication and garbage. *)
Definition messages : list RawMessage :=
  (λ b, udp_message b sender) <$>
    [dg CmdPut "default" "a"; dg CmdPut "default" "b"; dg CmdPutReplicate "default" "a"; str "garbage"].

Lemma messages_deliverable : Forall deliverable messages.
Proof. apply Forall_fmap, Forall_true. intros b. apply udp_message_deliverable. Qed.

Lemma server_of_3_new : NewServerWithPeers 3 psk self peerList = Ret (server_of 3).
Proof. reflexivity. Qed.

(** The answer to a count after the messages. *)
Definition count_reply (ttl : Z) : option Output :=
  match worker messages (server_of ttl, 0%nat) with
  | Ret (_, σ) =>
      match worker_step (udp_message (dg CmdCount "default" "a") sender) σ with
      | Ret (_, (s', _)) => last (sent s')
      | Panic => None
      end
  | Panic => None
  end.

Definition count_datagram (c : Z) : Output :=
  UDPDatagram (datagram (digest := empty_digest) CmdCount id1 (str "default") (Uint32ToBytes c) psk) sender.

(** With three seconds to live the first of two puts of a key is expired when
    it is counted, with sixty none is. *)
Lemma worker_counts_accepted_puts_witness :
  accepted_puts psk messages
    = [(str "default", str "a"); (str "default", str "b"); (str "default", str "a")] ∧
  put_spans messages (server_of 3, 0%nat) = [(0, 4); (4, 8); (8, 10)]%nat ∧
  count_reply 60 = Some (count_datagram 2) ∧ count_reply 3 = Some (count_datagram 1) ∧
  ∃ s n times c s' n',
    worker messages (server_of 3, 0%nat) = Ret (tt, (s, n)) ∧
    Forall2 Tree.during (put_spans messages (server_of 3, 0%nat)) times ∧
    c = len (filter (λ p, p.1 = (TrimSpace (str "default"), TrimSpace (str "a")) ∧ clock n < p.2 + 3)
               (zip (accepted_puts psk messages) times)) ∧
    worker_step (udp_message (dg CmdCount "default" "a") sender) (s, n) = Ret (tt, (s', S n')) ∧
    sent s' = sent s ++ [count_datagram (Z.min c MaxUint32)].
Proof.
  split; [vm_compute; reflexivity|]. split; [vm_compute; reflexivity|].
  split; [vm_compute; reflexivity|]. split; [vm_compute; reflexivity|].
  destruct (worker_counts_accepted_puts 3 (ClockFits0 := clk_fits 3 ltac:(lia)) psk self peerList
    (server_of 3) 0 messages sender id1 (str "default") (str "a") server_of_3_new
    messages_deliverable eq_refl ltac:(simpl; lia) ltac:(simpl; lia))
    as (s & n & times & c & s' & n' & E & _ & Hts & Hc & E' & Hs).
  exists s, n, times, c, s', n'. split; [exact E|]. split; [exact Hts|]. split; [exact Hc|].
  split; [exact E'|]. exact Hs.
Defined.

Lemma worker_refines_put_log_witness :
  ∃ s n, worker messages (server0, 0%nat) = Ret (tt, (s, n)).
Proof.
  destruct (worker_refines_put_log [] server0 0 messages server0_rep) as (s & n & _ & E & _).
  - apply Forall_fmap, Forall_true. intros b. left. by exists b, sender.
  - exists s, n. exact E.
Defined.

Lemma put_acks_then_replicates_witness :
  ∃ s n, worker_step (udp_message (dg CmdPut "default" "a") sender) (server0, 0%nat) = Ret (tt, (s, n)) ∧
    sent s = [UDPDatagram (dg CmdPut "default" "") sender;
              UDPDatagram (dg CmdPutReplicate "default" "a") (mkAddr (Some (mkIPv4 10 0 0 1)) 3509);
              UDPDatagram (dg CmdPutReplicate "default" "a") (mkAddr (Some (mkIPv4 10 0 0 3)) 80)].
Proof.
  destruct (put_acks_then_replicates [] server0 0 sender id1 (str "default") (str "a") eq_refl
    ltac:(simpl; lia) ltac:(simpl; lia) server0_rep) as (st & m & n1 & n' & _ & _ & _ & E).
  eexists _, n'. split; [exact E | reflexivity].
Defined.

Lemma replication_is_silent_witness :
  ∃ st n, worker_step (udp_message (dg CmdPutReplicate "default" "a") sender) (server0, 0%nat)
          = Ret (tt, (set_store st server0, n)).
Proof.
  destruct (replication_is_silent [] server0 0 sender id1 (str "default") (str "a") eq_refl
    ltac:(simpl; lia) ltac:(simpl; lia) server0_rep) as (st & m & n' & _ & E & _).
  exists st, n'. exact E.
Defined.

(** A datagram of five bytes is padded with zero bytes to a packet with an
    invalid command. *)
Definition hello_packet : Packet :=
  frame_packet "h"%byte (str "llo" ++ replicate 5 x00) (replicate 4 x00) (replicate 64 x00)
    (replicate 1419 x00).

Lemma refused_message_changes_nothing_witness :
  worker_step (udp_message (str "hello") sender) (server0, 0%nat)
  = Ret (tt, (emit [UDPDatagram (datagram (digest := empty_digest) ResError (replicate 4 x00)
                      (replicate 64 x00) (str "bad packet: invalid command byte") psk) sender]
                server0, 1%nat)).
Proof.
  etrans; [apply (refused_message_changes_nothing (digest := empty_digest) server0 0
    (udp_message (str "hello") sender) sender hello_packet ErrInvalidCommandByte)|].
  - apply udp_message_deliverable.
  - reflexivity.
  - vm_compute. reflexivity.
  - reflexivity.
Defined.

Lemma errors_are_answered_for_ever_witness :
  ∃ b', exchange 1000 (dg ResError "default" "oops") server0 sender server0
          (mkAddr (Some (mkIPv4 10 0 0 1)) 3509) 0 = Ret (Some b').
Proof.
  destruct (errors_are_answered_for_ever (digest := empty_digest) 1000 (dg ResError "default" "oops")
    server0 sender server0 (mkAddr (Some (mkIPv4 10 0 0 1)) 3509) 0) as (b' & E & _).
  - reflexivity.
  - exists id1, (str "default"), (str "oops"), psk. repeat split; simpl; lia.
  - exists b'. exact E.
Defined.

Lemma peer_list_roundtrip_witness :
  ∃ s : Server (gmap bytes) (gmap bytes),
    NewServerWithPeers 60 psk self (Join (Addr_String <$> addrs) x2c) = Ret s ∧
    Peers s = str "10.0.0.1:3509,10.0.0.3:80".
Proof.
  destruct (peer_list_roundtrip (T := gmap bytes) (H := gmap bytes) 60 psk self addrs) as (s & E & _ & HP).
  - lia.
  - repeat constructor; simpl; lia.
  - exists s. split; [exact E|]. rewrite HP. reflexivity.
Defined.

Lemma Listen_outcomes_witness :
  workers (Listen true true 8 server0).2 = 9%nat.
Proof. destruct (Listen_outcomes server0 8 eq_refl eq_refl) as [(_ & Hw & _) _]. exact Hw. Defined.

Definition listening : Server (gmap bytes) (gmap bytes) := (Listen true true 8 server0).2.

Lemma Close_ends_the_cleanup_witness :
  Close true true (server0, 0%nat) = Panic ∧
  ∃ s' n', Close true true (listening, 0%nat) = Ret (None, (s', n')) ∧
    ∀ m : RawMessage, send (messageProcessing s') m = Panic.
Proof.
  split; [exact (Close_ends_the_cleanup true true server0 0 eq_refl)|].
  destruct (Close_ends_the_cleanup true true listening 0 eq_refl) as (s' & n' & E & _ & _ & Hs & _).
  exists s', n'. split; [exact E|exact Hs].
Defined.

(** Two messages of a connection, the first in three reads. *)
Definition conversation : list (bytes * list bytes) :=
  [(dg CmdPut "default" "a",
    [take 100 (dg CmdPut "default" "a"); []; drop 100 (dg CmdPut "default" "a") ++ StopSymbol]);
   (dg CmdTCPOnlyKeys "default" "a", [dg CmdTCPOnlyKeys "default" "a" ++ StopSymbol])].

Lemma tcp_messages_in_turn_witness :
  handleTCPConnection true 0%nat sender (concat conversation.*2 ++ [])
  = Ret [mkRawMessage (dg CmdPut "default" "a") (Some sender) (Some 0%nat);
         mkRawMessage (dg CmdTCPOnlyKeys "default" "a") (Some sender) (Some 0%nat)].
Proof.
  assert (Hms : Forall (λ m, arrives m.1 m.2) conversation).
  { constructor; [|constructor; [|constructor]].
    all: split; [eexists _, _; split; [vm_compute; reflexivity|vm_compute; reflexivity]|].
    all: split; vm_compute; reflexivity. }
  rewrite (tcp_messages_in_turn 0%nat sender conversation [] Hms ltac:(apply not_elem_of_nil)).
  vm_compute. reflexivity.
Defined.
End ServerWitness.
