(* ===== verification/ServerConc.v ===== *)
(** * Workers that share a store: [src/server/server.go], step by step

    [setupWorkers] starts a worker per processor and one more, and the
    collector of the store has a goroutine of its own. Here the worker is a
    program ([prog]) on the server: the critical sections of its call of the
    store, as in [StoreConc.v], and one step per write to a socket. The key
    and the peers are never written once the server is made, so they are
    arguments. Whatever the workers do to the store, calls of the store alone
    can do, requests for keys apart: the theorems on interleavings of
    [StoreRaces.v] hold of a server. The last section is about what the
    workers send. *)
From Stdlib Require Import ZArith Lia Strings.Byte.
From stdpp Require Import base gmap list strings sorting relations.
From coqutil Require Import Byte LittleEndianList.
From S2P Require Import Prelude GoStd Deps Protocol Env Conc RawMessage Server.
From S2P Require Tree Store StoreConc StoreRaces.
From Stdlib Require Import Permutation FunctionalExtensionality.
Local Open Scope Z_scope.
Local Open Scope go_scope.

(** What a goroutine of the server does: a worker takes a message, or the
    collector runs. *)
Inductive work :=
  | WMessage (m : RawMessage)
  | WCollect.

Section Workers.
Context {T : Type → Type} {RB : RedBlackTree T} {H : Type → Type} {HM : HashMap H}
  {CK : Clock} {SW : Stopwatch} {RO : RangeOrder} {RE : Regexp} {X : XXHash} {NW : Network}.

Abbreviation prog := (prog (Server T H)).

(** A program on the store, run by the server. *)
Fixpoint on_store_prog {A} (p : Conc.prog (Store.Store T H) A) : prog A :=
  match p with
  | Return a => Return a
  | Step m k => Step (on_store m) (λ b, on_store_prog (k b))
  end.

(** An action that may panic. *)
Definition attempt {A} (m : G (Server T H) A) : M (Server T H) (go A) := λ σ,
  match m σ with Ret (a, σ') => (Ret a, σ') | Panic => (Panic, σ) end.

(** A response is hashed and formatted by its worker, and written at once. *)
Definition answer_prog (remote : option Addr) (packet : Packet) (cmd : Byte.byte) (data : bytes)
    : prog (go unit) :=
  atomic (attempt (answer remote packet cmd data)).

Fixpoint republish_loop_prog (b : bytes) (ps : list Addr) : prog (go unit) :=
  match ps with
  | [] => mret (Ret tt)
  | peer :: ps' =>
      ok ← atomic (B := bool) (WriteToUDP b (Some peer));
      if ok : bool then republish_loop_prog b ps' else mret (Ret tt)
  end.

Context (psk : bytes) (ps : list Addr).

Definition republish_prog (packet : Packet) : prog (go unit) :=
  match (packet ← SetHash (set_Command CmdPutReplicate packet) psk; Bytes packet) with
  | Panic => mret Panic
  | Ret (_, Some _) => mret (Ret tt)
  | Ret (b, None) => republish_loop_prog b ps
  end.

Definition dispatch_prog (remote : option Addr) (packet : Packet) : prog (go unit) :=
  let command := Command packet in
  let ns := NamespaceString packet in
  let key := DataValueString packet in
  if command =b CmdPutReplicate then
    on_store_prog (StoreConc.Put ns key);; mret (Ret tt)
  else if command =b CmdPut then
    on_store_prog (StoreConc.Put ns key);;
    r ← answer_prog remote packet CmdPut [];
    match r with
    | Panic => mret Panic
    | Ret _ => if bool_decide (ps ≠ []) then republish_prog packet else mret (Ret tt)
    end
  else if command =b CmdCount then
    countInt ← on_store_prog (StoreConc.Count ns key);
    answer_prog remote packet CmdCount (count_bytes countInt)
  else if command =b CmdCountNamespace then
    countInt ← on_store_prog (StoreConc.CountEntries ns);
    answer_prog remote packet CmdCountNamespace (count_bytes countInt)
  else if command =b CmdCountServer then
    countInt ← on_store_prog StoreConc.CountServerEntries;
    answer_prog remote packet CmdCountServer (count_bytes countInt)
  else if command =b CmdTCPOnlyKeys then
    (* one step: [KeyMatch] has no sections of its own *)
    matchedKeys ← atomic (B := list bytes) (on_store (Store.KeyMatch ns key));
    answer_prog remote packet CmdTCPOnlyKeys (Join matchedKeys x0a)
  else if command =b CmdTCPOnlyNamespaces then
    namespaces ← on_store_prog StoreConc.runCleanup;
    answer_prog remote packet CmdTCPOnlyNamespaces (Join namespaces x0a)
  else answer_prog remote packet ResError (str "unknown_command_" ++ string_of_byte command).

Definition worker_prog (m : RawMessage) : prog (go unit) :=
  let remote := Remote m in
  match ParsePacket (Message m) with
  | Panic | Ret (None, _) => mret Panic
  | Ret (Some packet, err) =>
      let packet :=
        match MaybeTcpClient m with
        | Some c => set_RequestClient (Some c) packet
        | None => packet
        end in
      match err with
      | Some e => answer_prog remote packet ResError (ProtoErr_Error e)
      | None =>
          match Validate packet psk with
          | Panic => mret Panic
          | Ret (Some e) => answer_prog remote packet ResError (ProtoErr_Error e)
          | Ret None => dispatch_prog remote packet
          end
      end
  end.

Definition work_program (w : work) : prog (go unit) :=
  match w with
  | WMessage m => worker_prog m
  | WCollect => on_store_prog StoreConc.runCleanup;; mret (Ret tt)
  end.
End Workers.

(** * Properties *)

Section Facts.
Context {T : Type → Type} {RB : RedBlackTree T} {RL : RedBlackTreeLaws T}
  {H : Type → Type} {HM : HashMap H} {HL : HashMapLaws H}
  {CK : Clock} {CM : ClockMono} {SW : Stopwatch} {RO : RangeOrder}
  {RE : Regexp} {X : XXHash} {NW : Network}.
Implicit Types (s : Server T H) (n : nat) (m : RawMessage).

Abbreviation prog := (prog (Server T H)).

(** ** Writing leaves the store alone *)

Lemma WriteToUDP_effect b a s n : ∃ ok os, WriteToUDP b a (s, n) = (ok, (emit os s, S n)).
Proof.
  destruct a as [a|]; [rewrite WriteToUDP_eq; by eauto|].
  exists false, []. by rewrite emit_nil.
Qed.

Lemma respond_effect remote p q s n :
  match respond remote p q (s, n) with
  | Ret (_, σ) => ∃ os n', σ = (emit os s, n') ∧ (n ≤ n')%nat
  | Panic => True
  end.
Proof.
  unfold respond. destruct (RequestClient p) as [c|].
  - unfold respondOrLogErrorTCP, mbind, G_bind, liftgo. destruct (Bytes _) as [[b e]|]; [|done].
    case_bool_decide; [exists [], n; by rewrite emit_nil|].
    cbn [RequestClient set_DataValue set_RequestClient]. unfold liftM. rewrite WriteToTCP_eq.
    eexists _, (S n). split; [reflexivity|lia].
  - unfold respondOrLogError, mbind, G_bind, liftgo. destruct (Bytes q) as [[b [e|]]|]; [|..|done].
    + exists [], n. by rewrite emit_nil.
    + unfold liftM. destruct (WriteToUDP_effect b remote s n) as (ok & os & ->).
      eexists _, (S n). split; [reflexivity|lia].
Qed.

Lemma answer_effect remote p cmd data s n :
  match answer remote p cmd data (s, n) with
  | Ret (_, σ) => ∃ os n', σ = (emit os s, n') ∧ (n ≤ n')%nat
  | Panic => True
  end.
Proof.
  unfold answer. rewrite G_bind_lift. cbn [get fst snd]. unfold mbind, G_bind, liftgo at 1.
  destruct (NewPacketFromParts _ _ _ _ _) as [q|]; [|done]. apply respond_effect.
Qed.

(** ** A worker alone

    Run without interruption, the program of a worker is the worker of
    [Server.v]: it panics when that panics and otherwise leaves the same
    server ([agrees_worker]). *)

Lemma alone_on_store_prog {A} (p : Conc.prog (Store.Store T H) A) :
  alone (on_store_prog p) = on_store (alone p).
Proof.
  apply functional_extensionality. intros [s n]. revert s n.
  induction p as [a|B m k IH]; intros s n; cbn [on_store_prog alone]; [by destruct s|].
  unfold on_store. destruct (m (store s, n)) as [b [st n1]] eqn:E. rewrite IH.
  unfold on_store. cbn [store set_store]. by destruct (alone (k b) (st, n1)) as [a [st' n']].
Qed.

(** A program agrees with an operation that may panic. *)
Definition agrees (g : G (Server T H) unit) (pr : prog (go unit)) (σ : Server T H * nat) : Prop :=
  match g σ with
  | Ret (_, σ') => alone pr σ = (Ret tt, σ')
  | Panic => (alone pr σ).1 = Panic
  end.

Lemma agrees_answer remote p cmd data σ : agrees (answer remote p cmd data) (answer_prog remote p cmd data) σ.
Proof.
  unfold agrees, answer_prog. rewrite alone_atomic. unfold attempt.
  by destruct (answer remote p cmd data σ) as [[[] σ']|].
Qed.

(** A call of the store, then the rest. *)
Lemma agrees_store {A} (op : M (Store.Store T H) A) p (g : A → G (Server T H) unit) (k : A → prog (go unit)) σ :
  alone p = op → (∀ a st n', op (store σ.1, σ.2) = (a, (st, n')) → agrees (g a) (k a) (set_store st σ.1, n')) →
  agrees (a ← liftM (on_store op); g a) (a ← on_store_prog p; k a) σ.
Proof.
  intros Hp Hk. unfold agrees. rewrite G_bind_lift, alone_bind, alone_on_store_prog, Hp.
  unfold mbind, M_bind. destruct σ as [s n]. unfold on_store. cbn [fst snd] in *.
  destruct (op (store s, n)) as [a [st n1]]. by apply Hk.
Qed.

Lemma republish_loop_alone b ps (σ : Server T H * nat) :
  alone (republish_loop_prog b ps) σ = (Ret tt, (republish_loop b ps σ).2).
Proof.
  revert σ. induction ps as [|p ps IH]; intros σ; [done|]. cbn [republish_loop_prog republish_loop].
  rewrite alone_bind, alone_atomic. unfold mbind, M_bind.
  destruct (WriteToUDP b (Some p) σ) as [[] σ']; [apply IH|done].
Qed.

Lemma agrees_republish p s n : agrees (republish p) (republish_prog (preSharedKey s) (peers s) p) (s, n).
Proof.
  unfold agrees, republish, republish_prog. rewrite G_bind_lift. cbn [get fst snd].
  destruct (SetHash _ _) as [q|]; [|done]. rewrite G_bind_go. cbn [mbind go_bind].
  destruct (Bytes q) as [[b [e|]]|]; [done| |done]. rewrite G_bind_go. unfold liftM.
  rewrite republish_loop_alone. by destruct (republish_loop b (peers s) (s, n)) as [[] σ].
Qed.

(** The branch of a put: the store, the response, the replication. *)
Lemma agrees_put remote p ns key s n :
  agrees (liftM (on_store (Store.Put ns key));;
          answer remote p CmdPut [];;
          s ← liftM get;
          if bool_decide (peers s ≠ []) then republish p else mret tt)
    (on_store_prog (StoreConc.Put ns key);;
     r ← answer_prog remote p CmdPut [];
     match r with
     | Panic => mret Panic
     | Ret _ => if bool_decide (peers s ≠ []) then republish_prog (preSharedKey s) (peers s) p else mret (Ret tt)
     end) (s, n).
Proof.
  apply agrees_store; [apply StoreConc.alone_Put|]. intros _ st n1 _. cbn [fst].
  pose proof (agrees_answer remote p CmdPut [] (set_store st s, n1)) as Ha.
  pose proof (answer_effect remote p CmdPut [] (set_store st s) n1) as He.
  unfold agrees in *. rewrite alone_bind. unfold mbind, M_bind, G_bind.
  destruct (answer remote p CmdPut [] (set_store st s, n1)) as [[[] σ]|].
  - destruct He as (os & n2 & -> & _). rewrite Ha. unfold liftM. cbn [get].
    change (peers (emit os (set_store st s))) with (peers s).
    destruct (bool_decide (peers s ≠ [])); [|done].
    apply (agrees_republish p (emit os (set_store st s)) n2).
  - by destruct (alone (answer_prog remote p CmdPut []) (set_store st s, n1)) as [r σ]; simpl in Ha; subst r.
Qed.

Lemma agrees_dispatch remote p s n :
  agrees (dispatch remote p) (dispatch_prog (preSharedKey s) (peers s) remote p) (s, n).
Proof.
  unfold dispatch, dispatch_prog.
  destruct (Command p =b CmdPutReplicate).
  { unfold agrees. rewrite alone_bind, alone_on_store_prog, StoreConc.alone_Put. unfold liftM, mbind, M_bind.
    by destruct (on_store _ (s, n)) as [[] σ]. }
  destruct (Command p =b CmdPut); [apply agrees_put|].
  destruct (Command p =b CmdCount);
    [apply agrees_store; [apply StoreConc.alone_Count|intros; apply agrees_answer]|].
  destruct (Command p =b CmdCountNamespace);
    [apply agrees_store; [apply StoreConc.alone_CountEntries|intros; apply agrees_answer]|].
  destruct (Command p =b CmdCountServer).
  { apply agrees_store; [|intros; apply agrees_answer].
    exact (StoreConc.alone_CountServerEntries (T := T) (H := H)). }
  destruct (Command p =b CmdTCPOnlyKeys).
  { unfold agrees. rewrite G_bind_lift, alone_bind, alone_atomic. unfold mbind, M_bind.
    destruct (on_store _ (s, n)) as [ks σ]. apply agrees_answer. }
  destruct (Command p =b CmdTCPOnlyNamespaces); [|apply agrees_answer].
  apply agrees_store; [|intros; apply agrees_answer].
  rewrite StoreConc.alone_runCleanup. unfold Store.Namespaces. apply functional_extensionality. intros σ.
  unfold mbind, M_bind, mret, M_ret. by destruct (Store.runCleanup σ).
Qed.

Lemma agrees_worker m s n :
  agrees (worker_step m) (worker_prog (preSharedKey s) (peers s) m) (s, n).
Proof.
  assert (HP : agrees (liftgo Panic) (mret Panic) (s, n)) by done.
  unfold worker_step, worker_prog.
  destruct (ParsePacket (Message m)) as [[[p|] e]|]; [|exact HP|exact HP].
  destruct e as [e|]; [apply agrees_answer|].
  unfold agrees. rewrite G_bind_go, G_bind_lift. cbn [get fst snd].
  generalize (match MaybeTcpClient m with Some c => set_RequestClient (Some c) p | None => p end) as q. intros q.
  unfold mbind at 1, G_bind at 1, liftgo at 1.
  destruct (Validate q (preSharedKey s)) as [[e|]|]; [apply agrees_answer|apply agrees_dispatch|done].
Qed.

(** ** A worker is a call of the store *)

(** A program whose steps leave the store alone. *)
Fixpoint silent {A} (pr : prog A) : Prop :=
  match pr with
  | Return _ => True
  | Step m k => (∀ s n, store (m (s, n)).2.1 = store s ∧ (n ≤ (m (s, n)).2.2)%nat) ∧ ∀ b, silent (k b)
  end.

Lemma silent_bind {A B} (pr : prog A) (f : A → prog B) :
  silent pr → (∀ a, silent (f a)) → silent (a ← pr; f a).
Proof.
  intros Hp Hf. induction pr as [a|C m k IH]; [apply Hf|]. destruct Hp as [Hm Hk].
  split; [exact Hm|]. intros b. by apply IH.
Qed.

Lemma silent_answer remote p cmd data : silent (answer_prog remote p cmd data).
Proof.
  split; [|done]. intros s n. unfold attempt. pose proof (answer_effect remote p cmd data s n) as He.
  destruct (answer remote p cmd data (s, n)) as [[[] σ]|]; [|done].
  by destruct He as (os & n' & -> & Hn).
Qed.

Lemma silent_republish psk ps p : silent (republish_prog psk ps p).
Proof.
  unfold republish_prog. destruct (_ ≫= _) as [[b [e|]]|]; [done| |done].
  induction ps as [|a ps IH]; [done|]. cbn [republish_loop_prog]. apply silent_bind.
  - split; [|done]. intros s n. destruct (WriteToUDP_effect b (Some a) s n) as (ok & os & ->).
    split; [done|]. simpl. lia.
  - intros []; [exact IH|done].
Qed.

(** A program of a worker is a program of the store, then a silent one. *)
Definition simulates (pr : prog (go unit)) (pr' : Conc.prog (Store.Store T H) StoreConc.answer) : Prop :=
  ∃ (A : Type) (p : Conc.prog (Store.Store T H) A) (k : A → prog (go unit)) (f : A → StoreConc.answer),
    pr = (a ← on_store_prog p; k a) ∧ pr' = (a ← p; mret (f a)) ∧ ∀ a, silent (k a).

Lemma simulates_silent pr a : silent pr → simulates pr (Return a).
Proof. intros Hs. by exists unit, (Return tt), (λ _, pr), (λ _, a). Qed.

Lemma simulates_run1 pr pr' s n pr1 s1 n1 :
  simulates pr pr' → run1 pr (s, n) = (pr1, (s1, n1)) →
  ∃ pr1', simulates pr1 pr1' ∧
    ((pr1' = pr' ∧ store s1 = store s ∧ (n ≤ n1)%nat) ∨ run1 pr' (store s, n) = (pr1', (store s1, n1))).
Proof.
  intros (A & p & k & f & -> & -> & Hk). destruct p as [a|B m k']; cbn.
  - specialize (Hk a). intros E. exists (Return (f a)).
    destruct (k a) as [x|B m k0]; cbn in E.
    + injection E as <- <- <-. split; [by apply simulates_silent|by left].
    + destruct Hk as [Hm Hk]. specialize (Hm s n). destruct (m (s, n)) as [b [s2 n2]].
      injection E as <- <- <-. split; [apply simulates_silent, Hk|left]. by destruct Hm.
  - unfold on_store. destruct (m (store s, n)) as [b [st n2]] eqn:Em. intros [= <- <- <-].
    eexists. split; [|by right]. by exists A, (k' b), k, f.
Qed.

Lemma simulates_finished (w : work) (c : StoreConc.call) pr pr' :
  simulates pr pr' → finished (w, pr) = true → finished (c, pr') = true.
Proof. intros (A & p & k & f & -> & -> & _). by destruct p. Qed.

(** The call of the store that a packet makes, or a goroutine. *)
Definition packet_call (p : Packet) : StoreConc.call :=
  let ns := NamespaceString p in
  let key := DataValueString p in
  if Command p =b CmdPutReplicate then StoreConc.CPut ns key
  else if Command p =b CmdPut then StoreConc.CPut ns key
  else if Command p =b CmdCount then StoreConc.CCount ns key
  else if Command p =b CmdCountNamespace then StoreConc.CCountEntries ns
  else if Command p =b CmdCountServer then StoreConc.CCountServerEntries
  else if Command p =b CmdTCPOnlyNamespaces then StoreConc.CCleanup
  else StoreConc.CIdle.

Definition store_call (psk : bytes) (w : work) : StoreConc.call :=
  match w with
  | WCollect => StoreConc.CCleanup
  | WMessage m =>
      match received psk (Message m) with
      | Some (p, None) => packet_call p
      | _ => StoreConc.CIdle
      end
  end.

(** Not a request for keys, which walks a tree without its lock. *)
Definition locks (psk : bytes) (w : work) : Prop :=
  match w with
  | WCollect => True
  | WMessage m =>
      match received psk (Message m) with
      | Some (p, None) => Command p ≠ CmdTCPOnlyKeys
      | _ => True
      end
  end.

Lemma simulates_dispatch psk ps remote p :
  Command p ≠ CmdTCPOnlyKeys →
  simulates (dispatch_prog psk ps remote p) (StoreConc.store_program (packet_call p)).
Proof.
  intros Hkeys. unfold dispatch_prog, packet_call.
  assert (Hs : ∀ cmd data, silent (answer_prog remote p cmd data)) by (intros; apply silent_answer).
  destruct (Command p =b CmdPutReplicate); [by exists unit; eexists _, _, (λ _, StoreConc.AUnit)|].
  destruct (Command p =b CmdPut).
  { exists unit; eexists _, _, (λ _, StoreConc.AUnit). split; [reflexivity|]. split; [reflexivity|].
    intros _. apply silent_bind; [apply Hs|]. intros [u|]; [|done].
    case_bool_decide; [apply silent_republish|done]. }
  destruct (Command p =b CmdCount); [by exists Z; eexists _, _, StoreConc.AInt|].
  destruct (Command p =b CmdCountNamespace); [by exists Z; eexists _, _, StoreConc.AInt|].
  destruct (Command p =b CmdCountServer); [by exists Z; eexists _, _, StoreConc.AInt|].
  destruct (Command p =b CmdTCPOnlyKeys) eqn:E; [by apply byte_eqb_eq in E|].
  destruct (Command p =b CmdTCPOnlyNamespaces); [by exists (list bytes); eexists _, _, StoreConc.AKeys|].
  by apply simulates_silent.
Qed.

Lemma simulates_work psk ps w :
  locks psk w → simulates (work_program psk ps w) (StoreConc.store_program (store_call psk w)).
Proof.
  destruct w as [m|]; [|intros _; by exists (list bytes); eexists _, _, StoreConc.AKeys].
  cbn [locks store_call work_program]. unfold received, worker_prog. intros Hl.
  assert (Hs : ∀ p e, silent (answer_prog (Remote m) p ResError (ProtoErr_Error e)))
    by (intros; apply silent_answer).
  destruct (ParsePacket (Message m)) as [[[p|] [e|]]|]; try (by apply simulates_silent).
  set (q := match MaybeTcpClient m with Some _ => _ | None => _ end).
  assert (Hq : Validate q psk = Validate p psk ∧ packet_call q = packet_call p ∧ Command q = Command p)
    by (unfold q; by destruct (MaybeTcpClient m)).
  destruct Hq as (-> & Hcall & Hc).
  destruct (Validate p psk) as [[e|]|]; try (by apply simulates_silent).
  rewrite <- Hcall. apply simulates_dispatch. by rewrite Hc.
Qed.

(** The threads of the server and of the store, one for one. *)
Definition thread_sim psk (t : work * prog (go unit))
    (t' : StoreConc.call * Conc.prog (Store.Store T H) StoreConc.answer) : Prop :=
  t'.1 = store_call psk t.1 ∧ simulates t.2 t'.2.

Lemma workers_simulated psk ps s n cf :
  rtc (step (PG := work_program psk ps)) ([], (s, n)) cf → Forall (locks psk) cf.1.*1 →
  ∃ ts', StoreRaces.reaches (store s, n) ts' (store cf.2.1, cf.2.2) ∧ Forall2 (thread_sim psk) cf.1 ts'.
Proof.
  revert cf. apply (rtc_ind_r (λ cf, Forall (locks psk) cf.1.*1 → _)); [intros _; exists []; split; [apply rtc_refl|done]|].
  intros cf1 cf2 _ Hstep IH Hall.
  destruct Hstep as [w ts1 σ1|i w B m k ts1 [s1 n1] b [s2 n2] Hi Hm|ts1 s1 n1]; cbn [fst snd] in *.
  - rewrite fmap_app, Forall_app in Hall. destruct Hall as [Hall Hw].
    destruct (IH Hall) as (ts' & Hr & Hs). exists (ts' ++ [(store_call psk w, StoreConc.store_program (store_call psk w))]).
    split; [eapply rtc_r; [exact Hr|exact (step_start (PG := StoreConc.store_programs) (store_call psk w) ts' _)]|].
    apply Forall2_app; [done|]. constructor; [|constructor]. split; [done|].
    apply simulates_work. by inversion Hw.
  - assert (Hts : (<[i:=(w, k b)]> ts1).*1 = ts1.*1).
    { rewrite list_fmap_insert. apply list_insert_id. by rewrite list_lookup_fmap, Hi. }
    rewrite Hts in Hall. destruct (IH Hall) as (ts' & Hr & Hs).
    destruct (Forall2_lookup_l _ _ _ _ _ Hs Hi) as ([c pr'] & Hi' & Hc & Hsim). cbn [fst snd] in *.
    destruct (simulates_run1 _ pr' s1 n1 (k b) s2 n2 Hsim) as (pr1' & Hsim1 & Hcase); [cbn; by rewrite Hm|].
    exists (<[i:=(c, pr1')]> ts'). split; [|by apply Forall2_insert].
    unfold StoreRaces.reaches in *. etrans; [exact Hr|]. destruct Hcase as [(-> & -> & Hn)|Hrun].
    + rewrite list_insert_id by done. by apply steps_tick.
    + pose proof (step_run1 (PG := StoreConc.store_programs) ts' i c pr' (store s1, n1) Hi') as Hone. by rewrite Hrun in Hone.
  - destruct (IH Hall) as (ts' & Hr & Hs). exists ts'. split; [|done].
    eapply rtc_r; [exact Hr|apply step_tick].
Qed.

Lemma sims_calls psk ts ts' : Forall2 (thread_sim psk) ts ts' → ts'.*1 = store_call psk <$> ts.*1.
Proof. induction 1 as [|t t' ts ts' [Hc _] _ IH]; [done|]. cbn. by rewrite Hc, IH. Qed.

Lemma sims_finished psk ts ts' :
  Forall2 (thread_sim psk) ts ts' → forallb finished ts = true → forallb finished ts' = true.
Proof.
  induction 1 as [|[w pr] [c pr'] ts ts' [_ Hsim] _ IH]; [done|]. cbn.
  rewrite !andb_true_iff. intros [Hf Hfs]. split; [|by apply IH].
  exact (simulates_finished w c pr pr' Hsim Hf).
Qed.

(** ** Two puts to a new namespace *)

(** What a worker does after the put of the store. *)
Definition put_tail psk ps remote p : prog (go unit) :=
  r ← answer_prog remote p CmdPut [];
  match r with
  | Panic => mret Panic
  | Ret _ => if bool_decide (ps ≠ []) then republish_prog psk ps p else mret (Ret tt)
  end.

(** What is left of it when it has found that the namespace has no tree. *)
Definition put_late psk ps remote p : prog (go unit) :=
  on_store_prog (StoreRaces.Put_rest (NamespaceString p) (DataValueString p) None);;
  put_tail psk ps remote p.

Section Digest.
Context {digest : bytes} {XL : XXHashLaws digest}.

(** A worker with a put packet that asks for the tree of its namespace. *)
Lemma put_asks psk ps a id ns k s n :
  length id = 4%nat → (length ns ≤ 64)%nat → (length k ≤ 1419)%nat →
  hm_Get (Store.namespaces (store s)) (TrimSpace ns) = None →
  runs (PG := work_program psk ps)
    (work_program psk ps (WMessage (udp_message (datagram (digest := digest) CmdPut id ns k psk) a))) (s, n)
    (put_late psk ps (Some a) (parsed_packet (digest := digest) CmdPut id ns k psk)) (s, n).
Proof.
  intros Hid Hns Hk Hget. set (p := parsed_packet (digest := digest) CmdPut id ns k psk).
  assert (E : work_program psk ps (WMessage (udp_message (datagram (digest := digest) CmdPut id ns k psk) a))
              = dispatch_prog psk ps (Some a) p).
  { cbn [work_program]. unfold worker_prog. rewrite udp_message_datagram by done. rewrite ParsePacket_datagram by done.
    cbn [MaybeTcpClient Remote udp_message]. by rewrite Validate_parsed. }
  rewrite E. destruct (parsed_names (digest := digest) CmdPut id ns k psk) as [HN _].
  pose proof (runs_section (PG := work_program psk ps) (on_store (Store.namespaces_Get (NamespaceString p)))
    (λ r, on_store_prog (StoreRaces.Put_rest (NamespaceString p) (DataValueString p) r);; put_tail psk ps (Some a) p)
    (s, n)) as Hr.
  assert (Eg : on_store (Store.namespaces_Get (NamespaceString p)) (s, n) = (None, (s, n))).
  { unfold p. rewrite HN. unfold on_store, Store.namespaces_Get, mbind, M_bind, get, mret, M_ret.
    rewrite Hget. by destruct s. }
  rewrite Eg in Hr. exact Hr.
Qed.

Lemma late_put_runs psk ps a p s n st n' :
  Store.Put (NamespaceString p) (DataValueString p)
    (Store.with_fresh_tree (NamespaceString p) (store s), n) = (tt, (st, n')) →
  runs (PG := work_program psk ps) (put_late psk ps (Some a) p) (s, n)
    (put_tail psk ps (Some a) p) (set_store st s, n').
Proof.
  intros E. pose proof (runs_part (PG := work_program psk ps)
    (on_store_prog (StoreRaces.Put_rest (NamespaceString p) (DataValueString p) None))
    (λ _, put_tail psk ps (Some a) p) (s, n)) as Hr.
  rewrite alone_on_store_prog in Hr. unfold on_store in Hr. by rewrite StoreRaces.Put_rest_fresh, E in Hr.
Qed.

Lemma put_tail_runs a id ns k s n :
  length id = 4%nat → (length ns ≤ 64)%nat → (length k ≤ 1419)%nat → udp_write_ok n = true →
  runs (PG := work_program (preSharedKey s) [])
    (put_tail (preSharedKey s) [] (Some a) (parsed_packet (digest := digest) CmdPut id ns k (preSharedKey s))) (s, n)
    (Return (Ret tt))
    (emit [UDPDatagram (datagram (digest := digest) CmdPut id ns [] (preSharedKey s)) a] s, S n).
Proof.
  intros Hid Hns Hk Hok. set (p := parsed_packet (digest := digest) CmdPut id ns k (preSharedKey s)).
  pose proof (runs_to_the_end (PG := work_program (preSharedKey s) [])
    (put_tail (preSharedKey s) [] (Some a) p) (s, n)) as Hr.
  assert (E : alone (put_tail (preSharedKey s) [] (Some a) p) (s, n)
    = (Ret tt, (emit [UDPDatagram (datagram (digest := digest) CmdPut id ns [] (preSharedKey s)) a] s, S n))).
  { unfold put_tail. rewrite alone_bind. unfold answer_prog. rewrite alone_atomic. unfold mbind, M_bind, attempt.
    rewrite answer_eq by (try apply parsed_packet_wf; simpl; try done; by left; lia).
    rewrite answered_udp, Hok by done. unfold p. by rewrite reply_parsed. }
  by rewrite E in Hr.
Qed.
End Digest.

(** * Theorems *)

(** C13. The server under concurrency, reduced to its store. Provided no
    message is an accepted request for keys, which reads a tree without its
    lock: however the workers and the collector interleave, their critical
    sections and their writes to sockets, what has become of the store is what
    calls of the store alone can make of it, one call for each message and
    each run of the collector, which has returned when its goroutine is done. *)
Theorem workers_are_store_calls s n ts s' n' :
  rtc (step (PG := work_program (preSharedKey s) (peers s))) ([], (s, n)) (ts, (s', n')) →
  Forall (locks (preSharedKey s)) ts.*1 →
  ∃ ts', StoreRaces.reaches (store s, n) ts' (store s', n') ∧
    ts'.*1 = store_call (preSharedKey s) <$> ts.*1 ∧
    (forallb finished ts = true → forallb finished ts' = true).
Proof.
  intros Hsteps Hlocks.
  destruct (workers_simulated _ _ _ _ _ Hsteps Hlocks) as (ts' & Hr & Hs).
  exists ts'. split; [exact Hr|]. split; [by eapply sims_calls|]. by eapply sims_finished.
Qed.

(** A run of the collector, by its own goroutine or for a list of the
    namespaces. *)
Definition collects (psk : bytes) (w : work) : Prop := store_call psk w = StoreConc.CCleanup.

(** C4. Concurrent workers keep the puts to a known namespace: when the
    namespace has its tree, the collector does not run, and no message is an
    accepted request for the list of namespaces, which runs it too, or for
    keys, then however the workers interleave on the messages, once all are
    done a count of the server's store is exact: the entries from before, and
    one for each put or replication that was accepted. *)
Theorem workers_keep_known_puts s n log ns p ts s' n' :
  Store.store_rep n log (store s) → hm_Get (Store.namespaces (store s)) ns = Some p →
  rtc (step (PG := work_program (preSharedKey s) (peers s))) ([], (s, n)) (ts, (s', n')) →
  Forall (λ w, locks (preSharedKey s) w ∧ ¬ collects (preSharedKey s) w) ts.*1 →
  forallb finished ts = true →
  ∃ entries, entries.*1 ≡ₚ concat (StoreRaces.keys_put ns ∘ store_call (preSharedKey s) <$> ts.*1) ∧
    Forall (λ e, ∃ i, (n ≤ i < n')%nat ∧ e.2 = i64 (clock i + Store.expireAfterSecs (store s))) entries ∧
    ∀ k, (Store.Count ns k (store s', n')).1
         = Tree.count_key (Store.nslog log ns ++ entries) k (clock n').
Proof.
  intros Hrep Hp Hsteps Hall Hfin.
  assert (Hlocks : Forall (locks (preSharedKey s)) ts.*1) by (eapply Forall_impl; [exact Hall|by intros w []]).
  destruct (workers_simulated _ _ _ _ _ Hsteps Hlocks) as (ts' & Hr & Hs).
  destruct (StoreRaces.known_puts_are_kept n log (store s) ns p ts' (store s') n' Hrep Hp Hr) as (entries & He & Htimes & Hc).
  - rewrite (sims_calls _ _ _ Hs). intros (w & Hw & Hin)%list_elem_of_fmap.
    rewrite Forall_forall in Hall. by apply (Hall w Hin).
  - by eapply sims_finished.
  - exists entries. split; [|done]. rewrite He, (sims_calls _ _ _ Hs), <- list_fmap_compose. done.
Qed.

(** C14. An acknowledged put is lost: two workers of a server without peers take
    a put each to a namespace that has no tree. In some interleaving both find
    it missing, both are done, both clients get their acknowledgement, and the
    store represents the second put only. *)
Theorem acknowledged_put_is_lost {digest : bytes} {XL : XXHashLaws digest}
    log s n a1 a2 id1 id2 ns k1 k2 :
  (∀ i, udp_write_ok i = true) → peers s = [] →
  length id1 = 4%nat → length id2 = 4%nat → (length ns ≤ 64)%nat →
  (length k1 ≤ 1419)%nat → (length k2 ≤ 1419)%nat →
  Store.store_rep n log (store s) → hm_Get (Store.namespaces (store s)) (TrimSpace ns) = None →
  let put id k := datagram (digest := digest) CmdPut id ns k (preSharedKey s) in
  ∃ s' n' i, rtc (step (PG := work_program (preSharedKey s) (peers s))) ([], (s, n))
      ([(WMessage (udp_message (put id1 k1) a1), Return (Ret tt));
        (WMessage (udp_message (put id2 k2) a2), Return (Ret tt))], (s', n')) ∧
    sent s' = sent s ++ [UDPDatagram (put id1 []) a1; UDPDatagram (put id2 []) a2] ∧ (n ≤ i < n')%nat ∧
    Store.store_rep n' (log ++ [(TrimSpace ns, TrimSpace k2, i64 (clock i + Store.expireAfterSecs (store s)))])
      (store s').
Proof.
  intros Hnet Hpeers Hid1 Hid2 Hns Hk1 Hk2 Hrep Hget put. set (psk := preSharedKey s) in *. rewrite Hpeers.
  destruct (StoreRaces.fresh_puts_lose_one n log (store s) (TrimSpace ns) (TrimSpace k1) (TrimSpace k2) Hrep Hget)
    as (st1 & n1 & st2 & n2 & i & E1 & E2 & Hi & Hr).
  destruct (parsed_names (digest := digest) CmdPut id1 ns k1 psk) as [HN1 HD1].
  destruct (parsed_names (digest := digest) CmdPut id2 ns k2 psk) as [HN2 HD2].
  rewrite <- HN1, <- HD1 in E1. rewrite <- HN2, <- HD2 in E2. rename E1 into L1, E2 into L2.
  eexists _, (S (S n2)), i. split.
  - eapply rtc_l; [apply step_start|]. eapply rtc_l; [apply step_start|]. cbn [app].
    etrans; [by apply (put_asks psk [] a1 id1 ns k1 s n Hid1 Hns Hk1 Hget _ 0%nat)|].
    etrans; [by apply (put_asks psk [] a2 id2 ns k2 s n Hid2 Hns Hk2 Hget _ 1%nat)|]. cbn [insert list_insert].
    etrans; [by apply (late_put_runs psk [] a1 _ s n st1 n1 L1 _ 0%nat)|].
    etrans; [by apply (late_put_runs psk [] a2 _ (set_store st1 s) n1 st2 n2 L2 _ 1%nat)|]. cbn [insert list_insert].
    etrans; [by apply (put_tail_runs a1 id1 ns k1 (set_store st2 (set_store st1 s)) n2 Hid1 Hns Hk1 (Hnet _) _ 0%nat)|].
    etrans; [by apply (put_tail_runs a2 id2 ns k2
      (emit [UDPDatagram (put id1 []) a1] (set_store st2 (set_store st1 s))) (S n2) Hid2 Hns Hk2 (Hnet _) _ 1%nat)|].
    apply rtc_refl.
  - split; [|split; [lia|]].
    + cbn. by rewrite <- app_assoc.
    + apply (Store.store_rep_mono n2); [lia|exact Hr].
Qed.
End Facts.

(** * What the workers send

    Every response and replication of interleaved workers is warranted by a
    message that one of them handles, and no count overstates the puts. *)
Section Sent.
Context {T : Type → Type} {RB : RedBlackTree T} {RL : RedBlackTreeLaws T}
  {H : Type → Type} {HM : HashMap H} {HL : HashMapLaws H}
  {CK : Clock} {SW : Stopwatch} {RO : RangeOrder} {ROL : RangeOrderLaws}
  {RE : Regexp} {X : XXHash} {digest : bytes} {XL : XXHashLaws digest} {NW : Network}.
Implicit Types (s : Server T H) (n : nat) (m : RawMessage) (p q : Packet) (w : StoreRaces.world).

Abbreviation prog := (prog (Server T H)).

(** The commands that ask for a number. *)
Definition asks_count (c : Byte.byte) : bool :=
  (c =b CmdCount) || (c =b CmdCountNamespace) || (c =b CmdCountServer).

Definition unknown_command (c : Byte.byte) : bool :=
  negb ((c =b CmdPutReplicate) || (c =b CmdPut) || asks_count c || (c =b CmdTCPOnlyKeys)
        || (c =b CmdTCPOnlyNamespaces)).

(** What may be sent for the packet [q] from [a], which was refused with an
    error or accepted, when the puts called so far are [puts]. *)
Inductive warranted (psk : bytes) (ps : list Addr) (puts : list (bytes * bytes)) (a : Addr) (q : Packet)
    : option ProtoErr → Output → Prop :=
  | w_refused e :
      warranted psk ps puts a q (Some e)
        (output_to a q (reply (digest := digest) q ResError (ProtoErr_Error e) psk))
  | w_ack :
      Command q = CmdPut →
      warranted psk ps puts a q None (output_to a q (reply (digest := digest) q CmdPut [] psk))
  | w_replica peer :
      Command q = CmdPut → peer ∈ ps →
      warranted psk ps puts a q None (UDPDatagram (replica (digest := digest) q psk) peer)
  | w_count v :
      asks_count (Command q) = true →
      0 <= v <= tally (StoreRaces.about (packet_call q)) puts →
      warranted psk ps puts a q None
        (output_to a q (reply (digest := digest) q (Command q) (count_bytes v) psk))
  | w_namespaces names :
      Command q = CmdTCPOnlyNamespaces →
      warranted psk ps puts a q None
        (output_to a q (reply (digest := digest) q CmdTCPOnlyNamespaces (Join names x0a) psk))
  | w_unknown :
      unknown_command (Command q) = true →
      warranted psk ps puts a q None
        (output_to a q (reply (digest := digest) q ResError
                          (str "unknown_command_" ++ string_of_byte (Command q)) psk)).

(** A message that some worker of [ws] handles warrants the output. *)
Definition answers (psk : bytes) (ps : list Addr) (ws : list work) (puts : list (bytes * bytes))
    (o : Output) : Prop :=
  ∃ m a p e, WMessage m ∈ ws ∧ Remote m = Some a ∧ received psk (Message m) = Some (p, e) ∧
    warranted psk ps puts a (of_client m p) e o.

Lemma warranted_mono psk ps puts puts' a q e o :
  (∀ c, tally (StoreRaces.about c) puts <= tally (StoreRaces.about c) puts') →
  warranted psk ps puts a q e o → warranted psk ps puts' a q e o.
Proof.
  intros Hle Hw. destruct Hw as [e| |peer|v Hc Hv|names|]; try by constructor.
  apply w_count; [done|]. specialize (Hle (packet_call q)). lia.
Qed.

Lemma answers_mono psk ps ws puts puts' o :
  (∀ c, tally (StoreRaces.about c) puts <= tally (StoreRaces.about c) puts') →
  answers psk ps ws puts o → answers psk ps ws puts' o.
Proof.
  intros Hle (m & a & p & e & Hm & Ha & Hr & Hw). exists m, a, p, e. split; [done|].
  split; [done|]. split; [done|]. by eapply warranted_mono.
Qed.

(** The goroutines considered: no request for keys, and messages as the
    transports deliver them. *)
Definition orderly (psk : bytes) (w : work) : Prop :=
  locks psk w ∧ match w with WMessage m => deliverable m | WCollect => True end.

Lemma worker_prog_eq psk ps m p e :
  received psk (Message m) = Some (p, e) →
  worker_prog (T := T) (H := H) psk ps m
  = match e with
    | Some e => answer_prog (Remote m) (of_client m p) ResError (ProtoErr_Error e)
    | None => dispatch_prog psk ps (Remote m) (of_client m p)
    end.
Proof.
  unfold received, worker_prog, of_client. destruct (ParsePacket (Message m)) as [[[p'|] [e'|]]|]; try done.
  - by intros [= -> <-].
  - intros E. destruct (Validate p' psk) as [e'|] eqn:HV; [|done]. injection E as -> ->.
    assert (HV' : Validate (match MaybeTcpClient m with Some c => set_RequestClient (Some c) p | None => p end) psk
                  = Ret e) by (rewrite <- HV; by destruct (MaybeTcpClient m)).
    rewrite HV'. by destruct e.
Qed.

Lemma packet_call_of_client m p : packet_call (of_client m p) = packet_call p.
Proof. unfold of_client. by destruct (MaybeTcpClient m). Qed.

#[local] Instance grows_preorder : PreOrder StoreRaces.grows.
Proof. apply StoreRaces.grows_preorder. Qed.

(** ** The invariant of the server *)
Section Invariant.
Context (psk : bytes) (ps : list Addr) (ws : list work).

Definition honest w (σ : Server T H * nat) : Prop :=
  StoreRaces.bounded w (store σ.1, σ.2) ∧ preSharedKey σ.1 = psk ∧
  Forall (answers psk ps ws (StoreRaces.made w)) (sent σ.1).

Abbreviation safe_s := (safe StoreRaces.grows StoreRaces.made honest).
Abbreviation safe_w := (safe StoreRaces.grows StoreRaces.made StoreRaces.bounded).

Lemma answers_grow w w' o :
  StoreRaces.grows w w' → answers psk ps ws (StoreRaces.made w) o → answers psk ps ws (StoreRaces.made w') o.
Proof. intros [_ Hm]. apply answers_mono. intros c. by apply tally_prefix. Qed.

Lemma honest_tick w s n : honest w (s, n) → honest w (s, S n).
Proof. intros (Hb & Hk & Hs). split; [by apply StoreRaces.bounded_tick|done]. Qed.

(** A program that is safe on the store is safe on the server. *)
Lemma safe_on_store {A} (Q : StoreRaces.world → A → Prop) bud w (pr : Conc.prog (Store.Store T H) A) :
  safe_w Q bud w pr → safe_s Q bud w (on_store_prog pr).
Proof.
  revert bud w. induction pr as [r|B op k IH]; intros bud w Hs; [exact Hs|].
  intros w1 [s n] H1 (Hb & Hk & Ho). unfold on_store.
  destruct (Hs w1 (store s, n) H1 Hb) as (w2 & used & bud' & H2 & Hb2 & Hl & Hbud & Hk').
  destruct (op (store s, n)) as [b [st n']]. exists w2, used, bud'.
  split; [done|]. split; [|split; [done|]; split; [done|]; by apply IH].
  split; [done|]. split; [done|]. eapply Forall_impl; [exact Ho|]. intros o. by apply answers_grow.
Qed.

(** A write that is warranted. *)
Lemma safe_write {B : Set} (Q : StoreRaces.world → B → Prop) w (op : M (Server T H) B) (out : Output → Prop) :
  (∀ w' o, StoreRaces.grows w w' → out o → answers psk ps ws (StoreRaces.made w') o) →
  (∀ s n, preSharedKey s = psk →
    ∃ r os, op (s, n) = (r, (emit os s, S n)) ∧ Forall out os ∧ ∀ w', Q w' r) →
  safe_s Q [] w (atomic op).
Proof.
  intros Hout Hop. apply safe_quiet; [apply _|]. intros w1 [s n] H1 (Hb & Hk & Ho).
  destruct (Hop s n Hk) as (r & os & -> & Hos & HQ). split; [|intros; apply HQ].
  split; [by apply StoreRaces.bounded_tick|]. split; [done|]. apply Forall_app. split; [done|].
  eapply Forall_impl; [exact Hos|]. intros o. by apply Hout.
Qed.

Section Message.
Context (m : RawMessage) (a : Addr) (p : Packet) (e : option ProtoErr).
Hypotheses (Hm : WMessage m ∈ ws) (Ha : Remote m = Some a)
  (Hrec : received psk (Message m) = Some (p, e)) (Hwf : wf_packet (of_client m p)).
Let q := of_client m p.

Lemma safe_answer w cmd data :
  (RequestClient q = None → (length data ≤ 1419)%nat ∨ IsTcpOnlyCmd cmd = true) →
  (∀ w', StoreRaces.grows w w' →
    warranted psk ps (StoreRaces.made w') a q e (output_to a q (reply (digest := digest) q cmd data psk))) →
  safe_s (λ _ r, r = Ret tt) [] w (answer_prog (Some a) q cmd data).
Proof.
  intros Hfit Hw. apply (safe_write _ _ _ (λ o, o = output_to a q (reply (digest := digest) q cmd data psk))).
  - intros w' o H' ->. exists m, a, p, e. split; [done|]. split; [done|]. split; [done|]. by apply Hw.
  - intros s n Hk. unfold attempt. rewrite (answer_eq (digest := digest)), Hk by done.
    eexists _, _. split; [reflexivity|]. split; [|done]. unfold answered.
    destruct (write_ok n q); [by constructor|constructor].
Qed.

(** A call of the store, then its answer. *)
Lemma safe_query {A} (Q : StoreRaces.world → A → Prop) w pr cmd (data : A → bytes) :
  safe_w Q [] w pr →
  (∀ r, RequestClient q = None → (length (data r) ≤ 1419)%nat ∨ IsTcpOnlyCmd cmd = true) →
  (∀ r w1 w', StoreRaces.grows w1 w' → Q w1 r →
    warranted psk ps (StoreRaces.made w') a q e (output_to a q (reply (digest := digest) q cmd (data r) psk))) →
  safe_s (λ _ _, True) [] w (r ← on_store_prog pr; answer_prog (Some a) q cmd (data r)).
Proof.
  intros Hpr Hfit Hw. eapply safe_step; [apply _|by apply safe_on_store|].
  intros r w1 _ Hr. eapply safe_conseq; [apply _| |apply safe_answer; [apply Hfit|]]; [done|].
  intros w' H'. by apply (Hw r w1).
Qed.

Lemma safe_republish w : e = None → Command q = CmdPut →
  safe_s (λ _ _, True) [] w (republish_prog psk ps q).
Proof.
  intros He Hc. unfold republish_prog.
  destruct (replica_eq (digest := digest) q psk Hwf) as (q' & -> & Eb). cbn [mbind go_bind]. rewrite Eb.
  assert (Hall : Forall (λ peer, peer ∈ ps) ps) by (by apply Forall_forall).
  revert w. induction Hall as [|peer ps' Hpeer _ IH]; intros w; [done|]. cbn [republish_loop_prog].
  eapply safe_step with (Q := λ _ _, True); [apply _| |intros [] w1 _ _; [apply IH|done]].
  apply (safe_write _ _ _ (λ o, o = UDPDatagram (replica (digest := digest) q psk) peer)).
  - intros w' o _ ->. exists m, a, p, e. split; [done|]. split; [done|]. split; [done|].
    rewrite He. by constructor.
  - intros s n _. rewrite WriteToUDP_eq. eexists _, _. split; [reflexivity|]. split; [|done].
    destruct (udp_write_ok n); by repeat constructor.
Qed.

Lemma safe_put w : e = None → Command q = CmdPut →
  safe_s (λ _ _, True) [(NamespaceString q, DataValueString q)] w
    (on_store_prog (StoreConc.Put (NamespaceString q) (DataValueString q));; put_tail psk ps (Some a) q).
Proof.
  intros He Hc. apply (safe_bind _ _ _ (λ _ _, True) _ [(NamespaceString q, DataValueString q)] []).
  - apply safe_on_store, StoreRaces.safe_Put.
  - intros _ w1 _ _. eapply safe_step; [apply _|apply safe_answer|].
    + intros _. left. simpl. lia.
    + intros w' _. rewrite He. by constructor.
    + intros r w2 _ ->. case_bool_decide; [by apply safe_republish|done].
Qed.

Lemma count_fits c : (length (count_bytes c) ≤ 1419)%nat.
Proof. rewrite count_bytes_length. lia. Qed.

Lemma safe_dispatch w : e = None → Command q ≠ CmdTCPOnlyKeys →
  safe_s (λ _ _, True) (StoreRaces.put_of (packet_call q)) w (dispatch_prog psk ps (Some a) q).
Proof.
  intros He Hkeys. unfold dispatch_prog, packet_call.
  destruct (Command q =b CmdPutReplicate) eqn:E1.
  { apply (safe_bind _ _ _ (λ _ _, True) _ [(NamespaceString q, DataValueString q)] []); [|done].
    apply safe_on_store, StoreRaces.safe_Put. }
  destruct (Command q =b CmdPut) eqn:E2; [apply safe_put; [done|by apply byte_eqb_eq]|].
  assert (Hcount : ∀ c r w1 w', StoreRaces.grows w1 w' → asks_count (Command q) = true → packet_call q = c →
    0 <= r <= tally (StoreRaces.about c) (StoreRaces.made w1) →
    warranted psk ps (StoreRaces.made w') a q e
      (output_to a q (reply (digest := digest) q (Command q) (count_bytes r) psk))).
  { intros c r w1 w' Hg Hask Hc Hr. rewrite He. constructor; [done|]. rewrite Hc.
    by apply (StoreRaces.at_most_prefix c w1). }
  unfold packet_call in Hcount. rewrite E1, E2 in Hcount. unfold asks_count in Hcount.
  destruct (Command q =b CmdCount) eqn:E3.
  { eapply safe_query; [apply StoreRaces.safe_Count|intros; left; apply count_fits|].
    apply byte_eqb_eq in E3. rewrite <- E3. intros r w1 w' Hg Hr.
    by apply (Hcount (StoreConc.CCount (NamespaceString q) (DataValueString q)) r w1). }
  destruct (Command q =b CmdCountNamespace) eqn:E4.
  { eapply safe_query; [apply StoreRaces.safe_CountEntries|intros; left; apply count_fits|].
    apply byte_eqb_eq in E4. rewrite <- E4. intros r w1 w' Hg Hr.
    by apply (Hcount (StoreConc.CCountEntries (NamespaceString q)) r w1). }
  destruct (Command q =b CmdCountServer) eqn:E5.
  { eapply safe_query; [apply StoreRaces.safe_CountServerEntries|intros; left; apply count_fits|].
    apply byte_eqb_eq in E5. rewrite <- E5. intros r w1 w' Hg Hr.
    by apply (Hcount StoreConc.CCountServerEntries r w1). }
  destruct (Command q =b CmdTCPOnlyKeys) eqn:E6; [by apply byte_eqb_eq in E6|].
  destruct (Command q =b CmdTCPOnlyNamespaces) eqn:E7.
  { eapply safe_query; [apply StoreRaces.safe_runCleanup|by right|]. intros r w1 w' _ _.
    rewrite He. constructor. by apply byte_eqb_eq. }
  eapply safe_conseq; [apply _| |apply safe_answer]; [done|..].
  - intros _. left. unfold string_of_byte. destruct (_ <? 128); simpl; lia.
  - intros w' _. rewrite He. constructor. unfold unknown_command, asks_count. by rewrite E1, E2, E3, E4, E5, E6, E7.
Qed.
End Message.

Lemma safe_work w wk :
  wk ∈ ws → orderly psk wk →
  safe_s (λ _ _, True) (StoreRaces.put_of (store_call psk wk)) w (work_program psk ps wk).
Proof.
  intros Hin [Hl Hd]. destruct wk as [m|].
  - destruct Hd as [Hlen [a Ha]].
    destruct (received_long (digest := digest) psk (Message m) Hlen) as (p & e & Hrec & Hwf & _).
    apply (of_client_wf m) in Hwf. cbn [locks store_call work_program] in *. rewrite Hrec in Hl |- *.
    rewrite (worker_prog_eq psk ps m p e Hrec), Ha. destruct e as [e|].
    + eapply safe_conseq; [apply _| |eapply safe_answer]; try done.
      * intros _. left. pose proof (ProtoErr_length e). lia.
      * intros w' _. constructor.
    + rewrite <- (packet_call_of_client m). eapply safe_dispatch; try done.
      unfold of_client. by destruct (MaybeTcpClient m).
  - apply (safe_bind _ _ _ (λ _ _, True) _ [] []); [|done]. apply safe_on_store, StoreRaces.safe_runCleanup.
Qed.
End Invariant.

(** C18. What a server sends under concurrency: start a server and let its
    workers and its collector interleave in any way, on messages none of which
    is an accepted request for keys. Everything sent so far is warranted by a
    message that some worker handles: the error of a refused message, the
    acknowledgement of a put, its replication to one of the peers, a list of
    namespaces, the error of an unknown command, or a count, which is between
    zero and the number of puts and replications of its key, its namespace or
    the server that were accepted. A replication is answered with nothing. *)
Theorem workers_send_what_is_warranted ttl psk self peerList s0 n0 ts s' n' :
  NewServerWithPeers ttl psk self peerList = Ret s0 →
  rtc (step (PG := work_program psk (peers s0))) ([], (s0, n0)) (ts, (s', n')) →
  Forall (orderly psk) ts.*1 →
  Forall (answers psk (peers s0) ts.*1 (concat (StoreRaces.put_of ∘ store_call psk <$> ts.*1))) (sent s').
Proof.
  intros Hnew Hsteps Hall. destruct (NewServerWithPeers_state _ _ _ _ _ Hnew) as (Hst & Hpsk & Hsent & _).
  set (ps := peers s0) in *. set (ws := ts.*1) in *.
  assert (HI : honest psk ps ws (StoreRaces.mkWorld ∅ []) (s0, n0)).
  { split; [cbn [fst snd]; rewrite Hst; apply StoreRaces.bounded_New|]. split; [done|]. cbn [fst]. by rewrite Hsent. }
  destruct (steps_safe (PG := work_program psk ps) StoreRaces.grows StoreRaces.made (honest psk ps ws)
    (λ wk, wk ∈ ws ∧ orderly psk wk) (λ _ _ _, True) (StoreRaces.put_of ∘ store_call psk) (honest_tick psk ps ws)
    (λ wk w Hwk, safe_work psk ps ws w wk (proj1 Hwk) (proj2 Hwk)) _ _ _ HI Hsteps) as (w & buds & _ & Hh & _ & Hl).
  { apply Forall_forall. intros wk Hwk. split; [done|]. rewrite Forall_forall in Hall. by apply Hall. }
  destruct Hh as (_ & _ & Hs). eapply Forall_impl; [exact Hs|]. intros o. apply answers_mono. intros c.
  change (StoreRaces.made (StoreRaces.mkWorld ∅ [])) with (@nil (bytes * bytes)) in Hl. cbn [app] in Hl.
  rewrite <- (tally_perm (StoreRaces.about c) _ _ Hl), tally_app.
  pose proof (tally_nonneg (StoreRaces.about c) (concat buds)). lia.
Qed.
End Sent.

(** ** Witnesses

    The server of [ServerWitness] with a tree for the namespace "default". *)
Module ServerConcWitness.
Import Concrete ConcreteClock ServerWitness.

#[local] Existing Instance reliable.

Definition stocked : Server (gmap bytes) (gmap bytes) :=
  set_store (Store.with_fresh_tree (str "default") (store server0)) server0.

Lemma stocked_rep : Store.store_rep 0 [] (store stocked).
Proof. apply (StoreRaces.fresh_tree_rep 0 [] []); [exact server0_rep|done|apply Tree.rep_New]. Qed.

Definition works : list work :=
  (λ b, WMessage (udp_message b sender)) <$>
    [dg CmdPut "default" "a"; dg CmdPutReplicate "default" "a"; dg CmdCount "default" "a"].

(** The three workers take turns. *)
Definition schedule : list (event work) :=
  (EStart <$> works) ++ concat (replicate 5 [ERun 0; ERun 1; ERun 2]).

Definition finish := exec (PG := work_program psk (peers server0)) schedule ([], (stocked, 0%nat)).

Lemma finish_steps : rtc (step (PG := work_program psk (peers server0))) ([], (stocked, 0%nat)) finish.
Proof. apply exec_steps. Qed.

Lemma finish_works : finish.1.*1 = works.
Proof. vm_compute. reflexivity. Qed.

Lemma works_lock : Forall (λ w, locks psk w ∧ ¬ collects psk w) works.
Proof.
  repeat apply Forall_cons_2; [..|apply Forall_nil_2].
  all: split; [vm_compute; discriminate|]. all: unfold collects; vm_compute; discriminate.
Qed.

Lemma workers_keep_known_puts_witness :
  ∃ entries n', entries.*1 = [str "a"; str "a"] ∧
    (Store.Count (str "default") (str "a") (store finish.2.1, n')).1 = Tree.count_key entries (str "a") (clock n').
Proof.
  assert (Hg : hm_Get (Store.namespaces (store stocked)) (str "default") = Some 0%nat) by (vm_compute; reflexivity).
  assert (Hf : forallb finished finish.1 = true) by (vm_compute; reflexivity).
  pose proof finish_steps as Hsteps. pose proof works_lock as Hw. rewrite <- finish_works in Hw.
  pose proof finish_works as Hworks.
  destruct finish as [ts [s' n']]. cbn [fst snd] in *.
  destruct (workers_keep_known_puts stocked 0 [] (str "default") 0%nat ts s' n' stocked_rep Hg Hsteps Hw Hf)
    as (entries & He & _ & Hk).
  exists entries, n'. split; [|exact (Hk (str "a"))].
  rewrite Hworks in He. replace (concat _) with [str "a"; str "a"] in He by (vm_compute; reflexivity).
  symmetry in He. apply Permutation_length_2_inv in He. destruct He as [E|E]; exact E.
Defined.

Lemma workers_are_store_calls_witness :
  ∃ ts' s' n', StoreRaces.reaches (store stocked, 0%nat) ts' (store s', n') ∧
    ts'.*1 = [StoreConc.CPut (str "default") (str "a"); StoreConc.CPut (str "default") (str "a");
              StoreConc.CCount (str "default") (str "a")] ∧
    s' = finish.2.1.
Proof.
  pose proof finish_steps as Hsteps. pose proof works_lock as Hw. rewrite <- finish_works in Hw.
  pose proof finish_works as Hworks.
  assert (Hcalls : store_call psk <$> works
    = [StoreConc.CPut (str "default") (str "a"); StoreConc.CPut (str "default") (str "a");
       StoreConc.CCount (str "default") (str "a")]) by (vm_compute; reflexivity).
  destruct finish as [ts [s' n']]. cbn [fst snd] in *.
  destruct (workers_are_store_calls stocked 0 ts s' n' Hsteps) as (ts' & Hr & Hc & _).
  { eapply Forall_impl; [exact Hw|]. intros w [Hl _]. exact Hl. }
  exists ts', s', n'. split; [exact Hr|]. split; [|reflexivity].
  change (preSharedKey stocked) with psk in Hc. rewrite Hworks, Hcalls in Hc. exact Hc.
Defined.

(** On the new server: the replication is stored, then the put and the count
    take turns, and the count is sent between the put's acknowledgement and
    its replications. *)
Definition busy := exec (PG := work_program psk (peers server0))
  ((EStart <$> works) ++ replicate 5 (ERun 1) ++ concat (replicate 9 [ERun 0; ERun 2])) ([], (server0, 0%nat)).

Lemma busy_steps : rtc (step (PG := work_program psk (peers server0))) ([], (server0, 0%nat)) busy.
Proof. apply exec_steps. Qed.

Lemma busy_works : busy.1.*1 = works.
Proof. vm_compute. reflexivity. Qed.

Lemma busy_sent : sent busy.2.1
  = [UDPDatagram (dg CmdPut "default" "") sender; count_datagram 2;
     UDPDatagram (dg CmdPutReplicate "default" "a") (mkAddr (Some (mkIPv4 10 0 0 1)) 3509);
     UDPDatagram (dg CmdPutReplicate "default" "a") (mkAddr (Some (mkIPv4 10 0 0 3)) 80)].
Proof. vm_compute. reflexivity. Qed.

Lemma works_orderly : Forall (orderly psk) works.
Proof.
  assert (Hd : Forall (λ w, match w with WMessage m => deliverable m | WCollect => True end) works)
    by (apply Forall_fmap, Forall_true; intros b; apply udp_message_deliverable).
  pose proof works_lock as Hl. rewrite Forall_forall in Hd, Hl. apply Forall_forall. intros w Hw.
  split; [apply (Hl w Hw)|apply (Hd w Hw)].
Qed.

Lemma workers_send_what_is_warranted_witness :
  Forall (answers (digest := empty_digest) psk (peers server0) works
            [(str "default", str "a"); (str "default", str "a")])
    [UDPDatagram (dg CmdPut "default" "") sender; count_datagram 2;
     UDPDatagram (dg CmdPutReplicate "default" "a") (mkAddr (Some (mkIPv4 10 0 0 1)) 3509);
     UDPDatagram (dg CmdPutReplicate "default" "a") (mkAddr (Some (mkIPv4 10 0 0 3)) 80)].
Proof.
  pose proof busy_steps as Hsteps. pose proof works_orderly as Hw. rewrite <- busy_works in Hw.
  pose proof busy_works as Hworks. rewrite <- busy_sent.
  assert (Hputs : concat (StoreRaces.put_of ∘ store_call psk <$> works)
    = [(str "default", str "a"); (str "default", str "a")]) by (vm_compute; reflexivity).
  rewrite <- Hputs, <- Hworks. clear Hputs Hworks. destruct busy as [ts [s' n']]. cbn [fst snd] in *.
  exact (workers_send_what_is_warranted (digest := empty_digest) 60 psk self peerList server0 0 ts s' n'
    eq_refl Hsteps Hw).
Defined.

Definition lonely : Server (gmap bytes) (gmap bytes) := set_peers [] server0.

Lemma acknowledged_put_is_lost_witness :
  ∃ (s' : Server (gmap bytes) (gmap bytes)) n' e,
    sent s' = [UDPDatagram (dg CmdPut "default" "") sender; UDPDatagram (dg CmdPut "default" "") sender] ∧
    Store.store_rep n' [(str "default", str "b", e)] (store s').
Proof.
  destruct (acknowledged_put_is_lost (NW := reliable) (digest := empty_digest) [] lonely 0 sender sender id1 id1
    (str "default") (str "a") (str "b") (λ _, eq_refl) eq_refl eq_refl eq_refl ltac:(simpl; lia) ltac:(simpl; lia)
    ltac:(simpl; lia) server0_rep ltac:(vm_compute; reflexivity)) as (s' & n' & i & _ & Hs & _ & Hr).
  eexists s', n', _. split; [exact Hs|exact Hr].
Defined.
End ServerConcWitness.
