(* ===== verification/Rest.v ===== *)
(** * The REST interface: [src/server/restserver.go]

    A request is its method, its path and its decoded query; a response is a
    status and the value that is encoded as JSON. The handlers act on the
    store of the server. *)
From Stdlib Require Import ZArith Lia Strings.Byte.
From stdpp Require Import base gmap list strings sorting.
From coqutil Require Import Byte LittleEndianList.
From S2P Require Import Prelude GoStd Deps Protocol Env RawMessage Server.
From S2P Require Tree Store.
Local Open Scope Z_scope.
Local Open Scope go_scope.

Record Request := mkRequest {
  Method : bytes;
  Path : bytes;
  Query : list (bytes * bytes)
}.

(** [queryParams.Get(key)]: the first value, or the empty string. *)
Fixpoint Query_Get (q : list (bytes * bytes)) (key : bytes) : bytes :=
  match q with
  | [] => []
  | (k, v) :: q' => if bool_decide (k = key) then v else Query_Get q' key
  end.

Inductive Body :=
  | BaseResponse (Message Details : bytes)
  | CountResponse (Count : Z)
  | ListResponse (List : list bytes).

Record Response := mkResponse { Status : Z; JSON : Body }.

Definition StatusOK : Z := 200.
Definition StatusBadRequest : Z := 400.
Definition StatusNotFound : Z := 404.
Definition StatusMethodNotAllowed : Z := 405.

Definition MethodGet : bytes := str "GET".

(** [strings.Trim(s, cut)] with the cutset of a space and a newline. *)
Definition trim_param (s : bytes) : bytes := Trim s [x20; x0a].

Section Rest.
Context {T : Type → Type} {RB : RedBlackTree T} {H : Type → Type} {HM : HashMap H}
  {CK : Clock} {SW : Stopwatch} {RO : RangeOrder} {RE : Regexp}.

Definition MethodNotAllowedHandler (r : Request) : M (Server T H) Response :=
  mret (mkResponse StatusMethodNotAllowed
          (BaseResponse (str "Method not allowed") (Method r ++ x20 :: Path r))).

Definition NotMatchedHandler (r : Request) : M (Server T H) Response :=
  mret (mkResponse StatusNotFound
          (BaseResponse (str "Route not matched") (Method r ++ x20 :: Path r))).

Definition GetBaseHandler : M (Server T H) Response :=
  mret (mkResponse StatusOK
          (BaseResponse (str "OK")
             (str "Dracula rest server - Routes:  GET /namespaces, GET /count, GET /put"))).

Definition CountHandler (r : Request) : M (Server T H) Response :=
  let namespace := trim_param (Query_Get (Query r) (str "namespace")) in
  let pattern := trim_param (Query_Get (Query r) (str "pattern")) in
  if bool_decide (namespace = [] ∨ pattern = []) then
    mret (mkResponse StatusBadRequest
            (BaseResponse (str "Bad request") (str "namespace and pattern query params are required")))
  else
    count ← on_store (Store.Count namespace pattern);
    mret (mkResponse StatusOK (CountResponse count)).

Definition PutHandler (r : Request) : M (Server T H) Response :=
  let namespace := trim_param (Query_Get (Query r) (str "namespace")) in
  let key := trim_param (Query_Get (Query r) (str "key")) in
  if bool_decide (namespace = [] ∨ key = []) then
    mret (mkResponse StatusBadRequest
            (BaseResponse (str "Bad request") (str "namespace and key query params are required")))
  else
    on_store (Store.Put namespace key);;
    count ← on_store (Store.Count namespace key);
    mret (mkResponse StatusOK (CountResponse count)).

Definition NamespacesHandler : M (Server T H) Response :=
  namespaces ← on_store Store.Namespaces;
  mret (mkResponse StatusOK (ListResponse namespaces)).

Definition restServer (r : Request) : M (Server T H) Response :=
  let get_only (h : M (Server T H) Response) :=
    if bool_decide (Method r = MethodGet) then h else MethodNotAllowedHandler r in
  if bool_decide (Path r = str "/") then get_only GetBaseHandler
  else if bool_decide (Path r = str "/count") then get_only (CountHandler r)
  else if bool_decide (Path r = str "/put") then get_only (PutHandler r)
  else if bool_decide (Path r = str "/namespaces") then get_only NamespacesHandler
  else NotMatchedHandler r.
End Rest.

(** * Properties *)

Section RestFacts.
Context {T : Type → Type} {RB : RedBlackTree T} {RL : RedBlackTreeLaws T}
  {H : Type → Type} {HM : HashMap H} {HL : HashMapLaws H}
  {CK : Clock} {CM : ClockMono} {SW : Stopwatch} {RO : RangeOrder} {ROL : RangeOrderLaws}
  {RE : Regexp} {X : XXHash} {digest : bytes} {XL : XXHashLaws digest} {NW : Network}.
Implicit Types (s : Server T H) (n : nat) (r : Request).

Lemma on_store_eq {A} (m : M (Store.Store T H) A) s n a st n' :
  m (store s, n) = (a, (st, n')) → on_store m (s, n) = (a, (set_store st s, n')).
Proof. intros E. unfold on_store. by rewrite E. Qed.

(** The routes with their required parameters. *)
Definition route (path : bytes) : option (list bytes) :=
  if bool_decide (path = str "/") then Some []
  else if bool_decide (path = str "/count") then Some [str "namespace"; str "pattern"]
  else if bool_decide (path = str "/put") then Some [str "namespace"; str "key"]
  else if bool_decide (path = str "/namespaces") then Some []
  else None.

(** The status a request gets. *)
Definition expected_status r : Z :=
  match route (Path r) with
  | None => StatusNotFound
  | Some params =>
      if bool_decide (Method r = MethodGet) then
        if bool_decide (Forall (λ k, trim_param (Query_Get (Query r) k) ≠ []) params)
        then StatusOK else StatusBadRequest
      else StatusMethodNotAllowed
  end.

(** The outcome of a handler with required parameters. *)
Definition handled params r s n (resp : Response) s' n' : Prop :=
  Status resp = (if bool_decide (Forall (λ k, trim_param (Query_Get (Query r) k) ≠ []) params)
                 then StatusOK else StatusBadRequest) ∧
  (Status resp ≠ StatusOK → s' = s ∧ n' = n) ∧ sent s' = sent s ∧ peers s' = peers s.

Lemma two_params (P : bytes → Prop) `{!∀ k, Decision (P k)} (x y : bytes) :
  bool_decide (Forall (λ k, ¬ P k) [x; y]) = negb (bool_decide (P x ∨ P y)).
Proof.
  case_bool_decide as HF; case_bool_decide as HP; try done.
  - apply Forall_cons in HF as [? HF]. apply Forall_cons in HF as [? _]. tauto.
  - destruct HF. repeat constructor; tauto.
Qed.

Lemma CountHandler_spec r s n resp s' n' :
  CountHandler r (s, n) = (resp, (s', n')) →
  handled [str "namespace"; str "pattern"] r s n resp s' n'.
Proof.
  unfold CountHandler, handled. rewrite (two_params (λ k, trim_param (Query_Get (Query r) k) = [])).
  case_bool_decide; cbn [negb]; [by intros [= <- <- <-]|].
  unfold mbind, M_bind, on_store. destruct (Store.Count _ _ _) as [c [st n1]].
  by intros [= <- <- <-].
Qed.

Lemma PutHandler_spec r s n resp s' n' :
  PutHandler r (s, n) = (resp, (s', n')) →
  handled [str "namespace"; str "key"] r s n resp s' n'.
Proof.
  unfold PutHandler, handled. rewrite (two_params (λ k, trim_param (Query_Get (Query r) k) = [])).
  case_bool_decide; cbn [negb]; [by intros [= <- <- <-]|].
  unfold mbind, M_bind, on_store. destruct (Store.Put _ _ _) as [[] [st1 n1]].
  cbn [store set_store]. destruct (Store.Count _ _ _) as [c [st2 n2]].
  by intros [= <- <- <-].
Qed.

Lemma NamespacesHandler_spec r s n resp s' n' :
  NamespacesHandler (s, n) = (resp, (s', n')) → handled [] r s n resp s' n'.
Proof.
  unfold NamespacesHandler, mbind, M_bind, on_store.
  destruct (Store.Namespaces _) as [c [st n1]]. by intros [= <- <- <-].
Qed.

(** A request that puts [key] into [ns] over HTTP. *)
Record puts r ns key : Prop := {
  puts_path : Path r = str "/put";
  puts_method : Method r = MethodGet;
  puts_namespace : trim_param (Query_Get (Query r) (str "namespace")) = ns;
  puts_key : trim_param (Query_Get (Query r) (str "key")) = key;
  puts_named : ns ≠ [] ∧ key ≠ []
}.

Lemma restServer_put log s n r ns key :
  Store.store_rep n log (store s) → puts r ns key →
  ∃ m n1 st n' e, (n ≤ m < n1)%nat ∧ e = i64 (clock m + Store.expireAfterSecs (store s)) ∧
    restServer r (s, n)
    = (mkResponse StatusOK
         (CountResponse (Tree.count_key (Store.nslog log ns) key (clock n1)
                         + if clock n1 <? e then 1 else 0)), (set_store st s, n')) ∧
    Store.store_rep n' (log ++ [(ns, key, e)]) st.
Proof.
  intros Hr [Hpath Hm Hns Hkey [Hns0 Hkey0]]. unfold restServer. rewrite Hpath, Hm.
  rewrite (bool_decide_eq_false_2 (str "/put" = str "/")) by done.
  rewrite (bool_decide_eq_false_2 (str "/put" = str "/count")) by done.
  rewrite (bool_decide_eq_true_2 (str "/put" = str "/put")) by done.
  rewrite (bool_decide_eq_true_2 (MethodGet = MethodGet)) by done. cbn iota.
  unfold PutHandler. rewrite Hns, Hkey, bool_decide_eq_false_2 by tauto.
  destruct (Store.Put ns key (store s, n)) as [[] [st1 n1]] eqn:EP.
  rewrite (M_bind_eq _ _ _ _ _ (on_store_eq _ _ _ _ _ _ EP)).
  destruct (Store.Put_rep _ _ _ _ _ _ _ _ Hr EP) as (Hn & _ & m & Hmn & Hr1).
  destruct (Store.Count ns key (st1, n1)) as [c [st2 n2]] eqn:EC.
  rewrite (M_bind_eq _ _ (set_store st1 s, n1) _ _ (on_store_eq _ (set_store st1 s) _ _ _ _ EC)).
  destruct (Store.Count_rep _ _ _ _ _ _ _ _ Hr1 EC) as (_ & _ & Hr2 & ->).
  eexists m, n1, st2, n2, _. split; [exact Hmn|]. split; [reflexivity|]. split; [|exact Hr2].
  unfold mret, M_ret. do 4 f_equal. rewrite Store.nslog_app, Store.nslog_one, decide_True by done.
  rewrite Tree.count_key_app, Tree.count_key_cons. cbn [fst snd].
  destruct (Z.ltb_spec (clock n1) (i64 (clock m + Store.expireAfterSecs (store s))));
    [rewrite decide_True by done | rewrite decide_False by (intros [? ?]; lia)];
    by rewrite Tree.count_key_nil.
Qed.

(** A name that a packet with fields of [64] and [1419] bytes cannot carry: a
    packet loses the white space around its names. *)
Definition unnameable (ns key : bytes) : Prop :=
  TrimSpace ns ≠ ns ∨ TrimSpace key ≠ key ∨ (64 < length ns)%nat ∨ (1419 < length key)%nat.

Lemma unnameable_not_counted log ns key e ns' key' now :
  unnameable ns key → (length ns' ≤ 64)%nat → (length key' ≤ 1419)%nat →
  Tree.count_key (Store.nslog (log ++ [(ns, key, e)]) (TrimSpace ns')) (TrimSpace key') now
  = Tree.count_key (Store.nslog log (TrimSpace ns')) (TrimSpace key') now.
Proof.
  intros Hname Hl1 Hl2. rewrite Store.nslog_app, Store.nslog_one.
  destruct (decide (ns = TrimSpace ns')) as [Hn|]; [|by rewrite app_nil_r].
  rewrite Tree.count_key_app, Tree.count_key_cons, decide_False; [rewrite Tree.count_key_nil; lia|].
  cbn [fst]. intros [Hk _]. pose proof (TrimSpace_length ns'). pose proof (TrimSpace_length key').
  destruct Hname as [Hx|[Hx|[Hx|Hx]]]; [apply Hx; rewrite Hn| apply Hx; rewrite Hk
    | rewrite Hn in Hx; lia | rewrite Hk in Hx; lia]; apply TrimSpace_idemp.
Qed.

(** * Theorems *)

(** C39. Routing: the status of every request is determined by its path, its
    method and its required parameters: 404 for an unknown path, 405 for a
    method other than GET, 400 for a missing or blank parameter, 200
    otherwise. A request that is refused leaves the server as it was, and no
    request writes to a socket, so puts over HTTP are not replicated to the
    peers. *)
Theorem restServer_status r s n resp s' n' :
  restServer r (s, n) = (resp, (s', n')) →
  Status resp = expected_status r ∧
  (Status resp ≠ StatusOK → s' = s ∧ n' = n) ∧
  sent s' = sent s ∧ peers s' = peers s.
Proof.
  unfold restServer, expected_status, route.
  generalize (bool_decide (Path r = str "/")) as at_base.
  generalize (bool_decide (Path r = str "/count")) as at_count.
  generalize (bool_decide (Path r = str "/put")) as at_put.
  generalize (bool_decide (Path r = str "/namespaces")) as at_ns.
  generalize (bool_decide (Method r = MethodGet)) as is_get.
  intros is_get at_ns at_put at_count at_base.
  destruct at_base; [by destruct is_get; intros [= <- <- <-]|].
  destruct at_count; [destruct is_get; [apply CountHandler_spec | by intros [= <- <- <-]]|].
  destruct at_put; [destruct is_get; [apply PutHandler_spec | by intros [= <- <- <-]]|].
  destruct at_ns; [destruct is_get; [apply (NamespacesHandler_spec r) | by intros [= <- <- <-]]|].
  by intros [= <- <- <-].
Qed.

(** Names over HTTP that no packet can carry: the parameters lose spaces
    and newlines at their ends only, while the namespace and the key of a
    packet lose all white space and are at most 64 and 1419 bytes long. So a
    put over HTTP of a name that ends in another white space, or is longer, is
    stored and counted in the response to it, and every count request over UDP
    is answered as if it had never been put. *)
Theorem http_name_out_of_reach log s n r ns key a id ns' key' :
  unnameable ns key → puts r ns key → Store.store_rep n log (store s) → (∀ i, udp_write_ok i = true) →
  length id = 4%nat → (length ns' ≤ 64)%nat → (length key' ≤ 1419)%nat →
  let answer v := datagram (digest := digest) CmdCount id ns' (Uint32ToBytes v) (preSharedKey s) in
  ∃ m n1 e s1 n2 s2 n3, e = i64 (clock m + Store.expireAfterSecs (store s)) ∧
    restServer r (s, n)
    = (mkResponse StatusOK
         (CountResponse (Tree.count_key (Store.nslog log ns) key (clock n1)
                         + if clock n1 <? e then 1 else 0)), (s1, n2)) ∧
    Store.store_rep n2 (log ++ [(ns, key, e)]) (store s1) ∧
    worker_step (udp_message (datagram (digest := digest) CmdCount id ns' key' (preSharedKey s)) a) (s1, n2)
    = Ret (tt, (s2, n3)) ∧
    sent s2 = sent s ++ [UDPDatagram (answer (Z.min
      (Tree.count_key (Store.nslog log (TrimSpace ns')) (TrimSpace key') (clock n2)) MaxUint32)) a].
Proof.
  intros Hname Hput Hr Hnet Hid Hl1 Hl2 answer.
  destruct (restServer_put _ _ _ _ _ _ Hr Hput) as (m & n1 & st & n2 & e & _ & He & Ep & Hr1).
  destruct (worker_step_count (log ++ [(ns, key, e)]) (set_store st s) n2 a id ns' key' Hid Hl1 Hl2 Hr1)
    as (st2 & n3 & _ & _ & Ew). cbn zeta in Ew. rewrite unnameable_not_counted, Hnet in Ew by done.
  by eexists m, n1, e, (set_store st s), n2, _, (S n3).
Qed.
End RestFacts.

(** ** Witnesses *)
Module RestWitness.
Import Concrete ConcreteClock ServerWitness.

Definition put_request (key : bytes) : Request :=
  mkRequest MethodGet (str "/put") [(str "namespace", str " default"); (str "key", key)].

Lemma restServer_status_witness :
  expected_status (put_request (str " ")) = 400 ∧
  (restServer (put_request (str " ")) (server0, 0%nat)).2.1 = server0.
Proof.
  split; [reflexivity|].
  destruct (restServer (put_request (str " ")) (server0, 0%nat)) as [resp [s' n']] eqn:E.
  destruct (restServer_status _ _ _ _ _ _ E) as (Hs & Hsame & _).
  destruct Hsame as [-> _]; [|done]. rewrite Hs. discriminate.
Defined.

#[local] Existing Instance reliable.

(** The key "a" with a tab, put over HTTP, then the key "a" asked over UDP. *)
Definition tab_request : Request := put_request [x61; x09].

Lemma http_name_out_of_reach_witness :
  ∃ c (s1 s2 : Server (gmap bytes) (gmap bytes)) n2 n3,
    restServer tab_request (server0, 0%nat) = (mkResponse StatusOK (CountResponse c), (s1, n2)) ∧
    worker_step (udp_message (datagram (digest := empty_digest) CmdCount id1 (str "default") (str "a") psk) sender)
      (s1, n2) = Ret (tt, (s2, n3)) ∧
    sent s2 = [UDPDatagram (datagram (digest := empty_digest) CmdCount id1 (str "default")
                              (Uint32ToBytes 0) psk) sender].
Proof.
  assert (Hname : unnameable (str "default") [x61; x09]).
  { right. left. vm_compute. discriminate. }
  assert (Hput : puts tab_request (str "default") [x61; x09]) by (split; [reflexivity..|split; discriminate]).
  destruct (http_name_out_of_reach (NW := reliable) (digest := empty_digest) [] server0 0 tab_request (str "default") [x61; x09]
    sender id1 (str "default") (str "a") Hname Hput server0_rep ltac:(reflexivity) eq_refl
    ltac:(simpl; lia) ltac:(simpl; lia)) as (m & n1 & e & s1 & n2 & s2 & n3 & _ & E1 & _ & E2 & Hs).
  eexists _, s1, s2, n2, n3. split; [exact E1|]. split; [exact E2|exact Hs].
Defined.
End RestWitness.
