(* ===== verification/WaitingMessage.v ===== *)
(** * Requests in flight: [src/client/waitingmessage/waitingmessage.go]

    A [ResponseCache] maps message ids to the callbacks of the requests that
    wait for a response. What a run of the cleanup sends on the channel
    [TimedOutMessages] is its result; [scheduled] counts the runs that are
    pending on a timer. Callbacks are of any type [CB]. *)
From Stdlib Require Import ZArith Lia.
From stdpp Require Import base gmap list fin_maps.
From S2P Require Import Prelude Env.
From Stdlib Require Import Permutation.
Local Open Scope Z_scope.

Inductive CacheErr := ErrMessageIDExists | ErrMessageExpired | ErrNoMessage.

(** Durations are in nanoseconds. *)
Definition Second : Z := 10 ^ 9.
Definition cleanupEveryDefault : Z := 10 * Second.

Section Cache.
Context {CK : Clock} {RO : RangeOrder} {CB : Type}.

Record waitingMessage := mkWaiting { Callback : CB; CreatedSecs : Z }.

Record ResponseCache := mkCache {
  cache : gmap Z waitingMessage;
  disposed : bool;
  cleanupEvery : Z;
  timeoutSecs : Z;
  open : bool; (* TimedOutMessages is open *)
  scheduled : nat
}.

Definition set_cache (c : gmap Z waitingMessage) (rc : ResponseCache) : ResponseCache :=
  mkCache c (disposed rc) (cleanupEvery rc) (timeoutSecs rc) (open rc) (scheduled rc).
Definition set_scheduled (f : nat → nat) (rc : ResponseCache) : ResponseCache :=
  mkCache (cache rc) (disposed rc) (cleanupEvery rc) (timeoutSecs rc) (open rc) (f (scheduled rc)).

Definition Len : M ResponseCache Z := rc ← get; mret (Z.of_nat (size (cache rc))).

Definition Add (messageID : Z) (cb : CB) : M ResponseCache (option CacheErr) :=
  rc ← get;
  match cache rc !! messageID with
  | Some _ => mret (Some ErrMessageIDExists)
  | None =>
      t ← now;
      modify (set_cache (<[messageID := mkWaiting cb t]> (cache rc)));;
      mret None
  end.

Definition Pull (messageID : Z) : M ResponseCache (CB + CacheErr) :=
  rc ← get;
  match cache rc !! messageID with
  | None => mret (inr ErrNoMessage)
  | Some message =>
      modify (set_cache (delete messageID (cache rc)));;
      t ← now;
      let isExpired := CreatedSecs message <? t - timeoutSecs rc in
      if isExpired then mret (inr ErrMessageExpired) else mret (inl (Callback message))
  end.

(** Closing the channel again panics. *)
Definition Dispose (rc : ResponseCache) : go ResponseCache :=
  if open rc
  then Ret (mkCache (cache rc) true (cleanupEvery rc) (timeoutSecs rc) false (scheduled rc))
  else Panic.

(** The loop over the map: the ids of old entries among the first
    [oneQuarter + 1] entries of the range. *)
Fixpoint collect (entries : list (Z * waitingMessage)) (i oneQuarter cleanupWhenOlderThanSecs : Z)
    (removeTheseKeys : list Z) : list Z :=
  match entries with
  | [] => removeTheseKeys
  | (messageID, entry) :: rest =>
      let i := i + 1 in
      let shouldCleanup := CreatedSecs entry <? cleanupWhenOlderThanSecs in
      let removeTheseKeys :=
        if shouldCleanup then removeTheseKeys ++ [messageID] else removeTheseKeys in
      if oneQuarter <? i then removeTheseKeys
      else collect rest i oneQuarter cleanupWhenOlderThanSecs removeTheseKeys
  end.

(** The loop that removes entries and sends their callbacks; the lock is held
    and nothing is disposed meanwhile. *)
Fixpoint time_out (keys : list Z) (c : gmap Z waitingMessage) (out : list CB)
    : gmap Z waitingMessage * list CB :=
  match keys with
  | [] => (c, out)
  | messageID :: rest =>
      match c !! messageID with
      | Some m => time_out rest (delete messageID c) (out ++ [Callback m])
      | None => time_out rest c out
      end
  end.

(** A run of the cleanup returns the callbacks it sent. *)
Definition checkCleanup : M ResponseCache (list CB) :=
  rc ← get;
  if disposed rc then mret []
  else
    let entryCount := Z.of_nat (size (cache rc)) in
    let oneQuarter := entryCount / 3 in
    t ← now;
    let cleanupWhenOlderThanSecs := t - timeoutSecs rc in
    order ← seed;
    let removeTheseKeys :=
      collect (range_order order (map_to_list (cache rc))) 0 oneQuarter cleanupWhenOlderThanSecs [] in
    let '(c, out) := time_out removeTheseKeys (cache rc) [] in
    modify (set_cache c);;
    modify (set_scheduled S);;
    mret out.

(** [NewCache] runs the cleanup once; [int64(timeout.Seconds())] drops the
    fraction of a second. *)
Definition NewCache (timeout : Z) : M ResponseCache unit :=
  let cleanupEvery := cleanupEveryDefault in
  let cleanupEvery := if timeout <? cleanupEvery then timeout else cleanupEvery in
  put (mkCache ∅ false cleanupEvery (Z.quot timeout Second) true 0%nat);;
  checkCleanup;;
  mret tt.

(** The timer of a scheduled run fires. *)
Definition timer_fires : M ResponseCache (list CB) :=
  rc ← get;
  match scheduled rc with
  | O => mret []
  | S _ => modify (set_scheduled Nat.pred);; checkCleanup
  end.
End Cache.

Arguments waitingMessage CB : clear implicits.
Arguments ResponseCache CB : clear implicits.

(** * Properties *)

Section CacheFacts.
Context {CK : Clock} {RO : RangeOrder} {ROL : RangeOrderLaws} {CB : Type}.
Implicit Types (rc : ResponseCache CB) (c : gmap Z (waitingMessage CB)) (n : nat).

(** The callbacks that wait. *)
Definition waiting c : list CB := Callback <$> (map_to_list c).*2.

Lemma waiting_insert c id m : c !! id = None → waiting (<[id := m]> c) ≡ₚ Callback m :: waiting c.
Proof. intros Hid. unfold waiting. by rewrite map_to_list_insert. Qed.

Lemma waiting_delete c id m : c !! id = Some m → waiting c ≡ₚ Callback m :: waiting (delete id c).
Proof.
  intros Hid. rewrite <- (insert_delete_id c id m Hid) at 1.
  by rewrite waiting_insert by apply lookup_delete_eq.
Qed.

(** ** The cleanup *)

Definition old rc (time : Z) (m : waitingMessage CB) : Prop := CreatedSecs m < time - timeoutSecs rc.

#[global] Instance old_dec rc time m : Decision (old rc time m).
Proof. unfold old. apply _. Defined.

(** [collect] looks at the first [oneQuarter + 1 - i] entries. *)
Lemma collect_spec l i q older acc :
  i <= q →
  collect l i q older acc
  = acc ++ (filter (λ p : Z * waitingMessage CB, CreatedSecs p.2 < older) (take (Z.to_nat (q + 1 - i)) l)).*1.
Proof.
  revert i acc. induction l as [|[id m] l IH]; intros i acc Hi; cbn [collect].
  { by rewrite take_nil, app_nil_r. }
  replace (Z.to_nat (q + 1 - i)) with (S (Z.to_nat (q + 1 - (i + 1)))) by lia.
  cbn [take]. rewrite filter_cons. cbn [snd].
  destruct (Z.ltb_spec q (i + 1)) as [Hq|Hq].
  - replace (Z.to_nat (q + 1 - (i + 1))) with 0%nat by lia. cbn [take].
    destruct (Z.ltb_spec (CreatedSecs m) older);
      [rewrite decide_True by done | rewrite decide_False by lia]; [done|].
    cbn. by rewrite app_nil_r.
  - rewrite IH by lia.
    destruct (Z.ltb_spec (CreatedSecs m) older);
      [rewrite decide_True by done | rewrite decide_False by lia]; [|done].
    cbn [fmap list_fmap fst]. by rewrite <- app_assoc.
Qed.

(** [time_out] removes the entries of the keys, which are in the map. *)
Lemma time_out_spec keys c out :
  NoDup keys → (∀ k, k ∈ keys → is_Some (c !! k)) →
  ∃ c' new, time_out keys c out = (c', out ++ new) ∧ length new = length keys ∧
    (∀ k, c' !! k = if decide (k ∈ keys) then None else c !! k) ∧
    waiting c ≡ₚ waiting c' ++ new ∧ size c = (size c' + length keys)%nat.
Proof.
  intros Hnd. revert c out. induction Hnd as [|k keys Hk Hnd IH]; intros c out Hin; cbn [time_out].
  - exists c, []. rewrite !app_nil_r. split; [done|]. split; [done|]. split; [done|]. split; [done|].
    simpl. lia.
  - destruct (Hin k ltac:(left)) as [m Hm]. rewrite Hm.
    destruct (IH (delete k c) (out ++ [Callback m])) as (c' & new & E & Hl & Hlook & Hw & Hs).
    { intros k' Hk'. rewrite lookup_delete_ne by (intros ->; done). apply Hin. by right. }
    exists c', (Callback m :: new). rewrite E, <- app_assoc. split; [done|].
    split; [simpl; lia|]. split.
    { intros k'. rewrite Hlook. destruct (decide (k' = k)) as [->|Hne].
      - rewrite decide_False by done. rewrite lookup_delete_eq. by rewrite decide_True by left.
      - rewrite lookup_delete_ne by done. destruct (decide (k' ∈ keys)).
        + by rewrite decide_True by (by right).
        + rewrite decide_False; [done|]. by intros [?|?]%elem_of_cons. }
    split.
    { etrans; [by apply (waiting_delete c k m)|]. etrans; [apply perm_skip, Hw|].
      apply Permutation_middle. }
    pose proof (map_size_delete_Some k c ltac:(by exists m)) as Hsd.
    pose proof (map_size_ne_0_lookup_2 c k ltac:(by exists m)). simpl. lia.
Qed.

(** What a run of an active cache does. *)
Record cleaned n rc rc' (out : list CB) : Prop := {
  cn_kept k m : cache rc !! k = Some m → ¬ old rc (clock n) m → cache rc' !! k = Some m;
  cn_subset : cache rc' ⊆ cache rc;
  cn_conserved : waiting (cache rc) ≡ₚ waiting (cache rc') ++ out;
  cn_size : size (cache rc) = (size (cache rc') + length out)%nat;
  cn_bound : Z.of_nat (length out) <= Z.of_nat (size (cache rc)) / 3 + 1;
  cn_scheduled : scheduled rc' = S (scheduled rc);
  cn_progress :
    map_Forall (λ _ m, old rc (clock n) m) (cache rc) →
    Z.of_nat (length out)
    = Z.min (Z.of_nat (size (cache rc))) (Z.of_nat (size (cache rc)) / 3 + 1)
}.

Lemma checkCleanup_spec n rc out rc' n' :
  checkCleanup (rc, n) = (out, (rc', n')) →
  if disposed rc then out = [] ∧ rc' = rc ∧ n' = n
  else n' = S (S n) ∧ cleaned n rc rc' out ∧
    disposed rc' = false ∧ timeoutSecs rc' = timeoutSecs rc.
Proof.
  unfold checkCleanup, get, now, seed, modify, mret, M_ret, mbind, M_bind.
  destruct (disposed rc) eqn:Hd; [by intros [= <- <- <-]|].
  set (q := Z.of_nat (size (cache rc)) / 3).
  assert (Hq : 0 <= q) by (unfold q; apply Z.div_pos; lia).
  rewrite collect_spec by lia. cbn [app].
  set (l := range_order _ _). set (older := clock n - timeoutSecs rc).
  assert (Hl : l ≡ₚ map_to_list (cache rc)) by apply range_order_Permutation.
  set (seen := take (Z.to_nat (q + 1 - 0)) l).
  set (F := filter (λ p : Z * waitingMessage CB, CreatedSecs p.2 < older) seen).
  assert (Hsub : F.*1 `sublist_of` l.*1).
  { apply sublist_map. etrans; [apply sublist_filter | apply sublist_take]. }
  assert (Hin : ∀ k m, (k, m) ∈ F → cache rc !! k = Some m ∧ old rc (clock n) m).
  { intros k m Hk. apply list_elem_of_filter in Hk as [Hold Hk]. split; [|exact Hold].
    apply elem_of_map_to_list. rewrite <- Hl.
    eapply elem_of_sublist; [exact Hk | apply sublist_take]. }
  destruct (time_out_spec F.*1 (cache rc) []) as (c' & new & E & Hlen & Hlook & Hw & Hs).
  { eapply sublist_NoDup; [|exact Hsub]. rewrite Hl. apply NoDup_fst_map_to_list. }
  { intros k Hk. apply list_elem_of_fmap in Hk as ([k' m] & -> & Hk). exists m. by apply Hin. }
  rewrite E. intros [= <- <- <-]. split; [done|]. split; [|done]. cbn [app] in *.
  assert (Hlenl : length l = size (cache rc)).
  { rewrite Hl. apply length_map_to_list. }
  assert (Hseen : length seen = Nat.min (Z.to_nat (q + 1)) (size (cache rc))).
  { unfold seen. rewrite length_take, Hlenl. f_equal. lia. }
  rewrite length_fmap in Hlen, Hs.
  split; cbn [cache set_cache set_scheduled scheduled].
  - intros k m Hm Hnew. rewrite Hlook, decide_False; [done|].
    intros ([k' m'] & -> & Hk)%list_elem_of_fmap. apply Hin in Hk as [Hm' Hold].
    simpl in Hm. rewrite Hm in Hm'. injection Hm' as ->. done.
  - apply map_subseteq_spec. intros k m. rewrite Hlook. by case_decide.
  - done.
  - lia.
  - assert (length F ≤ length seen)%nat by (apply sublist_length, sublist_filter). lia.
  - done.
  - intros Hall. assert (HF : F = seen).
    { unfold F. apply filter_all. intros [k m] Hk.
      assert (Hm : (k, m) ∈ map_to_list (cache rc)).
      { rewrite <- Hl. eapply elem_of_sublist; [exact Hk | apply sublist_take]. }
      apply elem_of_map_to_list in Hm. exact (Hall k m Hm). }
    rewrite Hlen, HF, Hseen. fold q. lia.
Qed.

(** ** The operations *)

Lemma Add_spec id cb rc n r rc' n' :
  Add id cb (rc, n) = (r, (rc', n')) →
  match cache rc !! id with
  | Some _ => r = Some ErrMessageIDExists ∧ rc' = rc ∧ n' = n
  | None => r = None ∧ n' = S n ∧ rc' = set_cache (<[id := mkWaiting cb (clock n)]> (cache rc)) rc
  end.
Proof.
  unfold Add, get, now, modify, mret, M_ret, mbind, M_bind.
  by destruct (cache rc !! id); intros [= <- <- <-].
Qed.

Lemma Pull_spec id rc n r rc' n' :
  Pull id (rc, n) = (r, (rc', n')) →
  match cache rc !! id with
  | None => r = inr ErrNoMessage ∧ rc' = rc ∧ n' = n
  | Some m =>
      rc' = set_cache (delete id (cache rc)) rc ∧ n' = S n ∧
      r = if decide (old rc (clock n) m) then inr ErrMessageExpired else inl (Callback m)
  end.
Proof.
  unfold Pull, get, now, modify, mret, M_ret, mbind, M_bind, old.
  destruct (cache rc !! id) as [m|]; [|by intros [= <- <- <-]].
  destruct (Z.ltb_spec (CreatedSecs m) (clock n - timeoutSecs rc)); intros [= <- <- <-];
    (split; [done|]; split; [done|]);
    [by rewrite decide_True by done | by rewrite decide_False by lia].
Qed.

Lemma timer_fires_spec rc n out rc' n' :
  timer_fires (rc, n) = (out, (rc', n')) →
  waiting (cache rc) ≡ₚ waiting (cache rc') ++ out ∧ timeoutSecs rc' = timeoutSecs rc.
Proof.
  unfold timer_fires, mbind, M_bind, get, modify.
  destruct (scheduled rc) as [|m].
  - intros [= <- <- <-]. by rewrite app_nil_r.
  - intros E%checkCleanup_spec. cbn [disposed set_scheduled] in E.
    destruct (disposed rc).
    + destruct E as (-> & -> & _). by rewrite app_nil_r.
    + by destruct E as (_ & [_ _ Hc _ _ _ _] & _ & Ht).
Qed.

(** ** Histories *)

Inductive op :=
  | OAdd (id : Z) (cb : CB)
  | OPull (id : Z)
  | OCleanup.

(** What became of callbacks: stored, called with a response, sent to the
    timeouts, or dropped by the pull of an expired entry. *)
Record fate := mkFate { stored : list CB; responded : list CB; timed_out : list CB; dropped : list CB }.

Definition fate_app (f g : fate) : fate :=
  mkFate (stored f ++ stored g) (responded f ++ responded g) (timed_out f ++ timed_out g)
    (dropped f ++ dropped g).

Definition step (o : op) : M (ResponseCache CB) fate :=
  rc ← get;
  match o with
  | OAdd id cb =>
      r ← Add id cb;
      mret (mkFate (if r is None then [cb] else []) [] [] [])
  | OPull id =>
      r ← Pull id;
      mret (match r with
            | inl cb => mkFate [] [cb] [] []
            | inr ErrMessageExpired =>
                mkFate [] [] [] (if cache rc !! id is Some m then [Callback m] else [])
            | inr _ => mkFate [] [] [] []
            end)
  | OCleanup => out ← checkCleanup; mret (mkFate [] [] out [])
  end.

Fixpoint run (ops : list op) : M (ResponseCache CB) fate :=
  match ops with
  | [] => mret (mkFate [] [] [] [])
  | o :: ops' => f ← step o; g ← run ops'; mret (fate_app f g)
  end.

(** Every callback is in exactly one place. *)
Definition accounted c (f : fate) c' : Prop :=
  waiting c ++ stored f ≡ₚ waiting c' ++ responded f ++ timed_out f ++ dropped f.

Lemma step_accounted o rc n f rc' n' :
  step o (rc, n) = (f, (rc', n')) → accounted (cache rc) f (cache rc').
Proof.
  unfold step, mbind, M_bind, get, accounted. destruct o as [id cb|id|].
  - destruct (Add id cb (rc, n)) as [r [rc1 n1]] eqn:E. apply Add_spec in E.
    intros [= <- <- <-]. cbn [stored responded timed_out dropped].
    destruct (cache rc !! id) eqn:Hid.
    + destruct E as (-> & -> & _). done.
    + destruct E as (-> & _ & ->). cbn [cache set_cache]. rewrite waiting_insert by done.
      rewrite !app_nil_r. apply Permutation_app_comm.
  - destruct (Pull id (rc, n)) as [r [rc1 n1]] eqn:E. apply Pull_spec in E.
    intros [= <- <- <-].
    destruct (cache rc !! id) as [m|] eqn:Hid.
    + destruct E as (-> & _ & ->). cbn [cache set_cache].
      rewrite (waiting_delete (cache rc) id m Hid).
      destruct (decide (old rc (clock n) m)); cbn [stored responded timed_out dropped app];
        rewrite app_nil_r; apply Permutation_cons_append.
    + destruct E as (-> & -> & _). done.
  - destruct (checkCleanup (rc, n)) as [out [rc1 n1]] eqn:E. apply checkCleanup_spec in E.
    intros [= <- <- <-]. cbn [stored responded timed_out dropped]. rewrite !app_nil_r.
    destruct (disposed rc); [by destruct E as (-> & -> & _); rewrite app_nil_r|].
    destruct E as (_ & [_ _ Hc _ _ _ _] & _). exact Hc.
Qed.

Lemma accounted_trans c1 f1 c2 f2 c3 :
  accounted c1 f1 c2 → accounted c2 f2 c3 → accounted c1 (fate_app f1 f2) c3.
Proof.
  unfold accounted, fate_app. cbn [stored responded timed_out dropped]. intros H1 H2.
  rewrite app_assoc, H1, <- app_assoc, (Permutation_app_comm (responded f1 ++ _)), app_assoc, H2.
  solve_Permutation.
Qed.

(** * Theorems *)

(** C31. No callback is called twice and none disappears but one way: after
    any history of adding, pulling and cleaning up, the callbacks that waited
    before or were stored are exactly those that still wait, those given a
    response, those timed out, and those a pull dropped because they were
    expired; the last kind is never called, so its caller waits for ever. *)
Theorem callbacks_are_conserved ops rc n f rc' n' :
  run ops (rc, n) = (f, (rc', n')) →
  waiting (cache rc) ++ stored f
  ≡ₚ waiting (cache rc') ++ responded f ++ timed_out f ++ dropped f.
Proof.
  revert rc n f. induction ops as [|o ops IH]; intros rc n f; cbn [run].
  - by intros [= <- <- _].
  - unfold mbind, M_bind. destruct (step o (rc, n)) as [f1 [rc1 n1]] eqn:E1.
    destruct (run ops (rc1, n1)) as [f2 [rc2 n2]] eqn:E2. intros [= <- <- <-].
    apply (accounted_trans _ f1 (cache rc1) f2);
      [exact (step_accounted _ _ _ _ _ _ E1) | exact (IH _ _ _ E2)].
Qed.

(** A response takes the callback of its request out of the cache exactly
    once, if the request was not yet too old; a request older than the
    timeout is taken out as well, but its callback is given neither to the
    response nor, from then on, to the cleanup. *)
Theorem Pull_once id rc n m r rc' n' :
  cache rc !! id = Some m → Pull id (rc, n) = (r, (rc', n')) →
  (CreatedSecs m + timeoutSecs rc < clock n ↔ r = inr ErrMessageExpired) ∧
  (clock n <= CreatedSecs m + timeoutSecs rc ↔ r = inl (Callback m)) ∧
  waiting (cache rc) ≡ₚ Callback m :: waiting (cache rc') ∧
  ∀ i, Pull id (rc', i) = (inr ErrNoMessage, (rc', i)).
Proof.
  intros Hm E. apply Pull_spec in E. rewrite Hm in E. destruct E as (-> & -> & ->).
  unfold old. split; [|split; [|split]].
  - case_decide; (split; [|done || lia]); [done | lia].
  - case_decide; (split; [|done || lia]); [lia | done].
  - by apply waiting_delete.
  - intros i. unfold Pull, get, mbind, M_bind. cbn [cache set_cache]. by rewrite lookup_delete_eq.
Qed.

(** Several runs of the cleanup. *)
Fixpoint cleanups (k : nat) : M (ResponseCache CB) (list CB) :=
  match k with
  | O => mret []
  | S k' => out ← checkCleanup; rest ← cleanups k'; mret (out ++ rest)
  end.

(** C32. A cache of old requests is emptied: when all waiting requests, without
    exception, are older than the timeout, each run of the cleanup looks at a third of
    them and one more and times all of these out, so after as many runs as
    there are requests the cache is empty and every callback was sent to the
    timeouts, each exactly once. *)
Theorem cleanup_times_out_all `{!ClockMono} k rc n out rc' n' :
  disposed rc = false → map_Forall (λ _ m, old rc (clock n) m) (cache rc) →
  (size (cache rc) ≤ k)%nat → cleanups k (rc, n) = (out, (rc', n')) →
  cache rc' = ∅ ∧ out ≡ₚ waiting (cache rc).
Proof.
  revert rc n out. induction k as [|k IH]; intros rc n out Hd Hall Hk; cbn [cleanups].
  - intros [= <- <- <-]. assert (cache rc = ∅) as He by (apply map_size_empty_inv; lia).
    split; [done|]. rewrite He. unfold waiting. by rewrite map_to_list_empty.
  - unfold mbind, M_bind. destruct (checkCleanup (rc, n)) as [o1 [rc1 n1]] eqn:E1.
    destruct (cleanups k (rc1, n1)) as [o2 [rc2 n2]] eqn:E2. intros [= <- <- <-].
    apply checkCleanup_spec in E1. rewrite Hd in E1.
    destruct E1 as (-> & [_ Hsub Hcons Hsize _ _ Hprog] & Hd1 & Ht1). specialize (Hprog Hall).
    destruct (IH rc1 (S (S n)) o2 Hd1) as [He Hp]; [| |exact E2|].
    + intros i m Hm. pose proof (Hall i m (lookup_weaken _ _ _ _ Hm Hsub)) as Ho. revert Ho.
      unfold old. rewrite Ht1. pose proof (clock_mono n (S (S n)) ltac:(lia)). lia.
    + destruct (decide (size (cache rc) = 0)%nat); [lia|].
      pose proof (Z.div_pos (Z.of_nat (size (cache rc))) 3). lia.
    + split; [done|]. rewrite Hp, Hcons. apply Permutation_app_comm.
Qed.

(** A run of the cleanup times out only requests older than the timeout:
    a younger one stays where it is. It looks at no more than a third of the
    requests and one more, and schedules exactly one next run unless the
    cache was disposed, when it does nothing. *)
Theorem cleanup_keeps_young_requests rc n out rc' n' :
  checkCleanup (rc, n) = (out, (rc', n')) →
  if disposed rc then out = [] ∧ rc' = rc
  else
    (∀ id m, cache rc !! id = Some m → clock n <= CreatedSecs m + timeoutSecs rc →
       cache rc' !! id = Some m) ∧
    cache rc' ⊆ cache rc ∧ Z.of_nat (length out) <= Z.of_nat (size (cache rc)) / 3 + 1 ∧
    scheduled rc' = S (scheduled rc).
Proof.
  intros E%checkCleanup_spec. destruct (disposed rc); [by destruct E as (? & ? & _)|].
  destruct E as (_ & [Hk Hs _ _ Hb Hsc _] & _). split; [|done].
  intros id m Hm Hy. apply Hk; [done|]. unfold old. lia.
Qed.
End CacheFacts.

(** ** Witnesses

    Callbacks are numbers; the clock is the one of [ConcreteClock]. *)
Module WaitingMessageWitness.
Import ConcreteClock.

Definition fresh : ResponseCache nat := mkCache ∅ false cleanupEveryDefault 1 true 1%nat.
Definition ops : list (op (CB := nat)) :=
  [OAdd 1 10%nat; OAdd 2 20%nat; OAdd 1 30%nat; OPull 2; OAdd 3 40%nat; OAdd 4 50%nat; OCleanup;
   OCleanup; OPull 3; OPull 4].

Lemma callbacks_are_conserved_witness :
  ∃ f rc n, run ops (fresh, 0%nat) = (f, (rc, n)) ∧ stored f = [10; 20; 40; 50]%nat ∧
    responded f = [20]%nat ∧
    waiting ∅ ++ stored f ≡ₚ waiting (cache rc) ++ responded f ++ timed_out f ++ dropped f.
Proof.
  destruct (run ops (fresh, 0%nat)) as [f [rc n]] eqn:E. exists f, rc, n.
  assert (Hf : (stored (run ops (fresh, 0%nat)).1, responded (run ops (fresh, 0%nat)).1)
    = ([10; 20; 40; 50], [20])%nat) by (vm_compute; reflexivity).
  rewrite E in Hf. injection Hf as Hs Hr.
  split; [reflexivity|]. split; [exact Hs|]. split; [exact Hr|].
  exact (callbacks_are_conserved ops fresh 0 f rc n E).
Defined.

(** A request of second 1000 with a timeout of a second, answered at second
    1000 and at second 1002. *)
Definition one_waiting : ResponseCache nat := set_cache {[7 := mkWaiting 70%nat 1000]} fresh.

Lemma Pull_once_witness :
  (Pull 7 (one_waiting, 0%nat)).1 = inl 70%nat ∧
  (Pull 7 (one_waiting, 4%nat)).1 = inr ErrMessageExpired.
Proof.
  split.
  - destruct (Pull 7 (one_waiting, 0%nat)) as [r [rc n]] eqn:E.
    destruct (Pull_once 7 one_waiting 0 (mkWaiting 70%nat 1000) r rc n ltac:(vm_compute; reflexivity) E)
      as (_ & [H _] & _).
    apply H. vm_compute. discriminate.
  - destruct (Pull 7 (one_waiting, 4%nat)) as [r [rc n]] eqn:E.
    destruct (Pull_once 7 one_waiting 4 (mkWaiting 70%nat 1000) r rc n ltac:(vm_compute; reflexivity) E)
      as ([H _] & _).
    apply H. vm_compute. reflexivity.
Defined.

Definition four_waiting : ResponseCache nat :=
  set_cache {[1 := mkWaiting 10%nat 990; 2 := mkWaiting 20%nat 991; 3 := mkWaiting 30%nat 992;
              4 := mkWaiting 40%nat 993]} fresh.

Lemma cleanup_times_out_all_witness :
  length (cleanups 4 (four_waiting, 0%nat)).1 = 4%nat ∧
  cache (cleanups 4 (four_waiting, 0%nat)).2.1 = ∅.
Proof.
  split; [vm_compute; reflexivity|].
  destruct (cleanups 4 (four_waiting, 0%nat)) as [out [rc n]] eqn:E. cbn [fst snd].
  apply (cleanup_times_out_all 4 four_waiting 0 out rc n eq_refl); [|vm_compute; lia|exact E].
  apply (bool_decide_unpack _). vm_compute. exact I.
Defined.

Lemma cleanup_keeps_young_requests_witness :
  cache (checkCleanup (one_waiting, 0%nat)).2.1 !! 7 = Some (mkWaiting 70%nat 1000).
Proof.
  destruct (checkCleanup (one_waiting, 0%nat)) as [out [rc n]] eqn:E. cbn [fst snd].
  destruct (cleanup_keeps_young_requests one_waiting 0 out rc n E) as (Hk & _).
  apply Hk; [vm_compute; reflexivity | vm_compute; discriminate].
Defined.
End WaitingMessageWitness.
