(* ===== verification/ServerPool.v ===== *)
(** * The pool of servers: [src/client/serverpool/serverpool.go]

    A [Pool] keeps the servers of a client and which of them answered the last
    health check. The check itself is an interface, [Healthchecker], with a
    state [C] of its own that the pool does not know; the state of the pool
    operations is the pair of both. *)
From Stdlib Require Import ZArith Lia.
From stdpp Require Import base gmap list.
From S2P Require Import Prelude GoStd Env.
From Stdlib Require Import Permutation.
Local Open Scope Z_scope.

(** [Healthcheck(server)]: whether it returned an error. *)
Class Healthchecker (C : Type) := Healthcheck : Addr → M C bool.

(** Seconds to the next check. *)
Definition healthLoopDurationHealthy : Z := 6.
Definition healthLoopDurationUnHealthy : Z := 1.

Record Pool := mkPool {
  servers : list Addr;
  healthy : list Addr;
  unhealthy : list Addr;
  disposed : bool
}.

Definition set_health (h u : list Addr) (p : Pool) : Pool :=
  mkPool (servers p) h u (disposed p).

Definition NewPool (servers : list Addr) : Pool := mkPool servers [] [] false.

Definition Dispose (p : Pool) : Pool := mkPool (servers p) (healthy p) (unhealthy p) true.

Section Pool.
Context {C : Type} {HC : Healthchecker C} {RD : Rand}.

(** The loop of [healthcheck]. *)
Fixpoint healthcheck_loop (ss healthy unhealthy : list Addr) : M C (list Addr * list Addr) :=
  match ss with
  | [] => mret (healthy, unhealthy)
  | s :: ss' =>
      err ← Healthcheck s;
      if err : bool then healthcheck_loop ss' healthy (unhealthy ++ [s])
      else healthcheck_loop ss' (healthy ++ [s]) unhealthy
  end.
Definition healthcheck (p : Pool) : M C (list Addr * list Addr) :=
  healthcheck_loop (servers p) [] [].

(** The check that [Listen] makes at once, before it starts the loop. *)
Definition Listen : M (Pool * C) unit := λ '((p, c), n),
  let '((h, u), (c', n')) := healthcheck p (c, n) in (tt, ((set_health h u p, c'), n')).

(** One round of [loopHealthcheck]: the sleep before the next round, [None]
    when the pool is disposed and the loop ends. *)
Definition loopHealthcheck : M (Pool * C) (option Z) := λ '((p, c), n),
  if disposed p then (None, ((p, c), n))
  else
    let '((h, u), (c', n')) := healthcheck p (c, n) in
    (Some (if 0 <? len h then healthLoopDurationHealthy else healthLoopDurationUnHealthy),
     ((set_health h u p, c'), n')).

Definition Choose : M Pool (option Addr) :=
  p ← get;
  let l := length (healthy p) in
  if bool_decide (l < 1)%nat then mret None
  else if bool_decide (l = 1)%nat then mret (healthy p !! 0%nat)
  else
    n ← seed;
    mret (healthy p !! Intn n l).
End Pool.

(** * Properties *)

Section PoolFacts.
Context {C : Type} {HC : Healthchecker C} {RD : Rand} {RDL : RandLaws}.
Implicit Types (p : Pool) (c : C) (n : nat).

(** A server answered its check when it was checked during a round. *)
Fixpoint verdicts (ss : list Addr) (c : C) (n : nat) : list bool :=
  match ss with
  | [] => []
  | s :: ss' =>
      let '(err, (c', n')) := Healthcheck s (c, n) in negb err :: verdicts ss' c' n'
  end.

(** The servers with the given verdict, in order. *)
Definition judged (b : bool) (ss : list Addr) (vs : list bool) : list Addr :=
  (filter (λ q : Addr * bool, q.2 = b) (zip ss vs)).*1.

Lemma healthcheck_loop_spec ss h u c n r c' n' :
  healthcheck_loop ss h u (c, n) = (r, (c', n')) →
  r = (h ++ judged true ss (verdicts ss c n), u ++ judged false ss (verdicts ss c n)).
Proof.
  revert h u c n. induction ss as [|s ss IH]; intros h u c n; cbn [healthcheck_loop verdicts].
  - intros [= <- _ _]. by rewrite !app_nil_r.
  - unfold mbind, M_bind. destruct (Healthcheck s (c, n)) as [err [c1 n1]].
    unfold judged. cbn [zip_with]. rewrite !filter_cons. cbn [snd].
    destruct err; intros ->%IH; cbn [negb]; unfold judged;
      [rewrite decide_False, decide_True by done | rewrite decide_True, decide_False by done];
      cbn [fmap list_fmap fst]; by rewrite <- app_assoc.
Qed.

Lemma judged_partition ss vs :
  length vs = length ss → judged true ss vs ++ judged false ss vs ≡ₚ ss.
Proof.
  revert vs. induction ss as [|s ss IH]; intros [|v vs] Hl; try done. simpl in Hl.
  unfold judged in *. cbn [zip_with]. rewrite !filter_cons. cbn [snd].
  destruct v; [rewrite decide_True, decide_False by done | rewrite decide_False, decide_True by done];
    cbn [fmap list_fmap fst app].
  - apply perm_skip, IH. lia.
  - etrans; [symmetry; apply Permutation_middle|]. apply perm_skip, IH. lia.
Qed.

Lemma verdicts_length ss c n : length (verdicts ss c n) = length ss.
Proof.
  revert c n. induction ss as [|s ss IH]; intros c n; [done|]. cbn [verdicts].
  destruct (Healthcheck s (c, n)) as [err [c1 n1]]. simpl. by rewrite IH.
Qed.

(** C38. A round of health checks asks every server once, in order, and files
    each under healthy or unhealthy by the answer: the two lists together are
    the servers of the pool, and the pool waits six seconds for the next
    round when a server was healthy and one second when none was. *)
Theorem healthcheck_partitions p c n r p' c' n' :
  loopHealthcheck ((p, c), n) = (r, ((p', c'), n')) →
  if disposed p then r = None ∧ p' = p
  else
    let vs := verdicts (servers p) c n in
    healthy p' = judged true (servers p) vs ∧ unhealthy p' = judged false (servers p) vs ∧
    healthy p' ++ unhealthy p' ≡ₚ servers p ∧ servers p' = servers p ∧
    r = Some (if bool_decide (healthy p' = []) then 1 else 6).
Proof.
  unfold loopHealthcheck. destruct (disposed p); [by intros [= <- <- _ _]|].
  destruct (healthcheck p (c, n)) as [[h u] [c1 n1]] eqn:E.
  apply healthcheck_loop_spec in E. injection E as -> ->. cbn [app]. intros [= <- <- _ _].
  cbn [healthy unhealthy servers set_health].
  split; [done|]. split; [done|]. split; [apply judged_partition, verdicts_length|].
  split; [done|]. f_equal. destruct (judged true _ _); [done|].
  rewrite len_cons, (proj2 (Z.ltb_lt _ _)); [done|]. pose proof (len_nonneg l). lia.
Qed.

(** [Choose] returns a server exactly when the last round found one
    healthy, and then one of the healthy ones; the random index is always in
    range. *)
Theorem Choose_healthy p n r p' n' :
  Choose (p, n) = (r, (p', n')) →
  p' = p ∧ (r = None ↔ healthy p = []) ∧ (∀ a, r = Some a → a ∈ healthy p).
Proof.
  unfold Choose, get, seed, mbind, M_bind, mret, M_ret.
  destruct (healthy p) as [|a l] eqn:Hh.
  - rewrite bool_decide_eq_true_2 by (simpl; lia). by intros [= <- <- <-].
  - rewrite bool_decide_eq_false_2 by (simpl; lia).
    assert (Hall : ∀ i, (i < length (a :: l))%nat →
      (((a :: l) !! i = None ↔ a :: l = []) ∧ (∀ b, (a :: l) !! i = Some b → b ∈ a :: l))).
    { intros i Hi. destruct (lookup_lt_is_Some_2 (a :: l) i Hi) as [b Hb]. rewrite Hb.
      split; [done|]. intros b' [= <-]. by eapply list_elem_of_lookup_2. }
    case_bool_decide; intros [= <- <- <-]; (split; [done|]).
    + apply (Hall 0%nat). simpl. lia.
    + apply Hall, Intn_lt. simpl. lia.
Qed.
End PoolFacts.

(** ** Witnesses

    A checker that counts its calls and finds one server unreachable. *)
Module ServerPoolWitness.
Import ConcreteClock.

Definition addr (d : Z) : Addr := mkAddr (Some (mkIPv4 10 0 0 d)) 3509.

#[local] Instance counting : Healthchecker nat := λ a '(c, n),
  (bool_decide (a = addr 2), (S c, n)).

Definition pool : Pool := NewPool [addr 1; addr 2; addr 3].

Lemma healthcheck_partitions_witness :
  healthy (loopHealthcheck ((pool, 0%nat), 0%nat)).2.1.1 = [addr 1; addr 3] ∧
  (loopHealthcheck ((pool, 0%nat), 0%nat)).1 = Some 6.
Proof.
  destruct (loopHealthcheck ((pool, 0%nat), 0%nat)) as [r [[p' c'] n']] eqn:E.
  destruct (healthcheck_partitions pool 0%nat 0%nat r p' c' n' E) as (Hh & _ & _ & _ & Hr).
  cbn [fst snd]. rewrite Hr, Hh. split; vm_compute; reflexivity.
Defined.

Lemma Choose_healthy_witness :
  ∃ a, (Choose (set_health [addr 1; addr 3] [addr 2] pool, 5%nat)).1 = Some a ∧
    a ∈ [addr 1; addr 3].
Proof.
  destruct (Choose (set_health [addr 1; addr 3] [addr 2] pool, 5%nat)) as [[a|] [p' n']] eqn:E;
    destruct (Choose_healthy _ _ _ _ _ E) as (_ & [HN _] & HS).
  - exists a. split; [reflexivity | exact (HS a eq_refl)].
  - discriminate (HN eq_refl).
Defined.
End ServerPoolWitness.
