(* ===== verification/Client.v ===== *)
(** * The client: [src/client/client.go]

    A call ([Count], [Put], ...) makes a request with a fresh message id,
    registers a callback and waits until the callback was called. Here a call
    is numbered; its callback records the number and the kind of the call, and
    calling it appends the result of the call to [results]. A call without a
    result waits. The UDP requests that were written are in [sent], the
    TCP ones in [tcp_sent], each with its connection, the event in which the
    pool gave it out. [readers] holds the goroutines that [_sendTCP] left
    running when it returned. *)
From Stdlib Require Import ZArith Lia Strings.Byte.
From stdpp Require Import base gmap list strings.
From coqutil Require Import Byte LittleEndianList.
From S2P Require Import Prelude GoStd Deps Protocol Env RawMessage.
From S2P Require WaitingMessage ServerPool.
Import WaitingMessage (ResponseCache, CacheErr, ErrMessageIDExists, ErrMessageExpired, ErrNoMessage).
Import ServerPool (Pool).
From Stdlib Require Import Permutation.
Local Open Scope Z_scope.
Local Open Scope go_scope.

Inductive Err :=
  | ErrMessageTimedOut
  | ErrCountReturnBytesTooShort
  | ErrNoHealthyUDPServers
  | ErrNoHealthyTCPServers
  | ErrProto (e : ProtoErr)
  | ErrCache (e : CacheErr)
  | ErrResponse (text : bytes) (* errors.New of the data of an 'E' response *)
  | ErrWrite.

(** The errors of [Listen] and [Close]; the last two are those of the socket. *)
Inductive ListenErr := ErrClientAlreadyInit | ErrListen | ErrClose.

(** The functions that make a callback. *)
Inductive Kind := KCount | KKeyMatch | KHealthcheck | KListNamespaces | KPut.

Record Callback := mkCallback { cb_call : nat; cb_kind : Kind }.

(** What a call returns. *)
Inductive Result :=
  | RCount (n : Z) (err : option Err)
  | RList (l : list bytes) (err : option Err)
  | RErr (err : option Err).

(** The callbacks of the calls, and what the calls do after the wait. *)
Definition count_result (b : bytes) (e : option Err) : go Result :=
  match e with
  | Some _ => Ret (RCount 0 e)
  | None =>
      if len b <? 4 then Ret (RCount 0 (Some ErrCountReturnBytesTooShort))
      else
        four ← slice b 0 4;
        output ← Uint32FromBytes four;
        Ret (RCount output None)
  end.

Definition keys_result (b : bytes) (e : option Err) : go Result :=
  let output := match e with Some _ => [] | None => b end in
  let results := Split output x0a in
  first ← index results 0;
  if bool_decide (first = []) then Ret (RList [] e) else Ret (RList results e).

Definition namespaces_result (b : bytes) (e : option Err) : go Result :=
  let namespaces := match e with Some _ => [] | None => b end in
  Ret (RList (Split namespaces x0a) e).

Definition complete (k : Kind) (b : bytes) (e : option Err) : go Result :=
  match k with
  | KCount => count_result b e
  | KKeyMatch => keys_result b e
  | KListNamespaces => namespaces_result b e
  | KHealthcheck | KPut => Ret (RErr e)
  end.

(** The TCP connection that event [n] takes from the pool: whether there is
    one (a dial may fail), the reads it will return, and the text of the error
    that comes after them. *)
Class TCPNet := {
  tcp_get_ok : nat → bool;
  tcp_reads : nat → list bytes;
  read_error : bytes
}.

Record Config := mkConfig {
  RemoteUDPIPPortList : bytes;
  RemoteTCPIPPortList : bytes;
  Timeout : Z;
  PreSharedKey : bytes
}.

Record Client := mkClient {
  conn : bool;
  udpPool : Pool;
  tcpServerList : list Addr;
  messagesWaiting : ResponseCache Callback;
  messageIDCounter : Z;
  preSharedKey : bytes;
  disposed : bool;
  sent : list (bytes * Addr);
  results : list (nat * Result);
  next_call : nat;
  readers : list (Packet * list bytes);
  tcp_sent : list (bytes * TCPConn)
}.

Definition set_conn (b : bool) (c : Client) : Client :=
  mkClient b (udpPool c) (tcpServerList c) (messagesWaiting c) (messageIDCounter c)
    (preSharedKey c) (disposed c) (sent c) (results c) (next_call c) (readers c) (tcp_sent c).
Definition set_pool (p : Pool) (c : Client) : Client :=
  mkClient (conn c) p (tcpServerList c) (messagesWaiting c) (messageIDCounter c)
    (preSharedKey c) (disposed c) (sent c) (results c) (next_call c) (readers c) (tcp_sent c).
Definition set_waiting (w : ResponseCache Callback) (c : Client) : Client :=
  mkClient (conn c) (udpPool c) (tcpServerList c) w (messageIDCounter c)
    (preSharedKey c) (disposed c) (sent c) (results c) (next_call c) (readers c) (tcp_sent c).
Definition set_counter (i : Z) (c : Client) : Client :=
  mkClient (conn c) (udpPool c) (tcpServerList c) (messagesWaiting c) i
    (preSharedKey c) (disposed c) (sent c) (results c) (next_call c) (readers c) (tcp_sent c).
Definition set_disposed (c : Client) : Client :=
  mkClient (conn c) (udpPool c) (tcpServerList c) (messagesWaiting c) (messageIDCounter c)
    (preSharedKey c) true (sent c) (results c) (next_call c) (readers c) (tcp_sent c).
Definition set_sent (l : list (bytes * Addr)) (c : Client) : Client :=
  mkClient (conn c) (udpPool c) (tcpServerList c) (messagesWaiting c) (messageIDCounter c)
    (preSharedKey c) (disposed c) l (results c) (next_call c) (readers c) (tcp_sent c).
Definition set_results (l : list (nat * Result)) (c : Client) : Client :=
  mkClient (conn c) (udpPool c) (tcpServerList c) (messagesWaiting c) (messageIDCounter c)
    (preSharedKey c) (disposed c) (sent c) l (next_call c) (readers c) (tcp_sent c).
Definition set_next_call (i : nat) (c : Client) : Client :=
  mkClient (conn c) (udpPool c) (tcpServerList c) (messagesWaiting c) (messageIDCounter c)
    (preSharedKey c) (disposed c) (sent c) (results c) i (readers c) (tcp_sent c).
Definition set_readers (l : list (Packet * list bytes)) (c : Client) : Client :=
  mkClient (conn c) (udpPool c) (tcpServerList c) (messagesWaiting c) (messageIDCounter c)
    (preSharedKey c) (disposed c) (sent c) (results c) (next_call c) l (tcp_sent c).
Definition set_tcp_sent (l : list (bytes * TCPConn)) (c : Client) : Client :=
  mkClient (conn c) (udpPool c) (tcpServerList c) (messagesWaiting c) (messageIDCounter c)
    (preSharedKey c) (disposed c) (sent c) (results c) (next_call c) (readers c) l.

Section Client.
Context {CK : Clock} {RO : RangeOrder} {X : XXHash} {NW : Network} {TN : TCPNet} {RD : Rand}.

(** ** Construction *)

(** The loop over the parts of a server list. *)
Fixpoint parse_servers (parts : list bytes) : go (list Addr) :=
  match parts with
  | [] => Ret []
  | ipPort :: rest =>
      let p := Split (Trim ipPort [x20]) x3a in
      p0 ← index p 0;
      if bool_decide (p0 = []) then parse_servers rest
      else if negb (len p =? 2) then Panic
      else
        p1 ← index p 1;
        match Atoi p1 with
        | None => Panic
        | Some sport =>
            ss ← parse_servers rest;
            Ret (mkAddr (ParseIP p0) sport :: ss)
        end
  end.

Definition NewClient (conf : Config) : G Client unit :=
  let timeout := if Timeout conf =? 0 then WaitingMessage.Second else Timeout conf in
  let udpParts := Split (Trim (RemoteUDPIPPortList conf) [x20]) x2c in
  let tcpParts := Split (Trim (RemoteTCPIPPortList conf) [x20]) x2c in
  servers ← liftgo (parse_servers udpParts);
  first ← liftgo (index tcpParts 0);
  tcpServers ← liftgo (if bool_decide (first ≠ []) then parse_servers tcpParts else Ret []);
  if bool_decide (servers = [] ∧ tcpServers = []) then liftgo Panic
  else liftM (λ '(_, n),
    let '(_, (w, n')) :=
      WaitingMessage.NewCache timeout
        (WaitingMessage.mkCache ∅ false 0 0 true 0%nat, n) in
    (tt, (mkClient false (ServerPool.NewPool servers) tcpServers w 0 (PreSharedKey conf) false
            [] [] 0%nat [] [], n'))).

(** ** Sending *)

Definition on_cache {A} (m : M (ResponseCache Callback) A) : M Client A := λ '(c, n),
  let '(a, (w, n')) := m (messagesWaiting c, n) in (a, (set_waiting w c, n')).
Definition on_pool {A} (m : M Pool A) : M Client A := λ '(c, n),
  let '(a, (p, n')) := m (udpPool c, n) in (a, (set_pool p c, n')).

(** [cb(b, e)] *)
Definition invoke (cb : Callback) (b : bytes) (e : option Err) : G Client unit :=
  r ← liftgo (complete (cb_kind cb) b e);
  liftM (modify (λ c, set_results (results c ++ [(cb_call cb, r)]) c)).

Definition makeMessageID : M Client bytes :=
  c ← get;
  let id := u32 (messageIDCounter c + 1) in
  modify (set_counter id);;
  mret (Uint32ToBytes id).

(** [c.conn.WriteToUDP(b, remoteServer)]: whether it succeeded. *)
Definition WriteToUDP (b : bytes) (remoteServer : Addr) : M Client bool :=
  n ← seed;
  if udp_write_ok n then modify (λ c, set_sent (sent c ++ [(b, remoteServer)]) c);; mret true
  else mret false.

Definition _sendUDP (packet : Packet) (remoteServer : Addr) (cb : Callback) : G Client unit :=
  r ← liftgo (Bytes packet);
  let '(b, err) := r in
  match err with
  | Some e => invoke cb [] (Some (ErrProto e))
  | None =>
      err ← liftM (on_cache (WaitingMessage.Add (MessageID packet) cb));
      match err with
      | Some e => invoke cb [] (Some (ErrCache e))
      | None =>
          ok ← liftM (WriteToUDP b remoteServer);
          if ok : bool then mret tt
          else
            r ← liftM (on_cache (WaitingMessage.Pull (MessageID packet)));
            let reCall := match r with inl reCall => reCall | inr _ => cb end in
            invoke reCall [] (Some ErrWrite)
      end
  end.

(** ** TCP *)

Definition timed_out_text : bytes := str "timed out waiting for message response".

(** One round of [readOneMessage]: what it sends to the channel, if anything,
    and the packet and connection of the next round, if it goes on. *)
Definition readOneMessage (open ctx_done : bool) (id : TCPConn) (remote : Addr)
    (packet : Packet) (reads : list bytes) : go (option bytes * option (Packet * list bytes)) :=
  if ctx_done then
    r ← Bytes (set_DataValue timed_out_text packet);
    m ← send open r.1;
    Ret (Some m, None)
  else
    r ← ReadOneTcpMessage open id remote reads;
    match r with
    | (Some m, _) => Ret (Some (Message m), None)
    | (None, reads') =>
        let packet := set_DataValue read_error packet in
        r ← Bytes packet;
        let '(errPacket, otherErr) := r in
        match otherErr with
        | Some _ => Ret (None, None)
        | None => m ← send open errPacket; Ret (Some m, Some (packet, reads'))
        end
    end.

(** [_sendTCP]. The pool gives a nil interface when there are no servers and a
    nil connection when the dial fails. *)
Definition _sendTCP (packet : Packet) (cb : Callback) : G Client unit :=
  c ← liftM get;
  if bool_decide (tcpServerList c = []) then liftgo Panic (* key.( *net.TCPConn) of nil *)
  else
    n ← liftM seed;
    if negb (tcp_get_ok n) then invoke cb [] (Some ErrNoHealthyTCPServers)
    else
      server ← liftgo (index (tcpServerList c) (Z.of_nat (Intn n (length (tcpServerList c)))));
      let packet := set_DataValue (DataValue packet ++ StopSymbol) packet in
      r ← liftgo (Bytes packet);
      let '(packetBuf, err) := r in
      match err with
      | Some e => invoke cb [] (Some (ErrProto e))
      | None =>
          n' ← liftM seed;
          if negb (tcp_write_ok n') then invoke cb [] (Some ErrWrite)
          else
            liftM (modify (λ c, set_tcp_sent (tcp_sent c ++ [(packetBuf, n)]) c));;
            r ← liftgo (readOneMessage true false n server packet (tcp_reads n));
            let '(res, next) := r in
            match res with
            | None => mret tt (* blocked on the channel for ever *)
            | Some message =>
                liftM (modify (λ c,
                  set_readers (readers c ++ match next with Some r => [r] | None => [] end) c));;
                padded ← liftgo (PadRight message PacketSize);
                r ← liftgo (ParsePacket padded);
                let '(resPacket, err) := r in
                if bool_decide (err ≠ None ∧ err ≠ Some ErrInvalidPacketSizeTooLarge)
                then
                  match err with
                  | Some e => invoke cb [] (Some (ErrProto e))
                  | None => mret tt
                  end
                else
                  match resPacket with
                  | Some resPacket => invoke cb (TrimSpace (DataValue resPacket)) None
                  | None => liftgo Panic
                  end
            end
      end.

(** The next round of a goroutine that [_sendTCP] left running: its channel
    was closed when [_sendTCP] returned. *)
Definition reader_round (ctx_done : bool) (id : TCPConn) (remote : Addr) (r : Packet * list bytes)
    : go (option bytes * option (Packet * list bytes)) :=
  readOneMessage false ctx_done id remote r.1 r.2.

Definition sendOrCallbackErr (packet : Packet) (cb : Callback) : G Client unit :=
  if IsTcpOnlyCmd (Command packet) then _sendTCP packet cb
  else
    remoteServer ← liftM (on_pool ServerPool.Choose);
    match remoteServer with
    | None => invoke cb [] (Some ErrNoHealthyUDPServers)
    | Some remoteServer => _sendUDP packet remoteServer cb
    end.

(** ** Calls *)

(** The start of a call: a message id, a callback and the packet. *)
Definition start (kind : Kind) (cmd : Byte.byte) (namespace data : bytes) : G Client (Packet * Callback) :=
  messageID ← liftM makeMessageID;
  c ← liftM get;
  let cb := mkCallback (next_call c) kind in
  liftM (modify (λ c, set_next_call (S (next_call c)) c));;
  p ← liftgo (NewPacketFromParts cmd messageID namespace data (preSharedKey c));
  mret (p, cb).

Definition request (kind : Kind) (cmd : Byte.byte) (namespace data : bytes) : G Client unit :=
  r ← start kind cmd namespace data;
  sendOrCallbackErr r.1 r.2.

Definition Count (namespace entryKey : bytes) : G Client unit :=
  request KCount CmdCount namespace entryKey.
Definition KeyMatch (namespace keyPattern : bytes) : G Client unit :=
  request KKeyMatch CmdTCPOnlyKeys namespace keyPattern.
Definition CountNamespace (namespace : bytes) : G Client unit :=
  request KCount CmdCountNamespace namespace [].
Definition CountServer : G Client unit := request KCount CmdCountServer [] [].
Definition ListNamespaces : G Client unit := request KListNamespaces CmdTCPOnlyNamespaces [] [].
Definition Put (namespace value : bytes) : G Client unit := request KPut CmdPut namespace value.

Definition Healthcheck (specificServer : Addr) : G Client unit :=
  r ← start KHealthcheck CmdCount (str "server_healthcheck_" ++ Addr_String specificServer) (str "check");
  _sendUDP r.1 specificServer r.2.

(** ** Receiving *)

(** One datagram of [handleResponsesForever]. *)
Definition handleResponse (datagram : bytes) : G Client unit :=
  let message := take (Z.to_nat PacketSize)
                   (datagram ++ replicate (Z.to_nat PacketSize - length datagram) x00) in
  r ← liftgo (ParsePacket message);
  match r with
  | (None, _) => mret tt
  | (Some packet, err) =>
      if bool_decide (err ≠ None) && negb (0 <? MessageID packet) then mret tt
      else
        r ← liftM (on_cache (WaitingMessage.Pull (MessageID packet)));
        match r with
        | inr _ => mret tt
        | inl cb =>
            let c := Command packet in
            if negb (IsResponseCmd c) then mret tt
            else if c =b ResError then invoke cb [] (Some (ErrResponse (DataValueString packet)))
            else if (c =b CmdCount) || (c =b CmdPut) || (c =b CmdCountNamespace) || (c =b CmdCountServer)
            then invoke cb (DataValue packet) None
            else mret tt
        end
  end.

(** [handleTimeouts] on the callbacks a run of the cleanup sends. *)
Fixpoint handleTimeouts (callbacks : list Callback) : G Client unit :=
  match callbacks with
  | [] => mret tt
  | cb :: rest => invoke cb [] (Some ErrMessageTimedOut);; handleTimeouts rest
  end.

Definition cleanup_fires : G Client unit :=
  out ← liftM (on_cache WaitingMessage.timer_fires);
  handleTimeouts out.

(** ** Listening and closing *)

Definition PendingRequests : M Client Z := on_cache WaitingMessage.Len.

(** [c.udpPool.Listen()]: the pool checks every server with
    [c.Healthcheck(server)] and keeps the lists. A check is a whole call of
    this client, with the datagrams and timeouts until it returns; [HC] gives
    the client it leaves and whether it returned an error. *)
Definition pool_Listen {HC : ServerPool.Healthchecker Client} : M Client unit := λ '(c, n),
  let '(_, ((p, c'), n')) := ServerPool.Listen ((udpPool c, c), n) in (tt, (set_pool p c', n')).

(** [Listen], given whether the socket could be opened. The goroutines it
    starts are [handleResponse] and [cleanup_fires]. *)
Definition Listen {HC : ServerPool.Healthchecker Client} (ok : bool) : M Client (option ListenErr) :=
  c ← get;
  if conn c then mret (Some ErrClientAlreadyInit)
  else if negb ok then mret (Some ErrListen)
  else
    modify (set_conn true);;
    pool_Listen;;
    mret None.

(** [Close], given whether closing the socket succeeds; a second one does
    nothing. What it does last, closing the TCP connections of the pool, is
    left out with the pool. *)
Definition Close (ok : bool) : G Client (option ListenErr) :=
  c ← liftM get;
  if disposed c then mret None
  else
    w ← liftgo (WaitingMessage.Dispose (messagesWaiting c));
    liftM (modify (λ c, set_disposed (set_pool (ServerPool.Dispose (udpPool c)) (set_waiting w c))));;
    if conn c && negb ok then mret (Some ErrClose) else mret None.
End Client.

(** * Properties *)

Section ClientFacts.
Context {CK : Clock} {RO : RangeOrder} {ROL : RangeOrderLaws} {X : XXHash} {digest : bytes}
  {XL : XXHashLaws digest} {NW : Network} {TN : TCPNet} {RD : Rand} {RDL : RandLaws}.
Implicit Types (c : Client) (n : nat) (cb : Callback).

(** ** Callbacks *)

(** What a call returns for the data [b] without an error. *)
Lemma complete_count b :
  (4 ≤ length b)%nat → complete KCount b None = Ret (RCount (le_combine (take 4 b)) None).
Proof.
  intros Hb. cbn [complete count_result].
  rewrite (proj2 (Z.ltb_ge _ _)) by (unfold len; lia).
  rewrite (slice_at [] (take 4 b) (drop 4 b));
    [|symmetry; apply (take_drop 4)|done|rewrite len_nil; unfold len; rewrite length_take; lia].
  rewrite go_bind_Ret. unfold Uint32FromBytes.
  rewrite LittleEndian_Uint32_exact by (rewrite length_take; lia). done.
Qed.

Lemma complete_keys b :
  ∃ w ws, Split b x0a = w :: ws ∧
    complete KKeyMatch b None = Ret (RList (if bool_decide (w = []) then [] else w :: ws) None).
Proof.
  destruct (Split_cons b x0a) as (w & ws & Hs). exists w, ws. split; [done|].
  cbn [complete]. unfold keys_result. cbn zeta iota. rewrite Hs. change (index (w :: ws) 0) with (Ret w).
  rewrite go_bind_Ret. by case_bool_decide.
Qed.

(** Every callback returns. *)
Lemma complete_returns k b e : returns (complete k b e).
Proof.
  destruct k; cbn [complete]; try by eexists.
  - destruct e as [e|]; [by eexists|]. destruct (decide (4 ≤ length b)%nat) as [Hb|Hb].
    + exists (RCount (le_combine (take 4 b)) None). by apply complete_count.
    + cbn [count_result]. rewrite (proj2 (Z.ltb_lt _ _)) by (unfold len; lia). by eexists.
  - unfold keys_result. destruct (Split_cons (match e with Some _ => [] | None => b end) x0a)
      as (w & ws & ->). change (index (w :: ws) 0) with (Ret w). rewrite go_bind_Ret.
    case_bool_decide; by eexists.
Qed.

Lemma invoke_eq cb b e c n r :
  complete (cb_kind cb) b e = Ret r →
  invoke cb b e (c, n) = Ret (tt, (set_results (results c ++ [(cb_call cb, r)]) c, n)).
Proof. intros E. unfold invoke. by rewrite E. Qed.

(** ** Every call returns at most once *)

Definition waiting_calls c : list nat :=
  cb_call <$> WaitingMessage.waiting (WaitingMessage.cache (messagesWaiting c)).

(** The calls that returned or wait, and the ones in hand, are different calls
    that were made. *)
Definition accounted (pend : list nat) c : Prop :=
  NoDup (pend ++ (results c).*1 ++ waiting_calls c) ∧
  Forall (λ i, (i < next_call c)%nat) (pend ++ (results c).*1 ++ waiting_calls c).

Lemma accounted_perm pend pend' c c' :
  accounted pend c → next_call c' = next_call c →
  pend ++ (results c).*1 ++ waiting_calls c ≡ₚ pend' ++ (results c').*1 ++ waiting_calls c' →
  accounted pend' c'.
Proof. intros [H1 H2] Hn Hp. unfold accounted. rewrite <- Hp, Hn. done. Qed.

Lemma accounted_drop i pend c : accounted (i :: pend) c → accounted pend c.
Proof.
  intros [H1 H2]. cbn [app] in *. apply NoDup_cons in H1 as [_ H1].
  apply Forall_cons in H2 as [_ H2]. done.
Qed.

(** [m] keeps the account when the calls of [pend] are in hand. *)
Definition keeps (pend : list nat) (m : G Client unit) : Prop :=
  ∀ c n u c' n', accounted pend c → m (c, n) = Ret (u, (c', n')) → accounted [] c'.

Lemma keeps_ret pend : keeps pend (mret tt).
Proof.
  intros c n u c' n' Hc [= _ <- _]. induction pend as [|i pend IH]; [done|].
  apply accounted_drop in Hc. by apply IH.
Qed.

Lemma keeps_panic pend : keeps pend (liftgo Panic).
Proof. by intros c n u c' n' _ E. Qed.

Lemma invoke_accounted cb pend b e c n u c' n' :
  accounted (cb_call cb :: pend) c → invoke cb b e (c, n) = Ret (u, (c', n')) →
  accounted pend c'.
Proof.
  intros Hc E. destruct (complete_returns (cb_kind cb) b e) as [r Hr].
  rewrite (invoke_eq _ _ _ _ _ _ Hr) in E. injection E as _ <- <-.
  apply (accounted_perm (cb_call cb :: pend) pend c); [done|done|].
  cbn [results set_results]. rewrite fmap_app. cbn [fmap list_fmap fst app].
  change (waiting_calls (set_results _ c)) with (waiting_calls c). solve_Permutation.
Qed.

Lemma keeps_invoke cb b e : keeps [cb_call cb] (invoke cb b e).
Proof. intros c n u c' n' Hc E. by eapply invoke_accounted. Qed.

(** A step that does not touch the account. *)
Lemma keeps_liftM {A} pend (m : M Client A) (f : A → G Client unit) :
  (∀ c n a c' n', m (c, n) = (a, (c', n')) →
    results c' = results c ∧ messagesWaiting c' = messagesWaiting c ∧ next_call c' = next_call c) →
  (∀ a, keeps pend (f a)) → keeps pend (a ← liftM m; f a).
Proof.
  intros Hm Hf c n u c' n' Hc E. rewrite G_bind_lift in E.
  destruct (m (c, n)) as [a [c1 n1]] eqn:E1. cbn [fst snd] in E.
  destruct (Hm _ _ _ _ _ E1) as (Hr & Hw & Hn). apply (Hf a c1 n1 u c' n'); [|exact E].
  apply (accounted_perm pend pend c); [done|done|]. unfold waiting_calls. by rewrite Hr, Hw.
Qed.

Lemma keeps_liftgo {A} pend (m : go A) (f : A → G Client unit) :
  (∀ a, keeps pend (f a)) → keeps pend (a ← liftgo m; f a).
Proof.
  intros Hf c n u c' n' Hc E. destruct m as [a|]; [|done]. rewrite G_bind_go in E.
  by apply (Hf a c n u c' n').
Qed.

Lemma keeps_Add id cb (f : option CacheErr → G Client unit) :
  keeps [] (f None) → (∀ e, keeps [cb_call cb] (f (Some e))) →
  keeps [cb_call cb] (r ← liftM (on_cache (WaitingMessage.Add id cb)); f r).
Proof.
  intros HN HS c n u c' n' Hc E. rewrite G_bind_lift in E. unfold on_cache in E.
  destruct (WaitingMessage.Add id cb (messagesWaiting c, n)) as [r [w n1]] eqn:EA. cbn [fst snd] in E.
  apply WaitingMessage.Add_spec in EA.
  destruct (WaitingMessage.cache (messagesWaiting c) !! id) eqn:Hid.
  - destruct EA as (-> & -> & ->). apply (HS _ _ _ _ _ _) in E; [done|].
    apply (accounted_perm [cb_call cb] [cb_call cb] c); done.
  - destruct EA as (-> & -> & ->). apply HN in E; [done|].
    apply (accounted_perm [cb_call cb] [] c); [done|done|].
    unfold waiting_calls. cbn [results set_waiting messagesWaiting].
    cbn [WaitingMessage.cache WaitingMessage.set_cache].
    rewrite (WaitingMessage.waiting_insert _ _ _ Hid), fmap_cons.
    cbn [WaitingMessage.Callback app]. apply Permutation_middle.
Qed.

Lemma keeps_Pull id pend (f : Callback + CacheErr → G Client unit) :
  (∀ cb, keeps (cb_call cb :: pend) (f (inl cb))) → (∀ e, keeps pend (f (inr e))) →
  keeps pend (r ← liftM (on_cache (WaitingMessage.Pull id)); f r).
Proof.
  intros Hl Hr c n u c' n' Hc E. rewrite G_bind_lift in E. unfold on_cache in E.
  destruct (WaitingMessage.Pull id (messagesWaiting c, n)) as [r [w n1]] eqn:EP. cbn [fst snd] in E.
  apply WaitingMessage.Pull_spec in EP.
  destruct (WaitingMessage.cache (messagesWaiting c) !! id) as [m|] eqn:Hid.
  - destruct EP as (-> & -> & ->).
    assert (Hc' : accounted (cb_call (WaitingMessage.Callback m) :: pend)
      (set_waiting (WaitingMessage.set_cache (delete id (WaitingMessage.cache (messagesWaiting c)))
         (messagesWaiting c)) c)).
    { apply (accounted_perm pend _ c); [done|done|]. unfold waiting_calls.
      cbn [results set_waiting messagesWaiting WaitingMessage.cache WaitingMessage.set_cache].
      rewrite (WaitingMessage.waiting_delete _ _ _ Hid), fmap_cons. solve_Permutation. }
    case_decide; [by apply Hr in E; [|apply accounted_drop in Hc'] | by apply Hl in E].
  - destruct EP as (-> & -> & ->). apply Hr in E; [done|].
    by apply (accounted_perm pend pend c).
Qed.

(** ** The operations keep the account *)

(** The client after the start of a call. *)
Definition started c : Client :=
  set_next_call (S (next_call c)) (set_counter (u32 (messageIDCounter c + 1)) c).

(** The message id of the next call. *)
Definition next_id c : bytes := Uint32ToBytes (u32 (messageIDCounter c + 1)).

Lemma start_eq kind cmd ns data c n :
  start kind cmd ns data (c, n)
  = Ret ((parts_packet (digest := digest) cmd (next_id c) ns data (preSharedKey c),
          mkCallback (next_call c) kind), (started c, n)).
Proof.
  unfold start. rewrite G_bind_lift. unfold makeMessageID, get, modify, mbind, M_bind, mret, M_ret.
  cbn [fst snd]. unfold G_bind, liftM, liftgo, get, modify.
  rewrite (NewPacketFromParts_eq (digest := digest)) by (rewrite Uint32ToBytes_length; lia). done.
Qed.

Lemma next_id_value cmd c ns data psk :
  MessageID (parts_packet (digest := digest) cmd (next_id c) ns data psk)
  = u32 (messageIDCounter c + 1).
Proof.
  cbn [MessageID parts_packet]. unfold next_id. set (u := u32 _).
  pose proof (Uint32_ToFrom u) as Hu. unfold Uint32FromBytes, LittleEndian_Uint32 in Hu.
  rewrite (proj2 (Z.ltb_ge _ _)) in Hu by (unfold len; rewrite Uint32ToBytes_length; lia).
  assert (le_combine (take 4 (Uint32ToBytes u)) = u32 u) as -> by congruence.
  apply u32_small, u32_range.
Qed.

Lemma next_id_combine c : le_combine (next_id c) = u32 (messageIDCounter c + 1).
Proof.
  rewrite <- (next_id_value CmdPut c [] [] []). cbn [MessageID parts_packet].
  rewrite take_ge; [done|]. unfold next_id. by rewrite Uint32ToBytes_length.
Qed.

Lemma keeps_start kind cmd ns data (f : Packet * Callback → G Client unit) :
  (∀ p cb, keeps [cb_call cb] (f (p, cb))) → keeps [] (r ← start kind cmd ns data; f r).
Proof.
  intros Hf c n u c' n' [H1 H2] E. unfold mbind, G_bind in E. rewrite start_eq in E.
  apply Hf in E; [done|]. cbn [app cb_call] in *. split.
  - apply NoDup_cons. split; [|done]. intros Hin. rewrite Forall_forall in H2.
    specialize (H2 _ Hin). simpl in H2. lia.
  - constructor; [simpl; lia|]. eapply Forall_impl; [exact H2|]. simpl. lia.
Qed.

Lemma client_WriteToUDP_eq b a c n :
  WriteToUDP b a (c, n)
  = (udp_write_ok n, (if udp_write_ok n then set_sent (sent c ++ [(b, a)]) c else c, S n)).
Proof.
  unfold WriteToUDP, seed, modify, mret, M_ret, mbind, M_bind. by destruct (udp_write_ok n).
Qed.

Lemma on_cache_eq {A} (m : M (ResponseCache Callback) A) c n a w n' :
  m (messagesWaiting c, n) = (a, (w, n')) → on_cache m (c, n) = (a, (set_waiting w c, n')).
Proof. intros E. unfold on_cache. by rewrite E. Qed.

(** [_sendUDP], branch by branch: the packet does not fit; the message id is
    taken; the write fails, and the callback is taken back and called; or the
    datagram is sent and the callback waits. *)
Lemma sendUDP_eq p a cb c n b e :
  Bytes p = Ret (b, e) →
  _sendUDP p a cb (c, n)
  = match e with
    | Some e => invoke cb [] (Some (ErrProto e)) (c, n)
    | None =>
        let w := messagesWaiting c in
        match WaitingMessage.cache w !! MessageID p with
        | Some _ => invoke cb [] (Some (ErrCache ErrMessageIDExists)) (c, n)
        | None =>
            if udp_write_ok (S n) then
              Ret (tt, (set_sent (sent c ++ [(b, a)])
                (set_waiting (WaitingMessage.set_cache
                  (<[MessageID p := WaitingMessage.mkWaiting cb (clock n)]> (WaitingMessage.cache w)) w) c),
                S (S n)))
            else invoke cb [] (Some ErrWrite) (c, S (S (S n)))
        end
    end.
Proof.
  intros HB. unfold _sendUDP. rewrite HB, G_bind_go. destruct e as [e|]; [done|]. cbn zeta.
  destruct (WaitingMessage.Add (MessageID p) cb (messagesWaiting c, n)) as [r [w n1]] eqn:EA.
  rewrite G_bind_lift, (on_cache_eq _ _ _ _ _ _ EA).
  apply WaitingMessage.Add_spec in EA.
  assert (Hsame : set_waiting (messagesWaiting c) c = c) by (by destruct c).
  destruct (WaitingMessage.cache (messagesWaiting c) !! MessageID p) eqn:Hid.
  - destruct EA as (-> & -> & ->). cbn [fst snd]. by rewrite Hsame.
  - destruct EA as (-> & -> & ->). cbn [fst snd]. rewrite G_bind_lift, client_WriteToUDP_eq. cbn [fst snd].
    destruct (udp_write_ok (S n)); [done|]. set (c1 := set_waiting _ c).
    destruct (WaitingMessage.Pull (MessageID p) (messagesWaiting c1, S (S n))) as [r [w' n2]] eqn:EP.
    rewrite G_bind_lift, (on_cache_eq _ _ _ _ _ _ EP).
    apply WaitingMessage.Pull_spec in EP. unfold c1 in EP |- *. cbn [messagesWaiting set_waiting] in EP.
    cbn [WaitingMessage.cache WaitingMessage.set_cache] in EP. rewrite lookup_insert_eq in EP.
    destruct EP as (-> & -> & ->). cbn [fst snd].
    rewrite delete_insert_id by done.
    assert (Hback : set_waiting (WaitingMessage.set_cache (WaitingMessage.cache (messagesWaiting c))
      (WaitingMessage.set_cache (<[MessageID p := WaitingMessage.mkWaiting cb (clock n)]>
         (WaitingMessage.cache (messagesWaiting c))) (messagesWaiting c))) (set_waiting
      (WaitingMessage.set_cache (<[MessageID p := WaitingMessage.mkWaiting cb (clock n)]>
         (WaitingMessage.cache (messagesWaiting c))) (messagesWaiting c)) c) = c).
    { destruct c as [? ? ? []]. done. }
    rewrite Hback. by destruct (decide _).
Qed.

Lemma keeps_sendUDP p a cb : keeps [cb_call cb] (_sendUDP p a cb).
Proof.
  intros c n u c' n' Hc E. destruct (Bytes p) as [[b e]|] eqn:HB;
    [|unfold _sendUDP in E; by rewrite HB in E].
  rewrite (sendUDP_eq _ _ _ _ _ _ _ HB) in E.
  destruct e as [e|]; [by eapply keeps_invoke|]. cbn zeta in E.
  destruct (WaitingMessage.cache (messagesWaiting c) !! MessageID p) eqn:Hid; [by eapply keeps_invoke|].
  destruct (udp_write_ok (S n)); [|by eapply keeps_invoke].
  injection E as _ <- _. apply (accounted_perm [cb_call cb] [] c); [done|done|].
  unfold waiting_calls. cbn [results set_sent set_waiting messagesWaiting].
  cbn [WaitingMessage.cache WaitingMessage.set_cache].
  rewrite (WaitingMessage.waiting_insert _ _ _ Hid), fmap_cons.
  cbn [WaitingMessage.Callback app]. apply Permutation_middle.
Qed.

Lemma keeps_sendTCP p cb : keeps [cb_call cb] (_sendTCP p cb).
Proof.
  assert (Hget : ∀ (c : Client) n a c' n', get (c, n) = (a, (c', n')) →
    results c' = results c ∧ messagesWaiting c' = messagesWaiting c ∧ next_call c' = next_call c)
    by (by intros c n a c' n' [= _ <- _]).
  assert (Hseed : ∀ (c : Client) n a c' n', seed (c, n) = (a, (c', n')) →
    results c' = results c ∧ messagesWaiting c' = messagesWaiting c ∧ next_call c' = next_call c)
    by (by intros c n a c' n' [= _ <- _]).
  unfold _sendTCP. apply keeps_liftM; [exact Hget|]. intros c0.
  case_bool_decide; [apply keeps_panic|]. apply keeps_liftM; [exact Hseed|]. intros n0.
  destruct (negb (tcp_get_ok n0)); [apply keeps_invoke|].
  apply keeps_liftgo. intros server. cbn zeta. apply keeps_liftgo. intros [b [e|]]; [apply keeps_invoke|].
  apply keeps_liftM; [exact Hseed|]. intros n1.
  destruct (negb (tcp_write_ok n1)); [apply keeps_invoke|].
  apply (keeps_liftM _ _ (λ _, _)); [by intros c n a c' n' [= _ <- _]|]. intros _.
  apply keeps_liftgo. intros [[m|] next]; [|apply keeps_ret].
  apply (keeps_liftM _ _ (λ _, _)); [by intros c n a c' n' [= _ <- _]|]. intros _.
  apply keeps_liftgo. intros padded. apply keeps_liftgo. intros [res err].
  case_bool_decide; [destruct err; [apply keeps_invoke | apply keeps_ret]|].
  destruct res; [apply keeps_invoke | apply keeps_panic].
Qed.

Lemma keeps_sendOrCallbackErr p cb : keeps [cb_call cb] (sendOrCallbackErr p cb).
Proof.
  unfold sendOrCallbackErr. destruct (IsTcpOnlyCmd (Command p)); [apply keeps_sendTCP|].
  apply keeps_liftM.
  - intros c n a c' n'. unfold on_pool. destruct (ServerPool.Choose (udpPool c, n)) as [r [q m]].
    by intros [= _ <- _].
  - intros [a|]; [apply keeps_sendUDP | apply keeps_invoke].
Qed.

Lemma keeps_request kind cmd ns data : keeps [] (request kind cmd ns data).
Proof. apply keeps_start. intros p cb. apply keeps_sendOrCallbackErr. Qed.

Lemma keeps_Healthcheck a : keeps [] (Healthcheck a).
Proof. apply keeps_start. intros p cb. apply keeps_sendUDP. Qed.

Lemma keeps_handleResponse d : keeps [] (handleResponse d).
Proof.
  unfold handleResponse. apply keeps_liftgo. intros [[p|] err]; [|apply keeps_ret].
  destruct (_ && _); [apply keeps_ret|]. apply keeps_Pull; [|intros e; apply keeps_ret].
  intros cb. cbn zeta. destruct (negb _); [apply keeps_ret|].
  destruct (Command p =b ResError); [apply keeps_invoke|].
  destruct (_ || _); [apply keeps_invoke | apply keeps_ret].
Qed.

Lemma keeps_handleTimeouts l : keeps (cb_call <$> l) (handleTimeouts l).
Proof.
  induction l as [|cb l IH]; [apply keeps_ret|]. intros c n u c' n' Hc E. cbn [handleTimeouts] in E.
  apply G_bind_inv in E as ([] & [c1 n1] & E1 & E2).
  eapply IH; [|exact E2]. eapply invoke_accounted; [|exact E1]. exact Hc.
Qed.

Lemma keeps_cleanup_fires : keeps [] cleanup_fires.
Proof.
  intros c n u c' n' Hc E. unfold cleanup_fires in E. rewrite G_bind_lift in E. unfold on_cache in E.
  destruct (WaitingMessage.timer_fires (messagesWaiting c, n)) as [out [w n1]] eqn:EW.
  cbn [fst snd] in E. apply WaitingMessage.timer_fires_spec in EW as [Hw _].
  eapply keeps_handleTimeouts; [|exact E].
  apply (accounted_perm [] _ c); [done|done|]. unfold waiting_calls.
  cbn [results set_waiting messagesWaiting]. rewrite Hw, fmap_app. solve_Permutation.
Qed.

(** ** Histories *)

Inductive event :=
  | ECount (ns key : bytes)
  | EKeyMatch (ns pat : bytes)
  | ECountNamespace (ns : bytes)
  | ECountServer
  | EListNamespaces
  | EPut (ns value : bytes)
  | EHealthcheck (a : Addr)
  | EDatagram (d : bytes)
  | ECleanup.

Definition step (ev : event) : G Client unit :=
  match ev with
  | ECount ns key => Count ns key
  | EKeyMatch ns pat => KeyMatch ns pat
  | ECountNamespace ns => CountNamespace ns
  | ECountServer => CountServer
  | EListNamespaces => ListNamespaces
  | EPut ns value => Put ns value
  | EHealthcheck a => Healthcheck a
  | EDatagram d => handleResponse d
  | ECleanup => cleanup_fires
  end.

Fixpoint run (evs : list event) : G Client unit :=
  match evs with
  | [] => mret tt
  | ev :: evs' => step ev;; run evs'
  end.

Lemma keeps_step ev : keeps [] (step ev).
Proof.
  destruct ev; cbn [step]; try apply keeps_request;
    [apply keeps_Healthcheck | apply keeps_handleResponse | apply keeps_cleanup_fires].
Qed.

Lemma run_accounted evs c n u c' n' :
  accounted [] c → run evs (c, n) = Ret (u, (c', n')) → accounted [] c'.
Proof.
  revert c n. induction evs as [|ev evs IH]; intros c n Hc E.
  - by injection E as _ <- _.
  - cbn [run] in E. apply G_bind_inv in E as ([] & [c1 n1] & E1 & E2).
    eapply IH; [|exact E2]. by eapply keeps_step.
Qed.

Lemma NewClient_fresh conf σ c n :
  NewClient conf σ = Ret (tt, (c, n)) →
  results c = [] ∧ next_call c = 0%nat ∧ waiting_calls c = [] ∧ messageIDCounter c = 0 ∧
  preSharedKey c = PreSharedKey conf ∧ sent c = [].
Proof.
  intros E. unfold NewClient in E. cbn zeta in E.
  apply G_bind_inv in E as (ss & σ1 & _ & E). apply G_bind_inv in E as (f & σ2 & _ & E).
  apply G_bind_inv in E as (ts & [c3 n3] & _ & E).
  destruct (bool_decide (ss = [] ∧ ts = [])); [done|]. unfold liftM in E.
  unfold WaitingMessage.NewCache, put, mbind, M_bind, mret, M_ret in E.
  destruct (WaitingMessage.checkCleanup _) as [out [w n4]] eqn:EW.
  apply WaitingMessage.checkCleanup_spec in EW. cbn [WaitingMessage.disposed] in EW.
  destruct EW as (_ & [_ Hsub _ _ _ _ _] & _).
  injection E as <- _. cbn [results next_call messageIDCounter preSharedKey sent waiting_calls messagesWaiting].
  assert (He : WaitingMessage.cache w = ∅).
  { apply map_empty. intros i. destruct (WaitingMessage.cache w !! i) as [m|] eqn:Hi; [|done].
    by apply (lookup_weaken _ _ _ _ Hi) in Hsub. }
  unfold waiting_calls, WaitingMessage.waiting. cbn [messagesWaiting]. by rewrite He, map_to_list_empty.
Qed.

(** * Theorems *)

(** C19. Every call returns at most once: after any history of calls,
    datagrams and cleanups of a new client, the calls that returned and the
    calls whose callback still waits are all different, and are calls that
    were made. *)
Theorem calls_return_at_most_once conf σ evs c n c' n' :
  NewClient conf σ = Ret (tt, (c, n)) → run evs (c, n) = Ret (tt, (c', n')) →
  NoDup ((results c').*1 ++ waiting_calls c') ∧
  ∀ i, i ∈ (results c').*1 ++ waiting_calls c' → (i < next_call c')%nat.
Proof.
  intros EN ER. destruct (NewClient_fresh _ _ _ _ EN) as (Hr & _ & Hw & _).
  destruct (run_accounted evs c n tt c' n') as [H1 H2]; [|exact ER|].
  - split; rewrite Hr, Hw; constructor.
  - split; [exact H1|]. by apply Forall_forall.
Qed.

(** ** Requests *)

(** C29. A request over UDP: a call whose namespace and data fit sends one
    datagram, hashed under the key of the client, to a healthy server, and
    its callback waits under the fresh message id; when the data do not fit,
    no server is healthy, the id is still in use, or the write fails, the
    call returns the error at once and nothing waits. *)
Theorem udp_request kind cmd ns data c n :
  IsTcpOnlyCmd cmd = false → (length data ≤ 1419)%nat →
  let psk := preSharedKey c in
  let b := datagram (digest := digest) cmd (next_id c) ns data psk in
  let id := u32 (messageIDCounter c + 1) in
  ∃ c' n', request kind cmd ns data (c, n) = Ret (tt, (c', n')) ∧ next_call c' = S (next_call c) ∧
    messageIDCounter c' = id ∧
    ((∃ a, a ∈ ServerPool.healthy (udpPool c) ∧ (length ns ≤ 64)%nat ∧
       sent c' = sent c ++ [(b, a)] ∧ results c' = results c ∧
       ∃ t, WaitingMessage.cache (messagesWaiting c') !! id
            = Some (WaitingMessage.mkWaiting (mkCallback (next_call c) kind) t)) ∨
     (∃ e r, e ∈ [ErrNoHealthyUDPServers; ErrProto ErrBadOutputSize; ErrCache ErrMessageIDExists; ErrWrite] ∧
       complete kind [] (Some e) = Ret r ∧
       (e = ErrNoHealthyUDPServers ↔ ServerPool.healthy (udpPool c) = []) ∧
       (e = ErrProto ErrBadOutputSize → (64 < length ns)%nat) ∧
       results c' = results c ++ [(next_call c, r)] ∧ sent c' = sent c ∧
       messagesWaiting c' = messagesWaiting c)).
Proof.
  intros Hcmd Hdata psk b id. unfold request, mbind, G_bind. rewrite start_eq. cbn [fst snd].
  set (p := parts_packet _ _ _ _ _). set (cb := mkCallback (next_call c) kind).
  unfold sendOrCallbackErr. change (Command p) with cmd. rewrite Hcmd, G_bind_lift. unfold on_pool.
  destruct (ServerPool.Choose (udpPool (started c), n)) as [r [pool n1]] eqn:EC.
  apply ServerPool.Choose_healthy in EC as (-> & HN & HS). cbn [fst snd udpPool started set_next_call set_counter] in *.
  assert (Hpool : set_pool (udpPool c) (started c) = started c) by done. rewrite Hpool.
  assert (Hfail : ∀ e m, ∃ r, complete kind [] (Some e) = Ret r ∧
    invoke cb [] (Some e) (started c, m)
    = Ret (tt, (set_results (results c ++ [(next_call c, r)]) (started c), m))).
  { intros e m. destruct (complete_returns kind [] (Some e)) as [r' Hr'].
    exists r'. split; [done|]. exact (invoke_eq cb [] (Some e) (started c) m r' Hr'). }
  destruct r as [a|].
  2: { destruct (Hfail ErrNoHealthyUDPServers n1) as (r & Hr & E).
       eexists _, n1. split; [exact E|]. split; [done|]. split; [done|]. right.
       exists ErrNoHealthyUDPServers, r. split; [by left|]. split; [done|].
       split; [by split; intros _; [apply HN|]|]. done. }
  assert (Hne : ServerPool.healthy (udpPool c) ≠ []) by (intros Hx; by apply HN in Hx).
  rewrite (sendUDP_eq p a cb (started c) n1 b _ (Bytes_parts (digest := digest) _ _ _ _ _ (Uint32ToBytes_length _))).
  rewrite Hcmd, orb_false_r, (proj2 (Nat.leb_le (length data) 1419) Hdata), andb_true_r.
  assert (Hid : MessageID p = id) by apply next_id_value. rewrite Hid. cbn zeta.
  destruct (Nat.leb_spec (length ns) 64) as [Hns|Hns].
  2: { destruct (Hfail (ErrProto ErrBadOutputSize) n1) as (r & Hr & E).
       eexists _, n1. split; [exact E|]. split; [done|]. split; [done|]. right.
       exists (ErrProto ErrBadOutputSize), r. split; [by right; left|]. split; [done|].
       split; [by split|]. done. }
  destruct (WaitingMessage.cache (messagesWaiting (started c)) !! id) eqn:Hlook.
  { destruct (Hfail (ErrCache ErrMessageIDExists) n1) as (r & Hr & E).
    eexists _, n1. split; [exact E|]. split; [done|]. split; [done|]. right.
    exists (ErrCache ErrMessageIDExists), r. split; [by do 2 right; left|]. split; [done|].
    split; [by split|]. done. }
  destruct (udp_write_ok (S n1)).
  - eexists _, _. split; [reflexivity|]. split; [done|]. split; [done|]. left.
    exists a. split; [by apply HS|]. split; [done|]. split; [done|]. split; [done|].
    exists (clock n1). cbn [messagesWaiting set_sent set_waiting].
    cbn [WaitingMessage.cache WaitingMessage.set_cache]. apply lookup_insert_eq.
  - destruct (Hfail ErrWrite (S (S (S n1)))) as (r & Hr & E).
    eexists _, _. split; [exact E|]. split; [done|]. split; [done|]. right.
    exists ErrWrite, r. split; [by do 3 right; left|]. split; [done|].
    split; [by split|]. done.
Qed.

(** A response datagram, by its command. *)
Lemma handleResponse_datagram cmd id ns data psk' c n m :
  length id = 4%nat → (length ns ≤ 64)%nat → (length data ≤ 1419)%nat → commandIsValid cmd = true →
  WaitingMessage.cache (messagesWaiting c) !! le_combine id = Some m →
  clock n <= WaitingMessage.CreatedSecs m + WaitingMessage.timeoutSecs (messagesWaiting c) →
  ∃ c', handleResponse (datagram (digest := digest) cmd id ns data psk') (c, n) = Ret (tt, (c', S n)) ∧
    WaitingMessage.cache (messagesWaiting c')
      = delete (le_combine id) (WaitingMessage.cache (messagesWaiting c)) ∧
    let cb := WaitingMessage.Callback m in
    if cmd =b ResError then
      ∃ r, complete (cb_kind cb) [] (Some (ErrResponse (TrimSpace data))) = Ret r ∧
        results c' = results c ++ [(cb_call cb, r)]
    else if bool_decide (cmd ∈ [CmdCount; CmdPut; CmdCountNamespace; CmdCountServer]) then
      ∃ r, complete (cb_kind cb) (pad 1419 data) None = Ret r ∧
        results c' = results c ++ [(cb_call cb, r)]
    else results c' = results c.
Proof.
  intros Hid Hns Hdata Hcmd Hm Hfresh. unfold handleResponse.
  pose proof (datagram_length (digest := digest) cmd id ns data psk' Hid Hns Hdata) as Hlen.
  replace (take _ _) with (datagram (digest := digest) cmd id ns data psk').
  2: { unfold len in Hlen. replace (Z.to_nat PacketSize)
         with (length (datagram (digest := digest) cmd id ns data psk')) by lia.
       by rewrite take_app_length. }
  rewrite ParsePacket_datagram, G_bind_go by done. rewrite bool_decide_eq_false_2 by (intros Hx; done).
  cbn [andb]. set (p := parsed_packet _ _ _ _ _).
  destruct (WaitingMessage.Pull (MessageID p) (messagesWaiting c, n)) as [r [w n1]] eqn:EP.
  rewrite G_bind_lift, (on_cache_eq _ _ _ _ _ _ EP). apply WaitingMessage.Pull_spec in EP.
  change (MessageID p) with (le_combine id) in EP. rewrite Hm in EP. destruct EP as (-> & -> & ->).
  unfold WaitingMessage.old. rewrite decide_False by lia. cbn [fst snd]. cbn zeta.
  change (Command p) with cmd. unfold IsResponseCmd. set (cb := WaitingMessage.Callback m).
  set (c1 := set_waiting _ c).
  assert (Hinv : ∀ b e, ∃ r, complete (cb_kind cb) b e = Ret r ∧
    invoke cb b e (c1, S n) = Ret (tt, (set_results (results c ++ [(cb_call cb, r)]) c1, S n))).
  { intros b e. destruct (complete_returns (cb_kind cb) b e) as [r Hr]. exists r. split; [done|].
    exact (invoke_eq cb b e c1 (S n) r Hr). }
  destruct (cmd =b ResError) eqn:HE; cbn [orb negb].
  { destruct (Hinv [] (Some (ErrResponse (DataValueString p)))) as (r & Hr & E).
    eexists. split; [exact E|]. split; [done|]. exists r. split; [|done]. rewrite <- Hr. do 2 f_equal.
    unfold DataValueString, p. cbn [DataValue parsed_packet]. by rewrite TrimSpace_padded. }
  destruct (IsRequestCmd cmd) eqn:HR; cbn [negb].
  - destruct ((cmd =b CmdCount) || (cmd =b CmdPut) || (cmd =b CmdCountNamespace) || (cmd =b CmdCountServer)) eqn:HC.
    + rewrite bool_decide_eq_true_2.
      2: { rewrite !orb_true_iff, !byte_eqb_eq in HC. rewrite !elem_of_cons. tauto. }
      destruct (Hinv (DataValue p) None) as (r & Hr & E).
      eexists. split; [exact E|]. split; [done|]. by exists r.
    + rewrite bool_decide_eq_false_2; [by eexists|].
      rewrite !orb_false_iff, !byte_eqb_neq in HC. rewrite !elem_of_cons, elem_of_nil. tauto.
  - rewrite bool_decide_eq_false_2; [by eexists|].
    unfold IsRequestCmd in HR. rewrite !orb_false_iff, !byte_eqb_neq in HR.
    rewrite !elem_of_cons, elem_of_nil. tauto.
Qed.

(** C30. Responses: a response datagram whose message id waits takes the
    callback out of the cache. An 'E' response makes the call return its text
    as the error; a 'C', 'P', 'N' or 'S' response makes it return its data,
    whatever the command of the request was; any other command leaves the call
    without a result for ever. The hash of a response is never checked: the
    outcome is the same under every key. *)
Theorem udp_response cmd id ns data psk' c n m :
  length id = 4%nat → (length ns ≤ 64)%nat → (length data ≤ 1419)%nat → commandIsValid cmd = true →
  WaitingMessage.cache (messagesWaiting c) !! le_combine id = Some m →
  clock n <= WaitingMessage.CreatedSecs m + WaitingMessage.timeoutSecs (messagesWaiting c) →
  ∃ c', handleResponse (datagram (digest := digest) cmd id ns data psk') (c, n) = Ret (tt, (c', S n)) ∧
    WaitingMessage.cache (messagesWaiting c')
      = delete (le_combine id) (WaitingMessage.cache (messagesWaiting c)) ∧
    let cb := WaitingMessage.Callback m in
    if cmd =b ResError then
      ∃ r, complete (cb_kind cb) [] (Some (ErrResponse (TrimSpace data))) = Ret r ∧
        results c' = results c ++ [(cb_call cb, r)]
    else if bool_decide (cmd ∈ [CmdCount; CmdPut; CmdCountNamespace; CmdCountServer]) then
      ∃ r, complete (cb_kind cb) (pad 1419 data) None = Ret r ∧
        results c' = results c ++ [(cb_call cb, r)]
    else results c' = results c.
Proof. apply handleResponse_datagram. Qed.

(** ** TCP calls *)

(** [_sendTCP] when a message was read and parses. *)
Lemma sendTCP_reads p cb c n b :
  tcpServerList c ≠ [] → tcp_get_ok n = true → tcp_write_ok (S n) = true →
  let packet := set_DataValue (DataValue p ++ StopSymbol) p in
  Bytes packet = Ret (b, None) →
  ∃ server, server ∈ tcpServerList c ∧
    ∀ message next padded q,
      readOneMessage true false n server packet (tcp_reads n) = Ret (Some message, next) →
      PadRight message PacketSize = Ret padded → ParsePacket padded = Ret (Some q, None) →
      _sendTCP p cb (c, n)
      = invoke cb (TrimSpace (DataValue q)) None
          (set_readers (readers c ++ match next with Some r => [r] | None => [] end)
             (set_tcp_sent (tcp_sent c ++ [(b, n)]) c), S (S n)).
Proof.
  intros Hne Hget Hwrite packet HB.
  assert (Hlen : (0 < length (tcpServerList c))%nat) by (destruct (tcpServerList c); [done|simpl; lia]).
  destruct (lookup_lt_is_Some_2 (tcpServerList c) _ (Intn_lt n _ Hlen)) as [server Hs].
  exists server. split; [by eapply list_elem_of_lookup_2|].
  intros message next padded q Hread Hpad Hparse. unfold _sendTCP.
  rewrite G_bind_lift. cbn [get fst snd]. rewrite bool_decide_eq_false_2 by done.
  rewrite G_bind_lift. cbn [seed fst snd]. rewrite Hget. cbn [negb].
  assert (Hi : index (tcpServerList c) (Z.of_nat (Intn n (length (tcpServerList c)))) = Ret server).
  { unfold index. rewrite (proj2 (Z.ltb_ge _ _)) by lia. by rewrite Nat2Z.id, Hs. }
  rewrite Hi, G_bind_go. cbn zeta. fold packet. rewrite HB, G_bind_go.
  rewrite G_bind_lift. cbn [seed fst snd]. rewrite Hwrite. cbn [negb].
  rewrite G_bind_lift. cbn [modify fst snd].
  rewrite Hread, G_bind_go, G_bind_lift. cbn [modify fst snd].
  rewrite Hpad, G_bind_go, Hparse, G_bind_go.
  by rewrite bool_decide_eq_false_2 by tauto.
Qed.

(** The keys of the text of a response. *)
Definition lines_of (text : bytes) : list bytes :=
  match Split text x0a with
  | w :: ws => if bool_decide (w = []) then [] else w :: ws
  | [] => []
  end.

Lemma KeyMatch_request ns pat c n :
  KeyMatch ns pat (c, n)
  = _sendTCP (parts_packet (digest := digest) CmdTCPOnlyKeys (next_id c) ns pat (preSharedKey c))
      (mkCallback (next_call c) KKeyMatch) (started c, n).
Proof. unfold KeyMatch, request, mbind, G_bind. by rewrite start_eq. Qed.

(** The request of a call over TCP. *)
Lemma tcp_request_bytes ns pat c :
  Bytes (set_DataValue (DataValue (parts_packet (digest := digest) CmdTCPOnlyKeys (next_id c) ns pat
                                     (preSharedKey c)) ++ StopSymbol)
           (parts_packet (digest := digest) CmdTCPOnlyKeys (next_id c) ns pat (preSharedKey c)))
  = Ret (datagram (digest := digest) CmdTCPOnlyKeys (next_id c) ns pat (preSharedKey c) ++ StopSymbol, None).
Proof.
  destruct (Bytes_stop (digest_length (digest := digest)) CmdTCPOnlyKeys (next_id c) ns pat (preSharedKey c) None
    (Uint32ToBytes_length _)) as (e & _ & He & HB). cbn zeta in HB.
  rewrite He in HB by done. exact HB.
Qed.

(** A call for keys whose connection delivers a datagram of any command. *)
Lemma KeyMatch_response cmd id ns' data psk' r ns pat c n :
  tcpServerList c ≠ [] → tcp_get_ok n = true → tcp_write_ok (S n) = true →
  length id = 4%nat → (length ns' ≤ 64)%nat → (length data ≤ 1419)%nat → commandIsValid cmd = true →
  let d := datagram (digest := digest) cmd id ns' data psk' in
  cut_stop (d ++ StopSymbol) = Some (d, []) → pad 1500 (TrimRightSpace d) = d →
  concat (tcp_reads n) = d ++ StopSymbol ++ r →
  ∃ c', KeyMatch ns pat (c, n) = Ret (tt, (c', S (S n))) ∧
    results c' = results c ++ [(next_call c, RList (lines_of (TrimSpace data)) None)] ∧
    tcp_sent c' = tcp_sent c
      ++ [(datagram (digest := digest) CmdTCPOnlyKeys (next_id c) ns pat (preSharedKey c) ++ StopSymbol, n)].
Proof.
  intros Hne Hget Hwrite Hid Hns' Hdata Hcmd d Hcut Htrim Hreads.
  rewrite KeyMatch_request.
  destruct (sendTCP_reads _ (mkCallback (next_call c) KKeyMatch) (started c) n _ Hne Hget Hwrite
    (tcp_request_bytes ns pat c)) as (server & _ & Hsend). cbn zeta in Hsend.
  assert (Hread : ∀ p, readOneMessage true false n server p (tcp_reads n) = Ret (Some d, None)).
  { intros p. unfold readOneMessage.
    rewrite (ReadOneTcpMessage_command true n server (tcp_reads n) cmd _ r Hcmd Hreads Hcut).
    cbn [send mbind go_bind]. unfold message_of. cbn [Message]. change (cmd :: tail d) with d.
    do 3 f_equal. exact Htrim. }
  erewrite Hsend; [|apply Hread| |].
  2: { rewrite PadRight_pad, pad_full; [done|].
       pose proof (datagram_length (digest := digest) cmd id ns' data psk' Hid Hns' Hdata) as Hl.
       fold d in Hl. unfold len in Hl. lia. }
  2: { by apply ParsePacket_datagram. }
  cbn [DataValue parsed_packet]. rewrite TrimSpace_padded, app_nil_r.
  destruct (complete_keys (TrimSpace data)) as (w & ws & Hsp & Hk).
  rewrite (invoke_eq (mkCallback (next_call c) KKeyMatch) _ _ _ _ _ Hk). eexists. split; [reflexivity|].
  split; [|done]. unfold lines_of. by rewrite Hsp.
Qed.

(** A response over TCP is taken as data whatever its command is: when the
    server answers a call for keys with any packet, an error ('E') included,
    the call returns the lines of its data and no error. *)
Theorem tcp_error_is_returned_as_keys cmd id ns' data psk' r ns pat c n :
  tcpServerList c ≠ [] → tcp_get_ok n = true → tcp_write_ok (S n) = true →
  length id = 4%nat → (length ns' ≤ 64)%nat → (length data ≤ 1419)%nat → commandIsValid cmd = true →
  let d := datagram (digest := digest) cmd id ns' data psk' in
  cut_stop (d ++ StopSymbol) = Some (d, []) → pad 1500 (TrimRightSpace d) = d →
  concat (tcp_reads n) = d ++ StopSymbol ++ r →
  ∃ c', KeyMatch ns pat (c, n) = Ret (tt, (c', S (S n))) ∧
    results c' = results c ++ [(next_call c, RList (lines_of (TrimSpace data)) None)].
Proof.
  intros Hne Hget Hwrite Hid Hns' Hdata Hcmd d Hcut Htrim Hreads.
  destruct (KeyMatch_response cmd id ns' data psk' r ns pat c n Hne Hget Hwrite Hid Hns' Hdata Hcmd
              Hcut Htrim Hreads) as (c' & E & Hr & _). by exists c'.
Qed.

(** A packet whose data is replaced, under a command of any size. *)
Lemma Bytes_tcp_text cmd id ns dv psk text :
  IsTcpOnlyCmd cmd = true → length id = 4%nat →
  Bytes (set_DataValue text (parts_packet (digest := digest) cmd id ns dv psk))
  = Ret (wire cmd (sig (digest := digest) psk id (pad 64 ns) (pad 1419 dv)) id (pad 64 ns) (pad 1419 text), None).
Proof.
  intros Hc Hid. rewrite Bytes_eq.
  - cbn [Command HashBytes MessageIDBytes Namespace DataValue set_DataValue parts_packet].
    rewrite Hc, orb_true_r, pad_idemp. unfold sig. by rewrite (take_ge id) by lia.
  - cbn [HashBytes set_DataValue parts_packet]. rewrite !length_app, (digest_length (digest := digest)). lia.
  - cbn [MessageIDBytes set_DataValue parts_packet]. lia.
Qed.

(** A connection that ends before a response: the text of the read error is
    returned as keys without an error, and the goroutine that read it goes
    on: whatever it does next, it sends to the channel that was closed when
    the call returned, which panics. *)
Theorem tcp_eof_is_returned_then_panics ns pat c n :
  tcpServerList c ≠ [] → tcp_get_ok n = true → tcp_write_ok (S n) = true →
  tcp_reads n = [] → (length ns ≤ 64)%nat → (length read_error ≤ 1419)%nat →
  ∃ c' r, KeyMatch ns pat (c, n) = Ret (tt, (c', S (S n))) ∧
    results c' = results c ++ [(next_call c, RList (lines_of (TrimSpace read_error)) None)] ∧
    readers c' = readers c ++ [r] ∧
    ∀ ctx_done id remote, reader_round ctx_done id remote r = Panic.
Proof.
  intros Hne Hget Hwrite Hreads Hns Herr.
  rewrite KeyMatch_request.
  destruct (sendTCP_reads _ (mkCallback (next_call c) KKeyMatch) (started c) n _ Hne Hget Hwrite
    (tcp_request_bytes ns pat c)) as (server & _ & Hsend). cbn zeta in Hsend.
  rewrite Hreads in Hsend.
  set (p := set_DataValue _ _) in Hsend. set (q := set_DataValue read_error p).
  set (h := sig (digest := digest) (preSharedKey c) (next_id c) (pad 64 ns) (pad 1419 pat)).
  set (d := wire CmdTCPOnlyKeys h (next_id c) (pad 64 ns) (pad 1419 read_error)).
  assert (Hid : length (next_id c) = 4%nat) by apply Uint32ToBytes_length.
  assert (HB : ∀ text, Bytes (set_DataValue text p)
    = Ret (wire CmdTCPOnlyKeys h (next_id c) (pad 64 ns) (pad 1419 text), None))
    by (intros text; by apply Bytes_tcp_text).
  assert (Hread : readOneMessage true false n server p [] = Ret (Some d, Some (q, []))).
  { unfold readOneMessage. cbn [ReadOneTcpMessage mbind go_bind]. fold q.
    change (ReadOneTcpMessage true n server []) with (Ret (@None RawMessage, @nil bytes)).
    cbn [mbind go_bind]. unfold q. rewrite HB. done. }
  assert (Hh : length h = 8%nat) by (unfold h; apply (sig_length (digest := digest))).
  assert (Hlen : len d = PacketSize).
  { unfold d, wire. rewrite frame_length by (done || (rewrite pad_length; lia)).
    unfold len. rewrite pad_length. unfold PacketSize. lia. }
  erewrite Hsend; [|exact Hread| |].
  2: { rewrite PadRight_pad, pad_full; [done|]. unfold len in Hlen. lia. }
  2: { unfold d. apply ParsePacket_wire; try done; rewrite pad_length; lia. }
  cbn [DataValue]. rewrite TrimSpace_padded.
  destruct (complete_keys (TrimSpace read_error)) as (w & ws & Hsp & Hk).
  rewrite (invoke_eq (mkCallback (next_call c) KKeyMatch) _ _ _ _ _ Hk).
  eexists _, (q, []). split; [reflexivity|].
  split; [unfold lines_of; by rewrite Hsp|]. split; [done|].
  intros ctx_done id remote. unfold reader_round, readOneMessage. cbn [fst snd].
  destruct ctx_done.
  - unfold q. change (set_DataValue timed_out_text (set_DataValue read_error p))
      with (set_DataValue timed_out_text p). by rewrite HB.
  - change (ReadOneTcpMessage false id remote []) with (Ret (@None RawMessage, @nil bytes)).
    cbn [mbind go_bind]. unfold q.
    change (set_DataValue read_error (set_DataValue read_error p)) with (set_DataValue read_error p).
    by rewrite HB.
Qed.

(** Without TCP servers a call over TCP does not return an error but
    panics: the pool gives a nil interface, whose conversion to a connection
    fails before the check for nil. *)
Theorem tcp_call_without_servers_panics ns pat c n :
  tcpServerList c = [] →
  KeyMatch ns pat (c, n) = Panic ∧ ListNamespaces (c, n) = Panic.
Proof.
  intros Hs. assert (Hsend : ∀ p cb, _sendTCP p cb (started c, n) = Panic).
  { intros p cb. unfold _sendTCP. rewrite G_bind_lift. cbn [get fst snd].
    by rewrite bool_decide_eq_true_2. }
  unfold KeyMatch, ListNamespaces, request, mbind, G_bind.
  rewrite !start_eq. split; apply Hsend.
Qed.

(** The message ids of the next calls. *)
Fixpoint makeMessageIDs (k : nat) : M Client (list bytes) :=
  match k with
  | O => mret []
  | S k' => id ← makeMessageID; ids ← makeMessageIDs k'; mret (id :: ids)
  end.

Lemma makeMessageIDs_from k m c n :
  messageIDCounter c = u32 (Z.of_nat m) →
  (makeMessageIDs k (c, n)).1 = (λ i, Uint32ToBytes (u32 (Z.of_nat i))) <$> seq (S m) k.
Proof.
  revert m c. induction k as [|k IH]; intros m c Hm; [done|]. cbn [seq makeMessageIDs].
  rewrite fmap_cons.
  assert (Hn : u32 (messageIDCounter c + 1) = u32 (Z.of_nat (S m))).
  { rewrite Hm. unfold u32. rewrite Zplus_mod_idemp_l. f_equal. lia. }
  unfold mbind, M_bind. unfold makeMessageID, get, modify, mbind, M_bind, mret, M_ret.
  specialize (IH (S m) (set_counter (u32 (messageIDCounter c + 1)) c) Hn).
  destruct (makeMessageIDs k _) as [ids [c' n']]. cbn [fst] in IH |- *. by rewrite IH, Hn.
Qed.

(** Message ids: the ids of successive calls of a new client count up from
    1 modulo 2^32, so two calls have the same id exactly when their numbers
    differ by a multiple of 2^32. *)
Theorem message_ids_wrap k c n :
  messageIDCounter c = 0 →
  (makeMessageIDs k (c, n)).1 = (λ i, Uint32ToBytes (u32 (Z.of_nat i))) <$> seq 1 k ∧
  ∀ i j, Uint32ToBytes (u32 i) = Uint32ToBytes (u32 j) ↔ i mod 2 ^ 32 = j mod 2 ^ 32.
Proof.
  intros Hc. split; [by apply makeMessageIDs_from|].
  intros i j. split; [|intros Hij; unfold u32; by rewrite Hij].
  intros E. pose proof (Uint32_ToFrom (u32 i)) as Hi. pose proof (Uint32_ToFrom (u32 j)) as Hj.
  rewrite E, Hj in Hi. assert (u32 (u32 j) = u32 (u32 i)) as Heq by congruence.
  rewrite !(u32_small (u32 _)) in Heq by apply u32_range. by unfold u32 in Heq.
Qed.

(** ** Listening and closing *)

(** [Listen] of a new client opens the socket and files every server by its
    first health check, so a call can be made at once; a second [Listen], and
    one whose socket cannot be opened, change nothing. *)
Theorem Listen_seeds_the_pool {HC : ServerPool.Healthchecker Client} c n :
  (conn c = true → ∀ ok, Listen ok (c, n) = (Some ErrClientAlreadyInit, (c, n))) ∧
  (conn c = false →
    Listen false (c, n) = (Some ErrListen, (c, n)) ∧
    let ss := ServerPool.servers (udpPool c) in
    let vs := ServerPool.verdicts ss (set_conn true c) n in
    ∃ c' n', Listen true (c, n) = (None, (c', n')) ∧
      udpPool c' = ServerPool.set_health (ServerPool.judged true ss vs) (ServerPool.judged false ss vs) (udpPool c)).
Proof.
  unfold Listen, mbind, M_bind, get, mret, M_ret, modify. split.
  - intros Hc ok. by rewrite Hc.
  - intros Hc. rewrite Hc. split; [done|]. cbn [negb]. unfold pool_Listen, ServerPool.Listen.
    change (udpPool (set_conn true c)) with (udpPool c).
    destruct (ServerPool.healthcheck (udpPool c) (set_conn true c, n)) as [[h u] [c1 n1]] eqn:E.
    apply ServerPool.healthcheck_loop_spec in E. injection E as -> ->. by eexists _, _.
Qed.

(** [Close] disposes of the cache and the pool even when the socket cannot be
    closed, which it reports; a second one reports nothing. *)
Theorem Close_disposes ok c n c' n' e :
  disposed c = false → Close ok (c, n) = Ret (e, (c', n')) →
  disposed c' = true ∧ ServerPool.disposed (udpPool c') = true ∧
  (e = None ↔ conn c = false ∨ ok = true) ∧ ∀ ok', Close ok' (c', n') = Ret (None, (c', n')).
Proof.
  intros Hd. unfold Close. rewrite G_bind_lift. cbn [get fst snd]. rewrite Hd.
  destruct (WaitingMessage.Dispose (messagesWaiting c)) as [w|]; [|done].
  rewrite G_bind_go, G_bind_lift. cbn [modify fst snd].
  destruct (conn c), ok; intros [= <- <- <-]; (split; [done|]); (split; [done|]); (split; [|done]);
    (split; [intros; first [by left|by right|done]|by intros [?|?]]).
Qed.
End ClientFacts.

(** ** Witnesses

    A client with one UDP and one TCP server. Event 0 takes a TCP connection
    on which the server answers with an error, event 100 one that ends at
    once. *)
Module ClientWitness.
Import Concrete ConcreteClock.

#[local] Instance reliable : Network := {| udp_write_ok := λ _, true; tcp_write_ok := λ _, true |}.

Definition psk : bytes := str "secret-key".
Definition id1 : bytes := [x01; x00; x00; x00].

Abbreviation dg cmd ns dv := (datagram (digest := empty_digest) cmd id1 (str ns) (str dv) psk).

Definition auth_failed : bytes := dg ResError "default" "auth failed: packet hash invalid".

#[local] Instance connections : TCPNet := {|
  tcp_get_ok := λ _, true;
  tcp_reads := λ n, if decide (n = 0%nat) then [auth_failed ++ StopSymbol] else [];
  read_error := str "EOF"
|}.

Definition conf : Config :=
  mkConfig (str "127.0.0.1:3509") (str "127.0.0.1:3509") 0 psk.

Definition server : Addr := mkAddr (Some (mkIPv4 127 0 0 1)) 3509.

Definition client0 : Client :=
  mkClient false (ServerPool.NewPool [server]) [server]
    (WaitingMessage.mkCache ∅ false WaitingMessage.Second 1 true 1%nat) 0 psk false [] [] 0%nat [] [].

Lemma client0_new : NewClient conf (client0, 0%nat) = Ret (tt, (client0, 2%nat)).
Proof. vm_compute. reflexivity. Qed.

(** The same after its first health check. *)
Definition client1 : Client := set_pool (ServerPool.set_health [server] [] (udpPool client0)) client0.

Definition events : list event :=
  [EHealthcheck server; EDatagram (dg CmdCount "default" "x"); EPut (str "default") (str "a");
   ECleanup; ECount (str "default") (str "a")].

Definition outcome_of (r : go (unit * (Client * nat))) : list nat * list nat :=
  match r with
  | Ret (_, (c, _)) => ((results c).*1, waiting_calls c)
  | Panic => ([], [])
  end.
Definition outcome : list nat * list nat := outcome_of (run events (client0, 2%nat)).

(** No server was found healthy, so only the health check succeeds. *)
Lemma calls_return_at_most_once_witness :
  outcome = ([0; 1; 2], [])%nat ∧ NoDup (outcome.1 ++ outcome.2).
Proof.
  assert (Ho : outcome = ([0; 1; 2], [])%nat) by (vm_compute; reflexivity).
  split; [exact Ho|]. revert Ho. unfold outcome, outcome_of.
  destruct (run events (client0, 2%nat)) as [[[] [c n]]|] eqn:E; [|discriminate].
  intros _. cbn [fst snd].
  exact (proj1 (calls_return_at_most_once conf (client0, 0%nat) events client0 2 c n client0_new E)).
Defined.

(** Every server answers its check. *)
#[local] Instance answering : ServerPool.Healthchecker Client := λ _ '(c, n), (false, (c, S n)).

Lemma Listen_seeds_the_pool_witness :
  ∃ c n, Listen true (client0, 0%nat) = (None, (c, n)) ∧
    ServerPool.healthy (udpPool c) = [server] ∧ Listen true (c, n) = (Some ErrClientAlreadyInit, (c, n)).
Proof.
  destruct (proj2 (proj2 (Listen_seeds_the_pool client0 0) eq_refl)) as (c & n & E & Hp).
  exists c, n. split; [exact E|]. split; [by rewrite Hp|].
  apply (proj1 (Listen_seeds_the_pool c n)). by injection E as <- _.
Defined.

Lemma Close_disposes_witness :
  ∃ c n, Close false (set_conn true client0, 0%nat) = Ret (Some ErrClose, (c, n)) ∧
    ServerPool.disposed (udpPool c) = true.
Proof.
  destruct (Close false (set_conn true client0, 0%nat)) as [[e [c n]]|] eqn:E; [|discriminate].
  exists c, n. pose proof (Close_disposes false (set_conn true client0) 0 c n e eq_refl E) as (_ & Hp & _).
  split; [by injection E as <- <- <-|exact Hp].
Defined.

Lemma udp_request_witness :
  ∃ c n, Put (str "default") (str "a") (client1, 0%nat) = Ret (tt, (c, n)) ∧
    messageIDCounter c = 1.
Proof.
  destruct (udp_request (digest := empty_digest) KPut CmdPut (str "default") (str "a") client1 0
    eq_refl ltac:(simpl; lia)) as (c & n & E & _ & Hid & _).
  exists c, n. split; [exact E | exact Hid].
Defined.

(** A count call answered by the acknowledgement of a put: the data are
    spaces, which read as a count of 538976288. *)
Definition counting : Client :=
  set_waiting (WaitingMessage.set_cache {[1 := WaitingMessage.mkWaiting (mkCallback 0 KCount) 1000]}
                 (messagesWaiting client1)) client1.

Lemma udp_response_witness :
  ∃ c n, handleResponse (dg CmdPut "default" "") (counting, 0%nat) = Ret (tt, (c, n)) ∧
    results c = [(0%nat, RCount 538976288 None)].
Proof.
  destruct (udp_response (digest := empty_digest) CmdPut id1 (str "default") (str "") psk counting 0
    (WaitingMessage.mkWaiting (mkCallback 0 KCount) 1000) eq_refl ltac:(simpl; lia) ltac:(simpl; lia) eq_refl
    ltac:(vm_compute; reflexivity) ltac:(vm_compute; discriminate)) as (c & E & _ & r & Hr & Hres).
  exists c, 1%nat. split; [exact E|]. rewrite Hres.
  assert (complete KCount (pad 1419 (str "")) None = Ret (RCount 538976288 None)) as Hc
    by (vm_compute; reflexivity).
  cbn [WaitingMessage.Callback cb_kind cb_call] in Hr |- *. rewrite Hc in Hr. injection Hr as <-.
  reflexivity.
Defined.

Lemma tcp_error_is_returned_as_keys_witness :
  ∃ c n, KeyMatch (str "default") (str "a*") (client0, 0%nat) = Ret (tt, (c, n)) ∧
    results c = [(0%nat, RList [str "auth failed: packet hash invalid"] None)].
Proof.
  destruct (tcp_error_is_returned_as_keys (digest := empty_digest) ResError id1 (str "default")
    (str "auth failed: packet hash invalid") psk [] (str "default") (str "a*") client0 0
    ltac:(discriminate) eq_refl eq_refl eq_refl ltac:(simpl; lia) ltac:(simpl; lia) eq_refl
    ltac:(vm_compute; reflexivity) ltac:(vm_compute; reflexivity) ltac:(vm_compute; reflexivity))
    as (c & E & Hr).
  exists c, 2%nat. split; [exact E|]. rewrite Hr. reflexivity.
Defined.

Lemma tcp_eof_is_returned_then_panics_witness :
  ∃ c r, results c = [(0%nat, RList [str "EOF"] None)] ∧ readers c = [r] ∧
    reader_round false 7%nat server r = Panic.
Proof.
  destruct (tcp_eof_is_returned_then_panics (digest := empty_digest) (str "default") (str "a*") client0 100
    ltac:(discriminate) eq_refl eq_refl eq_refl ltac:(simpl; lia) ltac:(simpl; lia))
    as (c & r & _ & Hr & Hrd & HP).
  exists c, r. rewrite Hr, Hrd. split; [reflexivity|]. split; [reflexivity | apply HP].
Defined.

Lemma tcp_call_without_servers_panics_witness :
  ListNamespaces (mkClient false (ServerPool.NewPool [server]) [] (messagesWaiting client0) 0 psk false
                    [] [] 0%nat [] [], 0%nat) = Panic.
Proof. apply (tcp_call_without_servers_panics (digest := empty_digest) [] []). reflexivity. Defined.

Lemma message_ids_wrap_witness :
  (makeMessageIDs 2 (client0, 0%nat)).1 = [id1; [x02; x00; x00; x00]].
Proof. etrans; [apply (message_ids_wrap 2 client0 0 eq_refl) | reflexivity]. Defined.
End ClientWitness.
