(* ===== verification/Cmd.v ===== *)
(** * The commands: [src/cmd/cli/main.go] and [src/cmd/server/main.go]

    A command is a tree of what it does next given the answers of the client
    or the server it uses ([Do]), down to what it prints and its exit code
    ([Exit]). The flags are parsed by Go's [flag] package; here they are a
    record. *)
From Stdlib Require Import ZArith Lia Strings.Byte.
From stdpp Require Import base gmap list strings pretty.
From S2P Require Import Prelude GoStd Deps Client.
Local Open Scope Z_scope.
Local Open Scope go_scope.

(** [usage] tells whether the usage was printed; [lines] are printed with
    [fmt.Println] and [fmt.Printf]. *)
Inductive Prog (Op Ans : Type) :=
  | Exit (usage : bool) (lines : list bytes) (code : Z)
  | Do (op : Op) (k : Ans → Prog Op Ans).
Arguments Exit {Op Ans}.
Arguments Do {Op Ans}.

(** The operations on some path of a program. *)
Fixpoint performs {Op Ans} (P : Op → Prop) (p : Prog Op Ans) : Prop :=
  match p with
  | Exit _ _ _ => False
  | Do op k => P op ∨ ∃ a, performs P (k a)
  end.


(** A program run against answers. *)
Fixpoint run {Op Ans} (answer : Op → Ans) (p : Prog Op Ans) : list Op * (list bytes * Z) :=
  match p with
  | Exit _ lines code => ([], (lines, code))
  | Do op k => let '(ops, r) := run answer (k (answer op)) in (op :: ops, r)
  end.

(** ** dracula-cli *)
Module Cli.

Record Flags := mkFlags {
  ipPortPairs : bytes;
  ns : bytes;
  entryKey : bytes;
  count : bool;
  put : bool;
  cmdKeys : bool;
  namespaces : bool;
  secret : bytes;
  localPort : Z;
  timeoutSecs : Z;
  help : bool;
  verbose : bool;
  printVersion : bool
}.

Definition default_flags : Flags :=
  mkFlags (str "127.0.0.1:3509") (str "default") [] false false false false [] 3510 6 false false false.

(** What the command asks of the client. *)
Inductive Op :=
  | NewClient (conf : Config)
  | DebugEnable (prefix : bytes)
  | Listen (port : Z)
  | Count (ns key : bytes)
  | Put (ns key : bytes)
  | KeyMatch (ns pattern : bytes)
  | ListNamespaces.

(** The results: an error text, or a number or a list. *)
Inductive Ans := AErr (text : bytes) | ANum (n : Z) | AList (l : list bytes) | AOk.

Definition numbered (l : list bytes) : list bytes :=
  imap (λ i k, Itoa (Z.of_nat i + 1) ++ str ") " ++ k) l.

(** The end of [main], for each mode; [k] is the rest of the function. *)
Definition do_count (f : Flags) (k : Prog Op Ans) : Prog Op Ans :=
  if count f then
    Do (Count (ns f) (entryKey f)) (λ a,
      match a with
      | AErr e => Exit false [e] 1
      | ANum total => Exit false [Itoa total] 0
      | _ => Exit false [] 0
      end)
  else k.
Definition do_put (f : Flags) (k : Prog Op Ans) : Prog Op Ans :=
  if put f then
    Do (Put (ns f) (entryKey f)) (λ a,
      match a with AErr e => Exit false [e] 1 | _ => Exit false [] 0 end)
  else k.
Definition do_keys (f : Flags) (k : Prog Op Ans) : Prog Op Ans :=
  if cmdKeys f then
    Do (KeyMatch (ns f) (entryKey f)) (λ a,
      match a with
      | AErr e => Exit false [e] 1
      | AList keys =>
          if len keys =? 0 then Exit false [str "(no matched keys)"] 0
          else Exit false (numbered keys) 0
      | _ => Exit false [] 0
      end)
  else k.
Definition do_namespaces (f : Flags) : Prog Op Ans :=
  if namespaces f then
    Do ListNamespaces (λ a,
      match a with
      | AErr e => Exit false [e] 1
      | AList namespaceList =>
          Exit false ((if 0 <? len namespaceList then numbered namespaceList
                       else [str "(no namespaces)"]) ++ [str "no command matched"]) 1
      | _ => Exit false [str "no command matched"] 1
      end)
  else Exit false [str "no command matched"] 1.

Definition modes (f : Flags) : Prog Op Ans :=
  do_count f (do_put f (do_keys f (do_namespaces f))).

(** [main], given the environment variable DRACULA_SECRET and the version. *)
Definition main (env_secret version : bytes) (f : Flags) : Prog Op Ans :=
  if help f then Exit true [] 0
  else if printVersion f then Exit false [version] 0
  else if bool_decide (ns f = []) then Exit true [str "-n 'namespace' is required"] 0
  else if bool_decide (entryKey f = []) then Exit true [str "-k 'entrykey' is required"] 0
  else
    let totalModes := 0 in
    let totalModes := if count f then totalModes + 1 else totalModes in
    let totalModes := if put f then totalModes + 1 else totalModes in
    let totalModes := if cmdKeys f then totalModes + 1 else totalModes in
    if negb (totalModes =? 1) then Exit true [str "either -put, -count, -keys is required"] 0
    else
      let preSharedSecret := if bool_decide (secret f ≠ []) then secret f else env_secret in
      let isTcp := cmdKeys f in
      let conf :=
        if isTcp then mkConfig [] (ipPortPairs f) (timeoutSecs f * WaitingMessage.Second) preSharedSecret
        else mkConfig (ipPortPairs f) [] (timeoutSecs f * WaitingMessage.Second) preSharedSecret in
      Do (NewClient conf) (λ _,
        let rest :=
          if negb isTcp then
            Do (Listen (localPort f)) (λ a,
              match a with AErr e => Exit false [e] 1 | _ => modes f end)
          else modes f in
        if verbose f then Do (DebugEnable (Itoa (localPort f))) (λ _, rest) else rest).

(** ** Properties *)

Definition asks_namespaces (op : Op) : Prop := op = ListNamespaces.

Lemma modes_never_ask f :
  (count f || put f || cmdKeys f) = true → ¬ performs asks_namespaces (modes f).
Proof.
  unfold modes, do_count, do_put, do_keys.
  destruct (count f); [|destruct (put f); [|destruct (cmdKeys f); [|done]]]; intros _ [?|[a Ha]];
    try done; destruct a; try done; simpl in Ha.
  by destruct (len l =? 0).
Qed.

(** The namespaces mode cannot be reached: whatever the flags and the
    answers are, the command never asks for the namespaces; with
    [-namespaces] as the only mode it prints that another mode is required. *)
Theorem namespaces_mode_is_unreachable env_secret version f :
  ¬ performs asks_namespaces (main env_secret version f) ∧
  (namespaces f = true → count f = false → put f = false → cmdKeys f = false →
   help f = false → printVersion f = false → ns f ≠ [] → entryKey f ≠ [] →
   main env_secret version f = Exit true [str "either -put, -count, -keys is required"] 0).
Proof.
  unfold main. split.
  - destruct (help f); [by intros []|]. destruct (printVersion f); [by intros []|].
    case_bool_decide; [by intros []|]. case_bool_decide; [by intros []|].
    destruct (negb _) eqn:Hmodes; [by intros []|].
    assert (Hone : (count f || put f || cmdKeys f) = true)
      by (by destruct (count f), (put f), (cmdKeys f)).
    pose proof (modes_never_ask f Hone) as Hno. cbn zeta.
    assert (Hrest : ∀ p, (p = modes f ∨
        p = Do (Listen (localPort f)) (λ a, match a with AErr e => Exit false [e] 1 | _ => modes f end)) →
      ¬ performs asks_namespaces p).
    { intros p [->| ->]; [exact Hno|]. intros [Hop|[a Ha]]; [done|]. destruct a; by try apply Hno. }
    intros [Hop|[a Ha]]; [done|].
    destruct (verbose f); [destruct Ha as [Hop|[a' Ha]]; [done|]|];
      destruct (cmdKeys f); cbn [negb] in Ha; eapply Hrest, Ha; auto.
  - intros _ -> -> -> -> -> Hns Hkey. by rewrite !bool_decide_eq_false_2 by done.
Qed.

(** The configuration the command gives the client. *)
Definition expected_conf env_secret f : Config :=
  mkConfig (if cmdKeys f then [] else ipPortPairs f) (if cmdKeys f then ipPortPairs f else [])
    (timeoutSecs f * WaitingMessage.Second) (if bool_decide (secret f = []) then env_secret else secret f).

(** With exactly one of the three modes the command makes one client,
    listens unless the mode uses TCP, and performs the operation of the mode
    once; the servers are given as TCP servers exactly for the keys mode. *)
Theorem cli_performs_one_operation env_secret version f answer :
  help f = false → printVersion f = false → verbose f = false → ns f ≠ [] → entryKey f ≠ [] →
  (∀ e, answer (Listen (localPort f)) ≠ AErr e) →
  [count f; put f; cmdKeys f] ∈ [[true; false; false]; [false; true; false]; [false; false; true]] →
  (run answer (main env_secret version f)).1
  = NewClient (expected_conf env_secret f) ::
    (if cmdKeys f then [KeyMatch (ns f) (entryKey f)]
     else [Listen (localPort f); if count f then Count (ns f) (entryKey f) else Put (ns f) (entryKey f)]).
Proof.
  intros Hh Hv Hvb Hns Hkey Hlisten Hmode. unfold main, expected_conf, modes, do_count, do_put, do_keys.
  rewrite Hh, Hv, Hvb, !bool_decide_eq_false_2 by done.
  assert (Hsec : (if bool_decide (secret f ≠ []) then secret f else env_secret)
    = (if bool_decide (secret f = []) then env_secret else secret f)).
  { destruct (secret f); reflexivity. }
  rewrite Hsec.
  assert (HL : ∃ a, answer (Listen (localPort f)) = a ∧ ∀ e, a ≠ AErr e) by (by eexists).
  destruct HL as (al & HL & Hne).
  apply elem_of_cons in Hmode as [[= -> -> ->]|Hmode];
    [|apply elem_of_cons in Hmode as [[= -> -> ->]|Hmode];
      [|apply list_elem_of_singleton in Hmode as [= -> -> ->]]].
  - change (negb (0 + 1 =? 1)) with false. cbn. rewrite HL. destruct al as [e|z|l|]; [by destruct (Hne e)|..];
      cbn; by destruct (answer (Count _ _)).
  - change (negb (0 + 1 =? 1)) with false. cbn. rewrite HL. destruct al as [e|z|l|]; [by destruct (Hne e)|..];
      cbn; by destruct (answer (Put _ _)).
  - change (negb (0 + 1 =? 1)) with false. cbn.
    destruct (answer (KeyMatch _ _)) as [e|z|l|]; try done. by destruct (len l =? 0).
Qed.
End Cli.

(** ** dracula-server *)
Module Srv.

Record Flags := mkFlags {
  help : bool;
  expireAfterSecs : Z;
  port : Z;
  tcpPort : Z;
  restHostPort : bytes;
  secret : bytes;
  peerIPPort : bytes;
  peers : bytes;
  verbose : bool;
  printVersion : bool;
  promHostPort : bytes
}.

Inductive Op :=
  | NewServer (expireAfterSecs : Z) (preSharedKey : bytes)
  | NewServerWithPeers (expireAfterSecs : Z) (preSharedKey self peerList : bytes)
  | Peers
  | DebugEnable (prefix : bytes)
  | Listen (udpPort tcpPort : Z)
  | ListenHTTP (hostPort : bytes)
  | StoreMetricsListenAndServe (hostPort : bytes)
  | WaitForever.

(** [Some text] is an error, or the text of [Peers]. *)
Abbreviation Ans := (option bytes).

(** The end of [main]: listening, the REST interface, the metrics. *)
Definition serve (f : Flags) : Prog Op Ans :=
  Do (Listen (port f) (tcpPort f)) (λ a,
    match a with
    | Some e => Exit false [str "Dracula udp/tcp startup listen error " ++ e] 1
    | None =>
        Do (ListenHTTP (restHostPort f)) (λ a,
          match a with
          | Some e => Exit false [str "Dracula http startup listen error " ++ e] 1
          | None =>
              if bool_decide (promHostPort f ≠ []) then
                Do (StoreMetricsListenAndServe (promHostPort f)) (λ a,
                  match a with
                  | Some e =>
                      Exit false [str "Prometheus startup listen error " ++ promHostPort f ++ x20 :: e] 1
                  | None => Do WaitForever (λ _, Exit false [] 0)
                  end)
              else Do WaitForever (λ _, Exit false [] 0)
          end)
    end).

Definition debug_prefix (f : Flags) : bytes :=
  str "udp:" ++ Itoa (port f) ++ str ", tcp:" ++ Itoa (tcpPort f) ++ str ", http:" ++ restHostPort f ++ str " -".

Definition debug_then_serve (f : Flags) : Prog Op Ans :=
  if verbose f then Do (DebugEnable (debug_prefix f)) (λ _, serve f) else serve f.

Definition main (env_secret version : bytes) (f : Flags) : Prog Op Ans :=
  if help f then Exit true [] 0
  else if printVersion f then Exit false [version] 0
  else
    let preSharedSecret := if bool_decide (secret f ≠ []) then secret f else env_secret in
    let peerList := Trim (peers f) [x20; x0a] in
    if (0 <? len peerList) && bool_decide (peerIPPort f = [])
    then Exit true [str "peer list and self peer ip:port are required together"] 1
    else if 0 <? len peerList then
      Do (NewServerWithPeers (expireAfterSecs f) preSharedSecret (peerIPPort f) peerList) (λ _,
        if verbose f then Do Peers (λ _, debug_then_serve f) else debug_then_serve f)
    else
      Do (NewServer (expireAfterSecs f) preSharedSecret) (λ _, debug_then_serve f).

(** C40. The server command: a peer list without the own address is refused
    before anything is started; otherwise exactly one server is made, with
    the peers exactly when the trimmed list is not empty, under the key of the
    flag or else of the environment; then it listens on UDP and TCP, then on
    HTTP, and with no error it waits for ever. *)
Theorem server_main env_secret version f answer :
  help f = false → printVersion f = false → verbose f = false →
  (∀ op, answer op = None) →
  let key := if bool_decide (secret f = []) then env_secret else secret f in
  let peerList := Trim (peers f) [x20; x0a] in
  if bool_decide (peerList ≠ [] ∧ peerIPPort f = [])
  then run answer (main env_secret version f)
       = ([], ([str "peer list and self peer ip:port are required together"], 1))
  else (run answer (main env_secret version f)).1
       = (if bool_decide (peerList = []) then NewServer (expireAfterSecs f) key
          else NewServerWithPeers (expireAfterSecs f) key (peerIPPort f) peerList)
         :: Listen (port f) (tcpPort f) :: ListenHTTP (restHostPort f)
         :: (if bool_decide (promHostPort f = []) then [] else [StoreMetricsListenAndServe (promHostPort f)])
         ++ [WaitForever].
Proof.
  intros Hh Hv Hvb Hans key peerList. unfold main. rewrite Hh, Hv, Hvb. cbn iota.
  assert (Hkey : (if bool_decide (secret f ≠ []) then secret f else env_secret) = key).
  { unfold key. destruct (secret f); reflexivity. }
  rewrite Hkey. cbn zeta. fold peerList.
  assert (Hpos : (0 <? len peerList) = bool_decide (peerList ≠ [])).
  { destruct peerList as [|x l]; [done|]. rewrite len_cons, bool_decide_eq_true_2 by done.
    apply Z.ltb_lt. pose proof (len_nonneg l). lia. }
  rewrite Hpos, <- bool_decide_and.
  destruct (bool_decide (peerList ≠ [] ∧ peerIPPort f = [])); [done|].
  assert (Hserve : (run answer (debug_then_serve f)).1
    = Listen (port f) (tcpPort f) :: ListenHTTP (restHostPort f)
      :: (if bool_decide (promHostPort f = []) then [] else [StoreMetricsListenAndServe (promHostPort f)])
      ++ [WaitForever]).
  { unfold debug_then_serve, serve. rewrite Hvb. cbn [run]. rewrite !Hans. cbn [run]. rewrite !Hans.
    destruct (promHostPort f) as [|x l]; [reflexivity|]. cbn. rewrite Hans. reflexivity. }
  destruct peerList as [|x l].
  - cbn. destruct (run answer (debug_then_serve f)). simpl in *. by rewrite Hserve.
  - cbn. destruct (run answer (debug_then_serve f)). simpl in *. by rewrite Hserve.
Qed.
End Srv.

(** ** Witnesses *)
Module CmdWitness.

Definition only_namespaces : Cli.Flags :=
  Cli.mkFlags (str "127.0.0.1:3509") (str "default") (str "k") false false false true [] 3510 6
    false false false.
Definition only_count : Cli.Flags :=
  Cli.mkFlags (str "127.0.0.1:3509") (str "default") (str "k") true false false false [] 3510 6
    false false false.
Definition only_peers : Srv.Flags :=
  Srv.mkFlags false 60 3509 3509 (str "0.0.0.0:3510") [] [] (str " 10.0.0.1:3509") false false [].

Lemma namespaces_mode_is_unreachable_witness :
  Cli.main [] [] only_namespaces = Exit true [str "either -put, -count, -keys is required"] 0.
Proof.
  apply (Cli.namespaces_mode_is_unreachable [] [] only_namespaces); reflexivity || discriminate.
Defined.

Lemma cli_performs_one_operation_witness :
  (run (λ _, Cli.AOk) (Cli.main (str "env") [] only_count)).1
  = [Cli.NewClient (mkConfig (str "127.0.0.1:3509") [] (6 * WaitingMessage.Second) (str "env"));
     Cli.Listen 3510; Cli.Count (str "default") (str "k")].
Proof.
  apply (Cli.cli_performs_one_operation (str "env") [] only_count (λ _, Cli.AOk));
    try reflexivity; try discriminate. left.
Defined.

Lemma server_main_witness :
  run (λ _, None) (Srv.main [] [] only_peers)
  = ([], ([str "peer list and self peer ip:port are required together"], 1)).
Proof. exact (Srv.server_main [] [] only_peers (λ _, None) eq_refl eq_refl eq_refl (λ _, eq_refl)). Defined.
End CmdWitness.
