(* ===== verification/System.v ===== *)
(** * Client, server and peers together

    The components composed over the network: what a call of the client
    returns when the server at the other end runs its worker on the datagram,
    and what a put does to the peers. The events of both sides come from one
    sequence, so the clock runs through the whole exchange. *)
From Stdlib Require Import ZArith Lia Strings.Byte.
From stdpp Require Import base gmap list strings sorting.
From coqutil Require Import Byte LittleEndianList.
From S2P Require Import Prelude GoStd Deps Protocol Env RawMessage Server.
From S2P Require Tree Store WaitingMessage ServerPool Client.
Local Open Scope Z_scope.
Local Open Scope go_scope.

Section System.
Context {T : Type → Type} {RB : RedBlackTree T} {RL : RedBlackTreeLaws T}
  {H : Type → Type} {HM : HashMap H} {HL : HashMapLaws H}
  {CK : Clock} {CM : ClockMono} {SW : Stopwatch} {RO : RangeOrder} {ROL : RangeOrderLaws}
  {RE : Regexp} {X : XXHash} {digest : bytes} {XL : XXHashLaws digest} {NW : Network}
  {TN : Client.TCPNet} {RD : Rand} {RDL : RandLaws}.
Implicit Types (s : Server T H) (c : Client.Client) (n : nat).

(** What the server [s] sends when its worker takes the datagram [b] from
    [a], with the state after it. *)
Definition deliver (b : bytes) (a : Addr) s n : go (list Output * (Server T H * nat)) :=
  r ← worker_step (udp_message b a) (s, n);
  let '(_, (s', n')) := r in Ret (drop (length (sent s)) (sent s'), (s', n')).

(** A request of the client at [ca] and its answer by the server [s] at [sa]:
    the call sends its datagram, the worker takes it, and the client takes
    what the worker sent to it. The result is the two final states, [None]
    when the call sent nothing to the server or the worker did not answer
    first of all with one datagram to the client. *)
Definition round_trip (request : G Client.Client unit) (ca sa : Addr) c s n
    : go (option (Client.Client * Server T H * nat)) :=
  r ← request (c, n);
  let '(_, (c1, n1)) := r in
  match drop (length (Client.sent c)) (Client.sent c1) with
  | [(b, a)] =>
      if bool_decide (a = sa) then
        r ← deliver b ca s n1;
        let '(out, (s1, n2)) := r in
        match out with
        | UDPDatagram b' a' :: _ =>
            if bool_decide (a' = ca) then
              r ← Client.handleResponse b' (c1, n2);
              let '(_, (c2, n3)) := r in Ret (Some (c2, s1, n3))
            else Ret None
        | _ => Ret None
        end
      else Ret None
  | _ => Ret None
  end.

(** A client that can make a call: the server is its only healthy one, the
    network delivers, the next message id is not in use, and the timeout is
    longer than an exchange takes. *)
Record ready c (sa : Addr) : Prop := {
  rd_healthy : ServerPool.healthy (Client.udpPool c) = [sa];
  rd_net i : udp_write_ok i = true;
  rd_id : WaitingMessage.cache (Client.messagesWaiting c) !! u32 (Client.messageIDCounter c + 1) = None;
  rd_patient i j : clock j <= clock i + WaitingMessage.timeoutSecs (Client.messagesWaiting c)
}.

Lemma deliver_eq b a s n s' n' out :
  worker_step (udp_message b a) (s, n) = Ret (tt, (s', n')) → sent s' = sent s ++ out →
  deliver b a s n = Ret (out, (s', n')).
Proof. intros E Hs. unfold deliver. rewrite E. cbn [mbind go_bind]. by rewrite Hs, drop_app_length. Qed.

(** The client after its request was sent. *)
Lemma request_sent kind cmd ns data c sa n :
  ready c sa → IsTcpOnlyCmd cmd = false → (length ns ≤ 64)%nat → (length data ≤ 1419)%nat →
  let id := u32 (Client.messageIDCounter c + 1) in
  ∃ t c1, Client.request kind cmd ns data (c, n) = Ret (tt, (c1, S (S n))) ∧
    Client.sent c1 = Client.sent c
      ++ [(datagram (digest := digest) cmd (Client.next_id c) ns data (Client.preSharedKey c), sa)] ∧
    Client.results c1 = Client.results c ∧
    WaitingMessage.timeoutSecs (Client.messagesWaiting c1)
      = WaitingMessage.timeoutSecs (Client.messagesWaiting c) ∧
    WaitingMessage.cache (Client.messagesWaiting c1) !! id
      = Some (WaitingMessage.mkWaiting (Client.mkCallback (Client.next_call c) kind) (clock t)).
Proof.
  intros [Hh Hnet Hid _] Hcmd Hns Hdata id.
  unfold Client.request, mbind, G_bind. rewrite Client.start_eq. cbn [fst snd].
  set (p := parts_packet _ _ _ _ _). set (cb := Client.mkCallback _ _).
  unfold Client.sendOrCallbackErr. change (Command p) with cmd. rewrite Hcmd, G_bind_lift.
  assert (HC : Client.on_pool ServerPool.Choose (Client.started c, n) = (Some sa, (Client.started c, n))).
  { unfold Client.on_pool, ServerPool.Choose, get, mbind, M_bind.
    change (Client.udpPool (Client.started c)) with (Client.udpPool c). by rewrite Hh. }
  rewrite HC. cbn [fst snd].
  rewrite (Client.sendUDP_eq p sa cb _ n _ _
    (Bytes_parts (digest := digest) _ _ _ _ _ (Uint32ToBytes_length _))).
  rewrite (proj2 (Nat.leb_le (length ns) 64) Hns), (proj2 (Nat.leb_le (length data) 1419) Hdata).
  cbn [andb orb]. assert (Hmid : MessageID p = id) by apply Client.next_id_value. rewrite Hmid.
  cbn zeta. change (Client.messagesWaiting (Client.started c)) with (Client.messagesWaiting c).
  unfold id at 1. rewrite Hid, Hnet.
  eexists n, _. split; [reflexivity|]. split; [done|]. split; [done|]. split; [done|].
  cbn [Client.messagesWaiting Client.set_sent Client.set_waiting].
  cbn [WaitingMessage.cache WaitingMessage.set_cache]. apply lookup_insert_eq.
Qed.

(** The response completes the call. *)
Lemma response_taken kind cmd c1 t ns data psk' i c n :
  let id := Client.next_id c in
  (length ns ≤ 64)%nat → (length data ≤ 1419)%nat → commandIsValid cmd = true →
  (∀ i j, clock j <= clock i + WaitingMessage.timeoutSecs (Client.messagesWaiting c1)) →
  WaitingMessage.cache (Client.messagesWaiting c1) !! u32 (Client.messageIDCounter c + 1)
    = Some (WaitingMessage.mkWaiting (Client.mkCallback i kind) (clock t)) →
  ∃ c2, Client.handleResponse (datagram (digest := digest) cmd id ns data psk') (c1, n)
        = Ret (tt, (c2, S n)) ∧
    if cmd =b ResError then
      ∃ r, Client.complete kind [] (Some (Client.ErrResponse (TrimSpace data))) = Ret r ∧
        Client.results c2 = Client.results c1 ++ [(i, r)]
    else if bool_decide (cmd ∈ [CmdCount; CmdPut; CmdCountNamespace; CmdCountServer]) then
      ∃ r, Client.complete kind (pad 1419 data) None = Ret r ∧
        Client.results c2 = Client.results c1 ++ [(i, r)]
    else Client.results c2 = Client.results c1.
Proof.
  intros id Hns Hdata Hcmd Hpat Hw.
  destruct (Client.handleResponse_datagram (digest := digest) cmd id ns data psk' c1 n
    (WaitingMessage.mkWaiting (Client.mkCallback i kind) (clock t))) as (c2 & E & _ & Hr);
    [apply Uint32ToBytes_length|done|done|done|by unfold id; rewrite (Client.next_id_combine (digest := digest))|apply Hpat|].
  exists c2. split; [exact E|]. exact Hr.
Qed.

(** A count travels through the response unchanged. *)
Lemma complete_count_bytes v :
  0 <= v < 2 ^ 32 →
  Client.complete Client.KCount (pad 1419 (Uint32ToBytes v)) None = Ret (Client.RCount v None).
Proof.
  intros Hv. rewrite Client.complete_count by (rewrite pad_length; lia). do 2 f_equal.
  unfold pad. rewrite (take_app_length' (Uint32ToBytes v)) by (by rewrite Uint32ToBytes_length).
  unfold Uint32ToBytes. rewrite le_combine_split. by apply Z.mod_small.
Qed.

Lemma reached_all m (ps : list Addr) : (∀ i, udp_write_ok i = true) → reached m ps = ps.
Proof.
  intros Hnet. revert m. induction ps as [|x ps IH]; intros m; [done|]. cbn [reached].
  by rewrite Hnet, IH.
Qed.

(** * Theorems *)

(** C1. A count call end to end: the client asks, the server answers, and the
    call returns without an error the number of live puts of the trimmed
    namespace and key that the store of the server represents, at most
    [2^32-1]; the server still represents the same puts. *)
Theorem count_call_returns_the_count log c s n ca sa ns key :
  ready c sa → preSharedKey s = Client.preSharedKey c → Store.store_rep n log (store s) →
  (length ns ≤ 64)%nat → (length key ≤ 1419)%nat →
  ∃ c' s' n', round_trip (Client.Count ns key) ca sa c s n = Ret (Some (c', s', n')) ∧
    Client.results c' = Client.results c
      ++ [(Client.next_call c,
           Client.RCount (Z.min (Tree.count_key (Store.nslog log (TrimSpace ns)) (TrimSpace key)
                                   (clock (S (S n)))) MaxUint32) None)] ∧
    Store.store_rep n' log (store s').
Proof.
  intros Hready Hkey Hr Hns Hk. pose proof Hready as [_ Hnet _ Hpat].
  destruct (request_sent Client.KCount CmdCount ns key c sa n Hready eq_refl Hns Hk)
    as (t & c1 & E1 & Hsent & Hres & Htime & Hw).
  assert (Hr2 : Store.store_rep (S (S n)) log (store s)) by (apply (Store.store_rep_mono n); [lia | done]).
  destruct (worker_step_count log s (S (S n)) ca (Client.next_id c) ns key (Uint32ToBytes_length _) Hns Hk Hr2)
    as (st & n2 & Hn2 & Hr3 & E2). cbn zeta in E2. rewrite Hkey, Hnet in E2.
  set (v := Z.min _ MaxUint32) in *.
  destruct (response_taken Client.KCount CmdCount c1 t ns (Uint32ToBytes v) (Client.preSharedKey c)
    (Client.next_call c) c (S n2) Hns) as (c2 & E3 & r & Hc & Hres2).
  { rewrite Uint32ToBytes_length. lia. } { done. } { intros i j. rewrite Htime. apply Hpat. } { exact Hw. }
  exists c2, (emit [UDPDatagram (datagram (digest := digest) CmdCount (Client.next_id c) ns
    (Uint32ToBytes v) (Client.preSharedKey c)) ca] (set_store st s)), (S (S n2)).
  split; [|split; [|by apply (Store.store_rep_mono n2); [lia|]]].
  - unfold round_trip, Client.Count. rewrite E1. cbn [mbind go_bind]. rewrite Hsent, drop_app_length.
    rewrite bool_decide_eq_true_2 by done. rewrite (deliver_eq _ _ _ _ _ _ _ E2 eq_refl). cbn [mbind go_bind].
    rewrite bool_decide_eq_true_2 by done. by rewrite E3.
  - rewrite Hres2, Hres. do 3 f_equal.
    assert (Hv : 0 <= v < 2 ^ 32).
    { unfold v, MaxUint32. pose proof (Tree.count_key_nonneg (Store.nslog log (TrimSpace ns)) (TrimSpace key)
        (clock (S (S n)))). lia. }
    rewrite complete_count_bytes in Hc by done. congruence.
Qed.

(** C11. A put call end to end: the client asks, the server stores the trimmed
    namespace and key with its time to live and acknowledges, and the call
    returns without an error. *)
Theorem put_call_stores_the_entry log c s n ca sa ns key :
  ready c sa → preSharedKey s = Client.preSharedKey c → Store.store_rep n log (store s) →
  (length ns ≤ 64)%nat → (length key ≤ 1419)%nat →
  ∃ c' s' n' m, (n ≤ m < n')%nat ∧
    round_trip (Client.Put ns key) ca sa c s n = Ret (Some (c', s', n')) ∧
    Client.results c' = Client.results c ++ [(Client.next_call c, Client.RErr None)] ∧
    Store.store_rep n' (log ++ [(TrimSpace ns, TrimSpace key,
                                 i64 (clock m + Store.expireAfterSecs (store s)))]) (store s').
Proof.
  intros Hready Hkey Hr Hns Hk. pose proof Hready as [_ Hnet _ Hpat].
  destruct (request_sent Client.KPut CmdPut ns key c sa n Hready eq_refl Hns Hk)
    as (t & c1 & E1 & Hsent & Hres & Htime & Hw).
  assert (Hr2 : Store.store_rep (S (S n)) log (store s)) by (apply (Store.store_rep_mono n); [lia | done]).
  destruct (worker_step_put log s (S (S n)) ca (Client.next_id c) ns key (Uint32ToBytes_length _) Hns Hk Hr2)
    as (st & m & n1 & n2 & Hm & Hn2 & Hr3 & E2). cbn zeta in E2. rewrite Hkey, Hnet in E2.
  destruct (response_taken Client.KPut CmdPut c1 t ns [] (Client.preSharedKey c)
    (Client.next_call c) c n2 Hns) as (c2 & E3 & r & Hc & Hres2).
  { simpl. lia. } { done. } { intros i j. rewrite Htime. apply Hpat. } { exact Hw. }
  eexists c2, _, (S n2), m. split; [lia|]. split; [|split].
  - unfold round_trip, Client.Put. rewrite E1. cbn [mbind go_bind]. rewrite Hsent, drop_app_length.
    rewrite bool_decide_eq_true_2 by done. rewrite (deliver_eq _ _ _ _ _ _ _ E2 eq_refl). cbn [mbind go_bind app].
    rewrite bool_decide_eq_true_2 by done. by rewrite E3.
  - cbn [Client.complete] in Hc. injection Hc as <-. by rewrite Hres2, Hres.
  - apply (Store.store_rep_mono n1); [lia | exact Hr3].
Qed.

(** C36. A wrong key end to end: when the keys of the client and the server
    differ in their first eight bytes, a count call returns the error text of
    the server and the server is left as it was. *)
Theorem wrong_key_call_returns_the_error c s n ca sa ns key :
  ready c sa → (8 ≤ length (preSharedKey s))%nat → (8 ≤ length (Client.preSharedKey c))%nat →
  take 8 (preSharedKey s) ≠ take 8 (Client.preSharedKey c) →
  (length ns ≤ 64)%nat → (length key ≤ 1419)%nat →
  ∃ c' s' n', round_trip (Client.Count ns key) ca sa c s n = Ret (Some (c', s', n')) ∧
    Client.results c' = Client.results c
      ++ [(Client.next_call c,
           Client.RCount 0 (Some (Client.ErrResponse (str "auth failed: packet hash invalid"))))] ∧
    store s' = store s.
Proof.
  intros Hready Hk1 Hk2 Hne Hns Hk. pose proof Hready as [_ Hnet _ Hpat].
  destruct (request_sent Client.KCount CmdCount ns key c sa n Hready eq_refl Hns Hk)
    as (t & c1 & E1 & Hsent & Hres & Htime & Hw).
  set (id := Client.next_id c) in *. assert (Hid : length id = 4%nat) by apply Uint32ToBytes_length.
  set (p := parsed_packet (digest := digest) CmdCount id ns key (Client.preSharedKey c)).
  set (d := datagram (digest := digest) CmdCount id ns key (Client.preSharedKey c)) in *.
  assert (Hrec : received (preSharedKey s) (Message (udp_message d ca)) = Some (p, Some ErrBadHash)).
  { unfold d. rewrite udp_message_datagram by done. unfold received.
    rewrite ParsePacket_datagram by done. fold p. unfold p. rewrite Validate_rejects; [done|done|].
    unfold sig. by rewrite !take_app_le. }
  destruct (response_taken Client.KCount ResError c1 t ns (ProtoErr_Error ErrBadHash) (preSharedKey s)
    (Client.next_call c) c (S (S (S n))) Hns) as (c2 & E3 & r & Hc & Hres2).
  { pose proof (ProtoErr_length ErrBadHash). lia. } { done. }
  { intros i j. rewrite Htime. apply Hpat. } { exact Hw. }
  assert (E2 : worker_step (udp_message d ca) (s, S (S n))
    = Ret (tt, (emit [UDPDatagram (datagram (digest := digest) ResError id ns (ProtoErr_Error ErrBadHash)
                  (preSharedKey s)) ca] s, S (S (S n))))).
  { rewrite (worker_step_eq _ s (S (S n)) p (Some ErrBadHash) Hrec). change (of_client _ p) with p.
    change (Remote _) with (Some ca). rewrite answer_eq.
    2: { by apply parsed_packet_wf. }
    2: { intros _. left. pose proof (ProtoErr_length ErrBadHash). lia. }
    rewrite answered_udp, Hnet by done. unfold p. by rewrite reply_parsed. }
  eexists c2, _, _. split; [|split].
  - unfold round_trip, Client.Count. rewrite E1. cbn [mbind go_bind]. rewrite Hsent, drop_app_length.
    rewrite bool_decide_eq_true_2 by done.
    rewrite (deliver_eq _ _ _ _ _ _ _ E2 eq_refl). cbn [mbind go_bind].
    rewrite bool_decide_eq_true_2 by done. fold id in E3. rewrite E3. reflexivity.
  - cbn [Client.complete Client.count_result] in Hc. injection Hc as <-. rewrite Hres2, Hres.
    reflexivity.
  - reflexivity.
Qed.

(** C12. Replication end to end: a put request to one server reaches each of
    its peers. The server sends the peer a datagram, and a peer with the same
    key that takes it stores the same namespace and key, and answers nothing;
    so the entry counts at both, from each one's own clock reading. *)
Theorem put_reaches_every_peer logA logB sA sB n a addrA addrB id ns key :
  (∀ i, udp_write_ok i = true) → preSharedKey sB = preSharedKey sA → addrB ∈ peers sA →
  length id = 4%nat → (length ns ≤ 64)%nat → (length key ≤ 1419)%nat →
  Store.store_rep n logA (store sA) → Store.store_rep n logB (store sB) →
  let entry m s := (TrimSpace ns, TrimSpace key, i64 (clock m + Store.expireAfterSecs (store s))) in
  ∃ out sA' nA b mA sB' nB mB,
    deliver (datagram (digest := digest) CmdPut id ns key (preSharedKey sA)) a sA n = Ret (out, (sA', nA)) ∧
    UDPDatagram b addrB ∈ out ∧ deliver b addrA sB nA = Ret ([], (sB', nB)) ∧
    (n ≤ mA < nA)%nat ∧ (nA ≤ mB < nB)%nat ∧
    Store.store_rep nA (logA ++ [entry mA sA]) (store sA') ∧
    Store.store_rep nB (logB ++ [entry mB sB]) (store sB').
Proof.
  intros Hnet Hkey HB Hid Hns Hk HrA HrB.
  destruct (worker_step_put logA sA n a id ns key Hid Hns Hk HrA) as (st & mA & n1 & nA & HmA & Hn1 & Hr1 & EA).
  cbn zeta in EA. assert (HrB' : Store.store_rep nA logB (store sB)) by (apply (Store.store_rep_mono n); [lia | done]).
  destruct (worker_step_replicate logB sB nA addrA id ns key Hid Hns Hk HrB') as (stB & mB & nB & HmB & EB & Hr2).
  rewrite Hkey in EB. rewrite reached_all in EA by exact Hnet.
  eexists _, _, nA, _, mA, (set_store stB sB), nB, mB. split; [exact (deliver_eq _ _ _ _ _ _ _ EA eq_refl)|].
  split; [apply elem_of_app; right; apply list_elem_of_fmap; by exists addrB|].
  split; [apply (deliver_eq _ _ _ _ _ _ _ EB); by rewrite app_nil_r|].
  split; [lia|]. split; [lia|]. split; [|exact Hr2].
  apply (Store.store_rep_mono n1); [lia | exact Hr1].
Qed.

(** A datagram that, followed by the stop symbol, is framed as one message. *)
Definition framed (d : bytes) : Prop := cut_stop (d ++ StopSymbol) = Some (d, []).

(** Event [k] gives the client a connection that it can write to. *)
Record tcp_ready c k : Prop := {
  tr_servers : Client.tcpServerList c ≠ [];
  tr_get : Client.tcp_get_ok k = true;
  tr_write : tcp_write_ok (S k) = true
}.

Lemma lines_of_Join keys :
  keys ≠ [] → Forall (λ w, w ≠ [] ∧ newline ∉ w) keys → Client.lines_of (Join keys x0a) = keys.
Proof.
  intros Hne Hall. unfold Client.lines_of. rewrite Split_Join; [|done|].
  - destruct Hall as [|w ws [Hw _] _]; [done|]. by rewrite bool_decide_eq_false_2.
  - eapply Forall_impl; [exact Hall|]. by intros w [_ Hw].
Qed.

(** C7. A call for keys end to end over TCP, on one connection: however the
    network cuts the streams into reads, the server reads the request that
    the client wrote, the client reads the response that the server wrote,
    and the call returns without an error exactly the keys the store matched,
    in order. The conditions: the pool has a connection, the server's write
    succeeds and the keys of both sides are equal; the pattern is not empty,
    ends in no white space and fits a packet; the store matches some keys,
    none of them empty or with a newline; their text, joined with newlines,
    fits the 1419 bytes of a packet (the code cuts a longer one) and has no
    white space at its ends; and the datagrams of request and response are
    framed as one message each, which a stop symbol within them would break. *)
Theorem keys_call_returns_the_keys c s n k conn ca reads ns pat keys st n' :
  tcp_ready c k → tcp_write_ok n' = true → preSharedKey s = Client.preSharedKey c →
  (length ns ≤ 64)%nat → (length pat ≤ 1419)%nat → pat ≠ [] → TrimRightSpace pat = pat →
  Store.KeyMatch (TrimSpace ns) (TrimSpace pat) (store s, n) = (keys, (st, n')) →
  keys ≠ [] → Forall (λ w, w ≠ [] ∧ newline ∉ w) keys →
  let text := Join keys x0a in
  (length text ≤ 1419)%nat → TrimSpace text = text → TrimRightSpace text = text →
  let message data := datagram (digest := digest) CmdTCPOnlyKeys (Client.next_id c) ns data (preSharedKey s) in
  framed (message pat) → framed (message text) →
  concat reads = message pat ++ StopSymbol →
  concat (Client.tcp_reads k) = message text ++ StopSymbol →
  ∃ m rest s' c',
    ReadOneTcpMessage true conn ca reads = Ret (Some m, rest) ∧
    worker_step m (s, n) = Ret (tt, (s', S n')) ∧
    Client.KeyMatch ns pat (c, k) = Ret (tt, (c', S (S k))) ∧
    Client.tcp_sent c' = Client.tcp_sent c ++ [(concat reads, k)] ∧
    sent s' = sent s ++ [TCPBytes (concat (Client.tcp_reads k)) conn] ∧
    Client.results c' = Client.results c ++ [(Client.next_call c, Client.RList keys None)].
Proof.
  intros [Hsrv Hget Hw] Hw' Hkey Hns Hpat Hne Htp HK Hkne Hkeys text Htext Htt Htr message Hfp Hft Hreads Hresp.
  assert (Hid : length (Client.next_id c) = 4%nat) by apply Uint32ToBytes_length.
  assert (Htne : text ≠ []).
  { unfold text. destruct Hkeys as [|w ws [Hw0 _] _]; [done|]. destruct ws, w; done. }
  destruct (ReadOneTcpMessage_datagram (digest_length (digest := digest)) ca conn reads CmdTCPOnlyKeys
    (Client.next_id c) ns pat (preSharedKey s) [] Hid Hns Hpat Hne Htp eq_refl Hfp) as (rest & Er);
    [by rewrite app_nil_r|].
  destruct (Client.KeyMatch_response (digest := digest) CmdTCPOnlyKeys (Client.next_id c) ns text (preSharedKey s) []
    ns pat c k Hsrv Hget Hw Hid Hns Htext eq_refl Hft) as (c' & Ec & Hres & Hsent).
  { exact (datagram_trim (digest_length (digest := digest)) _ _ _ _ _ Hid Hns Htext Htne Htr). }
  { by rewrite app_nil_r. }
  eexists _, rest, _, c'. split; [exact Er|].
  split; [exact (worker_step_keys s n ca conn _ ns pat keys st n' Hid Hns Hpat HK)|].
  split; [exact Ec|]. rewrite Hreads, Hresp, Hw'. split; [by rewrite Hsent, <- Hkey|].
  split; [done|]. rewrite Hres, Htt. unfold text. by rewrite lines_of_Join.
Qed.
End System.

(** ** Witnesses

    The server of [ServerWitness] and a client whose timeout is 2000 seconds,
    longer than its clock runs. *)
Module SystemWitness.
Import Concrete ConcreteClock ServerWitness.

#[local] Existing Instance reliable.

#[local] Instance no_tcp : Client.TCPNet := {|
  Client.tcp_get_ok := λ _, false; Client.tcp_reads := λ _, []; Client.read_error := str "EOF" |}.

Definition server_addr : Addr := mkAddr (Some (mkIPv4 127 0 0 1)) 3509.

Definition client (key : bytes) : Client.Client :=
  Client.mkClient true (ServerPool.set_health [server_addr] [] (ServerPool.NewPool [server_addr])) []
    (WaitingMessage.mkCache ∅ false WaitingMessage.Second 2000 true 1%nat) 0 key false [] [] 0%nat [] [].

Lemma client_ready key : ready (client key) server_addr.
Proof.
  split; [done|done|apply lookup_empty|]. intros i j. cbn [Client.messagesWaiting client WaitingMessage.timeoutSecs].
  pose proof (clk_range i). pose proof (clk_range j). lia.
Qed.

Lemma count_call_returns_the_count_witness :
  ∃ c s n, round_trip (Client.Count (str "default") (str "a")) sender server_addr (client psk) server0 0
           = Ret (Some (c, s, n)) ∧
    Client.results c = [(0%nat, Client.RCount 0 None)].
Proof.
  destruct (count_call_returns_the_count (digest := empty_digest) [] (client psk) server0 0 sender server_addr
    (str "default") (str "a") (client_ready psk) eq_refl server0_rep ltac:(simpl; lia) ltac:(simpl; lia))
    as (c & s & n & E & Hr & _).
  exists c, s, n. split; [exact E|]. rewrite Hr. reflexivity.
Defined.

Lemma put_call_stores_the_entry_witness :
  ∃ c s n m, round_trip (Client.Put (str "default") (str "a")) sender server_addr (client psk) server0 0
             = Ret (Some (c, s, n)) ∧
    Client.results c = [(0%nat, Client.RErr None)] ∧
    Store.store_rep n [(str "default", str "a", i64 (clock m + 60))] (store s).
Proof.
  destruct (put_call_stores_the_entry (digest := empty_digest) [] (client psk) server0 0 sender server_addr
    (str "default") (str "a") (client_ready psk) eq_refl server0_rep ltac:(simpl; lia) ltac:(simpl; lia))
    as (c & s & n & m & _ & E & Hr & Hs).
  exists c, s, n, m. split; [exact E|]. split; [rewrite Hr; reflexivity | exact Hs].
Defined.

Lemma wrong_key_call_returns_the_error_witness :
  ∃ c s n, round_trip (Client.Count (str "default") (str "a")) sender server_addr
             (client (str "another-key")) server0 0 = Ret (Some (c, s, n)) ∧
    Client.results c
    = [(0%nat, Client.RCount 0 (Some (Client.ErrResponse (str "auth failed: packet hash invalid"))))].
Proof.
  destruct (wrong_key_call_returns_the_error (digest := empty_digest) (client (str "another-key")) server0 0
    sender server_addr (str "default") (str "a") (client_ready _) ltac:(simpl; lia) ltac:(simpl; lia)
    ltac:(discriminate) ltac:(simpl; lia) ltac:(simpl; lia)) as (c & s & n & E & Hr & _).
  exists c, s, n. split; [exact E|]. rewrite Hr. reflexivity.
Defined.

Definition peer : Addr := mkAddr (Some (mkIPv4 10 0 0 3)) 80.

Lemma put_reaches_every_peer_witness :
  ∃ b (sB : Server (gmap bytes) (gmap bytes)) nA nB mB, deliver b server_addr server0 nA = Ret ([], (sB, nB)) ∧
    Store.store_rep nB [(str "default", str "a", i64 (clock mB + 60))] (store sB).
Proof.
  destruct (put_reaches_every_peer (digest := empty_digest) [] [] server0 server0 0 sender server_addr peer id1
    (str "default") (str "a")) as (out & sA & nA & b & mA & sB & nB & mB & _ & _ & E & _ & _ & _ & Hr);
    [reflexivity|reflexivity|right; left|reflexivity|simpl; lia|simpl; lia|exact server0_rep|exact server0_rep|].
  exists b, sB, nA, nB, mB. split; [exact E | exact Hr].
Defined.

(** A store with two keys, and a connection that delivers their names in two
    reads. *)
Definition stocked : Server (gmap bytes) (gmap bytes) * nat :=
  let '(_, (st, n)) := Store.run [Store.OPut (str "default") (str "k1"); Store.OPut (str "default") (str "k2")]
                         (store server0, 0%nat) in (set_store st server0, n).

Definition keys_message (data : bytes) : bytes :=
  datagram (digest := empty_digest) CmdTCPOnlyKeys id1 (str "default") data psk.
Definition answer_bytes : bytes :=
  keys_message (Join [str "k1"; str "k2"] x0a) ++ StopSymbol.

#[local] Instance keys_connection : Client.TCPNet := {|
  Client.tcp_get_ok := λ _, true;
  Client.tcp_reads := λ _, [take 100 answer_bytes; drop 100 answer_bytes];
  Client.read_error := str "EOF" |}.

Definition tcp_client : Client.Client :=
  Client.mkClient true (ServerPool.NewPool [server_addr]) [server_addr]
    (WaitingMessage.mkCache ∅ false WaitingMessage.Second 2000 true 1%nat) 0 psk false [] [] 0%nat [] [].

Lemma keys_call_returns_the_keys_witness :
  ∃ c', Client.KeyMatch (TN := keys_connection) (str "default") (str "k") (tcp_client, 0%nat) = Ret (tt, (c', 2%nat)) ∧
    Client.results c' = [(0%nat, Client.RList [str "k1"; str "k2"] None)].
Proof.
  assert (HK : ∃ st n', Store.KeyMatch (TrimSpace (str "default")) (TrimSpace (str "k"))
                          (store stocked.1, stocked.2) = ([str "k1"; str "k2"], (st, n'))).
  { apply M_result. vm_compute. reflexivity. }
  destruct HK as (st & n' & HK).
  assert (Hkeys : Forall (λ w, w ≠ [] ∧ newline ∉ w) [str "k1"; str "k2"]).
  { constructor; [|constructor; [|constructor]].
    all: split; [discriminate|]; apply (bool_decide_unpack _); vm_compute; exact I. }
  destruct (keys_call_returns_the_keys (TN := keys_connection) (digest := empty_digest) tcp_client stocked.1 stocked.2 0%nat 0%nat sender
    [keys_message (str "k"); StopSymbol] (str "default") (str "k") _ st n'
    (Build_tcp_ready tcp_client 0 ltac:(done) eq_refl eq_refl) eq_refl ltac:(vm_compute; reflexivity)
    ltac:(simpl; lia) ltac:(simpl; lia) ltac:(done) ltac:(vm_compute; reflexivity) HK ltac:(done) Hkeys
    ltac:(simpl; lia) ltac:(vm_compute; reflexivity) ltac:(vm_compute; reflexivity)
    ltac:(vm_compute; reflexivity) ltac:(vm_compute; reflexivity) ltac:(vm_compute; reflexivity)
    ltac:(vm_compute; reflexivity)) as (m & rest & s' & c' & _ & _ & E & _ & _ & Hr).
  exists c'. split; [exact E|exact Hr].
Defined.
End SystemWitness.
